(** * workerpool: a model of the dispatcher, the workers and the pool façade

    The Go program is a set of goroutines that communicate over channels.
    Every goroutine is modelled as a program-counter machine: a local state
    (one constructor per blocking point or basic block of the source) and an
    [offer] saying what the goroutine does next (run local statements, call
    the user function, close a channel, or block in a [select]).  A global
    step function gives the semantics of channels (buffers, rendezvous on
    unbuffered channels, close, the [default] branch) and schedules one
    goroutine (or one rendezvous pair) at a time.  Executions carry the list
    of events they perform, so that ordering properties can be stated.

    The pool is used through [Submit], [SubmitWait], [Stop], [StopWait] and
    [Stopped]; [Pause] is not modelled.  User functions are opaque: they
    return an outcome or never return. *)

From stdpp Require Import base list option strings.
From Stdlib Require Import ZArith Lia.

Set Default Proof Using "Type".

(** ** Integers of the source *)

(** [atomic.Int64] arithmetic wraps around. *)
Definition wrap64 (z : Z) : Z := ((z + 2 ^ 63) mod 2 ^ 64 - 2 ^ 63)%Z.

(** The conversion [int32(n)] of an [int]. *)
Definition wrap32 (z : Z) : Z := ((z + 2 ^ 31) mod 2 ^ 32 - 2 ^ 31)%Z.

Definition int64_ok (z : Z) : Prop := (- 2 ^ 63 <= z < 2 ^ 63)%Z.

Arguments wrap64 : simpl never.
Arguments wrap32 : simpl never.

(** ** Data model *)

(** Errors.  [ErrTimeout] is the package variable; Go compares errors by
    identity, so a user error with the same text is a different value. *)
Inductive error :=
| ErrTimeout
| UserErr (msg : string).

(** The outcome of a task function: [None] is Go's [nil] error. *)
Definition outcome := option error.

(** A user function [func() error]: it returns an outcome after some time
    (the time is the scheduler's choice), or it never returns. *)
Inductive func :=
| Returns (e : outcome)
| Blocks.

(** Channels, named by the statement that makes them and by who made them.
    [k] is the number of the [NewTask] call (or of the nil-function [Submit]
    call), [w] the number of the worker. *)
Inductive chan :=
| taskQueue
| workerQueue
| stopSignal
| stoppedChan
| timerC                 (* timeout.C in dispatch *)
| ErrCh (k : nat)        (* make(chan error, 1) in NewTask *)
| doneCh (k : nat)       (* make(chan struct{}) in NewTask *)
| ctxDone (k : nat)      (* Done() of the context derived in NewTask *)
| userDone (u : nat)     (* Done() of a context made by the caller *)
| tasksCh (w : nat)      (* make(chan poolTask, 1) in worker *)
| errChW (w : nat)       (* make(chan error, 1) in worker *)
| nilFnCh (k : nat).     (* make(chan error) in Submit, fn == nil *)

Global Instance chan_eq_dec : EqDecision chan.
Proof. solve_decision. Defined.

(** Buffer capacity, from the [make] calls. *)
Definition cap (c : chan) : nat :=
  match c with
  | ErrCh _ | tasksCh _ | errChW _ | timerC => 1
  | _ => 0
  end.

(** [context.Context] values.  [Background().Done()] is the nil channel. *)
Inductive context :=
| Background
| UserCtx (u : nat)
| TimeoutCtx (parent : context) (k : nat).

Definition Done (c : context) : option chan :=
  match c with
  | Background => None
  | UserCtx u => Some (userDone u)
  | TimeoutCtx _ k => Some (ctxDone k)
  end.

(** [context.CancelFunc] of the context derived in the [k]-th [NewTask]. *)
Inductive cancelFunc := CancelCtx (k : nat).

(** [type poolTask struct].  Every field can be nil in Go. *)
Record poolTask := {
  task : option func;
  Err : option chan;
  done : option chan;
  ctx : option context;
  cancel : option cancelFunc;
}.

(** The zero value [poolTask{}]. *)
Definition zeroTask : poolTask :=
  {| task := None; Err := None; done := None; ctx := None; cancel := None |}.

(** Result of a call that may panic. *)
Inductive result (A : Type) :=
| Ok (a : A)
| Panicked.
Arguments Ok {A} a.
Arguments Panicked {A}.

(** [context.WithTimeout(parent, d)]: the standard library panics on a nil
    parent ("cannot create context from nil parent"). *)
Definition WithTimeout (parent : option context) (k : nat)
  : result (context * cancelFunc) :=
  match parent with
  | None => Panicked
  | Some p => Ok (TimeoutCtx p k, CancelCtx k)
  end.

(** [func NewTask(ctx, fn, timeout ...time.Duration) poolTask]; [k] numbers
    the call and names the channels it makes. *)
Definition NewTask (ctx : option context) (fn : option func)
    (timeout : list Z) (k : nat) : result poolTask :=
  match timeout with
  | d :: _ =>
      if (0 <? d)%Z then
        match WithTimeout ctx k with
        | Panicked => Panicked
        | Ok (ctx', cancel') =>
            Ok {| task := fn; Err := Some (ErrCh k); done := Some (doneCh k);
                  ctx := Some ctx'; cancel := Some cancel' |}
        end
      else
        Ok {| task := fn; Err := Some (ErrCh k); done := None;
              ctx := ctx; cancel := None |}
  | [] =>
      Ok {| task := fn; Err := Some (ErrCh k); done := None;
            ctx := ctx; cancel := None |}
  end.

Arguments NewTask : simpl never.

(** The kill pill [NewTask(nil, nil)]. *)
Definition killPill (k : nat) : poolTask :=
  {| task := None; Err := Some (ErrCh k); done := None;
     ctx := None; cancel := None |}.

(** The two mutexes of the pool: [p.stopLock], and the mutex inside
    [p.stopOnce] ([sync.Once] is a done flag and a mutex: [Do] returns at
    once when the flag is set, else it takes the mutex, runs the function
    if the flag is still not set, sets the flag and releases the mutex). *)
Inductive mutex := StopLock | OnceLock.

(** [type WorkerPool struct]: the fields that are not channels. *)
Record WorkerPool := {
  maxWorkers : Z;
  workerCount : Z;
  waitingQueue : list poolTask;   (* deque.Deque[poolTask] *)
  stopLock : bool;                (* p.stopLock is held *)
  onceLock : bool;                (* the mutex of p.stopOnce is held *)
  stopOnce : bool;                (* the done flag of p.stopOnce *)
  stopped : bool;
  waiting : Z;
  wait : bool;
}.

Definition locked (p : WorkerPool) (m : mutex) : bool :=
  match m with StopLock => stopLock p | OnceLock => onceLock p end.

(** Values carried by channels. *)
Inductive val :=
| VTask (t : poolTask)
| VErr (e : outcome)
| VUnit.

(** Channels are typed in Go: only the first case of each can arise, and a
    closed channel yields the zero value. *)
Definition as_task (v : option val) : poolTask :=
  match v with Some (VTask t) => t | _ => zeroTask end.

Definition as_err (v : option val) : outcome :=
  match v with Some (VErr e) => e | _ => None end.

Arguments as_task : simpl never.
Arguments as_err : simpl never.

(** ** Goroutines *)

(** Statements that do not block. *)
Inductive action :=
| PushBack (t : poolTask)        (* p.waitingQueue.PushBack(t) *)
| PopFront                       (* p.waitingQueue.PopFront() *)
| StoreWaiting                   (* atomic.StoreInt32(&p.waiting, int32(Len())) *)
| StoreWorkerCount (z : Z)       (* p.workerCount.Store(z) *)
| AddWorkerCount (d : Z)         (* p.workerCount.Add(d) *)
| WgAdd                          (* wg.Add(1) *)
| WgDone                         (* wg.Done() *)
| GoWorker (t : poolTask)        (* go worker(t, p.workerQueue, &wg) *)
| GoHelper (w : nat)             (* go func() { for execTask := range tasks ... }() *)
| Fresh                          (* a NewTask call takes the next task number *)
| FreshNil                       (* Submit with a nil function makes its channel *)
| CallCancel (f : cancelFunc)    (* task.cancel() *)
| TimerNew | TimerReset | TimerStop
| OnceDone                       (* stopOnce: the done flag is set *)
| SetStopped                     (* p.stopped = true, under stopLock *)
| SetWait (b : bool)             (* p.wait = wait *)
| Unlock (m : mutex).            (* m.Unlock() *)

(** One case of a [select]. *)
Inductive comm (L : Type) :=
| Send (c : option chan) (v : val) (k : L)
| Recv (c : option chan) (k : option val -> L).
Arguments Send {L} c v k.
Arguments Recv {L} c k.

(** What a goroutine does next.  A plain send or receive is a [Select] with
    one case and no default. *)
Inductive offer (L : Type) :=
| Do (acts : list action) (k : L)
| Select (cs : list (comm L)) (dflt : option L)
| Call (f : option func) (k : outcome -> L)
| Close (c : option chan) (k : L)
| WgWait (k : L)
| Lock (m : mutex) (k : L)
| Panic
| Exit.
Arguments Do {L} acts k.
Arguments Select {L} cs dflt.
Arguments Call {L} f k.
Arguments Close {L} c k.
Arguments WgWait {L} k.
Arguments Lock {L} m k.
Arguments Panic {L}.
Arguments Exit {L}.

Definition comm_map {L M} (f : L -> M) (c : comm L) : comm M :=
  match c with
  | Send c v k => Send c v (f k)
  | Recv c k => Recv c (fun v => f (k v))
  end.

Definition offer_map {L M} (f : L -> M) (o : offer L) : offer M :=
  match o with
  | Do acts k => Do acts (f k)
  | Select cs d => Select (map (comm_map f) cs) (option_map f d)
  | Call fn k => Call fn (fun e => f (k e))
  | Close c k => Close c (f k)
  | WgWait k => WgWait (f k)
  | Lock m k => Lock m (f k)
  | Panic => Panic
  | Exit => Exit
  end.

(** *** The dispatcher: [func (p *WorkerPool) dispatch()] *)

Inductive dpc :=
| DStart                      (* timer := NewTimer; workerCount.Store(0) *)
| DLoop                       (* if p.waitingQueue.Len() != 0 *)
| DProcess                    (* processWaitingQueue: the select *)
| DPwqPush (t : poolTask)     (*   PushBack(task); StoreInt32 *)
| DPwqPop                     (*   PopFront(); StoreInt32 *)
| DSelect                     (* select: <-p.taskQueue | <-timeout.C *)
| DGotTask (t : poolTask)     (* select: p.workerQueue <- task | default *)
| DNoWorker (t : poolTask)    (* default: wg.Add(1), or PushBack; StoreInt32 *)
| DSpawn (t : poolTask)       (*   go worker(task, p.workerQueue, &wg) *)
| DCount                      (*   p.workerCount.Add(1) *)
| DIdleFalse                  (* idle = false *)
| DTick                       (* if idle && workerCount > 0 *)
| DKillIdle                   (* killIdleWorker: NewTask(nil, nil) *)
| DKillSelect (pill : poolTask) (* select: p.workerQueue <- pill | default *)
| DKilled                     (* p.workerCount.Add(-1) *)
| DIdleTrue                   (* idle = true; timeout.Reset *)
| DShutdown                   (* after the loop: if p.wait *)
| DRunQueued                  (* runQueuedTasks: for Len() != 0; PopFront() *)
| DRunSend (t : poolTask)     (*   p.workerQueue <- t *)
| DRunStore                   (*   StoreInt32 *)
| DStopWorkers                (* for workerCount > 0; NewTask(nil, nil) *)
| DStopSend (pill : poolTask) (*   p.workerQueue <- pill *)
| DStopDec                    (*   p.workerCount.Add(-1) *)
| DWgWait                     (* wg.Wait() *)
| DTimerStop                  (* timeout.Stop() *)
| DCloseStopped               (* deferred close(p.stoppedChan) *)
| DExit.

(** The dispatcher's locals: where it is, and [idle]. *)
Record dispatcher := Dsp { dat : dpc; idle : bool }.

(** [NewTask(nil, nil)] then continue with the pill. *)
Definition with_pill {L} (fresh : nat) (k : poolTask -> L) : offer L :=
  match NewTask None None [] fresh with
  | Ok pill => Do [Fresh] (k pill)
  | Panicked => Panic
  end.

Definition dispatch (p : WorkerPool) (fresh : nat) (d : dispatcher)
  : offer dispatcher :=
  let goto pc := Dsp pc (idle d) in
  match dat d with
  | DStart => Do [TimerNew; StoreWorkerCount 0] (Dsp DLoop false)
  | DLoop =>
      Do [] (goto (match waitingQueue p with [] => DSelect | _ => DProcess end))
  | DProcess =>
      match waitingQueue p with
      | [] => Panic                                     (* Front() of an empty deque *)
      | front :: _ =>
          Select
            [ Recv (Some taskQueue)
                (fun v => goto (match v with
                                | None => DShutdown     (* !ok: return false *)
                                | Some _ => DPwqPush (as_task v)
                                end));
              Send (Some workerQueue) (VTask front) (goto DPwqPop) ]
            None
      end
  | DPwqPush t => Do [PushBack t; StoreWaiting] (goto DLoop)
  | DPwqPop =>
      match waitingQueue p with
      | [] => Panic
      | _ => Do [PopFront; StoreWaiting] (goto DLoop)
      end
  | DSelect =>
      Select
        [ Recv (Some taskQueue)
            (fun v => goto (match v with
                            | None => DShutdown         (* !ok: break Loop *)
                            | Some _ => DGotTask (as_task v)
                            end));
          Recv (Some timerC) (fun _ => goto DTick) ]
        None
  | DGotTask t =>
      Select [ Send (Some workerQueue) (VTask t) (goto DIdleFalse) ]
             (Some (goto (DNoWorker t)))
  | DNoWorker t =>
      if (workerCount p <? maxWorkers p)%Z
      then Do [WgAdd] (goto (DSpawn t))
      else Do [PushBack t; StoreWaiting] (goto DIdleFalse)
  | DSpawn t => Do [GoWorker t] (goto DCount)
  | DCount => Do [AddWorkerCount 1] (goto DIdleFalse)
  | DIdleFalse => Do [] (Dsp DLoop false)
  | DTick =>
      Do [] (goto (if idle d && (0 <? workerCount p)%Z then DKillIdle else DIdleTrue))
  | DKillIdle => with_pill fresh (fun pill => goto (DKillSelect pill))
  | DKillSelect pill =>
      Select [ Send (Some workerQueue) (VTask pill) (goto DKilled) ]
             (Some (goto DIdleTrue))
  | DKilled => Do [AddWorkerCount (-1)] (goto DIdleTrue)
  | DIdleTrue => Do [TimerReset] (Dsp DLoop true)
  | DShutdown => Do [] (goto (if wait p then DRunQueued else DStopWorkers))
  | DRunQueued =>
      match waitingQueue p with
      | [] => Do [] (goto DStopWorkers)
      | front :: _ => Do [PopFront] (goto (DRunSend front))
      end
  | DRunSend t => Select [ Send (Some workerQueue) (VTask t) (goto DRunStore) ] None
  | DRunStore => Do [StoreWaiting] (goto DRunQueued)
  | DStopWorkers =>
      if (0 <? workerCount p)%Z
      then with_pill fresh (fun pill => goto (DStopSend pill))
      else Do [] (goto DWgWait)
  | DStopSend pill =>
      Select [ Send (Some workerQueue) (VTask pill) (goto DStopDec) ] None
  | DStopDec => Do [AddWorkerCount (-1)] (goto DStopWorkers)
  | DWgWait => WgWait (goto DTimerStop)
  | DTimerStop => Do [TimerStop] (goto DCloseStopped)
  | DCloseStopped => Close (Some stoppedChan) (goto DExit)
  | DExit => Exit
  end.

(** *** The worker: [func worker(task, workerQueue, wg)] *)

Inductive wpc :=
| WStart (t : poolTask)       (* errCh, tasks := make; defer close(tasks); go func *)
| WLoop (t : poolTask)        (* for task.task != nil { if task.cancel == nil *)
| WRun (t : poolTask)         (* task.task() *)
| WPublish (t : poolTask) (e : outcome)   (* task.Err <- (its outcome) *)
| WNext                       (* task = <-workerQueue *)
| WHandOver (t : poolTask)    (* tasks <- task *)
| WRace (t : poolTask)        (* select: <-task.done | <-task.ctx.Done() *)
| WRecvErr (t : poolTask)     (* err = <-errCh *)
| WPublishT (t : poolTask) (e : outcome)  (* task.Err <- err *)
| WCancel (t : poolTask)      (* task.cancel() *)
| WDone                       (* wg.Done() *)
| WCloseTasks                 (* deferred close(tasks) *)
| WExit.

Definition worker (w : nat) (pc : wpc) : offer wpc :=
  match pc with
  | WStart t => Do [GoHelper w] (WLoop t)
  | WLoop t =>
      Do [] (match task t with
             | None => WDone
             | Some _ =>
                 match cancel t with
                 | None => WRun t
                 | Some _ => WHandOver t
                 end
             end)
  | WRun t => Call (task t) (fun e => WPublish t e)
  | WPublish t e => Select [ Send (Err t) (VErr e) WNext ] None
  | WNext => Select [ Recv (Some workerQueue) (fun v => WLoop (as_task v)) ] None
  | WHandOver t => Select [ Send (Some (tasksCh w)) (VTask t) (WRace t) ] None
  | WRace t =>
      match ctx t with
      | None => Panic                                   (* nil.Done() *)
      | Some c =>
          Select
            [ Recv (done t) (fun _ => WRecvErr t);
              Recv (Done c) (fun _ => WPublishT t (Some ErrTimeout)) ]
            None
      end
  | WRecvErr t =>
      Select [ Recv (Some (errChW w)) (fun v => WPublishT t (as_err v)) ] None
  | WPublishT t e => Select [ Send (Err t) (VErr e) (WCancel t) ] None
  | WCancel t =>
      match cancel t with
      | None => Panic
      | Some f => Do [CallCancel f] WNext
      end
  | WDone => Do [WgDone] WCloseTasks
  | WCloseTasks => Close (Some (tasksCh w)) WExit
  | WExit => Exit
  end.

(** *** The worker's helper: [go func() { for execTask := range tasks ... }] *)

Inductive hpc :=
| HRange                      (* for execTask := range tasks *)
| HCall (t : poolTask)        (* err := execTask.task() *)
| HPublish (t : poolTask) (e : outcome)
                              (* select: <-ctx.Done() | Err <- err | default *)
| HCloseDone (t : poolTask)   (* close(execTask.done) *)
| HExit.

Definition helper (w : nat) (pc : hpc) : offer hpc :=
  match pc with
  | HRange =>
      Select
        [ Recv (Some (tasksCh w))
            (fun v => match v with
                      | None => HExit
                      | Some _ => HCall (as_task v)
                      end) ]
        None
  | HCall t => Call (task t) (fun e => HPublish t e)
  | HPublish t e =>
      match ctx t with
      | None => Panic
      | Some c =>
          Select
            [ Recv (Done c) (fun _ => HCloseDone t);
              Send (Err t) (VErr e) (HCloseDone t) ]
            (Some (HCloseDone t))
      end
  | HCloseDone t => Close (done t) HRange
  | HExit => Exit
  end.

(** *** Callers of the façade: [Submit], [SubmitWait], [Stop], [StopWait],
    [Stopped] *)

Inductive cpc :=
| CSubmit (c : option context) (fn : option func) (timeout : Z)
| CSubmitSend (t : poolTask)          (* p.taskQueue <- t; return t.Err *)
| CSubmitClose (ch : chan)            (* close(errCh); return errCh *)
| CHolding (ch : option chan) (got : list (option val))
                                      (* Submit returned ch; the caller reads it *)
| CSubmitWait (c : option context) (fn : option func) (timeout : Z)
| CWaitSend (t : poolTask)            (* p.taskQueue <- t *)
| CWaitRecv (t : poolTask)            (* return <-t.Err *)
| CReturned (e : outcome)             (* SubmitWait returned e *)
| CStop (w : bool)                    (* p.stop(w): stopOnce.Do reads done *)
| CStop1 (w : bool)                   (*   close(p.stopSignal) *)
| CStop2 (w : bool)                   (*   p.stopped = true *)
| CStop3                              (*   close(p.taskQueue) *)
| CStopAwait                          (* <-p.stoppedChan *)
| CStopped
| COnceLock (w : bool)                (* stopOnce.Do: takes the mutex *)
| COnceIn (w : bool)                  (* stopOnce.Do: reads done again *)
| CStopLock (w : bool)                (*   p.stopLock.Lock() *)
| CStopUnlock (w : bool)              (*   p.stopLock.Unlock() *)
| CStopWait (w : bool)                (*   p.wait = wait *)
| COnceStore                          (* stopOnce.Do: sets done (deferred) *)
| COnceUnlock                         (* stopOnce.Do: releases the mutex (deferred) *)
| CIsStopped                          (* p.Stopped(): p.stopLock.Lock() *)
| CIsStoppedRead                      (*   return p.stopped; deferred Unlock() *)
| CIsStoppedRet (b : bool).           (* Stopped returned b *)

Definition client (p : WorkerPool) (fresh nils : nat) (pc : cpc) : offer cpc :=
  match pc with
  | CSubmit c fn timeout =>
      match fn with
      | Some _ =>
          match NewTask c fn [timeout] fresh with
          | Ok t => Do [Fresh] (CSubmitSend t)
          | Panicked => Panic
          end
      | None => Do [FreshNil] (CSubmitClose (nilFnCh nils))
      end
  | CSubmitSend t =>
      Select [ Send (Some taskQueue) (VTask t) (CHolding (Err t) []) ] None
  | CSubmitClose ch => Close (Some ch) (CHolding (Some ch) [])
  | CHolding ch got =>
      Select [ Recv ch (fun v => CHolding ch (got ++ [v])) ] None
  | CSubmitWait c fn timeout =>
      match fn with
      | None => Do [] (CReturned None)
      | Some _ =>
          match NewTask c fn [timeout] fresh with
          | Ok t => Do [Fresh] (CWaitSend t)
          | Panicked => Panic
          end
      end
  | CWaitSend t => Select [ Send (Some taskQueue) (VTask t) (CWaitRecv t) ] None
  | CWaitRecv t => Select [ Recv (Err t) (fun v => CReturned (as_err v)) ] None
  | CReturned _ => Exit
  | CStop w => Do [] (if stopOnce p then CStopAwait else COnceLock w)
  | COnceLock w => Lock OnceLock (COnceIn w)
  | COnceIn w => Do [] (if stopOnce p then COnceUnlock else CStop1 w)
  | CStop1 w => Close (Some stopSignal) (CStopLock w)
  | CStopLock w => Lock StopLock (CStop2 w)
  | CStop2 w => Do [SetStopped] (CStopUnlock w)
  | CStopUnlock w => Do [Unlock StopLock] (CStopWait w)
  | CStopWait w => Do [SetWait w] CStop3
  | CStop3 => Close (Some taskQueue) COnceStore
  | COnceStore => Do [OnceDone] COnceUnlock
  | COnceUnlock => Do [Unlock OnceLock] CStopAwait
  | CStopAwait => Select [ Recv (Some stoppedChan) (fun _ => CStopped) ] None
  | CStopped => Exit
  | CIsStopped => Lock StopLock CIsStoppedRead
  | CIsStoppedRead => Do [Unlock StopLock] (CIsStoppedRet (stopped p))
  | CIsStoppedRet _ => Exit
  end.

(** ** The running program *)

Inductive goroutine :=
| GDispatch (d : dispatcher)
| GWorker (w : nat) (pc : wpc)
| GHelper (w : nat) (pc : hpc)
| GClient (pc : cpc).

Record chanState := { buf : list val; closed : bool }.

Record state := {
  chans : chan -> chanState;
  pool : WorkerPool;
  wg : Z;               (* the dispatcher's sync.WaitGroup *)
  timer : bool;         (* the idle timer is armed *)
  newTasks : nat;       (* number of NewTask calls so far *)
  nilChans : nat;       (* number of channels made by nil-function Submits *)
  procs : list goroutine;
  crashed : bool;       (* a goroutine panicked *)
}.

Definition offer_at (s : state) (g : goroutine) : offer goroutine :=
  match g with
  | GDispatch d => offer_map GDispatch (dispatch (pool s) (newTasks s) d)
  | GWorker w pc => offer_map (GWorker w) (worker w pc)
  | GHelper w pc => offer_map (GHelper w) (helper w pc)
  | GClient pc => offer_map GClient (client (pool s) (newTasks s) (nilChans s) pc)
  end.

(** Field updates. *)
Definition set_chans (f : chan -> chanState) (s : state) : state :=
  {| chans := f; pool := pool s; wg := wg s; timer := timer s;
     newTasks := newTasks s; nilChans := nilChans s; procs := procs s;
     crashed := crashed s |}.
Definition set_pool (p : WorkerPool) (s : state) : state :=
  {| chans := chans s; pool := p; wg := wg s; timer := timer s;
     newTasks := newTasks s; nilChans := nilChans s; procs := procs s;
     crashed := crashed s |}.
Definition set_wg (z : Z) (s : state) : state :=
  {| chans := chans s; pool := pool s; wg := z; timer := timer s;
     newTasks := newTasks s; nilChans := nilChans s; procs := procs s;
     crashed := crashed s |}.
Definition set_timer (b : bool) (s : state) : state :=
  {| chans := chans s; pool := pool s; wg := wg s; timer := b;
     newTasks := newTasks s; nilChans := nilChans s; procs := procs s;
     crashed := crashed s |}.
Definition set_newTasks (n : nat) (s : state) : state :=
  {| chans := chans s; pool := pool s; wg := wg s; timer := timer s;
     newTasks := n; nilChans := nilChans s; procs := procs s;
     crashed := crashed s |}.
Definition set_nilChans (n : nat) (s : state) : state :=
  {| chans := chans s; pool := pool s; wg := wg s; timer := timer s;
     newTasks := newTasks s; nilChans := n; procs := procs s;
     crashed := crashed s |}.
Definition set_procs (ps : list goroutine) (s : state) : state :=
  {| chans := chans s; pool := pool s; wg := wg s; timer := timer s;
     newTasks := newTasks s; nilChans := nilChans s; procs := ps;
     crashed := crashed s |}.
Definition crash (s : state) : state :=
  {| chans := chans s; pool := pool s; wg := wg s; timer := timer s;
     newTasks := newTasks s; nilChans := nilChans s; procs := procs s;
     crashed := true |}.

Definition set_proc (i : nat) (g : goroutine) (s : state) : state :=
  set_procs (<[i := g]> (procs s)) s.

Definition set_chan (c : chan) (st : chanState) (s : state) : state :=
  set_chans (fun c' => if decide (c' = c) then st else chans s c') s.

Definition close_chan (c : chan) (s : state) : state :=
  set_chan c {| buf := buf (chans s c); closed := true |} s.

Definition set_buf (c : chan) (b : list val) (s : state) : state :=
  set_chan c {| buf := b; closed := closed (chans s c) |} s.

Definition with_queue (q : list poolTask) (p : WorkerPool) : WorkerPool :=
  {| maxWorkers := maxWorkers p; workerCount := workerCount p;
     waitingQueue := q; stopLock := stopLock p; onceLock := onceLock p;
     stopOnce := stopOnce p; stopped := stopped p;
     waiting := waiting p; wait := wait p |}.
Definition with_waiting (z : Z) (p : WorkerPool) : WorkerPool :=
  {| maxWorkers := maxWorkers p; workerCount := workerCount p;
     waitingQueue := waitingQueue p; stopLock := stopLock p;
     onceLock := onceLock p; stopOnce := stopOnce p;
     stopped := stopped p; waiting := z; wait := wait p |}.
Definition with_workerCount (z : Z) (p : WorkerPool) : WorkerPool :=
  {| maxWorkers := maxWorkers p; workerCount := z;
     waitingQueue := waitingQueue p; stopLock := stopLock p;
     onceLock := onceLock p; stopOnce := stopOnce p;
     stopped := stopped p; waiting := waiting p; wait := wait p |}.
Definition with_stopOnce (b : bool) (p : WorkerPool) : WorkerPool :=
  {| maxWorkers := maxWorkers p; workerCount := workerCount p;
     waitingQueue := waitingQueue p; stopLock := stopLock p;
     onceLock := onceLock p; stopOnce := b; stopped := stopped p;
     waiting := waiting p; wait := wait p |}.
Definition with_stopped (b : bool) (p : WorkerPool) : WorkerPool :=
  {| maxWorkers := maxWorkers p; workerCount := workerCount p;
     waitingQueue := waitingQueue p; stopLock := stopLock p;
     onceLock := onceLock p; stopOnce := stopOnce p; stopped := b;
     waiting := waiting p; wait := wait p |}.
Definition with_wait (b : bool) (p : WorkerPool) : WorkerPool :=
  {| maxWorkers := maxWorkers p; workerCount := workerCount p;
     waitingQueue := waitingQueue p; stopLock := stopLock p;
     onceLock := onceLock p; stopOnce := stopOnce p;
     stopped := stopped p; waiting := waiting p; wait := b |}.
Definition with_lock (m : mutex) (b : bool) (p : WorkerPool) : WorkerPool :=
  {| maxWorkers := maxWorkers p; workerCount := workerCount p;
     waitingQueue := waitingQueue p;
     stopLock := match m with StopLock => b | OnceLock => stopLock p end;
     onceLock := match m with OnceLock => b | StopLock => onceLock p end;
     stopOnce := stopOnce p;
     stopped := stopped p; waiting := waiting p; wait := wait p |}.

(** [m.Lock()] when it succeeds. *)
Definition lock_mutex (m : mutex) (s : state) : state :=
  set_pool (with_lock m true (pool s)) s.

(** The statements. *)
Definition run_action (a : action) (s : state) : state :=
  let p := pool s in
  match a with
  | PushBack t => set_pool (with_queue (waitingQueue p ++ [t]) p) s
  | PopFront => set_pool (with_queue (tail (waitingQueue p)) p) s
  | StoreWaiting =>
      set_pool (with_waiting (wrap32 (Z.of_nat (length (waitingQueue p)))) p) s
  | StoreWorkerCount z => set_pool (with_workerCount z p) s
  | AddWorkerCount d => set_pool (with_workerCount (wrap64 (workerCount p + d)) p) s
  | WgAdd => set_wg (wg s + 1) s
  | WgDone => set_wg (wg s - 1) s
  | GoWorker t => set_procs (procs s ++ [GWorker (length (procs s)) (WStart t)]) s
  | GoHelper w => set_procs (procs s ++ [GHelper w HRange]) s
  | Fresh => set_newTasks (S (newTasks s)) s
  | FreshNil => set_nilChans (S (nilChans s)) s
  | CallCancel (CancelCtx k) => close_chan (ctxDone k) s
  | TimerNew | TimerReset => set_timer true s
  | TimerStop => set_timer false s
  | OnceDone => set_pool (with_stopOnce true p) s
  | SetStopped => set_pool (with_stopped true p) s
  | SetWait b => set_pool (with_wait b p) s
  | Unlock m => set_pool (with_lock m false p) s
  end.

Definition run_actions (acts : list action) (s : state) : state :=
  fold_left (fun s a => run_action a s) acts s.

(** *** Channel semantics *)

(** Scheduler choices. *)
Inductive move :=
| Run (i : nat)             (* goroutine i runs statements, returns from the
                               user function, closes, passes wg.Wait, takes a
                               mutex, panics *)
| Comm (i n : nat)          (* case n of i's select proceeds on a buffer or
                               on a closed channel *)
| Sync (i n j m : nat)      (* rendezvous: i sends (case n), j receives (case m) *)
| Default (i : nat)         (* i's select takes its default branch *)
| Expire (k : nat)          (* the deadline of the context of task k passes *)
| Tick.                     (* the idle timer fires *)

(** What a step does; [g] is the goroutine as it was before the step. *)
Inductive event :=
| EDo (i : nat) (g : goroutine) (acts : list action)
| ECall (i : nat) (g : goroutine) (e : outcome)
| EClose (i : nat) (g : goroutine) (c : chan)
| EWait (i : nat) (g : goroutine)
| ELock (i : nat) (g : goroutine) (m : mutex)
| EPanic (i : nat) (g : goroutine)
| ESend (i : nat) (g : goroutine) (c : chan) (v : val)
| ERecv (i : nat) (g : goroutine) (c : chan) (v : option val)
| ESync (i : nat) (g : goroutine) (j : nat) (g' : goroutine) (c : chan) (v : val)
| EDefault (i : nat) (g : goroutine)
| EExpire (k : nat)
| ETick.

Definition is_recv_on {L} (c : chan) (cm : comm L) : bool :=
  match cm with
  | Recv (Some c') _ => bool_decide (c' = c)
  | _ => false
  end.

Definition is_send_on {L} (c : chan) (cm : comm L) : bool :=
  match cm with
  | Send (Some c') _ _ => bool_decide (c' = c)
  | _ => false
  end.

(** The goroutine is blocked in a select without default that has a case
    satisfying [test]. *)
Definition parked (s : state) (test : comm goroutine -> bool) (g : goroutine)
  : bool :=
  match offer_at s g with
  | Select cs None => existsb test cs
  | _ => false
  end.

(** Some goroutine other than [i] is parked on such a case. *)
Fixpoint some_parked (s : state) (test : comm goroutine -> bool)
    (i j : nat) (ps : list goroutine) : bool :=
  match ps with
  | [] => false
  | g :: ps' =>
      (negb (j =? i) && parked s test g) || some_parked s test i (S j) ps'
  end.

(** Case [cm] of goroutine [i]'s select can proceed. *)
Definition ready (s : state) (i : nat) (cm : comm goroutine) : bool :=
  match cm with
  | Send (Some c) _ _ =>
      closed (chans s c)
      || (length (buf (chans s c)) <? cap c)
      || some_parked s (is_recv_on c) i 0 (procs s)
  | Recv (Some c) _ =>
      negb (bool_decide (buf (chans s c) = []))
      || closed (chans s c)
      || some_parked s (is_send_on c) i 0 (procs s)
  | Send None _ _ | Recv None _ => false        (* nil channel *)
  end.

Definition has_default (o : offer goroutine) : bool :=
  match o with Select _ (Some _) => true | _ => false end.

Definition step_run (s : state) (i : nat) (g : goroutine)
  : option (event * state) :=
  match offer_at s g with
  | Do acts k => Some (EDo i g acts, run_actions acts (set_proc i k s))
  | Call (Some (Returns e)) k => Some (ECall i g e, set_proc i (k e) s)
  | Call (Some Blocks) _ => None
  | Call None _ => Some (EPanic i g, crash s)           (* call of a nil func *)
  | Close (Some c) k =>
      if closed (chans s c) then Some (EPanic i g, crash s)
      else Some (EClose i g c, set_proc i k (close_chan c s))
  | Close None _ => Some (EPanic i g, crash s)          (* close of nil channel *)
  | WgWait k =>
      if (wg s =? 0)%Z then Some (EWait i g, set_proc i k s) else None
  | Lock m k =>
      if locked (pool s) m then None
      else Some (ELock i g m, set_proc i k (lock_mutex m s))
  | Panic => Some (EPanic i g, crash s)
  | Select _ _ | Exit => None
  end.

Definition step_comm (s : state) (i : nat) (g : goroutine) (cm : comm goroutine)
  : option (event * state) :=
  match cm with
  | Send (Some c) v k =>
      if closed (chans s c) then Some (EPanic i g, crash s)
      else if length (buf (chans s c)) <? cap c
      then Some (ESend i g c v, set_proc i k (set_buf c (buf (chans s c) ++ [v]) s))
      else None
  | Recv (Some c) k =>
      match buf (chans s c) with
      | v :: rest => Some (ERecv i g c (Some v), set_proc i (k (Some v)) (set_buf c rest s))
      | [] =>
          if closed (chans s c)
          then Some (ERecv i g c None, set_proc i (k None) s)
          else None
      end
  | Send None _ _ | Recv None _ => None
  end.

Definition step_sync (s : state) (i : nat) (g : goroutine) (cs : comm goroutine)
    (j : nat) (g' : goroutine) (cr : comm goroutine)
  : option (event * state) :=
  match cs, cr with
  | Send (Some c) v k, Recv (Some c') k' =>
      if bool_decide (c = c') && negb (i =? j) && (cap c =? 0)
         && negb (closed (chans s c))
         && negb (has_default (offer_at s g) && has_default (offer_at s g'))
      then Some (ESync i g j g' c v, set_proc j (k' (Some v)) (set_proc i k s))
      else None
  | _, _ => None
  end.

Definition select_cases (o : offer goroutine) : list (comm goroutine) :=
  match o with Select cs _ => cs | _ => [] end.

Definition step (s : state) (m : move) : option (event * state) :=
  if crashed s then None else
  match m with
  | Run i => g ← procs s !! i; step_run s i g
  | Comm i n =>
      g ← procs s !! i;
      cm ← select_cases (offer_at s g) !! n;
      step_comm s i g cm
  | Sync i n j m =>
      g ← procs s !! i;
      cs ← select_cases (offer_at s g) !! n;
      g' ← procs s !! j;
      cr ← select_cases (offer_at s g') !! m;
      step_sync s i g cs j g' cr
  | Default i =>
      g ← procs s !! i;
      match offer_at s g with
      | Select cs (Some k) =>
          if forallb (fun cm => negb (ready s i cm)) cs
          then Some (EDefault i g, set_proc i k s)
          else None
      | _ => None
      end
  | Expire k =>
      if (k <? newTasks s) && negb (closed (chans s (ctxDone k)))
      then Some (EExpire k, close_chan (ctxDone k) s)
      else None
  | Tick =>
      if timer s && bool_decide (buf (chans s timerC) = [])
      then Some (ETick, set_timer false (set_buf timerC [VUnit] s))
      else None
  end.

(** Executions, with the events in the order they happen. *)
Inductive exec : state -> list event -> state -> Prop :=
| exec_nil s : exec s [] s
| exec_cons s m e s' tr s'' :
    step s m = Some (e, s') -> exec s' tr s'' -> exec s (e :: tr) s''.

(** Running a schedule. *)
Fixpoint run (ms : list move) (s : state) : option (list event * state) :=
  match ms with
  | [] => Some ([], s)
  | m :: ms' =>
      match step s m with
      | Some (e, s') =>
          match run ms' s' with
          | Some (tr, s'') => Some (e :: tr, s'')
          | None => None
          end
      | None => None
      end
  end.

(** [New(maxWorkers)] and the callers' goroutines. *)
Definition New (maxWorkers : Z) : WorkerPool :=
  {| maxWorkers := if (maxWorkers <? 1)%Z then 1%Z else maxWorkers;
     workerCount := 0; waitingQueue := [];
     stopLock := false; onceLock := false; stopOnce := false;
     stopped := false; waiting := 0; wait := false |}.

Definition init (maxWorkers : Z) (callers : list cpc) : state :=
  {| chans := fun _ => {| buf := []; closed := false |};
     pool := New maxWorkers;
     wg := 0; timer := false; newTasks := 0; nilChans := 0;
     procs := GDispatch (Dsp DStart false) :: map GClient callers;
     crashed := false |}.

Definition reachable (s0 s : state) : Prop := exists tr, exec s0 tr s.

(** ** The step function as rules *)

Inductive stepR (s : state) : event -> state -> Prop :=
| R_do i g acts k :
    procs s !! i = Some g -> offer_at s g = Do acts k ->
    stepR s (EDo i g acts) (run_actions acts (set_proc i k s))
| R_call i g e k :
    procs s !! i = Some g -> offer_at s g = Call (Some (Returns e)) k ->
    stepR s (ECall i g e) (set_proc i (k e) s)
| R_close i g c k :
    procs s !! i = Some g -> offer_at s g = Close (Some c) k ->
    closed (chans s c) = false ->
    stepR s (EClose i g c) (set_proc i k (close_chan c s))
| R_wait i g k :
    procs s !! i = Some g -> offer_at s g = WgWait k -> wg s = 0%Z ->
    stepR s (EWait i g) (set_proc i k s)
| R_lock i g m k :
    procs s !! i = Some g -> offer_at s g = Lock m k ->
    locked (pool s) m = false ->
    stepR s (ELock i g m) (set_proc i k (lock_mutex m s))
| R_panic i g :
    procs s !! i = Some g ->
    stepR s (EPanic i g) (crash s)
| R_send i g cs d n c v k :
    procs s !! i = Some g -> offer_at s g = Select cs d ->
    cs !! n = Some (Send (Some c) v k) ->
    closed (chans s c) = false -> length (buf (chans s c)) < cap c ->
    stepR s (ESend i g c v)
      (set_proc i k (set_buf c (buf (chans s c) ++ [v]) s))
| R_recv i g cs d n c k v rest :
    procs s !! i = Some g -> offer_at s g = Select cs d ->
    cs !! n = Some (Recv (Some c) k) ->
    buf (chans s c) = v :: rest ->
    stepR s (ERecv i g c (Some v)) (set_proc i (k (Some v)) (set_buf c rest s))
| R_recv_closed i g cs d n c k :
    procs s !! i = Some g -> offer_at s g = Select cs d ->
    cs !! n = Some (Recv (Some c) k) ->
    buf (chans s c) = [] -> closed (chans s c) = true ->
    stepR s (ERecv i g c None) (set_proc i (k None) s)
| R_sync i g cs d n c v k j g' cs' d' m k' :
    procs s !! i = Some g -> offer_at s g = Select cs d ->
    cs !! n = Some (Send (Some c) v k) ->
    procs s !! j = Some g' -> offer_at s g' = Select cs' d' ->
    cs' !! m = Some (Recv (Some c) k') ->
    i <> j -> cap c = 0 -> closed (chans s c) = false ->
    (d = None \/ d' = None) ->
    stepR s (ESync i g j g' c v) (set_proc j (k' (Some v)) (set_proc i k s))
| R_default i g cs k :
    procs s !! i = Some g -> offer_at s g = Select cs (Some k) ->
    forallb (fun cm => negb (ready s i cm)) cs = true ->
    stepR s (EDefault i g) (set_proc i k s)
| R_expire k :
    k < newTasks s -> closed (chans s (ctxDone k)) = false ->
    stepR s (EExpire k) (close_chan (ctxDone k) s)
| R_tick :
    timer s = true -> buf (chans s timerC) = [] ->
    stepR s ETick (set_timer false (set_buf timerC [VUnit] s)).


(** ** Vocabulary for the properties *)

(** The goroutines an event belongs to, as they were before the step. *)
Definition actors (e : event) : list (nat * goroutine) :=
  match e with
  | EDo i g _ | ECall i g _ | EClose i g _ | EWait i g | ELock i g _
  | EPanic i g | ESend i g _ _ | ERecv i g _ _ | EDefault i g => [(i, g)]
  | ESync i g j g' _ _ => [(i, g); (j, g')]
  | EExpire _ | ETick => []
  end.

(** The local states a goroutine can move to from an offer. *)
Definition comm_conts {L} (cm : comm L) (l : L) : Prop :=
  match cm with
  | Send _ _ k => l = k
  | Recv _ k => exists v, l = k v
  end.

Definition offer_conts {L} (o : offer L) (l : L) : Prop :=
  match o with
  | Do _ k | Close _ k | WgWait k | Lock _ k => l = k
  | Select cs d => (exists cm, cm ∈ cs /\ comm_conts cm l) \/ d = Some l
  | Call _ k => exists e, l = k e
  | Panic | Exit => False
  end.

Definition is_dispatcher (g : goroutine) : bool :=
  match g with GDispatch _ => true | _ => false end.

Definition same_kind (g g' : goroutine) : Prop :=
  match g, g' with
  | GDispatch _, GDispatch _ => True
  | GWorker w _, GWorker w' _ => w = w'
  | GHelper w _, GHelper w' _ => w = w'
  | GClient _, GClient _ => True
  | _, _ => False
  end.

(** [New] starts one dispatcher; it is goroutine 0. *)
Definition sole_dispatcher (s : state) : Prop :=
  (exists d, procs s !! 0 = Some (GDispatch d)) /\
  forall i g, procs s !! i = Some g -> is_dispatcher g = true -> i = 0.

(** The dispatcher's own variables. *)
Definition owned (s : state) : Z * Z * list poolTask * Z :=
  (maxWorkers (pool s), workerCount (pool s), waitingQueue (pool s),
   waiting (pool s)).

(** Statements that leave the dispatcher's variables alone. *)
Definition benign (a : action) : bool :=
  match a with
  | WgDone | GoHelper _ | Fresh | FreshNil | CallCancel _
  | OnceDone | SetStopped | SetWait _ | Unlock _ => true
  | _ => false
  end.

(** Goroutines as they are when a [go] statement starts them. *)
Definition spawned (g : goroutine) : Prop :=
  (exists w t, g = GWorker w (WStart t)) \/ (exists w, g = GHelper w HRange).

(** Executions all of whose steps start in a state satisfying [R]. *)
Inductive exec_in (R : state -> Prop) : state -> list event -> state -> Prop :=
| exec_in_nil s : exec_in R s [] s
| exec_in_cons s m e s' tr s'' :
    R s -> step s m = Some (e, s') -> exec_in R s' tr s'' ->
    exec_in R s (e :: tr) s''.

(** Where the dispatcher is. *)
Definition dispatcher_of (s : state) : option dispatcher :=
  match procs s !! 0 with
  | Some (GDispatch d) => Some d
  | _ => None
  end.

Definition dispatcher_at (s : state) : option dpc :=
  option_map dat (dispatcher_of s).

(** *** The idle tick *)

(** The dispatcher is handling a tick of the idle timer (lines 228-237). *)
Definition in_tick (s : state) : Prop :=
  match dispatcher_at s with
  | Some (DTick | DKillIdle | DKillSelect _ | DKilled | DIdleTrue) => True
  | _ => False
  end.

(** The event is the dispatcher's select in [killIdleWorker]. *)
Definition kill_select (e : event) : option bool :=
  match e with
  | ESync _ (GDispatch d) _ _ _ _ =>
      match dat d with DKillSelect _ => Some true | _ => None end
  | EDefault _ (GDispatch d) =>
      match dat d with DKillSelect _ => Some false | _ => None end
  | _ => None
  end.

(** The kill pill was sent / the non-blocking send was tried. *)
Definition pill_sent (tr : list event) : bool :=
  existsb (fun e => bool_decide (kill_select e = Some true)) tr.

Definition pill_tried (tr : list event) : bool :=
  existsb (fun e => bool_decide (kill_select e <> None)) tr.

(** Where the handling of a tick stands: [c0] and [b0] are [workerCount] and
    [idle] when the tick arrived, [sent] and [tried] say what happened to the
    pill so far.  (Invariant of the proof of the tick property.) *)
Definition tick_inv (c0 : Z) (b0 sent tried : bool) (s : state) : Prop :=
  match dispatcher_of s with
  | Some d =>
      let c := workerCount (pool s) in
      match dat d with
      | DTick => idle d = b0 /\ c = c0 /\ sent = false /\ tried = false
      | DKillIdle | DKillSelect _ =>
          b0 = true /\ (0 < c0)%Z /\ c = c0 /\ sent = false /\ tried = false
      | DKilled =>
          b0 = true /\ (0 < c0)%Z /\ c = c0 /\ sent = true /\ tried = true
      | DIdleTrue =>
          c = (if sent then wrap64 (c0 - 1) else c0) /\
          (sent = true -> tried = true) /\
          tried = b0 && (0 <? c0)%Z
      | _ => False
      end
  | None => False
  end.

(** How far the dispatcher is from the head of its loop: the number of
    statements of the longest path left in the handling of a tick. *)
Definition tick_rank (s : state) : nat :=
  match dispatcher_at s with
  | Some DTick => 5
  | Some DKillIdle => 4
  | Some (DKillSelect _) => 3
  | Some DKilled => 2
  | Some DIdleTrue => 1
  | _ => 0
  end.

(** The state in which the handling of a tick ends. *)
Definition tick_post (c0 : Z) (b0 sent tried : bool) (s : state) : Prop :=
  dispatcher_of s = Some (Dsp DLoop true) /\
  timer s = true /\
  workerCount (pool s) = (if sent then wrap64 (c0 - 1) else c0) /\
  (sent = true -> tried = true) /\
  tried = b0 && (0 <? c0)%Z.

(** *** Well-formed states *)

(** Tasks as [NewTask] builds them; [zeroTask] is what a receive from a
    closed channel yields. *)
Definition built (t : poolTask) : Prop :=
  t = zeroTask \/ exists c fn timeout k, NewTask c fn timeout k = Ok t.

(** The tasks a goroutine holds in its variables. *)
Definition dpc_tasks (pc : dpc) : list poolTask :=
  match pc with
  | DPwqPush t | DGotTask t | DNoWorker t | DSpawn t | DKillSelect t
  | DRunSend t | DStopSend t => [t]
  | _ => []
  end.

Definition wpc_tasks (pc : wpc) : list poolTask :=
  match pc with
  | WStart t | WLoop t | WRun t | WPublish t _ | WHandOver t | WRace t
  | WRecvErr t | WPublishT t _ | WCancel t => [t]
  | _ => []
  end.

Definition hpc_tasks (pc : hpc) : list poolTask :=
  match pc with
  | HCall t | HPublish t _ | HCloseDone t => [t]
  | _ => []
  end.

Definition cpc_tasks (pc : cpc) : list poolTask :=
  match pc with
  | CSubmitSend t | CWaitSend t | CWaitRecv t => [t]
  | _ => []
  end.

Definition held (g : goroutine) : list poolTask :=
  match g with
  | GDispatch d => dpc_tasks (dat d)
  | GWorker _ pc => wpc_tasks pc
  | GHelper _ pc => hpc_tasks pc
  | GClient pc => cpc_tasks pc
  end.

(** The channel a caller got from [Submit]. *)
Definition result_chan (c : option chan) : Prop :=
  match c with
  | None | Some (ErrCh _) | Some (nilFnCh _) => True
  | _ => False
  end.

Definition chans_ok (g : goroutine) : Prop :=
  match g with
  | GClient (CHolding ch _) => result_chan ch
  | GClient (CSubmitClose ch) => result_chan (Some ch)
  | _ => True
  end.

Definition goroutine_ok (g : goroutine) : Prop :=
  Forall built (held g) /\ chans_ok g.

Definition val_ok (v : val) : Prop :=
  match v with VTask t => built t | _ => True end.

Definition action_ok (a : action) : Prop :=
  match a with PushBack t | GoWorker t => built t | _ => True end.

(** Channels that only their worker touches are not sent on or closed by
    way of a task or a result channel. *)
Definition shared_chan (c : option chan) : Prop :=
  match c with
  | Some (errChW _) | Some workerQueue | Some (ctxDone _) | Some (userDone _)
  | Some timerC => False
  | _ => True
  end.

Definition comm_ok (cm : comm goroutine) : Prop :=
  match cm with
  | Send c v k => goroutine_ok k /\ val_ok v /\ forall w, c <> Some (errChW w)
  | Recv c k => forall v, (forall x, v = Some x -> val_ok x) -> goroutine_ok (k v)
  end.

Definition offer_ok (o : offer goroutine) : Prop :=
  match o with
  | Do acts k => goroutine_ok k /\ Forall action_ok acts
  | Select cs d => Forall comm_ok cs /\ forall k, d = Some k -> goroutine_ok k
  | Call _ k => forall e, goroutine_ok (k e)
  | Close c k => goroutine_ok k /\ shared_chan c
  | WgWait k | Lock _ k => goroutine_ok k
  | Panic | Exit => True
  end.

(** Every task in the program was built by [NewTask]. *)
Record wf (s : state) : Prop := {
  wf_procs : forall i g, procs s !! i = Some g -> goroutine_ok g;
  wf_bufs : forall c v, v ∈ buf (chans s c) -> val_ok v;
  wf_queue : Forall built (waitingQueue (pool s));
}.

(** The callers start at an entry point of the façade. *)
Definition api_call (pc : cpc) : Prop :=
  match pc with
  | CSubmit _ _ _ | CSubmitWait _ _ _ | CStop _ | CIsStopped => True
  | _ => False
  end.

(** The states of a pool made by [New] and used through the façade. *)
Definition started (s : state) : Prop :=
  exists n callers tr, Forall api_call callers /\ exec (init n callers) tr s.

(** *** Tasks under timeout supervision *)

Definition supervised (t : poolTask) : Prop := is_Some (cancel t).

(** The tasks on their way to a helper carry a cancel handle. *)
Definition sup_ok (g : goroutine) : Prop :=
  match g with
  | GHelper _ pc => Forall supervised (hpc_tasks pc)
  | GWorker _ (WHandOver t) => supervised t
  | _ => True
  end.

Definition sup_val (c : chan) (v : val) : Prop :=
  match c, v with
  | tasksCh _, VTask t => supervised t
  | tasksCh _, _ => False
  | _, _ => True
  end.

Definition sup_comm_ok (cm : comm goroutine) : Prop :=
  match cm with
  | Send c v k => sup_ok k /\ forall c0, c = Some c0 -> sup_val c0 v
  | Recv c k =>
      forall v, (forall c0 x, c = Some c0 -> v = Some x -> sup_val c0 x) ->
                sup_ok (k v)
  end.

Definition sup_offer_ok (o : offer goroutine) : Prop :=
  match o with
  | Do _ k | Close _ k | WgWait k | Lock _ k => sup_ok k
  | Select cs d => Forall sup_comm_ok cs /\ forall k, d = Some k -> sup_ok k
  | Call _ k => forall e, sup_ok (k e)
  | Panic | Exit => True
  end.

Record sup (s : state) : Prop := {
  sup_procs : forall i g, procs s !! i = Some g -> sup_ok g;
  sup_bufs : forall c v, v ∈ buf (chans s c) -> sup_val c v;
}.

(** The variadic [timeout] has a first element and it is positive. *)
Definition positive_timeout (timeout : list Z) : Prop :=
  exists d rest, timeout = d :: rest /\ (0 < d)%Z.

(** *** Observations on traces *)

(** The values sent on a channel, in order. *)
Definition sent_on (c : chan) (e : event) : list val :=
  match e with
  | ESend _ _ c' v | ESync _ _ _ _ c' v => if decide (c' = c) then [v] else []
  | _ => []
  end.

Definition sends_on (c : chan) (tr : list event) : list val :=
  concat (map (sent_on c) tr).

(** *** Two runs of a pool with one worker and one task with a deadline *)

Definition deadline_task : poolTask :=
  {| task := Some (Returns None); Err := Some (ErrCh 0);
     done := Some (doneCh 0); ctx := Some (TimeoutCtx Background 0);
     cancel := Some (CancelCtx 0) |}.

(** [New(1)] and one call [Submit(context.Background(), fn, 5)], where [fn]
    returns nil. *)
Definition deadline_init : state :=
  init 1 [CSubmit (Some Background) (Some (Returns None)) 5].

(** Goroutine 0 is the dispatcher, 1 the caller, 2 the worker, 3 its helper.
    The dispatcher starts a worker for the task; the worker hands it to the
    helper and waits in its select. *)
Definition deadline_prefix : list move :=
  [Run 0; Run 0;            (* dispatch: timer, loop head, select *)
   Run 1; Sync 1 0 0 0;     (* Submit: NewTask, p.taskQueue <- t *)
   Default 0;               (* no worker ready *)
   Run 0; Run 0; Run 0;     (* wg.Add(1); go worker(task, ...); workerCount.Add(1) *)
   Run 2; Run 2;            (* worker: go helper; loop head: cancel != nil *)
   Comm 2 0;                (* tasks <- task *)
   Comm 3 0].               (* helper: execTask := <-tasks *)

(** The function returns before the deadline: the helper publishes its
    outcome and closes [done]; the worker's select takes [<-task.done]. *)
Definition early_completion : list move :=
  deadline_prefix ++
  [Run 3;                   (* err := execTask.task() *)
   Comm 3 1;                (* case execTask.Err <- err *)
   Run 3;                   (* close(execTask.done) *)
   Comm 2 0].               (* worker: case <-task.done *)

(** The deadline passes first: the worker publishes [ErrTimeout], the caller
    reads it, then the function returns and the helper's select picks its
    send case. *)
Definition late_completion : list move :=
  deadline_prefix ++
  [Expire 0;                (* the deadline passes *)
   Comm 2 1;                (* worker: case <-task.ctx.Done() *)
   Comm 2 0;                (* task.Err <- ErrTimeout *)
   Run 2;                   (* task.cancel() *)
   Comm 1 0;                (* the caller reads the result channel *)
   Run 3;                   (* err := execTask.task() returns *)
   Comm 3 1;                (* case execTask.Err <- err *)
   Run 3;                   (* close(execTask.done) *)
   Comm 1 0].               (* the caller reads the result channel again *)

(** *** A task arriving in direct mode *)

(** The dispatcher is placing a task it received in direct mode
    (lines 211-226). *)
Definition in_intake (s : state) : Prop :=
  match dispatcher_at s with
  | Some (DGotTask _ | DNoWorker _ | DSpawn _ | DCount) => True
  | _ => False
  end.

(** What the dispatcher does with the task. *)
Inductive intake_step :=
| HandedOff (j : nat)     (* the send on workerQueue was taken by goroutine j *)
| Refused                 (* the select took its default branch *)
| Spawned (t : poolTask)  (* go worker(t, ...), after wg.Add(1) *)
| Counted                 (* workerCount.Add(1) *)
| Queued.                 (* waitingQueue.PushBack(task); StoreInt32 *)

Definition intake_obs (e : event) : list intake_step :=
  match e with
  | ESync _ (GDispatch d) j _ _ _ =>
      match dat d with DGotTask _ => [HandedOff j] | _ => [] end
  | EDefault _ (GDispatch d) =>
      match dat d with DGotTask _ => [Refused] | _ => [] end
  | EDo _ (GDispatch d) acts =>
      match dat d with
      | DNoWorker _ => match acts with WgAdd :: _ => [] | _ => [Queued] end
      | DSpawn _ => match acts with GoWorker t :: _ => [Spawned t] | _ => [] end
      | DCount => [Counted]
      | _ => []
      end
  | _ => []
  end.

Definition intake_log (tr : list event) : list intake_step :=
  concat (map intake_obs tr).

(** Invariant of the proof: the dispatcher holds task [t], its variables are
    as they were ([o0]), and [log] is what it did so far. *)
Definition intake_inv (t : poolTask) (b : bool) (o0 : Z * Z * list poolTask * Z)
    (log : list intake_step) (s : state) : Prop :=
  let '(max, c, _, _) := o0 in
  match dispatcher_of s with
  | Some d =>
      idle d = b /\ owned s = o0 /\
      match dat d with
      | DGotTask t' => t' = t /\ log = []
      | DNoWorker t' => t' = t /\ log = [Refused]
      | DSpawn t' => t' = t /\ log = [Refused] /\ (c < max)%Z
      | DCount =>
          log = [Refused; Spawned t] /\ (c < max)%Z /\
          exists n pc, procs s !! n = Some (GWorker n pc)
      | _ => False
      end
  | None => False
  end.

(** The three ways the placing of task [t] ends. *)
Definition intake_post (t : poolTask) (b : bool) (o0 : Z * Z * list poolTask * Z)
    (log : list intake_step) (s : state) : Prop :=
  let '(max, c, q, _) := o0 in
  dispatcher_of s = Some (Dsp DIdleFalse b) /\
  ((exists j w, log = [HandedOff j] /\
      procs s !! j = Some (GWorker w (WLoop t)) /\ owned s = o0)
   \/ (log = [Refused; Spawned t; Counted] /\ (c < max)%Z /\
       maxWorkers (pool s) = max /\
       workerCount (pool s) = wrap64 (c + 1) /\
       waitingQueue (pool s) = q /\
       exists n pc, procs s !! n = Some (GWorker n pc))
   \/ (log = [Refused; Queued] /\ (max <= c)%Z /\
       maxWorkers (pool s) = max /\
       workerCount (pool s) = c /\
       waitingQueue (pool s) = q ++ [t] /\
       waiting (pool s) = wrap32 (Z.of_nat (length (q ++ [t]))))).

(** *** The waiting queue *)

(** Tasks the event appends to the waiting queue. *)
Definition pushed_by (a : action) : list poolTask :=
  match a with PushBack t => [t] | _ => [] end.

Definition pushes_of (e : event) : list poolTask :=
  match e with
  | EDo _ (GDispatch _) acts => concat (map pushed_by acts)
  | _ => []
  end.

(** Tasks the event hands from the waiting queue to a worker: the sends of
    [processWaitingQueue] and of [runQueuedTasks]. *)
Definition handoff_of (e : event) : list poolTask :=
  match e with
  | ESync _ (GDispatch d) _ _ _ (VTask t) =>
      match dat d with
      | DProcess | DRunSend _ => [t]
      | _ => []
      end
  | _ => []
  end.

Definition pushes (tr : list event) : list poolTask :=
  concat (map pushes_of tr).

Definition handoffs (tr : list event) : list poolTask :=
  concat (map handoff_of tr).

(** The tasks that entered the waiting queue and were not handed over yet:
    the queue, corrected for the two places where the dispatcher is between
    the send and the pop. *)
Definition pending (s : state) : list poolTask :=
  let q := waitingQueue (pool s) in
  match dispatcher_at s with
  | Some DPwqPop => tail q          (* front sent, not yet popped *)
  | Some (DRunSend t) => t :: q     (* t popped, not yet sent *)
  | _ => q
  end.

(** *** Shutdown *)

(** The dispatcher has left its loop (lines 241-254 and the deferred close). *)
Definition in_shutdown (pc : dpc) : bool :=
  match pc with
  | DShutdown | DRunQueued | DRunSend _ | DRunStore | DStopWorkers
  | DStopSend _ | DStopDec | DWgWait | DTimerStop | DCloseStopped | DExit => true
  | _ => false
  end.

(** The steps of the shutdown sequence. *)
Inductive shutdown_step :=
| Drain (t : poolTask)    (* a queued task handed to a worker *)
| KillPill                (* a kill pill taken by a worker *)
| Decrement               (* workerCount.Add(-1) *)
| AwaitWorkers            (* wg.Wait() returned *)
| StopTimer               (* timeout.Stop() *)
| CloseStopped.           (* close(p.stoppedChan) *)

(** A task sent to a worker after the loop: a kill pill has no function. *)
Definition sent_after_loop (t : poolTask) : shutdown_step :=
  match task t with None => KillPill | Some _ => Drain t end.

Definition shutdown_obs (e : event) : list shutdown_step :=
  match e with
  | ESync _ (GDispatch d) _ _ _ (VTask t) =>
      match dat d with
      | DRunSend _ => [Drain t]
      | DStopSend _ => [sent_after_loop t]
      | _ => []
      end
  | EDo _ (GDispatch d) _ =>
      match dat d with
      | DStopDec => [Decrement]
      | DTimerStop => [StopTimer]
      | _ => []
      end
  | EWait _ (GDispatch d) =>
      match dat d with DWgWait => [AwaitWorkers] | _ => [] end
  | EClose _ (GDispatch d) c =>
      match dat d with DCloseStopped => [CloseStopped] | _ => [] end
  | _ => []
  end.

Definition shutdown_log (tr : list event) : list shutdown_step :=
  concat (map shutdown_obs tr).

(** One kill pill and one decrement per live worker. *)
Definition kills (n : nat) : list shutdown_step :=
  concat (replicate n [KillPill; Decrement]).

Definition shutdown_tail : list shutdown_step :=
  [AwaitWorkers; StopTimer; CloseStopped].

(** The shutdown sequence for a wait flag, a waiting queue and a worker
    count. *)
Definition shutdown_script (w : bool) (q : list poolTask) (c : Z)
  : list shutdown_step :=
  (if w then map Drain q else []) ++ kills (Z.to_nat c) ++ shutdown_tail.

(** What is left of the sequence in a state. *)
Definition remaining (s : state) : list shutdown_step :=
  let q := waitingQueue (pool s) in
  let c := workerCount (pool s) in
  match dispatcher_at s with
  | Some DShutdown => shutdown_script (wait (pool s)) q c
  | Some (DRunQueued | DRunStore) => shutdown_script true q c
  | Some (DRunSend t) => Drain t :: shutdown_script true q c
  | Some DStopWorkers => shutdown_script false q c
  | Some (DStopSend x) =>
      sent_after_loop x :: Decrement :: shutdown_script false q (c - 1)
  | Some DStopDec => Decrement :: shutdown_script false q (c - 1)
  | Some DWgWait => shutdown_tail
  | Some DTimerStop => [StopTimer; CloseStopped]
  | Some DCloseStopped => [CloseStopped]
  | _ => []
  end.

(** The [stop] call that closed [taskQueue] has stored [p.wait] before
    (program order inside [stopOnce.Do]): no caller is still on its way to
    the assignment. *)
Definition stop_committed (s : state) : Prop :=
  (onceLock (pool s) = true \/ stopOnce (pool s) = true) /\
  forall i pc, procs s !! i = Some (GClient pc) ->
    match pc with
    | CStop1 _ | CStopLock _ | CStop2 _ | CStopUnlock _ | CStopWait _ => False
    | COnceIn _ | COnceUnlock => stopOnce (pool s) = true
    | _ => True
    end.

(** Invariant of the proof of the shutdown sequence. *)
Definition shutdown_inv (s : state) : Prop :=
  sole_dispatcher s /\ stop_committed s /\
  int64_ok (workerCount (pool s)) /\
  match dispatcher_at s with
  | Some (DStopSend x) => task x = None /\ (0 < workerCount (pool s))%Z
  | Some DStopDec => (0 < workerCount (pool s))%Z
  | Some pc => in_shutdown pc = true
  | None => False
  end.

(** *** A pool with one worker: two tasks, then [StopWait] *)

Definition plain_fn : option func := Some (Returns None).

(** [New(1)]; goroutines 1 and 2 call [Submit(ctx, fn, NoTimeout)],
    goroutine 3 calls [StopWait()]. *)
Definition drain_init : state :=
  init 1 [CSubmit (Some Background) plain_fn 0;
          CSubmit (Some Background) plain_fn 0;
          CStop true].

(** The result of running a schedule (the start state if it cannot run). *)
Definition after (ms : list move) (s : state) : state :=
  match run ms s with Some (_, s') => s' | None => s end.

Definition trace_of (ms : list move) (s : state) : list event :=
  match run ms s with Some (tr, _) => tr | None => [] end.

(** The first task arrives and gets a new worker (goroutine 4). *)
Definition first_arrives : list move :=
  [Run 0; Run 0;            (* dispatch: timer, loop head, select *)
   Run 1; Sync 1 0 0 0].    (* Submit: NewTask, p.taskQueue <- t *)

Definition first_placed : list move :=
  [Default 0;               (* no worker ready *)
   Run 0; Run 0; Run 0].    (* wg.Add(1); go worker(task, ...); workerCount.Add(1) *)

(** The second task arrives while the worker has not yet asked for work: it
    is put on the waiting queue.  Then [StopWait] closes [taskQueue] and the
    dispatcher leaves its loop. *)
Definition second_queued_then_stop : list move :=
  [Run 0; Run 0;            (* idle = false; loop head, select *)
   Run 2; Sync 2 0 0 0;     (* second Submit *)
   Default 0; Run 0;        (* workerCount == maxWorkers: PushBack *)
   Run 0; Run 0;            (* idle = false; loop head: queue not empty *)
   Run 3; Run 3; Run 3;     (* stop: stopOnce.Do reads done, locks, reads done *)
   Run 3;                   (*   close(p.stopSignal) *)
   Run 3; Run 3; Run 3;     (*   stopLock.Lock(); stopped = true; Unlock() *)
   Run 3; Run 3;            (*   p.wait = wait; close(p.taskQueue) *)
   Comm 0 0].               (* processWaitingQueue: !ok *)

Definition before_shutdown : list move :=
  first_arrives ++ first_placed ++ second_queued_then_stop.

(** The shutdown: the queued task is drained, the worker gets its pill. *)
Definition shutdown_moves : list move :=
  [Run 0; Run 0;            (* p.wait; runQueuedTasks: PopFront *)
   Run 4; Run 4; Run 4; Comm 4 0;   (* the worker runs the first task *)
   Sync 0 0 4 0;            (* p.workerQueue <- t (second task) *)
   Run 0; Run 0; Run 0;     (* StoreInt32; queue empty; NewTask(nil, nil) *)
   Run 4; Run 4; Comm 4 0;  (* the worker runs the second task *)
   Sync 0 0 4 0;            (* p.workerQueue <- pill *)
   Run 0; Run 0;            (* workerCount.Add(-1); workerCount == 0 *)
   Run 4; Run 4; Run 4;     (* the worker: fn == nil, wg.Done(), close(tasks) *)
   Run 0; Run 0; Run 0].    (* wg.Wait(); timeout.Stop(); close(stoppedChan) *)

(** *** A pool with one worker that goes idle *)

Definition reap_init : state :=
  init 1 [CSubmit (Some Background) plain_fn 0].

(** One task is run; the timer fires twice with no work in between. *)
Definition before_second_tick : list move :=
  first_arrives ++ first_placed ++
  [Run 0; Run 0;            (* idle = false; loop head, select *)
   Run 2; Run 2; Run 2; Comm 2 0;   (* the worker (goroutine 2) runs the task *)
   Tick; Comm 0 1;          (* first tick *)
   Run 0; Run 0; Run 0;     (* not idle: idle = true, Reset; loop head *)
   Tick; Comm 0 1].         (* second tick *)

Definition second_tick : list move :=
  [Run 0; Run 0;            (* idle && workerCount > 0; NewTask(nil, nil) *)
   Sync 0 0 2 0;            (* case p.workerQueue <- pill *)
   Run 0; Run 0].           (* workerCount.Add(-1); idle = true, Reset *)

(** The same two ticks while the worker is still busy with its task: it is
    not waiting on [workerQueue] when the pill is offered. *)
Definition before_second_tick_busy : list move :=
  first_arrives ++ first_placed ++
  [Run 0; Run 0;            (* idle = false; loop head, select *)
   Tick; Comm 0 1;          (* first tick *)
   Run 0; Run 0; Run 0;     (* not idle: idle = true, Reset; loop head *)
   Tick; Comm 0 1].         (* second tick *)

Definition second_tick_busy : list move :=
  [Run 0; Run 0;            (* idle && workerCount > 0; NewTask(nil, nil) *)
   Default 0;               (* default: no ready worker *)
   Run 0].                  (* idle = true, Reset *)

(** Decidable forms of the two regions. *)
Definition in_tickb (s : state) : bool :=
  match dispatcher_at s with
  | Some (DTick | DKillIdle | DKillSelect _ | DKilled | DIdleTrue) => true
  | _ => false
  end.

Definition in_intakeb (s : state) : bool :=
  match dispatcher_at s with
  | Some (DGotTask _ | DNoWorker _ | DSpawn _ | DCount) => true
  | _ => false
  end.

(** Running a schedule inside a region. *)
Fixpoint run_in (R : state -> bool) (ms : list move) (s : state)
  : option (list event * state) :=
  match ms with
  | [] => Some ([], s)
  | m :: ms' =>
      if R s then
        match step s m with
        | Some (e, s') =>
            match run_in R ms' s' with
            | Some (tr, s'') => Some (e :: tr, s'')
            | None => None
            end
        | None => None
        end
      else None
  end.

(** The schedule can be run from the state. *)
Definition runs (ms : list move) (s : state) : bool :=
  match run ms s with Some _ => true | None => false end.

(** *** The stop protocol *)

(** The caller holds the mutex of [stopOnce]. *)
Definition in_once (pc : cpc) : bool :=
  match pc with
  | COnceIn _ | CStop1 _ | CStopLock _ | CStop2 _ | CStopUnlock _
  | CStopWait _ | CStop3 | COnceStore | COnceUnlock => true
  | _ => false
  end.

(** The caller is inside the function run by [stopOnce]. *)
Definition in_stop_body (pc : cpc) : bool :=
  match pc with
  | CStop1 _ | CStopLock _ | CStop2 _ | CStopUnlock _ | CStopWait _
  | CStop3 => true
  | _ => false
  end.

(** The caller holds [p.stopLock]. *)
Definition in_stop_lock (pc : cpc) : bool :=
  match pc with
  | CStop2 _ | CStopUnlock _ | CIsStoppedRead => true
  | _ => false
  end.

(** The four things [stop] changes, in the order it changes them:
    [stopSignal] closed, [stopped], [taskQueue] closed, and the done flag
    of [stopOnce]. *)
Definition stop_flags (s : state) : bool * bool * bool * bool :=
  (closed (chans s stopSignal), stopped (pool s),
   closed (chans s taskQueue), stopOnce (pool s)).

(** What the caller that holds the mutex of [stopOnce] has done; a caller
    that finds the done flag set does nothing. *)
Definition body_flags (pc : cpc) : list (bool * bool * bool * bool) :=
  match pc with
  | CStop1 _ => [(false, false, false, false)]
  | CStopLock _ | CStop2 _ => [(true, false, false, false)]
  | CStopUnlock _ | CStopWait _ | CStop3 => [(true, true, false, false)]
  | COnceStore => [(true, true, true, false)]
  | COnceUnlock => [(true, true, true, true)]
  | _ => [(false, false, false, false); (true, true, true, true)]
  end.

(** The flags together with the two mutexes: whether the mutex of
    [stopOnce] and [p.stopLock] are held. *)
Definition stop_state (s : state) : bool * bool * bool * bool * bool * bool :=
  (stop_flags s, onceLock (pool s), stopLock (pool s)).

(** The steps of [stop] and of [Stopped] on that state. *)
Definition stop_move (pc : cpc) (f : bool * bool * bool * bool * bool * bool)
  : option (cpc * (bool * bool * bool * bool * bool * bool)) :=
  match pc, f with
  | COnceLock w, (a, b, c, o, false, sl) =>
      Some (COnceIn w, (a, b, c, o, true, sl))
  | COnceIn w, (a, b, c, o, ol, sl) =>
      Some (if o then COnceUnlock else CStop1 w, (a, b, c, o, ol, sl))
  | CStop1 w, (false, b, c, o, ol, sl) =>
      Some (CStopLock w, (true, b, c, o, ol, sl))
  | CStopLock w, (a, b, c, o, ol, false) =>
      Some (CStop2 w, (a, b, c, o, ol, true))
  | CStop2 w, (a, _, c, o, ol, sl) =>
      Some (CStopUnlock w, (a, true, c, o, ol, sl))
  | CStopUnlock w, (a, b, c, o, ol, _) =>
      Some (CStopWait w, (a, b, c, o, ol, false))
  | CStopWait w, (a, b, c, o, ol, sl) =>
      Some (CStop3, (a, b, c, o, ol, sl))
  | CStop3, (a, b, false, o, ol, sl) =>
      Some (COnceStore, (a, b, true, o, ol, sl))
  | COnceStore, (a, b, c, _, ol, sl) =>
      Some (COnceUnlock, (a, b, c, true, ol, sl))
  | COnceUnlock, (a, b, c, o, _, sl) =>
      Some (CStopAwait, (a, b, c, o, false, sl))
  | CIsStopped, (a, b, c, o, ol, false) =>
      Some (CIsStoppedRead, (a, b, c, o, ol, true))
  | CIsStoppedRead, (a, b, c, o, ol, _) =>
      Some (CIsStoppedRet b, (a, b, c, o, ol, false))
  | _, _ => None
  end.

(** The goroutines that can make such a step. *)
Definition stop_mover (g : goroutine) : bool :=
  match g with
  | GClient (COnceLock _ | CIsStopped | CIsStoppedRead) => true
  | GClient pc => in_once pc
  | _ => false
  end.

(** The two mutexes are held by the callers that are between [Lock] and
    [Unlock], one at a time; what the caller inside [stopOnce] has done
    can be read off where it is; the dispatcher leaves its loop only on
    seeing [taskQueue] closed. *)
Record stop_inv (s : state) : Prop := {
  stop_one : forall i j pc pc',
    procs s !! i = Some (GClient pc) -> procs s !! j = Some (GClient pc') ->
    in_once pc = true -> in_once pc' = true -> i = j;
  stop_free : onceLock (pool s) = false ->
    forall i pc, procs s !! i = Some (GClient pc) -> in_once pc = false;
  stop_held : onceLock (pool s) = true ->
    exists i pc, procs s !! i = Some (GClient pc) /\ in_once pc = true;
  stop_in : forall i pc, procs s !! i = Some (GClient pc) ->
    in_once pc = true -> stop_flags s ∈ body_flags pc;
  stop_out : onceLock (pool s) = false ->
    stop_flags s ∈ [(false, false, false, false); (true, true, true, true)];
  lock_one : forall i j pc pc',
    procs s !! i = Some (GClient pc) -> procs s !! j = Some (GClient pc') ->
    in_stop_lock pc = true -> in_stop_lock pc' = true -> i = j;
  lock_free : stopLock (pool s) = false ->
    forall i pc, procs s !! i = Some (GClient pc) -> in_stop_lock pc = false;
  lock_held : stopLock (pool s) = true ->
    exists i pc, procs s !! i = Some (GClient pc) /\ in_stop_lock pc = true;
  stop_seen : forall d, dispatcher_of s = Some d ->
    in_shutdown (dat d) = true -> closed (chans s taskQueue) = true;
}.


(** [func (p *WorkerPool) Stopped() bool] *)
Definition Stopped (p : WorkerPool) : bool := stopped p.

(** Two callers stop the same pool: [Stop()] and [StopWait()]. *)
Definition two_stops : state := init 1 [CStop false; CStop true].

(** *** Local invariants *)

(** A scheme for invariants that say something of each goroutine by itself
    ([G]), of each value in transit on a channel ([V]), of each task on the
    waiting queue ([Q]), and of the channels that get closed ([C]). *)
Section local.
Variable G : goroutine -> Prop.
Variable V : chan -> val -> Prop.
Variable Q : poolTask -> Prop.
Variable C : chan -> Prop.

Definition local_comm (cm : comm goroutine) : Prop :=
  match cm with
  | Send c v k => G k /\ forall c0, c = Some c0 -> V c0 v
  | Recv c k =>
      forall v,
        (forall c0 x, c = Some c0 -> v = Some x -> V c0 x) ->
        (forall c0, c = Some c0 -> v = None -> C c0) ->
        G (k v)
  end.

Definition local_action (a : action) : Prop :=
  match a with
  | PushBack t => Q t
  | GoWorker t => forall w, G (GWorker w (WStart t))
  | GoHelper w => G (GHelper w HRange)
  | CallCancel (CancelCtx k) => C (ctxDone k)
  | _ => True
  end.

Definition local_offer (o : offer goroutine) : Prop :=
  match o with
  | Do acts k => G k /\ Forall local_action acts
  | Select cs d => Forall local_comm cs /\ forall k, d = Some k -> G k
  | Call fn k => forall e, fn = Some (Returns e) -> G (k e)
  | Close c k => G k /\ forall c0, c = Some c0 -> C c0
  | WgWait k | Lock _ k => G k
  | Panic | Exit => True
  end.

Record local (s : state) : Prop := {
  local_procs : forall i g, procs s !! i = Some g -> G g;
  local_bufs : forall c v, v ∈ buf (chans s c) -> V c v;
  local_queue : Forall Q (waitingQueue (pool s));
  local_closed : forall c, closed (chans s c) = true -> C c;
}.
End local.

(** *** What each goroutine holds, and what travels on each channel *)

(** A task with a function to run; a kill pill has none. *)
Definition real (t : poolTask) : Prop := is_Some (task t).

Definition tidy_dpc (pc : dpc) : Prop :=
  match pc with
  | DPwqPush t | DGotTask t | DNoWorker t | DSpawn t | DRunSend t => real t
  | DKillSelect t | DStopSend t => task t = None
  | _ => True
  end.

Definition tidy_wpc (pc : wpc) : Prop :=
  match pc with
  | WStart t => real t
  | WRun t | WPublish t _ => real t /\ cancel t = None
  | WHandOver t | WRace t | WRecvErr t | WCancel t => real t /\ supervised t
  | WPublishT t e => real t /\ supervised t /\ e = Some ErrTimeout
  | _ => True
  end.

Definition tidy_hpc (pc : hpc) : Prop :=
  match pc with
  | HCall t | HPublish t _ | HCloseDone t => real t /\ supervised t
  | _ => True
  end.

Definition tidy_cpc (pc : cpc) : Prop :=
  match pc with
  | CSubmitSend t | CWaitSend t | CWaitRecv t => real t
  | CSubmitClose ch => exists n, ch = nilFnCh n
  | _ => True
  end.

Definition tidy_ok (g : goroutine) : Prop :=
  match g with
  | GDispatch d => tidy_dpc (dat d)
  | GWorker _ pc => tidy_wpc pc
  | GHelper _ pc => tidy_hpc pc
  | GClient pc => tidy_cpc pc
  end.

(** The values a channel carries. *)
Definition tidy_val (c : chan) (v : val) : Prop :=
  match c, v with
  | taskQueue, VTask t => real t
  | workerQueue, VTask _ => True
  | tasksCh _, VTask t => real t /\ supervised t
  | ErrCh _, VErr _ => True
  | timerC, VUnit => True
  | _, _ => False
  end.

(** The channels that are closed at some time: the others never are. *)
Definition closable (c : chan) : Prop :=
  match c with
  | stopSignal | stoppedChan | taskQueue | doneCh _ | ctxDone _ | tasksCh _
  | nilFnCh _ => True
  | _ => False
  end.

Definition tidy : state -> Prop := local tidy_ok tidy_val real closable.

(** *** Counting the workers *)

(** [func (p *WorkerPool) Size() int] *)
Definition Size (p : WorkerPool) : Z := maxWorkers p.

(** [func (p *WorkerPool) GetWorkerCount() int64] *)
Definition GetWorkerCount (p : WorkerPool) : Z := workerCount p.

(** The number of goroutines satisfying [f]. *)
Fixpoint tally (f : goroutine -> bool) (l : list goroutine) : Z :=
  match l with
  | [] => 0
  | g :: l' => ((if f g then 1 else 0) + tally f l')%Z
  end.

(** A worker that has not been handed a kill pill: it runs a task or will
    take the next one from [workerQueue]. *)
Definition serving (g : goroutine) : bool :=
  match g with
  | GWorker _ pc =>
      match pc with
      | WLoop t => match task t with Some _ => true | None => false end
      | WDone | WCloseTasks | WExit => false
      | _ => true
      end
  | _ => false
  end.

(** A worker that has not yet called [wg.Done()], and the worker that the
    dispatcher is about to start after [wg.Add(1)]. *)
Definition unfinished (g : goroutine) : bool :=
  match g with
  | GWorker _ (WCloseTasks | WExit) => false
  | GWorker _ _ => true
  | GDispatch d => match dat d with DSpawn _ => true | _ => false end
  | _ => false
  end.

(** What [workerCount] counts: the serving workers, and the worker that has
    just taken a pill while [workerCount.Add(-1)] is the dispatcher's next
    statement. *)
Definition counted (g : goroutine) : bool :=
  match g with
  | GDispatch d =>
      match dat d with DKilled | DStopDec => true | _ => false end
  | _ => serving g
  end.

(** The dispatcher between [go worker(...)] and [workerCount.Add(1)]. *)
Definition counting (g : goroutine) : bool :=
  match g with
  | GDispatch d => match dat d with DCount => true | _ => false end
  | _ => false
  end.

(** The dispatcher between the test of [workerCount] against [maxWorkers]
    and [workerCount.Add(1)]. *)
Definition spawning (g : goroutine) : bool :=
  match g with
  | GDispatch d => match dat d with DSpawn _ | DCount => true | _ => false end
  | _ => false
  end.

(** The workers that the dispatcher has started and not yet counted. *)
Definition uncounted (s : state) : Z := tally counting (procs s).

(** [workerCount] and the wait group count the workers. *)
Record acct (s : state) : Prop := {
  acct_count :
    (workerCount (pool s) + uncounted s)%Z = tally counted (procs s);
  acct_wg : wg s = tally unfinished (procs s);
  acct_range : (0 <= workerCount (pool s) <= maxWorkers (pool s))%Z;
  acct_room : (0 < tally spawning (procs s))%Z ->
    (workerCount (pool s) < maxWorkers (pool s))%Z;
  acct_size : (1 <= maxWorkers (pool s))%Z;
  acct_start : forall i b,
    procs s !! i = Some (GDispatch (Dsp DStart b)) ->
    workerCount (pool s) = 0%Z;
}.

(** *** What is true when [Stop] returns *)

(** The dispatcher has left [runQueuedTasks] behind. *)
Definition past_drain (pc : dpc) : bool :=
  match pc with
  | DStopWorkers | DStopSend _ | DStopDec | DWgWait | DTimerStop
  | DCloseStopped | DExit => true
  | _ => false
  end.

(** What the dispatcher has achieved when it is at [pc]. *)
Definition settled_at (s : state) (pc : dpc) : Prop :=
  (past_drain pc = true -> wait (pool s) = true ->
   waitingQueue (pool s) = []) /\
  match pc with
  | DWgWait => workerCount (pool s) = 0%Z
  | DTimerStop => workerCount (pool s) = 0%Z /\ wg s = 0%Z
  | DCloseStopped | DExit =>
      workerCount (pool s) = 0%Z /\ wg s = 0%Z /\ timer s = false
  | _ => True
  end /\
  (closed (chans s stoppedChan) = true -> pc = DExit).

Record settled (s : state) : Prop := {
  settled_dispatcher :
    forall d, dispatcher_of s = Some d -> settled_at s (dat d);
  settled_caller :
    forall i, procs s !! i = Some (GClient CStopped) ->
      closed (chans s stoppedChan) = true;
}.

(** *** The size of the waiting queue *)

(** [func (p *WorkerPool) WaitingQueueSize() int] *)
Definition WaitingQueueSize (p : WorkerPool) : Z := waiting p.

(** In [runQueuedTasks] the task popped off the queue is still counted
    until the store that follows its hand-over. *)
Definition draining (s : state) : nat :=
  match dispatcher_at s with
  | Some (DRunSend _) | Some DRunStore => 1
  | _ => 0
  end.

Definition waiting_ok (s : state) : Prop :=
  waiting (pool s)
  = wrap32 (Z.of_nat (length (waitingQueue (pool s)) + draining s)).

(** *** The deadline path of the worker *)

(** The context of the task is done: its deadline has passed or it has been
    cancelled. *)
Definition ctx_done (s : state) (t : poolTask) : Prop :=
  exists c ch, ctx t = Some c /\ Done c = Some ch /\
               closed (chans s ch) = true.

(** The worker is at [task.Err <- err] of the deadline path only when the
    context of its task is done. *)
Definition timeouts_real (s : state) : Prop :=
  forall i w t e, procs s !! i = Some (GWorker w (WPublishT t e)) ->
    ctx_done s t.

(** *** The workers and their channels *)

(** A worker is named by its place among the goroutines; its helper comes
    after it; a [tasks] channel is used only once its worker exists, and is
    closed only when its worker has returned. *)
Record ids_ok (s : state) : Prop := {
  ids_worker : forall i w pc, procs s !! i = Some (GWorker w pc) -> w = i;
  ids_helper : forall i w pc,
    procs s !! i = Some (GHelper w pc) -> w < length (procs s);
  ids_bufs : forall w,
    length (procs s) <= w -> buf (chans s (tasksCh w)) = [];
  ids_closed : forall w,
    closed (chans s (tasksCh w)) = true ->
    procs s !! w = Some (GWorker w WExit);
}.

(** *** Where the tasks are *)

(** The task with a function to run whose result channel was made by the
    [k]-th [NewTask]. *)
Definition is_task (k : nat) (t : poolTask) : bool :=
  match task t, Err t with
  | Some _, Some (ErrCh k') => k' =? k
  | _, _ => false
  end.

(** How often task [k] occurs in a list. *)
Fixpoint cnt (k : nat) (l : list poolTask) : Z :=
  match l with
  | [] => 0
  | t :: l' => ((if is_task k t then 1 else 0) + cnt k l')%Z
  end.

Definition tasks_of (l : list val) : list poolTask :=
  concat (map (fun v => match v with VTask t => [t] | _ => [] end) l).

(** The task a goroutine holds and that has not been run: the goroutine
    will hand it on, queue it, or call its function. *)
Definition runnable (g : goroutine) : list poolTask :=
  match g with
  | GDispatch d => dpc_tasks (dat d)
  | GWorker _ pc =>
      match pc with
      | WStart t | WLoop t | WRun t | WHandOver t => [t]
      | _ => []
      end
  | GHelper _ pc => match pc with HCall t => [t] | _ => [] end
  | GClient pc =>
      match pc with CSubmitSend t | CWaitSend t => [t] | _ => [] end
  end.

Fixpoint total (f : goroutine -> Z) (l : list goroutine) : Z :=
  match l with
  | [] => 0
  | g :: l' => (f g + total f l')%Z
  end.

(** Task [k] in the [tasks] channels of the first [n] goroutines. *)
Fixpoint bufs_below (k : nat) (ch : chan -> chanState) (n : nat) : Z :=
  match n with
  | 0 => 0
  | S n' => (cnt k (tasks_of (buf (ch (tasksCh n')))) + bufs_below k ch n')%Z
  end.

(** The waiting queue, without the front that [processWaitingQueue] has
    given to a worker and not yet popped. *)
Definition queued (s : state) : list poolTask :=
  match dispatcher_at s with
  | Some DPwqPop => tail (waitingQueue (pool s))
  | _ => waitingQueue (pool s)
  end.

(** In how many places task [k] is held, not yet run: by a caller before
    its send, by the dispatcher, on the waiting queue, by a worker, in a
    [tasks] channel, by a helper. *)
Definition places (k : nat) (s : state) : Z :=
  (total (fun g => cnt k (runnable g)) (procs s) + cnt k (queued s)
   + bufs_below k (chans s) (length (procs s)))%Z.

(** The calls of the function of task [k]. *)
Definition called (k : nat) (e : event) : Z :=
  match e with
  | ECall _ g _ => cnt k (runnable g)
  | _ => 0
  end.

Fixpoint calls (k : nat) (tr : list event) : Z :=
  match tr with
  | [] => 0
  | e :: tr' => (called k e + calls k tr')%Z
  end.

(** The event is the [NewTask] of [Submit] or [SubmitWait] that makes
    task [k]. *)
Definition born (k : nat) (s : state) (e : event) : Z :=
  match e with
  | EDo _ (GClient _) [Fresh] => if newTasks s =? k then 1 else 0
  | _ => 0
  end.

(** Task [k] has been made: [NewTask] has been called more than [k]
    times. *)
Definition made (k : nat) (s : state) : Z :=
  if k <? newTasks s then 1 else 0.

(** *** No panic in the pool *)

(** The dispatcher asks for the front of the waiting queue only when there
    is one, and nobody else closes [stoppedChan]. *)
Definition dispatch_safe (s : state) : Prop :=
  match dispatcher_at s with
  | Some DProcess | Some DPwqPop => waitingQueue (pool s) <> []
  | _ => True
  end /\
  (closed (chans s stoppedChan) = true -> dispatcher_at s = Some DExit).

(** The task a helper holds after the call of its function, until it has
    closed the task's [done] channel. *)
Definition finishing (g : goroutine) : list poolTask :=
  match g with
  | GHelper _ (HPublish t _ | HCloseDone t) => [t]
  | _ => []
  end.

(** Task [k] is with a helper that has called it, or its [done] channel is
    closed. *)
Definition closing (k : nat) (s : state) : Z :=
  (total (fun g => cnt k (finishing g)) (procs s)
   + (if closed (chans s (doneCh k)) then 1 else 0))%Z.

(** The calls of the function of task [k] by a helper. *)
Definition called_by_helper (k : nat) (e : event) : Z :=
  match e with
  | ECall _ (GHelper w pc) _ => cnt k (runnable (GHelper w pc))
  | _ => 0
  end.

(** [New(1)]; one caller stops the pool, another submits a task. *)
Definition late_submit : state :=
  init 1 [CStop false; CSubmit (Some Background) plain_fn 0].

(** *** What a result channel delivers *)

(** The local states a goroutine can reach from an offer when the values
    it receives satisfy [V] and only the channels in [C] are closed. *)
Definition comm_gets {L} (V : chan -> val -> Prop) (C : chan -> Prop)
    (cm : comm L) (l : L) : Prop :=
  match cm with
  | Send _ _ k => l = k
  | Recv c k =>
      exists v, l = k v /\
        (forall c0 x, c = Some c0 -> v = Some x -> V c0 x) /\
        (forall c0, c = Some c0 -> v = None -> C c0)
  end.

Definition offer_gets {L} (V : chan -> val -> Prop) (C : chan -> Prop)
    (o : offer L) (l : L) : Prop :=
  match o with
  | Do _ k | Close _ k | WgWait k | Lock _ k => l = k
  | Select cs d => (exists cm, cm ∈ cs /\ comm_gets V C cm l) \/ d = Some l
  | Call fn k => exists e, fn = Some (Returns e) /\ l = k e
  | Panic | Exit => False
  end.

(** What the result channel of task [t] can carry: the outcome of its
    function, or [ErrTimeout] when the task has a deadline. *)
Definition outcome_of (t : poolTask) (e : outcome) : Prop :=
  task t = Some (Returns e) \/ (supervised t /\ e = Some ErrTimeout).

(** [tbl] lists the tasks in the order of their [NewTask] calls: the
    [k]-th one owns the channel [ErrCh k]. *)
Definition known (tbl : list poolTask) (t : poolTask) : Prop :=
  forall c, Err t = Some c -> exists k, c = ErrCh k /\ tbl !! k = Some t.

(** The outcome a worker or a helper holds after the call is the one of
    its task's function. *)
Definition ran (g : goroutine) : Prop :=
  match g with
  | GWorker _ (WPublish t e) | GHelper _ (HPublish t e) =>
      task t = Some (Returns e)
  | _ => True
  end.

Definition res_ok (tbl : list poolTask) (g : goroutine) : Prop :=
  tidy_ok g /\ Forall (known tbl) (held g) /\ ran g.

Definition res_val (tbl : list poolTask) (c : chan) (v : val) : Prop :=
  tidy_val c v /\
  match v with
  | VTask t => known tbl t
  | VErr e => forall k, c = ErrCh k -> exists t, tbl !! k = Some t /\ outcome_of t e
  | VUnit => True
  end.

Definition res_task (tbl : list poolTask) (t : poolTask) : Prop :=
  real t /\ known tbl t.

Definition results (tbl : list poolTask) : state -> Prop :=
  local (res_ok tbl) (res_val tbl) (res_task tbl) closable.

(** The offer is a [NewTask] call. *)
Definition takes_number {L} (o : offer L) : bool :=
  match o with Do [Fresh] _ => true | _ => false end.

(** What a call of [Submit] or [SubmitWait] with function [fn] and
    timeout [timeout] may deliver. *)
Definition result_of (fn : option func) (timeout : Z) (e : outcome) : Prop :=
  fn = Some (Returns e) \/ ((0 < timeout)%Z /\ e = Some ErrTimeout).

(** [t] is the task that the call made. *)
Definition sent_for (tbl : list poolTask) (fn : option func) (timeout : Z)
    (t : poolTask) : Prop :=
  task t = fn /\ real t /\ (supervised t -> (0 < timeout)%Z) /\
  exists k, Err t = Some (ErrCh k) /\ tbl !! k = Some t.

(** Where a caller that entered at [pc0] can be, and what it has got. *)
Definition call_state (tbl : list poolTask) (pc0 pc : cpc) : Prop :=
  match pc0 with
  | CSubmitWait c fn timeout =>
      match pc with
      | CSubmitWait _ _ _ => pc = pc0
      | CWaitSend t | CWaitRecv t => sent_for tbl fn timeout t
      | CReturned e =>
          match fn with
          | None => e = None
          | Some _ => result_of fn timeout e
          end
      | _ => False
      end
  | CSubmit c fn timeout =>
      match pc with
      | CSubmit _ _ _ => pc = pc0
      | CSubmitSend t => sent_for tbl fn timeout t
      | CSubmitClose ch => fn = None /\ exists n, ch = nilFnCh n
      | CHolding ch got =>
          match fn with
          | None => (exists n, ch = Some (nilFnCh n)) /\ Forall (fun v => v = None) got
          | Some _ =>
              (exists t, sent_for tbl fn timeout t /\ ch = Err t) /\
              Forall (fun v => exists e, v = Some (VErr e) /\
                                         result_of fn timeout e) got
          end
      | _ => False
      end
  | _ => True
  end.

(** Every caller of the pool is where its entry point leads. *)
Definition callers_ok (tbl : list poolTask) (callers : list cpc) (s : state)
    : Prop :=
  forall j pc0, callers !! j = Some pc0 ->
    exists pc, procs s !! S j = Some (GClient pc) /\ call_state tbl pc0 pc.

(** *** A call of [SubmitWait] and a call of [Submit] that are served *)

Definition failing_fn : option func := Some (Returns (Some (UserErr "failed"))).

Definition served_callers : list cpc :=
  [CSubmitWait (Some Background) failing_fn 0;
   CSubmit (Some Background) failing_fn 0].

Definition served_init : state := init 2 served_callers.

(** The first task gets a new worker, which runs both tasks and publishes
    their outcomes; the callers read their channels. *)
Definition served_moves : list move :=
  [Run 0; Run 0;            (* dispatch: timer, loop head, select *)
   Run 1; Sync 1 0 0 0;     (* SubmitWait: NewTask, p.taskQueue <- t *)
   Default 0;               (* no worker ready *)
   Run 0; Run 0; Run 0;     (* wg.Add(1); go worker(task, ...): goroutine 3;
                               workerCount.Add(1) *)
   Run 3; Run 3; Run 3; Comm 3 0;   (* the worker runs the task *)
   Comm 1 0;                (* SubmitWait: return <-task.Err *)
   Run 0; Run 0;            (* idle = false; loop head, select *)
   Run 2; Sync 2 0 0 0;     (* Submit: NewTask, p.taskQueue <- t *)
   Sync 0 0 3 0;            (* p.workerQueue <- task: the worker is ready *)
   Run 3; Run 3; Comm 3 0;  (* the worker runs the second task *)
   Comm 2 0].               (* the caller of Submit reads the channel *)

(** *** One result for a task without deadline *)

(** The worker holds the outcome of its task and has not yet sent it. *)
Definition publishing (g : goroutine) : list poolTask :=
  match g with GWorker _ (WPublish t _) => [t] | _ => [] end.

(** How many workers are about to publish the outcome of task [k]. *)
Definition pubs (k : nat) (s : state) : Z :=
  total (fun g => cnt k (publishing g)) (procs s).

(** The number of values in the result channel of task [k]. *)
Definition stored (k : nat) (s : state) : Z :=
  Z.of_nat (length (buf (chans s (ErrCh k)))).

(** The event takes a value from the result channel of task [k]. *)
Definition read (k : nat) (e : event) : Z :=
  match e with
  | ERecv _ _ (ErrCh k') (Some _) => if k' =? k then 1 else 0
  | _ => 0
  end.

Fixpoint reads (k : nat) (tr : list event) : Z :=
  match tr with
  | [] => 0
  | e :: tr' => (read k e + reads k tr')%Z
  end.

(** Task [k] of the table has no deadline. *)
Definition plain (tbl : list poolTask) (k : nat) : Prop :=
  forall t, tbl !! k = Some t -> cancel t = None.

(** A caller has read no more values from the result channel of task [k]
    than were taken from it. *)
Definition reads_ok (tr : list event) (s : state) : Prop :=
  forall i k got,
    procs s !! i = Some (GClient (CHolding (Some (ErrCh k)) got)) ->
    (Z.of_nat (length got) <= reads k tr)%Z.

(** The outcomes of a task without deadline: published once. *)
Definition once_ok (tbl : list poolTask) (tr : list event) (s : state) : Prop :=
  forall k, plain tbl k ->
    (pubs k s + stored k s + reads k tr = calls k tr)%Z.

(** The task of the first caller of [served_init], and the moves up to the
    point where the worker has run it. *)
Definition served_task : poolTask :=
  {| task := failing_fn; Err := Some (ErrCh 0); done := None;
     ctx := Some Background; cancel := None |}.

Definition served_until_publish : list move := take 11 served_moves.

(** *** The outcome of a task without deadline is not lost *)

(** The result channel of the task that the caller has made. *)
Definition awaited (pc : cpc) : option chan :=
  match pc with
  | CSubmitSend t | CWaitSend t | CWaitRecv t => Err t
  | CHolding ch _ => ch
  | _ => None
  end.

(** The task of a caller is held at one place, or has been called once. *)
Definition submitted_ok (tr : list event) (s : state) : Prop :=
  forall i pc k,
    procs s !! i = Some (GClient pc) -> awaited pc = Some (ErrCh k) ->
    (places k s + calls k tr = 1)%Z.

(** A call of [Submit] or [SubmitWait] with a function and no timeout. *)
Definition no_timeout (pc0 : cpc) : Prop :=
  match pc0 with
  | CSubmit _ (Some _) timeout | CSubmitWait _ (Some _) timeout =>
      (timeout <= 0)%Z
  | _ => False
  end.

(** The moves of [served_moves] up to the point where the second caller
    has got its channel from [Submit]. *)
Definition served_until_second : list move := take 17 served_moves.

(** * Properties *)

Lemma select_cases_Some (o : offer goroutine) n cm :
  select_cases o !! n = Some cm -> exists cs d, o = Select cs d /\ cs !! n = Some cm.
Proof.
  destruct o; simpl; try (rewrite lookup_nil; discriminate).
  intros H. eauto.
Qed.

Lemma step_stepR s m e s' :
  step s m = Some (e, s') -> crashed s = false /\ stepR s e s'.
Proof.
  unfold step. destruct (crashed s) eqn:Hc; [discriminate|].
  intros H. split; [reflexivity|].
  destruct m as [i|i n|i n j m|i|k|].
  - destruct (procs s !! i) as [g|] eqn:Hg; simpl in H; [|discriminate].
    unfold step_run in H.
    destruct (offer_at s g) as [acts k|cs d|f k|c k|k|lk k| |] eqn:Ho;
      try discriminate.
    + inversion H; subst. by apply R_do.
    + destruct f as [[e0|]|]; try discriminate.
      * inversion H; subst. by eapply R_call.
      * inversion H; subst. by apply R_panic.
    + destruct c as [c|].
      * destruct (closed (chans s c)) eqn:Hcl; inversion H; subst.
        -- by apply R_panic.
        -- by eapply R_close.
      * inversion H; subst. by apply R_panic.
    + destruct (wg s =? 0)%Z eqn:Hw; [|discriminate].
      inversion H; subst. eapply R_wait; eauto. lia.
    + destruct (locked (pool s) lk) eqn:Hlk; [discriminate|].
      inversion H; subst. by eapply R_lock.
    + inversion H; subst. by apply R_panic.
  - destruct (procs s !! i) as [g|] eqn:Hg; simpl in H; [|discriminate].
    destruct (select_cases (offer_at s g) !! n) as [cm|] eqn:Hcm;
      simpl in H; [|discriminate].
    apply select_cases_Some in Hcm as (cs & d & Ho & Hn).
    unfold step_comm in H. destruct cm as [[c|] v k|[c|] k]; try discriminate.
    + destruct (closed (chans s c)) eqn:Hcl.
      { inversion H; subst. by apply R_panic. }
      destruct (length (buf (chans s c)) <? cap c) eqn:Hlen; [|discriminate].
      inversion H; subst. eapply R_send; eauto.
      by apply Nat.ltb_lt.
    + destruct (buf (chans s c)) as [|v rest] eqn:Hb.
      * destruct (closed (chans s c)) eqn:Hcl; [|discriminate].
        inversion H; subst. eapply R_recv_closed; eauto.
      * inversion H; subst. eapply R_recv; eauto.
  - destruct (procs s !! i) as [g|] eqn:Hg; simpl in H; [|discriminate].
    destruct (select_cases (offer_at s g) !! n) as [cm|] eqn:Hcm;
      simpl in H; [|discriminate].
    destruct (procs s !! j) as [g'|] eqn:Hg'; simpl in H; [|discriminate].
    destruct (select_cases (offer_at s g') !! m) as [cm'|] eqn:Hcm';
      simpl in H; [|discriminate].
    apply select_cases_Some in Hcm as (cs & d & Ho & Hn).
    apply select_cases_Some in Hcm' as (cs' & d' & Ho' & Hn').
    unfold step_sync in H.
    destruct cm as [[c|] v k|]; try discriminate.
    destruct cm' as [|[c'|] k']; try discriminate.
    match type of H with (if ?b then _ else _) = _ => destruct b eqn:Hb end;
      [|discriminate].
    inversion H; subst.
    repeat (apply andb_prop in Hb as [Hb ?]).
    apply bool_decide_eq_true in Hb. subst c'.
    eapply R_sync; eauto.
    + intros ->. rewrite Nat.eqb_refl in *. discriminate.
    + by apply Nat.eqb_eq.
    + by destruct (closed (chans s c)).
    + rewrite Ho, Ho' in *. destruct d, d'; simpl in *; auto; discriminate.
  - destruct (procs s !! i) as [g|] eqn:Hg; simpl in H; [|discriminate].
    destruct (offer_at s g) as [| cs [k|] | | | | | |] eqn:Ho; try discriminate.
    destruct (forallb _ cs) eqn:Hall; [|discriminate].
    inversion H; subst. by eapply R_default.
  - match type of H with (if ?b then _ else _) = _ => destruct b eqn:Hb end;
      [|discriminate].
    inversion H; subst. apply andb_prop in Hb as [Hk Hcl].
    apply R_expire; [by apply Nat.ltb_lt | by destruct (closed _)].
  - match type of H with (if ?b then _ else _) = _ => destruct b eqn:Hb end;
      [|discriminate].
    inversion H; subst. apply andb_prop in Hb as [Ht Hbuf].
    apply R_tick; [done | by apply bool_decide_eq_true in Hbuf].
Qed.

Lemma run_exec ms s tr s' : run ms s = Some (tr, s') -> exec s tr s'.
Proof.
  revert s tr s'. induction ms as [|m ms IH]; simpl; intros s tr s' H.
  - inversion H; subst. constructor.
  - destruct (step s m) as [[e s1]|] eqn:Hs; [|discriminate].
    destruct (run ms s1) as [[tr1 s2]|] eqn:Hr; [|discriminate].
    inversion H; subst. eapply exec_cons; eauto.
Qed.

Lemma exec_app s tr s' tr' s'' :
  exec s tr s' -> exec s' tr' s'' -> exec s (tr ++ tr') s''.
Proof.
  induction 1; simpl; intros; [done|]. eapply exec_cons; eauto.
Qed.

(** ** Frame lemmas *)

Lemma run_actions_app a1 a2 s :
  run_actions (a1 ++ a2) s = run_actions a2 (run_actions a1 s).
Proof. unfold run_actions. apply fold_left_app. Qed.

Lemma run_action_procs a s : exists l, procs (run_action a s) = procs s ++ l.
Proof.
  destruct a as [| | | | | | | | | | |[k]| | | | | | |]; simpl;
    try (by exists []; rewrite app_nil_r); eauto.
Qed.

Lemma run_actions_procs acts s :
  exists l, procs (run_actions acts s) = procs s ++ l.
Proof.
  revert s. induction acts as [|a acts IH]; intros s; simpl.
  - exists []. by rewrite app_nil_r.
  - destruct (IH (run_action a s)) as [l Hl].
    destruct (run_action_procs a s) as [l' Hl'].
    exists (l' ++ l). unfold run_actions in *; simpl.
    by rewrite Hl, Hl', app_assoc.
Qed.

Lemma run_actions_lookup acts s i g :
  procs s !! i = Some g -> procs (run_actions acts s) !! i = Some g.
Proof.
  intros H. destruct (run_actions_procs acts s) as [l ->].
  by apply lookup_app_l_Some.
Qed.

Lemma run_action_benign a s :
  benign a = true -> owned (run_action a s) = owned s.
Proof. destruct a as [| | | | | | | | | | |[k]| | | | | | |]; simpl; done. Qed.

Lemma run_actions_benign acts s :
  forallb benign acts = true -> owned (run_actions acts s) = owned s.
Proof.
  revert s. induction acts as [|a acts IH]; intros s; simpl; [done|].
  intros [Ha Hr]%andb_prop. unfold run_actions in *. simpl.
  rewrite IH by done. by apply run_action_benign.
Qed.

Lemma run_action_crashed a s : crashed (run_action a s) = crashed s.
Proof. destruct a as [| | | | | | | | | | |[k]| | | | | | |]; done. Qed.

Lemma actors_lookup s e s' i g :
  stepR s e s' -> (i, g) ∈ actors e -> procs s !! i = Some g.
Proof.
  intros H. destruct H; simpl; intros Hin;
    repeat (apply elem_of_cons in Hin as [Hin|Hin]; [by inversion Hin; subst|]);
    by apply elem_of_nil in Hin.
Qed.

(** After a step a goroutine is where it was, or where its offer leads. *)
Lemma stepR_conts s e s' i g :
  stepR s e s' -> procs s !! i = Some g ->
  exists g', procs s' !! i = Some g' /\
    (g' = g \/ ((i, g) ∈ actors e /\ offer_conts (offer_at s g) g')).
Proof.
  intros H Hi.
  assert (Hset : forall j k (s0 : state), procs s0 = procs s ->
     forall gj, procs s !! j = Some gj ->
     offer_conts (offer_at s gj) k ->
     (j, gj) ∈ actors e ->
     exists g', procs (set_proc j k s0) !! i = Some g' /\
       (g' = g \/ ((i, g) ∈ actors e /\ offer_conts (offer_at s g) g'))).
  { intros j k s0 Hs0 gj Hj Hk Hin. unfold set_proc. simpl. rewrite Hs0.
    destruct (decide (j = i)) as [->|Hne].
    - rewrite list_lookup_insert_eq by (by eapply lookup_lt_Some).
      exists k. split; [done|]. right. rewrite Hi in Hj. by inversion Hj; subst.
    - rewrite list_lookup_insert_ne by done. eauto. }
  destruct H as [j gj acts k Hj Ho|j gj e0 k Hj Ho|j gj c k Hj Ho Hc
    |j gj k Hj Ho Hw|j gj lk k Hj Ho Hlk|j gj Hj|j gj cs d n c v k Hj Ho Hn Hc Hl
    |j gj cs d n c k v rest Hj Ho Hn Hb|j gj cs d n c k Hj Ho Hn Hb Hc
    |j gj cs d n c v k j' gj' cs' d' m k' Hj Ho Hn Hj' Ho' Hm Hne Hcap Hc Hd
    |j gj cs k Hj Ho Hall|k Hk Hc|Ht Hb].
  - destruct (Hset j k s eq_refl gj Hj) as (g' & Hg' & Hor);
      [by rewrite Ho | simpl; repeat constructor | ].
    exists g'. split; [|done]. by apply run_actions_lookup.
  - apply (Hset j (k e0) s eq_refl) with gj; try done.
    + rewrite Ho. simpl. eauto.
    + simpl; repeat constructor.
  - apply (Hset j k (close_chan c s) eq_refl) with gj; try done.
    + by rewrite Ho.
    + simpl; repeat constructor.
  - apply (Hset j k s eq_refl) with gj; try done.
    + by rewrite Ho.
    + simpl; repeat constructor.
  - apply (Hset j k (lock_mutex lk s) eq_refl) with gj; try done.
    + by rewrite Ho.
    + simpl; repeat constructor.
  - exists g. simpl. eauto.
  - apply (Hset j k (set_buf c _ s) eq_refl) with gj; try done.
    + rewrite Ho. simpl. left. eexists. split; [by eapply list_elem_of_lookup_2|done].
    + simpl; repeat constructor.
  - apply (Hset j (k (Some v)) (set_buf c _ s) eq_refl) with gj; try done.
    + rewrite Ho. simpl. left. eexists.
      split; [by eapply list_elem_of_lookup_2|simpl; eauto].
    + simpl; repeat constructor.
  - apply (Hset j (k None) s eq_refl) with gj; try done.
    + rewrite Ho. simpl. left. eexists.
      split; [by eapply list_elem_of_lookup_2|simpl; eauto].
    + simpl; repeat constructor.
  - unfold set_proc. simpl.
    destruct (decide (j' = i)) as [->|Hne'].
    + rewrite list_lookup_insert_eq
        by (rewrite length_insert; by eapply lookup_lt_Some).
      eexists. split; [done|]. right. rewrite Hi in Hj'. inversion Hj'; subst.
      split; [repeat constructor|]. rewrite Ho'. simpl. left. eexists.
      split; [by eapply list_elem_of_lookup_2|simpl; eauto].
    + rewrite list_lookup_insert_ne by done.
      destruct (decide (j = i)) as [->|Hne''].
      * rewrite list_lookup_insert_eq by (by eapply lookup_lt_Some).
        eexists. split; [done|]. right. rewrite Hi in Hj. inversion Hj; subst.
        split; [repeat constructor|]. rewrite Ho. simpl. left. eexists.
        split; [by eapply list_elem_of_lookup_2|done].
      * rewrite list_lookup_insert_ne by done. eauto.
  - apply (Hset j k s eq_refl) with gj; try done.
    + rewrite Ho. simpl. by right.
    + simpl; repeat constructor.
  - exists g. simpl. eauto.
  - exists g. simpl. eauto.
Qed.

Lemma offer_conts_map {L M} (f : L -> M) (o : offer L) (m : M) :
  offer_conts (offer_map f o) m -> exists l, m = f l /\ offer_conts o l.
Proof.
  destruct o as [acts k|cs d|fn k|c k|k|lk k| |]; simpl; try (intros ->; eauto);
    try done.
  - intros [(cm & Hin & Hc)|Hd].
    + apply list_elem_of_fmap in Hin as (cm0 & -> & Hin0).
      destruct cm0 as [c v k|c k]; simpl in *.
      * subst. eexists; split; [done|]. left. exists (Send c v k). done.
      * destruct Hc as [v ->]. eexists; split; [done|]. left.
        exists (Recv c k). split; [done|]. simpl. eauto.
    + destruct d as [l|]; simpl in Hd; [|done]. inversion Hd; subst.
      eexists; split; [done|]. by right.
  - intros [e ->]. eauto.
Qed.

Lemma conts_same_kind s g g' :
  offer_conts (offer_at s g) g' -> same_kind g g'.
Proof.
  destruct g; simpl; intros (l & -> & _)%offer_conts_map; done.
Qed.

Lemma same_kind_dispatcher g g' :
  same_kind g g' -> is_dispatcher g' = is_dispatcher g.
Proof. destruct g, g'; simpl; done. Qed.

Lemma spawned_not_dispatcher g : spawned g -> is_dispatcher g = false.
Proof. by intros [(w & t & ->)|(w & ->)]. Qed.

Lemma run_action_spawn a s :
  exists l, procs (run_action a s) = procs s ++ l /\ Forall spawned l.
Proof.
  destruct a as [| | | | | | | | | | |[k]| | | | | | |]; simpl;
    try (by exists []; rewrite app_nil_r).
  - eexists; split; [done|]. apply Forall_singleton. left. eauto.
  - eexists; split; [done|]. apply Forall_singleton. right. eauto.
Qed.

Lemma run_actions_spawn acts s :
  exists l, procs (run_actions acts s) = procs s ++ l /\ Forall spawned l.
Proof.
  revert s. induction acts as [|a acts IH]; intros s; simpl.
  - exists []. by rewrite app_nil_r.
  - destruct (IH (run_action a s)) as (l & Hl & Hf).
    destruct (run_action_spawn a s) as (l' & Hl' & Hf').
    exists (l' ++ l). unfold run_actions in *; simpl.
    rewrite Hl, Hl', app_assoc. split; [done|]. by apply Forall_app.
Qed.

(** The goroutines after a step: the old ones, in place, then new ones. *)
Lemma stepR_procs s e s' :
  stepR s e s' ->
  exists ps l, procs s' = ps ++ l /\ length ps = length (procs s) /\
               Forall spawned l.
Proof.
  intros H. destruct H; simpl;
    try (eexists _, []; rewrite app_nil_r; split; [done|];
         split; [by rewrite ?length_insert|constructor]).
  destruct (run_actions_spawn acts (set_proc i k s)) as (l & -> & Hl).
  eexists _, l. split; [done|]. split; [|done]. simpl. by rewrite length_insert.
Qed.

(** Where a goroutine of the new state comes from. *)
Lemma stepR_back s e s' i g' :
  stepR s e s' -> procs s' !! i = Some g' ->
  (exists g, procs s !! i = Some g /\
     (g' = g \/ ((i, g) ∈ actors e /\ offer_conts (offer_at s g) g')))
  \/ (procs s !! i = None /\ spawned g').
Proof.
  intros H Hi. destruct (procs s !! i) as [g|] eqn:Hg.
  - left. exists g. split; [done|].
    destruct (stepR_conts _ _ _ _ _ H Hg) as (g'' & Hg'' & Hor).
    rewrite Hi in Hg''. by inversion Hg''; subst.
  - right. split; [done|].
    destruct (stepR_procs _ _ _ H) as (ps & l & Hps & Hlen & Hl).
    apply lookup_ge_None in Hg. rewrite Hps in Hi.
    rewrite lookup_app_r in Hi by lia.
    eapply Forall_forall in Hl; [done|]. by eapply list_elem_of_lookup_2.
Qed.

Lemma sole_dispatcher_step s e s' :
  stepR s e s' -> sole_dispatcher s -> sole_dispatcher s'.
Proof.
  intros H [[d Hd] Hsole]. split.
  - destruct (stepR_conts _ _ _ _ _ H Hd) as (g' & Hg' & [->|[_ Hc]]); [eauto|].
    apply conts_same_kind in Hc. destruct g'; try done. eauto.
  - intros i g' Hi Hdisp.
    destruct (stepR_back _ _ _ _ _ H Hi) as [(g & Hg & Hor)|[_ Hsp]].
    + apply (Hsole i g Hg). destruct Hor as [->|[_ Hc]]; [done|].
      apply conts_same_kind, same_kind_dispatcher in Hc. congruence.
    + apply spawned_not_dispatcher in Hsp. congruence.
Qed.

Lemma sole_dispatcher_exec s tr s' :
  exec s tr s' -> sole_dispatcher s -> sole_dispatcher s'.
Proof.
  induction 1 as [|s m e s1 tr s2 Hs _ IH]; [done|].
  intros Hd. apply IH. apply step_stepR in Hs as [_ Hs].
  by eapply sole_dispatcher_step.
Qed.

Lemma sole_dispatcher_init n callers : sole_dispatcher (init n callers).
Proof.
  split; [simpl; eauto|]. intros [|i] g; [done|]. simpl.
  rewrite list_lookup_fmap. destruct (callers !! i); simpl; [|done].
  by intros [= <-].
Qed.

(** What a step changes besides the goroutines and the channels. *)
Lemma stepR_do_inv s i g acts s' :
  stepR s (EDo i g acts) s' ->
  exists k, procs s !! i = Some g /\ offer_at s g = Do acts k /\
            s' = run_actions acts (set_proc i k s).
Proof. inversion 1; subst. eauto. Qed.

Lemma stepR_pool s e s' :
  stepR s e s' -> (forall i g acts, e <> EDo i g acts) ->
  owned s' = owned s /\ wg s' = wg s /\ newTasks s' = newTasks s /\
  nilChans s' = nilChans s.
Proof. intros H Hne. destruct H; simpl; try done. by destruct (Hne i g acts). Qed.

Lemma nondispatcher_benign s g acts k :
  is_dispatcher g = false -> offer_at s g = Do acts k ->
  forallb benign acts = true.
Proof.
  destruct g as [d|w pc|w pc|pc]; [done|..]; intros _; destruct pc; simpl;
    repeat case_match; first [done | by intros [= <- <-]].
Qed.

(** Only the dispatcher changes its variables. *)
Lemma owned_frame s e s' :
  stepR s e s' ->
  (forall i g, (i, g) ∈ actors e -> is_dispatcher g = false) ->
  owned s' = owned s.
Proof.
  intros H Hact. destruct H; simpl; try done.
  rewrite run_actions_benign; [done|].
  eapply nondispatcher_benign; [|done]. apply (Hact i). simpl. constructor.
Qed.

Lemma dispatcher_frame s e s' d :
  stepR s e s' -> procs s !! 0 = Some (GDispatch d) ->
  (0, GDispatch d) ∉ actors e ->
  procs s' !! 0 = Some (GDispatch d).
Proof.
  intros H Hd Hn.
  destruct (stepR_conts _ _ _ _ _ H Hd) as (g' & Hg' & [->|[Hin _]]); done.
Qed.

(** Breaks up a hypothesis [offer_conts o l] for a concrete offer [o]. *)
Ltac conts_cases :=
  repeat first [ progress subst | match goal with
  | H : False |- _ => destruct H
  | H : _ \/ _ |- _ => destruct H
  | H : exists _, _ |- _ => destruct H
  | H : _ /\ _ |- _ => destruct H
  | H : _ ∈ _ :: _ |- _ => apply elem_of_cons in H
  | H : _ ∈ [] |- _ => apply elem_of_nil in H
  | H : comm_conts _ _ |- _ => progress simpl in H
  | H : offer_conts _ _ |- _ => progress simpl in H
  | H : offer_conts (match ?x with _ => _ end) _ |- _ => destruct x eqn:?
  | H : offer_conts (if ?x then _ else _) _ |- _ => destruct x eqn:?
  | H : offer_conts (with_pill _ _) _ |- _ => unfold with_pill in H
  | H : Some _ = Some _ |- _ => inversion H; clear H
  | H : None = Some _ |- _ => discriminate H
  end ].

Lemma worker_conts s w pc g' :
  offer_conts (offer_at s (GWorker w pc)) g' ->
  exists pc', g' = GWorker w pc' /\ offer_conts (worker w pc) pc'.
Proof. simpl. apply offer_conts_map. Qed.

(** ** Taking a step *)

Lemma set_proc_lookup s i g :
  i < length (procs s) -> procs (set_proc i g s) !! i = Some g.
Proof. intros H. simpl. by apply list_lookup_insert_eq. Qed.

Lemma set_proc_lookup_ne s i j g :
  i <> j -> procs (set_proc i g s) !! j = procs s !! j.
Proof. intros H. simpl. by apply list_lookup_insert_ne. Qed.

Lemma set_proc_twice s i g g' :
  set_proc i g' (set_proc i g s) = set_proc i g' s.
Proof. unfold set_proc. simpl. by rewrite list_insert_insert_eq. Qed.

Lemma run_cons m ms s e s1 tr s2 :
  step s m = Some (e, s1) -> run ms s1 = Some (tr, s2) ->
  run (m :: ms) s = Some (e :: tr, s2).
Proof. intros H1 H2. simpl. by rewrite H1, H2. Qed.

Lemma step_do s i g acts k :
  crashed s = false -> procs s !! i = Some g -> offer_at s g = Do acts k ->
  step s (Run i) = Some (EDo i g acts, run_actions acts (set_proc i k s)).
Proof.
  intros Hc Hi Ho. unfold step. rewrite Hc, Hi. simpl. unfold step_run.
  by rewrite Ho.
Qed.

Lemma step_call s i g e k :
  crashed s = false -> procs s !! i = Some g ->
  offer_at s g = Call (Some (Returns e)) k ->
  step s (Run i) = Some (ECall i g e, set_proc i (k e) s).
Proof.
  intros Hc Hi Ho. unfold step. rewrite Hc, Hi. simpl. unfold step_run.
  by rewrite Ho.
Qed.

Lemma step_close s i g c k :
  crashed s = false -> procs s !! i = Some g ->
  offer_at s g = Close (Some c) k -> closed (chans s c) = false ->
  step s (Run i) = Some (EClose i g c, set_proc i k (close_chan c s)).
Proof.
  intros Hc Hi Ho Hcl. unfold step. rewrite Hc, Hi. simpl. unfold step_run.
  by rewrite Ho, Hcl.
Qed.

Lemma step_send s i g cs d n c v k :
  crashed s = false -> procs s !! i = Some g -> offer_at s g = Select cs d ->
  cs !! n = Some (Send (Some c) v k) ->
  closed (chans s c) = false -> length (buf (chans s c)) < cap c ->
  step s (Comm i n)
    = Some (ESend i g c v, set_proc i k (set_buf c (buf (chans s c) ++ [v]) s)).
Proof.
  intros Hc Hi Ho Hn Hcl Hlen. unfold step. rewrite Hc, Hi. simpl.
  rewrite Ho. simpl. rewrite Hn. simpl. rewrite Hcl.
  apply Nat.ltb_lt in Hlen. by rewrite Hlen.
Qed.

Lemma step_recv s i g cs d n c k v rest :
  crashed s = false -> procs s !! i = Some g -> offer_at s g = Select cs d ->
  cs !! n = Some (Recv (Some c) k) -> buf (chans s c) = v :: rest ->
  step s (Comm i n)
    = Some (ERecv i g c (Some v), set_proc i (k (Some v)) (set_buf c rest s)).
Proof.
  intros Hc Hi Ho Hn Hb. unfold step. rewrite Hc, Hi. simpl.
  rewrite Ho. simpl. rewrite Hn. simpl. by rewrite Hb.
Qed.

Lemma step_recv_closed s i g cs d n c k :
  crashed s = false -> procs s !! i = Some g -> offer_at s g = Select cs d ->
  cs !! n = Some (Recv (Some c) k) ->
  buf (chans s c) = [] -> closed (chans s c) = true ->
  step s (Comm i n) = Some (ERecv i g c None, set_proc i (k None) s).
Proof.
  intros Hc Hi Ho Hn Hb Hcl. unfold step. rewrite Hc, Hi. simpl.
  rewrite Ho. simpl. rewrite Hn. simpl. by rewrite Hb, Hcl.
Qed.

Lemma step_sync_blocking s i g cs n c v k j g' cs' m k' :
  crashed s = false ->
  procs s !! i = Some g -> offer_at s g = Select cs None ->
  cs !! n = Some (Send (Some c) v k) ->
  procs s !! j = Some g' -> offer_at s g' = Select cs' None ->
  cs' !! m = Some (Recv (Some c) k') ->
  i <> j -> cap c = 0 -> closed (chans s c) = false ->
  step s (Sync i n j m)
    = Some (ESync i g j g' c v, set_proc j (k' (Some v)) (set_proc i k s)).
Proof.
  intros Hc Hi Ho Hn Hj Ho' Hm Hne Hcap Hcl. unfold step.
  rewrite Hc, Hi. simpl. rewrite Ho. simpl. rewrite Hn. simpl.
  rewrite Hj. simpl. rewrite Ho'. simpl. rewrite Hm. simpl.
  unfold step_sync. rewrite ?Ho, ?Ho', Hcl, Hcap. simpl.
  rewrite bool_decide_eq_true_2 by done.
  apply Nat.eqb_neq in Hne. by rewrite Hne.
Qed.

(** ** The worker loop *)

(** C10: a worker leaves its loop exactly when the task it holds has a nil
    function.  At the loop head the worker goes on to [wg.Done()] if and only
    if [task.task] is nil, whatever the [ctx] field (and every other field)
    holds; and [wg.Done()] is reached from nowhere else. *)
Theorem worker_exits_iff_nil_fn :
  (forall s i w t, crashed s = false ->
     procs s !! i = Some (GWorker w (WLoop t)) ->
     exists s', step s (Run i) = Some (EDo i (GWorker w (WLoop t)) [], s') /\
       (procs s' !! i = Some (GWorker w WDone) <-> task t = None)) /\
  (forall s m e s' i w, step s m = Some (e, s') ->
     procs s' !! i = Some (GWorker w WDone) ->
     procs s !! i = Some (GWorker w WDone) \/
     exists t, procs s !! i = Some (GWorker w (WLoop t)) /\ task t = None).
Proof.
  split.
  - intros s i w t Hc Hi. eexists. split.
    + unfold step. rewrite Hc, Hi. simpl. unfold step_run. simpl. reflexivity.
    + simpl. rewrite list_lookup_insert_eq by (by eapply lookup_lt_Some).
      destruct (task t); [|done]. destruct (cancel t); split; done.
  - intros s m e s' i w Hs Hi. apply step_stepR in Hs as [_ Hs].
    destruct (stepR_back _ _ _ _ _ Hs Hi) as [(g & Hg & Hor)|[_ Hsp]].
    + destruct Hor as [->|[_ Hc]]; [by left|]. right.
      pose proof (conts_same_kind _ _ _ Hc) as Hk.
      destruct g as [|w' pc| |]; try done. simpl in Hk. subst w'.
      apply worker_conts in Hc as (pc' & [= <-] & Hc).
      destruct pc; conts_cases; try discriminate.
      destruct (task t) eqn:Ht; [|eauto].
      destruct (cancel t); discriminate.
    + destruct Hsp as [(? & ? & ?)|(? & ?)]; discriminate.
Qed.

(** ** The façade with a nil function *)

(** C8: [Submit] and [SubmitWait] with [fn == nil] do not touch the pool.
    [Submit] makes a channel, closes it and returns it: no [NewTask] call,
    nothing offered on [taskQueue], the pool's fields, every other goroutine
    and every other channel as before.  [SubmitWait] returns nil in one
    step that changes nothing but the caller. *)
Theorem nil_fn_is_noop :
  forall s i c timeout, crashed s = false ->
    chans s (nilFnCh (nilChans s)) = {| buf := []; closed := false |} ->
    (procs s !! i = Some (GClient (CSubmit c None timeout)) ->
     exists g' s',
       let ch := nilFnCh (nilChans s) in
       run [Run i; Run i] s
         = Some ([EDo i (GClient (CSubmit c None timeout)) [FreshNil];
                  EClose i g' ch], s') /\
       procs s' = <[i := GClient (CHolding (Some ch) [])]> (procs s) /\
       chans s' ch = {| buf := []; closed := true |} /\
       (forall c', c' <> ch -> chans s' c' = chans s c') /\
       pool s' = pool s /\ newTasks s' = newTasks s /\ wg s' = wg s) /\
    (procs s !! i = Some (GClient (CSubmitWait c None timeout)) ->
     step s (Run i)
       = Some (EDo i (GClient (CSubmitWait c None timeout)) [],
               set_proc i (GClient (CReturned None)) s)).
Proof.
  intros s i c timeout Hc Hfresh. split; intros Hi.
  - eexists _, _. cbv zeta. split; [|split; [|split; [|split]]].
    + unfold run, step. rewrite Hc, Hi. simpl. unfold step_run. simpl.
      rewrite Hc. rewrite list_lookup_insert_eq by (by eapply lookup_lt_Some).
      simpl. rewrite Hfresh. simpl. reflexivity.
    + simpl. by rewrite list_insert_insert_eq.
    + simpl. rewrite decide_True by done. by rewrite Hfresh.
    + intros c' Hne. simpl. by rewrite decide_False.
    + done.
  - unfold step. rewrite Hc, Hi. reflexivity.
Qed.

(** ** Nil contexts *)

(** C3 (as stated, refuted): with a positive timeout [NewTask] derives the
    deadline context from the nil parent, and that panics; the same call with
    the background context succeeds.  A [Submit] with a nil context and a
    positive timeout crashes the program in its first step. *)
Lemma nil_ctx_positive_timeout_panics :
  NewTask None (Some (Returns None)) [5%Z] 0 = Panicked /\
  (exists t, NewTask (Some Background) (Some (Returns None)) [5%Z] 0 = Ok t) /\
  exists e s', step (init 1 [CSubmit None (Some (Returns None)) 5]) (Run 1)
                 = Some (e, s') /\ crashed s' = true.
Proof.
  split; [reflexivity|]. split; [eexists; reflexivity|].
  eexists _, _. split; reflexivity.
Qed.

(** C3 (amended): without a positive timeout a nil context is as good as
    the background context.  [NewTask] succeeds and builds the same task up
    to the stored [ctx]; a worker holding that task runs the function,
    publishes its outcome and awaits the next task without looking at [ctx],
    and ends in the very state it reaches with the background context.  With
    a positive timeout [NewTask] panics on the nil context. *)
Theorem nil_ctx_without_deadline :
  forall fn timeout k,
    (timeout <= 0)%Z ->
    (exists t, NewTask None fn [timeout] k = Ok t /\
       NewTask (Some Background) fn [timeout] k
         = Ok {| task := task t; Err := Err t; done := done t;
                 ctx := Some Background; cancel := cancel t |} /\
       task t = fn /\ Err t = Some (ErrCh k) /\ done t = None /\
       cancel t = None /\ ctx t = None /\
       forall s i w e t', crashed s = false -> i < length (procs s) ->
         fn = Some (Returns e) ->
         chans s (ErrCh k) = {| buf := []; closed := false |} ->
         NewTask (Some Background) fn [timeout] k = Ok t' ->
         exists tr tr' s',
           run [Run i; Run i; Comm i 0] (set_proc i (GWorker w (WLoop t)) s)
             = Some (tr, s') /\
           run [Run i; Run i; Comm i 0] (set_proc i (GWorker w (WLoop t')) s)
             = Some (tr', s') /\
           procs s' !! i = Some (GWorker w WNext) /\
           chans s' (ErrCh k) = {| buf := [VErr e]; closed := false |}) /\
    (forall d, (0 < d)%Z -> NewTask None fn [d] k = Panicked).
Proof.
  intros fn timeout k Hto. split.
  - unfold NewTask. destruct (0 <? timeout)%Z eqn:Hlt; [lia|].
    eexists. split; [reflexivity|]. do 6 (split; [reflexivity|]).
    intros s i w e t' Hc Hi -> Hch [= <-]. cbn [task Err done ctx cancel].
    eexists _, _, _. split; [|split; [|split]].
    + eapply run_cons; [eapply step_do; [done|by apply set_proc_lookup|done]|].
      simpl run_actions. rewrite set_proc_twice.
      eapply run_cons; [eapply step_call; [done|by apply set_proc_lookup|done]|].
      rewrite set_proc_twice.
      eapply run_cons; [|reflexivity].
      eapply step_send; [done|by apply set_proc_lookup|done|done|simpl..].
      * by rewrite Hch.
      * rewrite Hch. simpl. lia.
    + eapply run_cons; [eapply step_do; [done|by apply set_proc_lookup|done]|].
      simpl run_actions. rewrite set_proc_twice.
      eapply run_cons; [eapply step_call; [done|by apply set_proc_lookup|done]|].
      rewrite set_proc_twice.
      eapply run_cons.
      * eapply step_send; [done|by apply set_proc_lookup|done|done|simpl..].
        -- by rewrite Hch.
        -- rewrite Hch. simpl. lia.
      * simpl. do 2 f_equal. unfold set_proc, set_procs. simpl.
        by rewrite !list_insert_insert_eq.
    + apply set_proc_lookup. simpl. by rewrite length_insert.
    + simpl. rewrite decide_True by done. by rewrite Hch.
  - intros d Hd. unfold NewTask. by apply Z.ltb_lt in Hd as ->.
Qed.

(** ** The dispatcher *)

Lemma dispatcher_of_Some s d :
  dispatcher_of s = Some d <-> procs s !! 0 = Some (GDispatch d).
Proof.
  unfold dispatcher_of. destruct (procs s !! 0) as [[]|]; split; congruence.
Qed.

(** A step either involves the dispatcher, or leaves it and its variables
    as they are. *)
Lemma others_or_dispatcher s e s' d :
  stepR s e s' -> sole_dispatcher s -> procs s !! 0 = Some (GDispatch d) ->
  (0, GDispatch d) ∈ actors e \/
  (procs s' !! 0 = Some (GDispatch d) /\ owned s' = owned s /\
   forall i g, (i, g) ∈ actors e -> is_dispatcher g = false).
Proof.
  intros H [_ Hsole] Hd.
  assert (Hfind : forall i g, (i, g) ∈ actors e -> is_dispatcher g = true ->
                  (0, GDispatch d) ∈ actors e).
  { intros i g Hin Hg.
    pose proof (actors_lookup _ _ _ _ _ H Hin) as Hi.
    pose proof (Hsole _ _ Hi Hg) as ->. rewrite Hd in Hi.
    by inversion Hi; subst. }
  destruct (existsb (fun a => is_dispatcher a.2) (actors e)) eqn:Hex.
  { left. apply existsb_exists in Hex as ([i g] & Hin & Hg).
    apply list_elem_of_In in Hin. eauto. }
  right.
  assert (Hact : forall i g, (i, g) ∈ actors e -> is_dispatcher g = false).
  { intros i g Hin. destruct (is_dispatcher g) eqn:Hg; [|done].
    assert (existsb (fun a => is_dispatcher a.2) (actors e) = true); [|congruence].
    apply existsb_exists. exists (i, g). split; [by apply list_elem_of_In|done]. }
  assert (Hnin : (0, GDispatch d) ∉ actors e).
  { intros Hin. by apply Hact in Hin. }
  split; [by eapply dispatcher_frame|]. split; [by eapply owned_frame|done].
Qed.

(** Case analysis on which actor of an event a given goroutine is. *)
Ltac actor_inv Hin :=
  simpl in Hin;
  first [ apply elem_of_nil in Hin; destruct Hin
        | apply elem_of_cons in Hin as [Hin|Hin];
          [inversion Hin; subst; clear Hin | actor_inv Hin] ].

(** Case analysis on the index of a case in a concrete select. *)
Ltac lookup_inv Hn :=
  lazymatch type of Hn with
  | [] !! _ = Some _ => simpl in Hn; discriminate Hn
  | (_ :: _) !! ?n = Some _ =>
      destruct n; simpl in Hn;
      [inversion Hn; subst; clear Hn | lookup_inv Hn]
  end.

Ltac lookups_inv :=
  repeat match goal with
  | Hn : (_ :: _) !! _ = Some _ |- _ => lookup_inv Hn
  end.

Lemma kill_select_others e :
  (forall i g, (i, g) ∈ actors e -> is_dispatcher g = false) ->
  kill_select e = None.
Proof.
  intros H. destruct e; simpl; try done.
  - destruct g as [d| | |]; try done.
    specialize (H i (GDispatch d)). simpl in H.
    discriminate H. constructor.
  - destruct g as [d| | |]; try done.
    specialize (H i (GDispatch d)). simpl in H.
    discriminate H. constructor.
Qed.

Lemma dispatcher_of_crash s : dispatcher_of (crash s) = dispatcher_of s.
Proof. done. Qed.


Ltac offers_inv :=
  repeat match goal with
  | Ho : offer_at _ (GDispatch _) = _ |- _ =>
      simpl in Ho; unfold with_pill in Ho; simpl in Ho;
      first [discriminate Ho | injection Ho as <-; intros; subst]
  end.

Lemma tick_step c0 b0 sent tried s e s' :
  sole_dispatcher s -> tick_inv c0 b0 sent tried s -> stepR s e s' ->
  let sent' := sent || bool_decide (kill_select e = Some true) in
  let tried' := tried || bool_decide (kill_select e <> None) in
  tick_inv c0 b0 sent' tried' s' \/ tick_post c0 b0 sent' tried' s'.
Proof.
  intros Hsole Hinv H. cbv zeta.
  unfold tick_inv in Hinv.
  destruct (dispatcher_of s) as [d|] eqn:Hd; [|done].
  apply dispatcher_of_Some in Hd.
  destruct (others_or_dispatcher _ _ _ _ H Hsole Hd) as [Hin|(Hd' & Hown & Hact)].
  2:{ left. rewrite (kill_select_others _ Hact). simpl.
      rewrite !orb_false_r. unfold tick_inv.
      apply dispatcher_of_Some in Hd'. rewrite Hd'.
      unfold owned in Hown. injection Hown as _ Hc _ _. by rewrite Hc. }
  destruct (procs s) as [|g0 ps] eqn:Hps; [done|].
  simpl in Hd. injection Hd as ->.
  destruct d as [pc b]. simpl in Hinv.
  destruct pc; try done; destruct H; actor_inv Hin; offers_inv; lookups_inv.
  all: unfold tick_inv, tick_post, dispatcher_of; simpl; rewrite ?Hps; simpl.
  all: try match goal with
       | Hne : 0 <> ?j |- _ => destruct j; [done|]; simpl
       end.
  all: repeat case_bool_decide; try done; simpl; rewrite ?orb_false_r, ?orb_true_r.
  all: repeat match goal with H : _ /\ _ |- _ => destruct H end; subst.
  all: try match goal with
       | Hcap : _ < cap _ |- _ => simpl in Hcap; lia
       end.
  all: try (left; repeat split; done).
  all: try (right; repeat split; done).
  - destruct b0; simpl; [|by left].
    destruct (0 <? workerCount (pool s))%Z eqn:E; [|by left].
    apply Z.ltb_lt in E. left. done.
  - left. repeat split; try done. symmetry. by apply Z.ltb_lt.
  - left. repeat split; try done. symmetry. by apply Z.ltb_lt.
Qed.

Lemma tick_inv_in_tick c0 b0 sent tried s :
  tick_inv c0 b0 sent tried s -> in_tick s.
Proof.
  unfold tick_inv, in_tick, dispatcher_at.
  destruct (dispatcher_of s) as [[pc b]|]; simpl; [|done].
  destruct pc; done.
Qed.

Lemma tick_post_not_in_tick c0 b0 sent tried s :
  tick_post c0 b0 sent tried s -> ~ in_tick s.
Proof.
  intros [Hd _]. unfold in_tick, dispatcher_at. rewrite Hd. simpl. tauto.
Qed.

Lemma tick_exec c0 b0 s tr s' :
  exec_in in_tick s tr s' ->
  forall sent tried, sole_dispatcher s -> tick_inv c0 b0 sent tried s ->
  ~ in_tick s' ->
  tick_post c0 b0 (sent || pill_sent tr) (tried || pill_tried tr) s'.
Proof.
  induction 1 as [s|s m e s1 tr s2 HR Hs Hex IH]; intros sent tried Hsole Hinv Hout.
  - destruct Hout. by eapply tick_inv_in_tick.
  - apply step_stepR in Hs as [_ Hs].
    pose proof (sole_dispatcher_step _ _ _ Hs Hsole) as Hsole1.
    unfold pill_sent, pill_tried. simpl. rewrite !orb_assoc.
    destruct (tick_step _ _ _ _ _ _ _ Hsole Hinv Hs) as [Hinv1|Hpost].
    + by apply IH.
    + inversion Hex as [|? ? ? ? ? ? HR1]; subst.
      * simpl. by rewrite !orb_false_r.
      * destruct (tick_post_not_in_tick _ _ _ _ _ Hpost HR1).
Qed.

Lemma wrap64_id z : int64_ok z -> wrap64 z = z.
Proof.
  unfold int64_ok, wrap64. intros H.
  rewrite Z.mod_small by lia. lia.
Qed.

(** ** Every task comes from [NewTask] *)

Lemma built_zero : built zeroTask.
Proof. by left. Qed.

Lemma built_NewTask c fn timeout k t : NewTask c fn timeout k = Ok t -> built t.
Proof. right. eauto. Qed.

Lemma built_as_task v :
  (forall x, v = Some x -> val_ok x) -> built (as_task v).
Proof.
  intros H. destruct v as [[t| |]|]; simpl; try apply built_zero.
  by apply (H (VTask t)).
Qed.

Lemma built_Err t :
  built t -> Err t = None \/ exists k, Err t = Some (ErrCh k).
Proof.
  intros [->|(c & fn & to & k & H)]; [by left|]. right. exists k.
  unfold NewTask in H. repeat case_match; simplify_eq; done.
Qed.

Lemma built_done t :
  built t ->
  (done t = None /\ cancel t = None) \/
  exists k p, done t = Some (doneCh k) /\ cancel t = Some (CancelCtx k) /\
              ctx t = Some (TimeoutCtx p k) /\ Err t = Some (ErrCh k).
Proof.
  intros [->|(c & fn & to & k & H)]; [by left|].
  unfold NewTask, WithTimeout in H. repeat case_match; simplify_eq; eauto 10.
Qed.

Lemma offer_at_ok s g :
  goroutine_ok g -> Forall built (waitingQueue (pool s)) ->
  offer_ok (offer_at s g).
Proof.
  intros [Hh Hc] Hq.
  destruct g as [[pc b]|w pc|w pc|pc]; destruct pc; simpl in *.
  all: unfold dispatch, with_pill; simpl.
  all: repeat case_match; simpl; try done.
  all: unfold goroutine_ok, comm_ok; simpl.
  all: repeat match goal with
       | H : Forall _ (_ :: _) |- _ => apply Forall_cons in H as [? H]
       | H : Forall _ [] |- _ => clear H
       end.
  all: repeat first [ split | apply Forall_cons | apply Forall_nil | intros ? ].
  all: simplify_eq; simpl; try done.
  all: repeat case_match; simplify_eq; simpl; try done.
  all: repeat first [ split | apply Forall_cons | apply Forall_nil | intros ? ].
  all: eauto using built_as_task, built_NewTask, built_zero.
  all: repeat match goal with
       | H : built ?t |- context [Err ?t] => apply built_Err in H as [?|[? ?]]
       | H : built ?t, H' : context [Err ?t] |- _ =>
           apply built_Err in H as [?|[? ?]]
       | H : built ?t |- context [done ?t] =>
           apply built_done in H as [[? ?]|(? & ? & ? & ? & ? & ?)]
       end; simplify_eq; simpl; try done; try congruence.
  all: try (right; by exists None, None, [], (newTasks s)).
  all: repeat match goal with
       | H : Err _ = _ |- _ => rewrite H
       | H : done _ = _ |- _ => rewrite H
       end; done.
Qed.
Lemma wf_set_proc s i g : wf s -> goroutine_ok g -> wf (set_proc i g s).
Proof.
  intros [Hp Hb Hq] Hg. split; simpl; [|done..].
  intros j g' Hj. apply list_lookup_insert_Some in Hj as [(-> & <- & _)|[_ Hj]];
    eauto.
Qed.

Lemma wf_set_buf s c b :
  wf s -> (forall v, v ∈ b -> val_ok v) -> wf (set_buf c b s).
Proof.
  intros [Hp Hb Hq] Hv. split; simpl; [done| |done].
  intros c' v. case_decide; simpl; eauto.
Qed.

Lemma wf_close_chan s c : wf s -> wf (close_chan c s).
Proof.
  intros [Hp Hb Hq]. split; simpl; [done| |done].
  intros c' v. case_decide; subst; simpl; eauto.
Qed.

Lemma wf_crash s : wf s -> wf (crash s).
Proof. intros [Hp Hb Hq]. by split. Qed.

Lemma wf_lock_mutex m s : wf s -> wf (lock_mutex m s).
Proof. intros [Hp Hb Hq]. by split. Qed.

Lemma wf_run_action a s : wf s -> action_ok a -> wf (run_action a s).
Proof.
  intros Hwf Ha. pose proof Hwf as [Hp Hb Hq].
  destruct a as [t| | | | | | |t|w| | |[k]| | | | | | |]; simpl;
    try (by split); try (by apply wf_close_chan).
  - split; simpl; [done..|]. apply Forall_app. split; [done|].
    by apply Forall_singleton.
  - split; simpl; [done..|]. destruct (waitingQueue (pool s)); [done|].
    by apply Forall_cons in Hq as [_ Hq].
  - split; simpl; [|done..]. intros i g [Hi|[_ Hi]]%lookup_app_Some; [eauto|].
    apply list_lookup_singleton_Some in Hi as [_ <-].
    split; [by apply Forall_singleton|done].
  - split; simpl; [|done..]. intros i g [Hi|[_ Hi]]%lookup_app_Some; [eauto|].
    apply list_lookup_singleton_Some in Hi as [_ <-]. by split.
Qed.

Lemma wf_run_actions acts s :
  wf s -> Forall action_ok acts -> wf (run_actions acts s).
Proof.
  revert s. induction acts as [|a acts IH]; intros s Hwf Hacts; [done|].
  apply Forall_cons in Hacts as [Ha Hacts]. unfold run_actions in *. simpl.
  apply IH; [|done]. by apply wf_run_action.
Qed.

Lemma wf_offer s i g : wf s -> procs s !! i = Some g -> offer_ok (offer_at s g).
Proof. intros [Hp Hb Hq] Hi. apply offer_at_ok; eauto. Qed.

Lemma wf_step s e s' : stepR s e s' -> wf s -> wf s'.
Proof.
  intros H Hwf.
  destruct H as [i g acts k Hi Ho|i g e0 k Hi Ho|i g c k Hi Ho Hc
    |i g k Hi Ho Hw|i g lk k Hi Ho Hlk|i g Hi|i g cs d n c v k Hi Ho Hn Hc Hl
    |i g cs d n c k v rest Hi Ho Hn Hb|i g cs d n c k Hi Ho Hn Hb Hc
    |i g cs d n c v k j g' cs' d' m k' Hi Ho Hn Hj Ho' Hm Hne Hcap Hc Hd
    |i g cs k Hi Ho Hall|k Hk Hc|Ht Hb];
    try pose proof (wf_offer _ _ _ Hwf Hi) as Hok;
    try (rewrite Ho in Hok; simpl in Hok).
  - destruct Hok. apply wf_run_actions; [|done]. by apply wf_set_proc.
  - by apply wf_set_proc.
  - destruct Hok. apply wf_set_proc; [|done]. by apply wf_close_chan.
  - by apply wf_set_proc.
  - apply wf_set_proc; [|done]. by apply wf_lock_mutex.
  - by apply wf_crash.
  - destruct Hok as [Hcs _].
    pose proof (Forall_lookup_1 _ _ _ _ Hcs Hn) as (Hk & Hv & _).
    apply wf_set_proc; [|done]. apply wf_set_buf; [done|].
    intros v' [Hin| ->%list_elem_of_singleton]%elem_of_app; [|done].
    by eapply wf_bufs.
  - destruct Hok as [Hcs _].
    pose proof (Forall_lookup_1 _ _ _ _ Hcs Hn) as Hk. simpl in Hk.
    assert (Hv : forall x, x ∈ v :: rest -> val_ok x).
    { intros x Hx. rewrite <- Hb in Hx. by eapply wf_bufs. }
    apply wf_set_proc.
    + apply wf_set_buf; [done|]. intros x Hx. apply Hv. by right.
    + apply Hk. intros x [= <-]. apply Hv. by left.
  - destruct Hok as [Hcs _].
    pose proof (Forall_lookup_1 _ _ _ _ Hcs Hn) as Hk. simpl in Hk.
    apply wf_set_proc; [done|]. by apply Hk.
  - destruct Hok as [Hcs _].
    pose proof (Forall_lookup_1 _ _ _ _ Hcs Hn) as (Hk & Hv & _).
    pose proof (wf_offer _ _ _ Hwf Hj) as Hok'. rewrite Ho' in Hok'.
    destruct Hok' as [Hcs' _].
    pose proof (Forall_lookup_1 _ _ _ _ Hcs' Hm) as Hk'. simpl in Hk'.
    apply wf_set_proc; [by apply wf_set_proc|].
    apply Hk'. by intros x [= <-].
  - destruct Hok as [_ Hd]. apply wf_set_proc; [done|]. by apply Hd.
  - by apply wf_close_chan.
  - destruct Hwf as [Hp Hbf Hq]. split; simpl; [done| |done].
    intros c v. case_decide; simpl; [|eauto].
    by intros ->%list_elem_of_singleton.
Qed.

Lemma wf_exec s tr s' : exec s tr s' -> wf s -> wf s'.
Proof.
  induction 1 as [|s m e s1 tr s2 Hs _ IH]; [done|].
  intros Hwf. apply IH. apply step_stepR in Hs as [_ Hs]. by eapply wf_step.
Qed.

Lemma wf_init n callers :
  (forall pc, pc ∈ callers -> goroutine_ok (GClient pc)) ->
  wf (init n callers).
Proof.
  intros Hcs. split; simpl; [|intros ? ? []%elem_of_nil|done].
  intros [|i] g; simpl.
  - intros [= <-]. by split.
  - rewrite list_lookup_fmap. destruct (callers !! i) as [pc|] eqn:Hi; [|done].
    intros [= <-]. apply Hcs. by eapply list_elem_of_lookup_2.
Qed.

(** ** Tasks handed to the helper *)

Lemma sup_offer_at s g :
  goroutine_ok g -> sup_ok g -> sup_offer_ok (offer_at s g).
Proof.
  intros [Hh Hc] Hs.
  destruct g as [[pc b]|w pc|w pc|pc]; destruct pc; simpl in *.
  all: unfold dispatch, with_pill; simpl.
  all: repeat case_match; simpl; try done.
  all: unfold sup_comm_ok; simpl.
  all: repeat match goal with
       | H : Forall _ (_ :: _) |- _ => apply Forall_cons in H as [? H]
       | H : Forall _ [] |- _ => clear H
       end.
  all: repeat first [ split | apply Forall_cons | apply Forall_nil | intros ? ].
  all: simplify_eq; simpl; try done.
  all: repeat case_match; simplify_eq; simpl; try done.
  all: repeat first [ split | apply Forall_cons | apply Forall_nil | intros ? ].
  all: try done.
  all: try (unfold supervised; by eauto).
  all: try match goal with
       | H : forall c0 x, Some (tasksCh ?w) = Some c0 -> Some ?v = Some x -> _
         |- _ => specialize (H _ _ eq_refl eq_refl); by destruct v
       end.
  all: match goal with
       | H : built ?t, H' : Err ?t = Some _ |- _ =>
           apply built_Err in H as [?|[? ?]]; simplify_eq; done
       end.
Qed.

Lemma sup_set_proc s i g : sup s -> sup_ok g -> sup (set_proc i g s).
Proof.
  intros [Hp Hb] Hg. split; simpl; [|done].
  intros j g' Hj. apply list_lookup_insert_Some in Hj as [(-> & <- & _)|[_ Hj]];
    eauto.
Qed.

Lemma sup_set_buf s c b :
  sup s -> (forall v, v ∈ b -> sup_val c v) -> sup (set_buf c b s).
Proof.
  intros [Hp Hb] Hv. split; simpl; [done|].
  intros c' v. case_decide; subst; simpl; eauto.
Qed.

Lemma sup_close_chan s c : sup s -> sup (close_chan c s).
Proof.
  intros [Hp Hb]. split; simpl; [done|].
  intros c' v. case_decide; subst; simpl; eauto.
Qed.

Lemma sup_run_action a s : sup s -> sup (run_action a s).
Proof.
  intros Hs. pose proof Hs as [Hp Hb].
  destruct a as [t| | | | | | |t|w| | |[k]| | | | | | |]; simpl;
    try (by split); try (by apply sup_close_chan).
  - split; simpl; [|done]. intros i g [Hi|[_ Hi]]%lookup_app_Some; [eauto|].
    by apply list_lookup_singleton_Some in Hi as [_ <-].
  - split; simpl; [|done]. intros i g [Hi|[_ Hi]]%lookup_app_Some; [eauto|].
    apply list_lookup_singleton_Some in Hi as [_ <-]. simpl. constructor.
Qed.

Lemma sup_run_actions acts s : sup s -> sup (run_actions acts s).
Proof.
  revert s. induction acts as [|a acts IH]; intros s Hs; [done|].
  unfold run_actions in *. simpl. apply IH. by apply sup_run_action.
Qed.

Lemma sup_offer s i g :
  wf s -> sup s -> procs s !! i = Some g -> sup_offer_ok (offer_at s g).
Proof.
  intros [Hp _ _] [Hs _] Hi. apply sup_offer_at; eauto.
Qed.

Lemma sup_step s e s' : stepR s e s' -> wf s -> sup s -> sup s'.
Proof.
  intros H Hwf Hsup.
  destruct H as [i g acts k Hi Ho|i g e0 k Hi Ho|i g c k Hi Ho Hc
    |i g k Hi Ho Hw|i g lk k Hi Ho Hlk|i g Hi|i g cs d n c v k Hi Ho Hn Hc Hl
    |i g cs d n c k v rest Hi Ho Hn Hb|i g cs d n c k Hi Ho Hn Hb Hc
    |i g cs d n c v k j g' cs' d' m k' Hi Ho Hn Hj Ho' Hm Hne Hcap Hc Hd
    |i g cs k Hi Ho Hall|k Hk Hc|Ht Hb];
    try pose proof (sup_offer _ _ _ Hwf Hsup Hi) as Hok;
    try (rewrite Ho in Hok; simpl in Hok).
  - apply sup_run_actions. by apply sup_set_proc.
  - by apply sup_set_proc.
  - apply sup_set_proc; [|done]. by apply sup_close_chan.
  - by apply sup_set_proc.
  - apply sup_set_proc; [|done]. destruct Hsup. by split.
  - destruct Hsup. by split.
  - destruct Hok as [Hcs _].
    pose proof (Forall_lookup_1 _ _ _ _ Hcs Hn) as (Hk & Hv).
    apply sup_set_proc; [|done]. apply sup_set_buf; [done|].
    intros v' [Hin| ->%list_elem_of_singleton]%elem_of_app; [|by apply Hv].
    by eapply sup_bufs.
  - destruct Hok as [Hcs _].
    pose proof (Forall_lookup_1 _ _ _ _ Hcs Hn) as Hk. simpl in Hk.
    assert (Hv : forall x, x ∈ v :: rest -> sup_val c x).
    { intros x Hx. rewrite <- Hb in Hx. by eapply sup_bufs. }
    apply sup_set_proc.
    + apply sup_set_buf; [done|]. intros x Hx. apply Hv. by right.
    + apply Hk. intros c0 x [= <-] [= <-]. apply Hv. by left.
  - destruct Hok as [Hcs _].
    pose proof (Forall_lookup_1 _ _ _ _ Hcs Hn) as Hk. simpl in Hk.
    apply sup_set_proc; [done|]. by apply Hk.
  - destruct Hok as [Hcs _].
    pose proof (Forall_lookup_1 _ _ _ _ Hcs Hn) as (Hk & Hv).
    pose proof (sup_offer _ _ _ Hwf Hsup Hj) as Hok'. rewrite Ho' in Hok'.
    destruct Hok' as [Hcs' _].
    pose proof (Forall_lookup_1 _ _ _ _ Hcs' Hm) as Hk'. simpl in Hk'.
    apply sup_set_proc; [by apply sup_set_proc|].
    apply Hk'. intros c0 x [= <-] [= <-]. by apply Hv.
  - destruct Hok as [_ Hd]. apply sup_set_proc; [done|]. by apply Hd.
  - by apply sup_close_chan.
  - destruct Hsup as [Hp Hbf]. split; simpl; [done|].
    intros c v. case_decide; subst; simpl; [|eauto].
    by intros ->%list_elem_of_singleton.
Qed.

Lemma sup_init n callers : sup (init n callers).
Proof.
  split; simpl; [|intros ? ? []%elem_of_nil].
  intros [|i] g; simpl; [by intros [= <-]|].
  rewrite list_lookup_fmap. destruct (callers !! i); [|done].
  by intros [= <-].
Qed.

Lemma api_call_ok pc : api_call pc -> goroutine_ok (GClient pc).
Proof. destruct pc; simpl; try done; by split. Qed.

Lemma started_wf_sup s : started s -> wf s /\ sup s.
Proof.
  intros (n & callers & tr & Hcs & Hex).
  assert (Hgen : forall s0 tr s, exec s0 tr s -> wf s0 /\ sup s0 -> wf s /\ sup s).
  { clear. induction 1 as [|s m e s1 tr s2 Hs _ IH]; [done|].
    intros [Hwf Hsup]. apply IH. apply step_stepR in Hs as [_ Hs].
    split; [by eapply wf_step | by eapply sup_step]. }
  apply (Hgen _ _ _ Hex). split; [|apply sup_init].
  apply wf_init. intros pc Hin. apply api_call_ok.
  by eapply Forall_forall in Hcs.
Qed.


(** C9: [cancel] and [done] come in pairs.  [NewTask] sets both or neither,
    both exactly when a positive timeout is given; at the head of its loop a
    worker holding a task with a function hands it to the helper exactly when
    [cancel] is set, and runs it itself exactly when it is not; so in every
    state of a pool used through the façade, a task in the hands of a helper
    has a cancel handle and a [done] channel to close. *)
Theorem cancel_and_done_paired :
  (forall c fn timeout k t, NewTask c fn timeout k = Ok t ->
     (cancel t = None /\ done t = None /\ ~ positive_timeout timeout) \/
     (cancel t = Some (CancelCtx k) /\ done t = Some (doneCh k) /\
      positive_timeout timeout)) /\
  (forall s i w t, crashed s = false ->
     procs s !! i = Some (GWorker w (WLoop t)) -> is_Some (task t) ->
     exists e s', step s (Run i) = Some (e, s') /\
       (procs s' !! i = Some (GWorker w (WHandOver t)) <-> is_Some (cancel t)) /\
       (procs s' !! i = Some (GWorker w (WRun t)) <-> cancel t = None)) /\
  (forall s i w pc t, started s ->
     procs s !! i = Some (GHelper w pc) -> t ∈ hpc_tasks pc ->
     is_Some (cancel t) /\ is_Some (done t)).
Proof.
  split; [|split].
  - intros c fn timeout k t H. unfold NewTask, WithTimeout in H.
    destruct timeout as [|d rest].
    + left. simplify_eq. simpl. repeat split. by intros (? & ? & ? & ?).
    + destruct (0 <? d)%Z eqn:Hd.
      * right. destruct c; simplify_eq. simpl. repeat split.
        exists d, rest. split; [done|]. by apply Z.ltb_lt.
      * left. simplify_eq. simpl. repeat split.
        intros (d' & rest' & [= <- <-] & Hpos). apply Z.ltb_ge in Hd. lia.
  - intros s i w t Hc Hi [f Hf]. eexists _, _. split.
    + eapply step_do; [done..|]. simpl. reflexivity.
    + simpl. rewrite list_lookup_insert_eq by (by eapply lookup_lt_Some).
      rewrite Hf. destruct (cancel t) as [cf|]; split; split;
        intros H; try done; try (by eauto); by destruct H.
  - intros s i w pc t Hst Hi Hin.
    destruct (started_wf_sup _ Hst) as [Hwf Hsup].
    pose proof (wf_procs _ Hwf _ _ Hi) as [Hb _].
    pose proof (sup_procs _ Hsup _ _ Hi) as Hs. simpl in Hb, Hs.
    eapply Forall_forall in Hb; [|done]. eapply Forall_forall in Hs; [|done].
    split; [done|]. unfold supervised in Hs.
    destruct (built_done _ Hb) as [[_ Hn]|(k & p & -> & _)]; [|by eauto].
    rewrite Hn in Hs. by destruct Hs.
Qed.

(** ** The timeout path of the worker *)

Lemma run_action_chans a s c :
  (forall k, c <> ctxDone k) -> chans (run_action a s) c = chans s c.
Proof.
  intros Hc. destruct a as [| | | | | | | | | | |[k]| | | | | | |]; simpl; try done.
  rewrite decide_False; [done|]. apply Hc.
Qed.

Lemma run_actions_chans acts s c :
  (forall k, c <> ctxDone k) -> chans (run_actions acts s) c = chans s c.
Proof.
  intros Hc. revert s. induction acts as [|a acts IH]; intros s; [done|].
  unfold run_actions in *. simpl. rewrite IH. by apply run_action_chans.
Qed.

(** A worker waiting on its [errCh] waits forever: nothing is ever sent on
    that channel and nothing closes it. *)
Lemma recv_errCh_stuck s e s' i w t :
  stepR s e s' -> wf s ->
  procs s !! i = Some (GWorker w (WRecvErr t)) ->
  chans s (errChW w) = {| buf := []; closed := false |} ->
  procs s' !! i = Some (GWorker w (WRecvErr t)) /\
  chans s' (errChW w) = {| buf := []; closed := false |}.
Proof.
  intros H Hwf Hi Hch. split.
  - destruct (stepR_conts _ _ _ _ _ H Hi) as (g' & Hg' & [->|[Hin Hc]]); [done|].
    destruct H; actor_inv Hin; try (simpl; exact Hi); exfalso;
      try match goal with
      | Ho : offer_at _ _ = _ |- _ =>
          simpl in Ho; try discriminate Ho; injection Ho as <-; intros; subst
      end; lookups_inv.
    all: try match goal with
         | Hb : buf _ = _ :: _ |- _ => rewrite Hch in Hb; discriminate Hb
         | Hb : closed _ = true |- _ => rewrite Hch in Hb; discriminate Hb
         | Hb : cap _ = 0 |- _ => discriminate Hb
         end.
  - destruct H as [j g acts k Hj Ho|j g e0 k Hj Ho|j g c k Hj Ho Hc
      |j g k Hj Ho Hw|j g lk k Hj Ho Hlk|j g Hj|j g cs d n c v k Hj Ho Hn Hc Hl
      |j g cs d n c k v rest Hj Ho Hn Hb|j g cs d n c k Hj Ho Hn Hb Hc
      |j g cs d n c v k j' g' cs' d' m k' Hj Ho Hn Hj' Ho' Hm Hne Hcap Hc Hd
      |j g cs k Hj Ho Hall|k Hk Hc|Ht Hb];
      try pose proof (wf_offer _ _ _ Hwf Hj) as Hok;
      try (rewrite Ho in Hok; simpl in Hok); simpl; try done.
    + by rewrite run_actions_chans.
    + destruct Hok as [_ Hsh]. rewrite decide_False; [done|].
      intros <-. done.
    + destruct Hok as [Hcs _].
      pose proof (Forall_lookup_1 _ _ _ _ Hcs Hn) as (_ & _ & Hne).
      rewrite decide_False; [done|]. intros <-. by apply (Hne w).
    + rewrite decide_False; [done|]. intros <-. rewrite Hch in Hb. done.
Qed.

Lemma recv_errCh_stuck_forever s tr s' i w t :
  exec s tr s' -> wf s ->
  procs s !! i = Some (GWorker w (WRecvErr t)) ->
  chans s (errChW w) = {| buf := []; closed := false |} ->
  procs s' !! i = Some (GWorker w (WRecvErr t)).
Proof.
  induction 1 as [|s m e s1 tr s2 Hs _ IH]; [done|].
  intros Hwf Hi Hch. apply step_stepR in Hs as [_ Hs].
  destruct (recv_errCh_stuck _ _ _ _ _ _ Hs Hwf Hi Hch) as [Hi1 Hch1].
  apply IH; [by eapply wf_step|done..].
Qed.

Lemma deadline_init_started ms tr s :
  run ms deadline_init = Some (tr, s) -> started s.
Proof.
  intros H. exists 1%Z, [CSubmit (Some Background) (Some (Returns None)) 5], tr.
  split; [by repeat constructor|]. exact (run_exec _ _ _ _ H).
Qed.

(** C1 (the code departs from it): the function of a task with a positive
    timeout returns before the deadline.  Its outcome is on the result
    channel (the helper sent it) and the deadline has not passed, but the
    worker, having seen [done] closed, waits on [errCh], on which nothing is
    ever sent: however the program goes on from there, the worker stays at
    [err = <-errCh]; it never calls [task.cancel()] and never receives from
    [workerQueue] again. *)
Theorem worker_blocks_after_early_completion :
  exists tr s,
    run early_completion deadline_init = Some (tr, s) /\
    sends_on (ErrCh 0) tr = [VErr None] /\
    buf (chans s (ErrCh 0)) = [VErr None] /\
    closed (chans s (doneCh 0)) = true /\
    closed (chans s (ctxDone 0)) = false /\
    procs s !! 2 = Some (GWorker 2 (WRecvErr deadline_task)) /\
    forall tr' s', exec s tr' s' ->
      procs s' !! 2 = Some (GWorker 2 (WRecvErr deadline_task)).
Proof.
  destruct (run early_completion deadline_init) as [[tr s]|] eqn:Hrun;
    [|by vm_compute in Hrun].
  exists tr, s. split; [done|].
  pose proof (deadline_init_started _ _ _ Hrun) as Hst.
  apply started_wf_sup in Hst as [Hwf _].
  vm_compute in Hrun. injection Hrun as <- <-.
  do 5 (split; [reflexivity|]).
  intros tr' s' Hex.
  eapply recv_errCh_stuck_forever; [exact Hex|exact Hwf|reflexivity..].
Qed.

(** C2 (the code departs from it): two outcomes on one result channel.  The
    deadline passes, the worker publishes [ErrTimeout] and the caller reads
    it; then the function returns and the helper's select, with the result
    channel's buffer free again, may take its send case: the function's
    outcome is sent as well, and the caller receives both. *)
Theorem timeout_and_late_outcome_both_published :
  exists tr s,
    run late_completion deadline_init = Some (tr, s) /\
    sends_on (ErrCh 0) tr = [VErr (Some ErrTimeout); VErr None] /\
    procs s !! 1
      = Some (GClient (CHolding (Some (ErrCh 0))
                         [Some (VErr (Some ErrTimeout)); Some (VErr None)])).
Proof.
  eexists _, _. split; [vm_compute; reflexivity|].
  split; vm_compute; reflexivity.
Qed.

(** ** A task arriving in direct mode *)

(** Only an idle worker receives on [workerQueue]. *)
Lemma recv_workerQueue s g cs d m k :
  goroutine_ok g -> offer_at s g = Select cs d ->
  cs !! m = Some (Recv (Some workerQueue) k) ->
  exists w, g = GWorker w WNext /\ k = fun v => GWorker w (WLoop (as_task v)).
Proof.
  intros [Hh Hc] Ho Hm.
  destruct g as [[pc b]|w pc|w pc|pc]; destruct pc; simpl in *;
    unfold dispatch, with_pill in *; simpl in *; repeat case_match;
    try discriminate Ho; injection Ho as <- <-; lookups_inv;
    try (eexists; split; reflexivity); try done.
  all: repeat match goal with
       | H : Forall _ (_ :: _) |- _ => apply Forall_cons in H as [? H]
       end.
  all: try match goal with
       | H : built ?t, H' : done ?t = Some _ |- _ =>
           apply built_done in H as [[? ?]|(? & ? & ? & ? & ? & ?)]; congruence
       | H : built ?t, H' : Err ?t = Some _ |- _ =>
           apply built_Err in H as [?|[? ?]]; congruence
       | H : Done ?c = Some workerQueue |- _ => destruct c; discriminate H
       end.
Qed.

Lemma worker_stays s e s' n pc :
  stepR s e s' -> procs s !! n = Some (GWorker n pc) ->
  exists pc', procs s' !! n = Some (GWorker n pc').
Proof.
  intros H Hn.
  destruct (stepR_conts _ _ _ _ _ H Hn) as (g' & Hg' & [->|[_ Hc]]); [eauto|].
  apply conts_same_kind in Hc. destruct g'; try done. simpl in Hc. subst. eauto.
Qed.

Lemma intake_preserved t b o0 log s e s' :
  wf s -> sole_dispatcher s -> intake_inv t b o0 log s -> stepR s e s' ->
  intake_inv t b o0 (log ++ intake_obs e) s' \/
  intake_post t b o0 (log ++ intake_obs e) s'.
Proof.
  intros Hwf Hsole Hinv H.
  unfold intake_inv in Hinv. destruct o0 as [[[max c] q] w0].
  destruct (dispatcher_of s) as [d|] eqn:Hd; [|done].
  apply dispatcher_of_Some in Hd.
  destruct Hinv as (Hb & Ho0 & Hpc).
  destruct (others_or_dispatcher _ _ _ _ H Hsole Hd) as [Hin|(Hd' & Hown & Hact)].
  2:{ left. unfold intake_inv. apply dispatcher_of_Some in Hd'. rewrite Hd'.
      rewrite Hown.
      assert (intake_obs e = []) as ->.
      { destruct e; simpl; try done;
          destruct g as [d0| | |]; try done;
          specialize (Hact i (GDispatch d0)); simpl in Hact;
          discriminate Hact; constructor. }
      rewrite app_nil_r. split; [done|]. split; [done|].
      destruct (dat d); try done.
      destruct Hpc as (Hl & Hlt & n & pc & Hn). repeat split; try done.
      destruct (worker_stays _ _ _ _ _ H Hn) as [pc' Hn']. eauto. }
  destruct d as [pc b']. simpl in Hb, Hpc. subst b'.
  assert (Hpanic : intake_inv t b (max, c, q, w0) (log ++ []) (crash s)).
  { unfold intake_inv, dispatcher_of. simpl. rewrite Hd. simpl.
    by rewrite app_nil_r. }
  destruct pc; try done.
  - destruct Hpc as [-> ->].
    destruct H; actor_inv Hin; offers_inv; lookups_inv.
    + by left.
    + simpl in *. lia.
    + right.
      match goal with
      | Hj : procs s !! ?j = Some ?g', Ho' : offer_at s ?g' = Select _ _,
        Hm : _ !! _ = Some (Recv _ _) |- _ =>
          destruct (recv_workerQueue _ _ _ _ _ _ (wf_procs _ Hwf _ _ Hj) Ho' Hm)
            as (w & -> & ->)
      end.
      unfold intake_post, owned. simpl. split.
      * unfold dispatcher_of. simpl.
        rewrite list_lookup_insert_ne by done.
        by rewrite list_lookup_insert_eq by (by eapply lookup_lt_Some).
      * left. exists j, w. split; [done|]. split; [|done].
        rewrite list_lookup_insert_eq; [done|].
        rewrite length_insert. by eapply lookup_lt_Some.
    + left. unfold intake_inv, dispatcher_of. simpl.
      rewrite list_lookup_insert_eq by (by eapply lookup_lt_Some). done.
  - destruct Hpc as [-> ->].
    destruct (workerCount (pool s) <? maxWorkers (pool s))%Z eqn:E;
      destruct H; actor_inv Hin; try (by left);
      match goal with
      | Ho : offer_at _ _ = _ |- _ =>
          unfold offer_at, dispatch in Ho; simpl in Ho; rewrite E in Ho;
          simpl in Ho; try discriminate Ho; injection Ho as <- <-
      end.
    + left. unfold intake_inv, owned, dispatcher_of in *. simpl.
      rewrite list_lookup_insert_eq by (by eapply lookup_lt_Some).
      simpl. apply Z.ltb_lt in E. injection Ho0 as <- <- <- <-. done.
    + right. unfold intake_post, owned, dispatcher_of in *. simpl.
      rewrite list_lookup_insert_eq by (by eapply lookup_lt_Some).
      split; [done|]. right. right. apply Z.ltb_ge in E.
      injection Ho0 as <- <- <- <-. repeat split; try done.
  - destruct Hpc as (-> & -> & Hlt).
    destruct H; actor_inv Hin; offers_inv; try (by left).
    left. unfold intake_inv, owned, dispatcher_of in *. simpl.
    rewrite lookup_app_l by (rewrite length_insert; by eapply lookup_lt_Some).
    rewrite list_lookup_insert_eq by (by eapply lookup_lt_Some).
    simpl. repeat split; try done.
    exists (length (procs s)). eexists.
    rewrite lookup_app_r by (by rewrite length_insert).
    by rewrite length_insert, Nat.sub_diag.
  - destruct Hpc as (-> & Hlt & n & pc & Hn).
    destruct H; actor_inv Hin; offers_inv; try (by left).
    right. unfold intake_post, owned, dispatcher_of in *. simpl.
    rewrite list_lookup_insert_eq by (by eapply lookup_lt_Some).
    split; [done|]. right. left. injection Ho0 as <- <- <- <-.
    repeat split; try done.
    exists n, pc. rewrite list_lookup_insert_ne; [done|].
    intros <-. rewrite Hd in Hn. discriminate Hn.
Qed.

Lemma intake_inv_in_intake t b o0 log s : intake_inv t b o0 log s -> in_intake s.
Proof.
  unfold intake_inv, in_intake, dispatcher_at. destruct o0 as [[[? ?] ?] ?].
  destruct (dispatcher_of s) as [[pc b']|]; simpl; [|done].
  destruct pc; tauto.
Qed.

Lemma intake_post_not_in_intake t b o0 log s :
  intake_post t b o0 log s -> ~ in_intake s.
Proof.
  unfold intake_post. destruct o0 as [[[? ?] ?] ?]. intros [Hd _].
  unfold in_intake, dispatcher_at. rewrite Hd. simpl. tauto.
Qed.

Lemma intake_exec t b o0 s tr s' :
  exec_in in_intake s tr s' ->
  forall log, wf s -> sole_dispatcher s -> intake_inv t b o0 log s ->
  ~ in_intake s' ->
  intake_post t b o0 (log ++ intake_log tr) s'.
Proof.
  induction 1 as [s|s m e s1 tr s2 HR Hs Hex IH];
    intros log Hwf Hsole Hinv Hout.
  - destruct Hout. by eapply intake_inv_in_intake.
  - apply step_stepR in Hs as [_ Hs].
    unfold intake_log. simpl. rewrite app_assoc.
    destruct (intake_preserved _ _ _ _ _ _ _ Hwf Hsole Hinv Hs) as [Hinv1|Hpost].
    + apply IH; [by eapply wf_step|by eapply sole_dispatcher_step|done..].
    + inversion Hex as [|? ? ? ? ? ? HR1]; subst.
      * simpl. by rewrite app_nil_r.
      * destruct (intake_post_not_in_intake _ _ _ _ _ Hpost HR1).
Qed.

Lemma started_sole_dispatcher s : started s -> sole_dispatcher s.
Proof.
  intros (n & callers & tr & _ & Hex).
  eapply sole_dispatcher_exec; [done|]. apply sole_dispatcher_init.
Qed.

(** C4: a task arriving in direct mode.  From the receipt of task [t] until
    the dispatcher reaches [idle = false], whatever the other goroutines do
    meanwhile, the dispatcher does one of three things, in this order of
    preference.  It hands [t] to a worker waiting on [workerQueue] and
    changes nothing else.  Or (the select took its default branch, which it
    does only when no goroutine waits on [workerQueue]) with
    [workerCount < maxWorkers] it starts a worker with [t] as its first task
    and increments [workerCount].  Or, with [workerCount >= maxWorkers], it
    appends [t] at the back of the waiting queue and stores the new length
    in [waiting].  In all three cases the task is kept. *)
Theorem direct_dispatch :
  (forall s t b tr s',
     started s ->
     dispatcher_of s = Some (Dsp (DGotTask t) b) ->
     exec_in in_intake s tr s' -> ~ in_intake s' ->
     intake_post t b (owned s) (intake_log tr) s') /\
  (forall s t b e s',
     dispatcher_of s = Some (Dsp (DGotTask t) b) ->
     step s (Default 0) = Some (e, s') ->
     some_parked s (is_recv_on workerQueue) 0 0 (procs s) = false).
Proof.
  split.
  - intros s t b tr s' Hst Hd Hex Hout.
    destruct (started_wf_sup _ Hst) as [Hwf _].
    apply (intake_exec t b (owned s) _ _ _ Hex []); try done.
    + by apply started_sole_dispatcher.
    + unfold intake_inv. destruct (owned s) as [[[? ?] ?] ?] eqn:Hown.
      by rewrite Hd.
  - intros s t b e s' Hd Hs. apply dispatcher_of_Some in Hd.
    unfold step in Hs. destruct (crashed s); [done|].
    rewrite Hd in Hs. simpl in Hs.
    destruct (closed (chans s workerQueue)); [done|]. simpl in Hs.
    destruct (some_parked s _ 0 0 (procs s)); [done|done].
Qed.

(** ** The waiting queue *)

Lemma fifo_step s e s' :
  sole_dispatcher s -> stepR s e s' ->
  pending s ++ pushes_of e = handoff_of e ++ pending s'.
Proof.
  intros Hsole H. pose proof Hsole as [[d Hd] _].
  destruct (others_or_dispatcher _ _ _ _ H Hsole Hd) as [Hin|(Hd' & Hown & Hact)].
  2:{ assert (pushes_of e = []) as ->.
      { destruct e; simpl; try done; destruct g as [d0| | |]; try done;
          specialize (Hact i (GDispatch d0)); simpl in Hact;
          discriminate Hact; constructor. }
      assert (handoff_of e = []) as ->.
      { destruct e; simpl; try done; destruct g as [d0| | |]; try done;
          specialize (Hact i (GDispatch d0)); simpl in Hact;
          discriminate Hact; constructor. }
      rewrite app_nil_r. simpl. unfold pending, dispatcher_at, dispatcher_of.
      rewrite Hd, Hd'. unfold owned in Hown. by injection Hown as _ _ -> _. }
  destruct d as [pc b].
  destruct (procs s) as [|g0 ps] eqn:Hps; [done|].
  simpl in Hd. injection Hd as ->.
  assert (Hat : dispatcher_at s = Some pc).
  { unfold dispatcher_at, dispatcher_of. by rewrite Hps. }
  unfold pending at 1. rewrite Hat.
  destruct pc; destruct H; actor_inv Hin;
    try (simpl; rewrite app_nil_r; unfold pending, dispatcher_at, dispatcher_of;
         simpl; by rewrite Hps);
    try match goal with
    | Ho : offer_at _ (GDispatch _) = _ |- _ =>
        unfold offer_at, dispatch, with_pill in Ho; simpl in Ho;
        repeat case_match; simpl in Ho;
        try discriminate Ho; injection Ho as <-; intros; subst
    end; lookups_inv.
  all: try match goal with
       | Hne : 0 <> ?j |- _ => destruct j; [done|]
       | Hne : ?j <> 0 |- _ => destruct j; [done|]
       end.
  all: unfold pending, dispatcher_at, dispatcher_of; simpl; rewrite ?Hps; simpl.
  all: rewrite ?app_nil_r; try done.
  all: try match goal with
       | Hcap : _ < cap _ |- _ => simpl in Hcap; lia
       end.
  all: try match goal with
       | Hq : waitingQueue _ = _ |- _ => by rewrite Hq
       end.
  all: match goal with
       | Hg : procs _ !! S ?i = Some ?g |- _ =>
           destruct g; try done; destruct Hsole as [_ Hs0];
           by specialize (Hs0 _ _ Hg eq_refl)
       end.
Qed.

(** C7: the waiting queue is first in, first out.  In every execution of a
    pool made by [New], the tasks handed from the waiting queue to workers
    (by [processWaitingQueue] and by [runQueuedTasks]) followed by the tasks
    still pending are the tasks pushed on the queue, in the order in which
    they were pushed. *)
Theorem waiting_queue_fifo :
  forall n callers tr s,
    exec (init n callers) tr s ->
    pushes tr = handoffs tr ++ pending s.
Proof.
  intros n callers tr s Hex.
  assert (Hgen : forall s0 tr s, exec s0 tr s -> sole_dispatcher s0 ->
            pending s0 ++ pushes tr = handoffs tr ++ pending s).
  { clear. induction 1 as [s|s m e s1 tr s2 Hs _ IH]; intros Hsole.
    - unfold pushes, handoffs. simpl. by rewrite app_nil_r.
    - apply step_stepR in Hs as [_ Hs].
      unfold pushes, handoffs in *. simpl.
      rewrite app_assoc, (fifo_step _ _ _ Hsole Hs), <- !app_assoc.
      f_equal. apply IH. by eapply sole_dispatcher_step. }
  apply (Hgen _ _ _ Hex), sole_dispatcher_init.
Qed.


(** ** Shutdown *)

Lemma kills_succ c :
  (0 < c)%Z -> kills (Z.to_nat c) = KillPill :: Decrement :: kills (Z.to_nat (c - 1)).
Proof.
  intros H. replace (Z.to_nat c) with (S (Z.to_nat (c - 1))) by lia. done.
Qed.

Lemma kills_zero c : (c <= 0)%Z -> kills (Z.to_nat c) = [].
Proof. intros H. replace (Z.to_nat c) with 0 by lia. done. Qed.

(** Steps of the other goroutines leave [p.wait] alone once the stop is
    committed, and keep it committed. *)
Lemma stop_committed_step s e s' :
  stepR s e s' -> stop_committed s ->
  stop_committed s' /\ wait (pool s') = wait (pool s).
Proof.
  intros H [Honce Hnone].
  assert (Hacts : forall i g acts k, procs s !! i = Some g ->
            offer_at s g = Do acts k ->
            forall s0, pool s0 = pool s ->
              wait (pool (run_actions acts s0)) = wait (pool s0) /\
              (stopOnce (pool s0) = true ->
               stopOnce (pool (run_actions acts s0)) = true) /\
              (onceLock (pool s0) = true -> stopOnce (pool s0) = false ->
               onceLock (pool (run_actions acts s0)) = true) /\
              (k = GClient COnceUnlock ->
               stopOnce (pool (run_actions acts s0)) = true)).
  { intros i g acts k Hi Ho s0 Hs0.
    destruct g as [[pc b]|w pc|w pc|pc]; destruct pc;
      unfold offer_at, dispatch, with_pill in Ho; simpl in Ho;
      repeat case_match; try discriminate Ho; injection Ho as <- <-;
      simpl; rewrite ?Hs0; try done.
    all: try (by destruct c; simpl; rewrite ?Hs0).
    all: try (specialize (Hnone _ _ Hi); simpl in Hnone; done).
    all: try (specialize (Hnone _ _ Hi); simpl in Hnone; repeat split; congruence). }
  assert (Hpc : forall i g g', procs s !! i = Some g ->
            (i, g) ∈ actors e -> (forall j h, e <> EPanic j h) ->
            offer_conts (offer_at s g) g' ->
            match g' with
            | GClient (CStop1 _ | CStopLock _ | CStop2 _ | CStopUnlock _
                       | CStopWait _) => False
            | GClient (COnceIn _ | COnceUnlock) => stopOnce (pool s') = true
            | _ => True
            end).
  { intros i g g' Hi Hin Hne Hc.
    destruct g as [[pc b]|w pc|w pc|pc];
      apply offer_conts_map in Hc as (l & -> & Hc); try done.
    pose proof (Hnone _ _ Hi) as Hn.
    destruct pc; simpl in Hc, Hn; repeat case_match; conts_cases; try done.
    all: destruct H; actor_inv Hin;
      try match goal with
          | Ho : offer_at _ _ = _ |- _ =>
              simpl in Ho; rewrite ?Hn in Ho; try discriminate Ho
          end; simpl; try done.
    all: try congruence.
    all: try match goal with
         | Ho : Do _ _ = Do ?acts ?k |- _ =>
             injection Ho as <- <-
         end; simpl; try done.
    all: try (by edestruct Hne).
    all: match goal with
         | Hl : Lock _ _ = Lock _ _ |- _ => injection Hl as <- <-
         end.
    all: simpl in *; congruence. }
  assert (Hmono : stopOnce (pool s) = true -> stopOnce (pool s') = true).
  { intros Hd. destruct H; try done.
    destruct (Hacts _ _ _ _ H H0 (set_proc i k s) eq_refl) as (_ & Hm & _).
    by apply Hm. }
  assert (Hprocs : forall i pc, procs s' !! i = Some (GClient pc) ->
            match pc with
            | CStop1 _ | CStopLock _ | CStop2 _ | CStopUnlock _
            | CStopWait _ => False
            | COnceIn _ | COnceUnlock => stopOnce (pool s') = true
            | _ => True
            end).
  { intros i pc Hi.
    destruct (stepR_back _ _ _ _ _ H Hi) as [(g & Hg & [<-|[Hin Hc]])|[_ Hsp]].
    - specialize (Hnone _ _ Hg). destruct pc; try done; by apply Hmono.
    - assert (Hp : (exists j h, e = EPanic j h) \/ forall j h, e <> EPanic j h)
        by (destruct e; eauto).
      destruct Hp as [(j & h & ->)|Hne].
      + inversion H; subst. simpl in Hi.
        specialize (Hnone _ _ Hi). by destruct pc.
      + apply (Hpc _ _ _ Hg Hin Hne Hc).
    - destruct Hsp as [(? & ? & ?)|(? & ?)]; discriminate. }
  split; [split; [|done]|].
  - destruct Honce as [Hl|Hd]; [|right; by apply Hmono].
    destruct (stopOnce (pool s)) eqn:Hd; [right; by apply Hmono|].
    left. destruct H; try done.
    + destruct (Hacts _ _ _ _ H H0 (set_proc i k s) eq_refl) as (_ & _ & Hm & _).
      by apply Hm.
    + by destruct m.
  - destruct H; try done.
    by destruct (Hacts _ _ _ _ H H0 (set_proc i k s) eq_refl) as (-> & _).
Qed.

Lemma shutdown_obs_others e :
  (forall i g, (i, g) ∈ actors e -> is_dispatcher g = false) ->
  shutdown_obs e = [].
Proof.
  intros Hact. destruct e; simpl; try done; destruct g as [d0| | |]; try done;
    specialize (Hact i (GDispatch d0)); simpl in Hact;
    discriminate Hact; constructor.
Qed.

Lemma shutdown_preserved s e s' :
  shutdown_inv s -> stepR s e s' ->
  remaining s = shutdown_obs e ++ remaining s' /\ shutdown_inv s'.
Proof.
  intros (Hsole & Hcom & Hok & Hpc) H.
  pose proof Hsole as [[d Hd] _].
  pose proof (sole_dispatcher_step _ _ _ H Hsole) as Hsole'.
  destruct (stop_committed_step _ _ _ H Hcom) as [Hcom' Hwait].
  destruct (others_or_dispatcher _ _ _ _ H Hsole Hd) as [Hin|(Hd' & Hown & Hact)].
  2:{ rewrite (shutdown_obs_others _ Hact). simpl.
      unfold owned in Hown. injection Hown as _ Hc Hq _.
      unfold shutdown_inv, remaining, dispatcher_at, dispatcher_of in *.
      rewrite Hd in Hpc. rewrite Hd, Hd', Hc, Hq, Hwait. done. }
  destruct d as [pc b].
  destruct (procs s) as [|g0 ps] eqn:Hps; [done|].
  simpl in Hd. injection Hd as ->.
  unfold shutdown_inv. unfold remaining at 1.
  unfold dispatcher_at, dispatcher_of in Hpc |- *. rewrite Hps in Hpc |- *.
  simpl in Hpc |- *.
  destruct pc; try discriminate Hpc; destruct H; actor_inv Hin;
    try (simpl; unfold remaining, dispatcher_at, dispatcher_of; simpl;
         rewrite Hps; simpl; done);
    try match goal with
    | Ho : offer_at _ (GDispatch _) = _ |- _ =>
        unfold offer_at, dispatch, with_pill in Ho; simpl in Ho;
        repeat match type of Ho with
               | context [match ?x with _ => _ end] => destruct x eqn:?
               end; simpl in Ho;
        try discriminate Ho; injection Ho as <-; intros; subst
    end; lookups_inv.
  all: try match goal with
       | Hne : 0 <> ?j |- _ => destruct j; [done|]
       end.
  all: try match goal with
       | Hcap : _ < cap _ |- _ => simpl in Hcap; lia
       end.
  all: (split; [|split; [exact Hsole'|split; [exact Hcom'|]]]);
       clear Hsole' Hcom'.
  all: unfold remaining, dispatcher_at, dispatcher_of in *; simpl in *;
       rewrite ?Hps in *; simpl in *.
  all: try match goal with
       | Hc : (0 < ?c)%Z, Hr : int64_ok ?c |- context [wrap64 (?c + -1)] =>
           replace (wrap64 (c + -1)) with (c - 1)%Z
             by (symmetry; apply wrap64_id; unfold int64_ok in *; lia)
       end.
  all: repeat match goal with
       | Hq : waitingQueue _ = _ |- _ => rewrite Hq in *
       | Hlt : (0 <? _)%Z = true |- _ => apply Z.ltb_lt in Hlt
       | Hlt : (0 <? _)%Z = false |- _ => apply Z.ltb_ge in Hlt
       end.
  all: try (split; [unfold int64_ok in *; lia|done]).
  all: try done.
  all: unfold shutdown_script; simpl; rewrite ?kills_zero by done; try done.
  - rewrite kills_succ by done. done.
  - by destruct Hpc.
Qed.

Lemma shutdown_exec s tr s' :
  exec s tr s' -> shutdown_inv s ->
  remaining s = shutdown_log tr ++ remaining s' /\ shutdown_inv s'.
Proof.
  induction 1 as [s|s m e s1 tr s2 Hs _ IH]; intros Hinv; [done|].
  apply step_stepR in Hs as [_ Hs].
  destruct (shutdown_preserved _ _ _ Hinv Hs) as [Hrem Hinv1].
  destruct (IH Hinv1) as [Hrem' Hinv2]. split; [|done].
  unfold shutdown_log in *. simpl. by rewrite Hrem, Hrem', app_assoc.
Qed.

(** C5: the shutdown sequence.  Once the dispatcher has seen [taskQueue]
    closed, what it does, in every execution and whatever the other
    goroutines do, is a prefix of this sequence, and the whole of it when the
    dispatcher returns: with the wait flag set, every task of the waiting
    queue handed to a worker, front first; then one kill pill per live
    worker, [workerCount] decremented after each pill is taken; then
    [wg.Wait()], the timer stopped, and [stoppedChan] closed last. *)
Theorem shutdown_sequence :
  forall s tr s',
    sole_dispatcher s ->
    dispatcher_at s = Some DShutdown ->
    stop_committed s ->
    int64_ok (workerCount (pool s)) ->
    exec s tr s' ->
    let script := shutdown_script (wait (pool s)) (waitingQueue (pool s))
                    (workerCount (pool s)) in
    prefix (shutdown_log tr) script /\
    (dispatcher_at s' = Some DExit -> shutdown_log tr = script).
Proof.
  intros s tr s' Hsole Hat Hcom Hok Hex script.
  assert (Hinv : shutdown_inv s).
  { unfold shutdown_inv. rewrite Hat. done. }
  destruct (shutdown_exec _ _ _ Hex Hinv) as [Hrem Hinv'].
  unfold remaining at 1 in Hrem. rewrite Hat in Hrem. fold script in Hrem.
  split; [rewrite Hrem; by eexists|].
  intros Hexit. unfold remaining in Hrem. rewrite Hexit in Hrem.
  by rewrite app_nil_r in Hrem.
Qed.


(** ** The properties at concrete runs *)

Lemma run_after ms s :
  runs ms s = true ->
  run ms s = Some (trace_of ms s, after ms s).
Proof.
  unfold runs, trace_of, after. by destruct (run ms s) as [[tr s']|].
Qed.

Lemma exec_after ms s :
  runs ms s = true -> exec s (trace_of ms s) (after ms s).
Proof. intros H. apply (run_exec ms). by apply run_after. Qed.

Lemma run_in_exec_in (R : state -> bool) (P : state -> Prop) ms s tr s' :
  (forall s, R s = true -> P s) ->
  run_in R ms s = Some (tr, s') -> exec_in P s tr s'.
Proof.
  intros HR. revert s tr s'.
  induction ms as [|m ms IH]; simpl; intros s tr s' H.
  - inversion H; subst. constructor.
  - destruct (R s) eqn:HRs; [|discriminate].
    destruct (step s m) as [[e s1]|] eqn:Hs; [|discriminate].
    destruct (run_in R ms s1) as [[tr1 s2]|] eqn:Hr; [|discriminate].
    inversion H; subst. eapply exec_in_cons; eauto.
Qed.

Lemma in_tickb_spec s : in_tickb s = true -> in_tick s.
Proof.
  unfold in_tickb, in_tick. destruct (dispatcher_at s) as [pc|]; [|done].
  destruct pc; done.
Qed.

Lemma in_intakeb_spec s : in_intakeb s = true -> in_intake s.
Proof.
  unfold in_intakeb, in_intake. destruct (dispatcher_at s) as [pc|]; [|done].
  destruct pc; done.
Qed.

Lemma started_after n callers ms :
  Forall api_call callers ->
  runs ms (init n callers) = true ->
  started (after ms (init n callers)).
Proof.
  intros Hc Hr. exists n, callers, (trace_of ms (init n callers)).
  split; [done|]. by apply exec_after.
Qed.

Lemma nil_ctx_without_deadline_witness :
  exists t, NewTask None plain_fn [0%Z] 7 = Ok t /\ cancel t = None /\
    procs (after [Run 0; Run 0; Comm 0 0]
             (set_proc 0 (GWorker 0 (WLoop t)) (init 1 [])))
      !! 0 = Some (GWorker 0 WNext).
Proof.
  destruct (nil_ctx_without_deadline plain_fn 0 7) as [(t & Ht & Hbg & _ & _ & _ & Hc & _ & Hrun) _];
    [lia|].
  exists t. split; [exact Ht|]. split; [exact Hc|].
  destruct (Hrun (init 1 []) 0 0 None _ eq_refl (Nat.lt_0_1) eq_refl eq_refl Hbg)
    as (tr & tr' & s' & Hr & _ & Hp & _).
  unfold after. rewrite Hr. exact Hp.
Defined.

Lemma direct_dispatch_witness :
  let s := after first_arrives drain_init in
  intake_post
    {| task := plain_fn; Err := Some (ErrCh 0); done := None;
       ctx := Some Background; cancel := None |}
    false (owned s) (intake_log (trace_of first_placed s))
    (after first_placed s) /\
  some_parked s (is_recv_on workerQueue) 0 0 (procs s) = false.
Proof.
  intros s. destruct direct_dispatch as [Hseg Hdef]. split.
  - apply Hseg.
    + apply started_after; [repeat constructor|vm_compute; reflexivity].
    + vm_compute. reflexivity.
    + apply (run_in_exec_in in_intakeb _ first_placed).
      * apply in_intakeb_spec.
      * vm_compute. reflexivity.
    + unfold in_intake. vm_compute. exact (fun x => x).
  - destruct (step s (Default 0)) as [[e s']|] eqn:Hs.
    + eapply (Hdef s _ false e s'); [vm_compute; reflexivity|exact Hs].
    + vm_compute in Hs. discriminate Hs.
Defined.

Lemma sole_dispatcher_after n callers ms :
  runs ms (init n callers) = true ->
  sole_dispatcher (after ms (init n callers)).
Proof.
  intros Hr. eapply sole_dispatcher_exec; [by apply exec_after|].
  apply sole_dispatcher_init.
Qed.

Lemma shutdown_sequence_witness :
  let s := after before_shutdown drain_init in
  shutdown_log (trace_of shutdown_moves s)
  = [Drain {| task := plain_fn; Err := Some (ErrCh 1); done := None;
              ctx := Some Background; cancel := None |};
     KillPill; Decrement; AwaitWorkers; StopTimer; CloseStopped].
Proof.
  intros s.
  assert (Hsole : sole_dispatcher s).
  { apply sole_dispatcher_after. vm_compute. reflexivity. }
  assert (Hat : dispatcher_at s = Some DShutdown) by (vm_compute; reflexivity).
  assert (Hcom : stop_committed s).
  { split; [left; vm_compute; reflexivity|].
    intros [|[|[|[|[|i]]]]] pc; vm_compute; intros H;
      try discriminate H; injection H as <-; exact I. }
  assert (Hok : int64_ok (workerCount (pool s))).
  { vm_compute. split; [discriminate|reflexivity]. }
  assert (Hex : exec s (trace_of shutdown_moves s) (after shutdown_moves s)).
  { apply exec_after. vm_compute. reflexivity. }
  destruct (shutdown_sequence s _ _ Hsole Hat Hcom Hok Hex) as [_ Hall].
  rewrite Hall; [|vm_compute; reflexivity].
  vm_compute. reflexivity.
Defined.

Lemma waiting_queue_fifo_witness :
  let ms := before_shutdown ++ shutdown_moves in
  pushes (trace_of ms drain_init)
  = handoffs (trace_of ms drain_init) ++ pending (after ms drain_init).
Proof.
  intros ms.
  apply (waiting_queue_fifo 1
           [CSubmit (Some Background) plain_fn 0;
            CSubmit (Some Background) plain_fn 0; CStop true]).
  apply (exec_after ms drain_init). vm_compute. reflexivity.
Defined.

Lemma nil_fn_is_noop_witness :
  (exists s',
     let s := init 1 [CSubmit (Some Background) None 0] in
     option_map snd (run [Run 1; Run 1] s) = Some s' /\
     chans s' (nilFnCh 0) = {| buf := []; closed := true |} /\
     pool s' = pool s /\ newTasks s' = 0) /\
  (let s := init 1 [CSubmitWait (Some Background) None 0] in
   option_map snd (step s (Run 1))
   = Some (set_proc 1 (GClient (CReturned None)) s)).
Proof.
  split.
  - destruct (nil_fn_is_noop (init 1 [CSubmit (Some Background) None 0]) 1
                (Some Background) 0%Z eq_refl eq_refl) as [Hsub _].
    destruct (Hsub eq_refl) as (g' & s' & Hrun & _ & Hch & _ & Hp & Hn & _).
    exists s'. cbv zeta in *. rewrite Hrun. repeat split; assumption.
  - destruct (nil_fn_is_noop (init 1 [CSubmitWait (Some Background) None 0]) 1
                (Some Background) 0%Z eq_refl eq_refl) as [_ Hwait].
    cbv zeta. rewrite (Hwait eq_refl). reflexivity.
Defined.

Lemma cancel_and_done_paired_witness :
  (exists t, NewTask (Some Background) plain_fn [5%Z] 0 = Ok t /\
             cancel t = Some (CancelCtx 0) /\ done t = Some (doneCh 0)) /\
  is_Some (done deadline_task).
Proof.
  destruct cancel_and_done_paired as (Hnew & _ & Hhelper). split.
  - eexists. split; [reflexivity|].
    destruct (Hnew (Some Background) plain_fn [5%Z] 0 _ eq_refl)
      as [(Hc & _)|(Hc & Hd & _)]; [discriminate Hc|].
    split; assumption.
  - apply (Hhelper (after deadline_prefix deadline_init) 3 2 (HCall deadline_task)).
    + apply started_after; [repeat constructor|vm_compute; reflexivity].
    + vm_compute. reflexivity.
    + simpl. apply list_elem_of_here.
Defined.

Lemma worker_exits_iff_nil_fn_witness :
  let s := after (before_second_tick ++ [Run 0; Run 0; Sync 0 0 2 0]) reap_init in
  exists e s', step s (Run 2) = Some (e, s') /\
    procs s' !! 2 = Some (GWorker 2 WDone) /\
    exists t, procs s !! 2 = Some (GWorker 2 (WLoop t)) /\ task t = None.
Proof.
  intros s. destruct worker_exits_iff_nil_fn as [Hhead Honly].
  destruct (Hhead s 2 2 (killPill 1) eq_refl eq_refl) as (s' & Hs & Hiff).
  eexists _, s'. split; [exact Hs|].
  assert (Hdone : procs s' !! 2 = Some (GWorker 2 WDone))
    by (apply Hiff; reflexivity).
  split; [exact Hdone|].
  destruct (Honly _ _ _ _ 2 2 Hs Hdone) as [Hold|Hloop]; [discriminate Hold|exact Hloop].
Defined.


(** ** Invariants of the pools made by [New] *)

Lemma started_init n callers :
  Forall api_call callers -> started (init n callers).
Proof. intros H. exists n, callers, []. split; [done|constructor]. Qed.

Lemma exec_snoc s tr s' m e s'' :
  exec s tr s' -> step s' m = Some (e, s'') -> exec s (tr ++ [e]) s''.
Proof.
  intros H Hs. eapply exec_app; [done|]. econstructor; [done|constructor].
Qed.

Lemma started_exec s tr s' : started s -> exec s tr s' -> started s'.
Proof.
  intros (n & callers & tr0 & Hc & H0) H.
  exists n, callers, (tr0 ++ tr). split; [done|]. by eapply exec_app.
Qed.

Lemma started_step s m e s' :
  started s -> step s m = Some (e, s') -> started s'.
Proof.
  intros H Hs. eapply started_exec; [done|].
  econstructor; [done|constructor].
Qed.

(** Induction on the executions of a started pool. *)
Lemma started_invariant (P : state -> Prop) :
  (forall n callers, Forall api_call callers -> P (init n callers)) ->
  (forall s e s', started s -> P s -> stepR s e s' -> P s') ->
  forall s, started s -> P s.
Proof.
  intros H0 Hstep s (n & callers & tr & Hc & Hex).
  assert (Hgen : forall s0 tr s, exec s0 tr s -> started s0 -> P s0 -> P s).
  { clear -Hstep. induction 1 as [|s m e s1 tr s2 Hs _ IH]; [done|].
    intros Hst HP. apply IH; [by eapply started_step|].
    apply step_stepR in Hs as [_ Hs]. by eapply Hstep. }
  eapply Hgen; [done|by apply started_init|by apply H0].
Qed.
Lemma wrap64_range z : int64_ok (wrap64 z).
Proof.
  unfold int64_ok, wrap64.
  pose proof (Z.mod_pos_bound (z + 2 ^ 63) (2 ^ 64)). lia.
Qed.

Lemma run_action_count_ok a s :
  int64_ok (workerCount (pool s)) ->
  (forall z, a = StoreWorkerCount z -> int64_ok z) ->
  int64_ok (workerCount (pool (run_action a s))).
Proof.
  intros H Hz. destruct a as [| | | | | | | | | | |[k]| | | | | | |]; simpl;
    try done; [by apply Hz|apply wrap64_range].
Qed.

Lemma count_ok_step s e s' :
  stepR s e s' -> int64_ok (workerCount (pool s)) ->
  int64_ok (workerCount (pool s')).
Proof.
  intros H Hok. destruct H; simpl; try done.
  assert (Hst : forall z, StoreWorkerCount z ∈ acts -> z = 0%Z).
  { intros z Hin.
    destruct g as [[pc b]|w pc|w pc|pc]; destruct pc;
      unfold offer_at, dispatch, with_pill in H0; simpl in H0;
      repeat match type of H0 with
             | context [match ?x with _ => _ end] => destruct x eqn:?
             end; simpl in H0;
      try discriminate H0; injection H0 as <- <-;
      repeat (apply elem_of_cons in Hin as [Hin|Hin]; [by simplify_eq|]);
      by apply elem_of_nil in Hin. }
  clear H0.
  assert (Hok' : int64_ok (workerCount (pool (set_proc i k s)))) by done.
  revert Hok' Hst. generalize (set_proc i k s). clear.
  induction acts as [|a acts IH]; intros s Hok Hst; [done|].
  unfold run_actions in *. simpl. apply IH.
  - apply run_action_count_ok; [done|]. intros z ->.
    rewrite (Hst z); [|by left]. unfold int64_ok. lia.
  - intros z Hin. apply Hst. by right.
Qed.

Lemma run_actions_closed acts s c :
  closed (chans (run_actions acts s) c) = closed (chans s c) \/
  (closed (chans (run_actions acts s) c) = true /\ exists k, c = ctxDone k).
Proof.
  revert s. induction acts as [|a acts IH]; intros s; [by left|].
  unfold run_actions in *. simpl.
  destruct (IH (run_action a s)) as [->|[-> Hk]]; [|by right].
  destruct a as [| | | | | | | | | | |[k]| | | | | | |]; simpl; try (by left).
  case_decide; subst; simpl; [right; eauto|by left].
Qed.

(** How a step changes whether a channel is closed. *)
Lemma stepR_closed s e s' c :
  stepR s e s' ->
  closed (chans s' c) = closed (chans s c) \/
  (closed (chans s' c) = true /\
   ((exists i g, e = EClose i g c) \/ exists k, c = ctxDone k)).
Proof.
  intros H. destruct H; simpl; try (by left);
    try (case_decide; subst; simpl; by left).
  - destruct (run_actions_closed acts (set_proc i k s) c) as [->|[-> Hk]];
      [by left|right; eauto].
  - case_decide; subst; simpl; [right; eauto|by left].
  - case_decide; subst; simpl; [right; eauto|by left].
Qed.

Lemma close_taskQueue s g k :
  goroutine_ok g -> offer_at s g = Close (Some taskQueue) k ->
  g = GClient CStop3.
Proof.
  intros [Hh Hc] Ho.
  destruct g as [[pc b]|w pc|w pc|pc]; destruct pc;
    unfold offer_at, dispatch, with_pill in Ho; simpl in Ho;
    repeat match type of Ho with
           | context [match ?x with _ => _ end] => destruct x eqn:?
           end; simpl in Ho;
    try discriminate Ho; simplify_eq; try done.
  simpl in Hh. apply Forall_cons in Hh as [Hb _].
  apply built_done in Hb as [[? ?]|(? & ? & ? & ? & ? & ?)]; congruence.
Qed.

(** The dispatcher leaves its loop only on seeing [taskQueue] closed. *)
Lemma dispatcher_enters_shutdown s e s' d' :
  stepR s e s' -> dispatcher_of s' = Some d' -> in_shutdown (dat d') = true ->
  (exists d, dispatcher_of s = Some d /\ in_shutdown (dat d) = true) \/
  closed (chans s taskQueue) = true.
Proof.
  intros H Hd' Hin'. apply dispatcher_of_Some in Hd'.
  destruct (stepR_back _ _ _ _ _ H Hd') as [(g & Hg & [<-|[Hact Hc]])|[_ Hsp]].
  - left. exists d'. split; [by apply dispatcher_of_Some|done].
  - pose proof (conts_same_kind _ _ _ Hc) as Hk.
    destruct g as [[pc b]| | |]; try done. clear Hc Hk.
    destruct (in_shutdown pc) eqn:E.
    { left. eexists. split; [by apply dispatcher_of_Some|done]. }
    right.
    destruct (procs s) as [|g0 ps] eqn:Hps; [done|].
    simpl in Hg. injection Hg as ->.
    destruct pc; try discriminate E; destruct H; actor_inv Hact;
      try (simpl in Hd'; rewrite Hps in Hd'; simpl in Hd';
           injection Hd' as <-; discriminate Hin');
      try match goal with
      | Ho : offer_at _ (GDispatch _) = _ |- _ =>
          unfold offer_at, dispatch, with_pill in Ho; simpl in Ho;
          repeat match type of Ho with
                 | context [match ?x with _ => _ end] => destruct x eqn:?
                 end; simpl in Ho;
          try discriminate Ho; injection Ho as <-; intros; subst
      end; lookups_inv.
    all: try match goal with
         | Hne : 0 <> ?j |- _ => destruct j; [done|]
         | Hne : ?j <> 0 |- _ => destruct j; [done|]
         end.
    all: simpl in Hd'; rewrite ?Hps in Hd'; simpl in Hd';
         injection Hd' as <-; simpl in Hin'; try discriminate Hin'.
    all: assumption.
  - destruct Hsp as [(? & ? & ?)|(? & ?)]; discriminate.
Qed.

Lemma close_stopSignal s g k :
  goroutine_ok g -> offer_at s g = Close (Some stopSignal) k ->
  exists w, g = GClient (CStop1 w).
Proof.
  intros [Hh Hc] Ho.
  destruct g as [[pc b]|w pc|w pc|pc]; destruct pc;
    unfold offer_at, dispatch, with_pill in Ho; simpl in Ho;
    repeat match type of Ho with
           | context [match ?x with _ => _ end] => destruct x eqn:?
           end; simpl in Ho;
    try discriminate Ho; simplify_eq; try done; eauto.
  simpl in Hh. apply Forall_cons in Hh as [Hb _].
  apply built_done in Hb as [[? ?]|(? & ? & ? & ? & ? & ?)]; congruence.
Qed.

Lemma stop_state_eq s a b c o ol sl :
  stop_state s = (a, b, c, o, ol, sl) ->
  closed (chans s stopSignal) = a /\ stopped (pool s) = b /\
  closed (chans s taskQueue) = c /\ stopOnce (pool s) = o /\
  onceLock (pool s) = ol /\ stopLock (pool s) = sl /\
  stop_flags s = (a, b, c, o).
Proof. unfold stop_state, stop_flags. by intros [= -> -> -> -> -> ->]. Qed.

(** What a step of the protocol keeps of the invariant, seen from the caller
    that makes it. *)
Lemma stop_move_facts pc pc' a b c o ol sl a' b' c' o' ol' sl' :
  stop_move pc (a, b, c, o, ol, sl) = Some (pc', (a', b', c', o', ol', sl')) ->
  (in_once pc = true -> ol = true /\ (a, b, c, o) ∈ body_flags pc) ->
  (ol = false ->
   (a, b, c, o) ∈ [(false, false, false, false); (true, true, true, true)]) ->
  (in_stop_lock pc = true -> sl = true) ->
  (in_once pc' = true ->
   ol' = true /\ (a', b', c', o') ∈ body_flags pc' /\
   (in_once pc = true \/ ol = false)) /\
  (in_once pc = false ->
   (a', b', c', o') = (a, b, c, o) /\ (ol = true -> ol' = true)) /\
  (in_once pc = true -> in_once pc' = false -> ol' = false) /\
  (ol' = false ->
   (a', b', c', o') ∈
     [(false, false, false, false); (true, true, true, true)]) /\
  (in_stop_lock pc' = true ->
   sl' = true /\ (in_stop_lock pc = true \/ sl = false)) /\
  (in_stop_lock pc = false -> sl = true -> sl' = true) /\
  (in_stop_lock pc = true -> in_stop_lock pc' = false -> sl' = false) /\
  (c = true -> c' = true).
Proof.
  intros Hm Hin Hout Hlk.
  destruct pc; try discriminate Hm; simpl in Hm, Hin, Hlk;
    try (destruct (Hin eq_refl) as [-> Hf]; clear Hin;
         repeat (apply elem_of_cons in Hf as [Hf|Hf]; [simplify_eq|]);
         try (by apply elem_of_nil in Hf));
    try specialize (Hlk eq_refl); subst;
    repeat case_match; simplify_eq; simpl;
    repeat split; try done; intros; simplify_eq; try done;
    try (by left); try (by right);
    try (apply list_elem_of_In; simpl; tauto);
    try (by apply Hout).
Qed.

(** The statements that belong to the protocol are run by its movers. *)
Lemma stop_actions s g acts k :
  offer_at s g = Do acts k -> stop_mover g = false ->
  Forall (fun a => a <> OnceDone /\ a <> SetStopped /\
                   forall m, a <> Unlock m) acts.
Proof.
  intros Ho Hm.
  destruct g as [[pc b]|w pc|w pc|pc]; destruct pc;
    unfold offer_at, dispatch, with_pill in Ho; simpl in Ho;
    repeat match type of Ho with
           | context [match ?x with _ => _ end] => destruct x eqn:?
           end; simpl in Ho;
    try discriminate Ho; injection Ho as <- <-;
    try discriminate Hm; repeat constructor; try done.
Qed.

Lemma run_actions_stop_state acts s :
  Forall (fun a => a <> OnceDone /\ a <> SetStopped /\
                   forall m, a <> Unlock m) acts ->
  stop_state (run_actions acts s) = stop_state s.
Proof.
  revert s. induction acts as [|a acts IH]; intros s Hall; [done|].
  apply Forall_cons in Hall as [(H1 & H2 & H3) Hall].
  unfold run_actions in *. simpl. rewrite (IH _ Hall).
  destruct a as [| | | | | | | | | | |[k]| | | | | | |m]; try done.
  by destruct (H3 m).
Qed.

Lemma lock_offer s g m k : offer_at s g = Lock m k -> stop_mover g = true.
Proof.
  intros Ho.
  destruct g as [[pc b]|w pc|w pc|pc]; destruct pc;
    unfold offer_at, dispatch, with_pill in Ho; simpl in Ho;
    repeat match type of Ho with
           | context [match ?x with _ => _ end] => destruct x eqn:?
           end; simpl in Ho;
    try discriminate Ho; done.
Qed.

(** Only a mover's step takes a caller to where it holds a mutex. *)
Lemma stop_conts s g pc' :
  offer_conts (offer_at s g) (GClient pc') ->
  in_once pc' || in_stop_lock pc' = true -> stop_mover g = true.
Proof.
  intros Hc Hb. pose proof (conts_same_kind _ _ _ Hc) as Hk.
  destruct g as [| | |pc]; try done.
  simpl in Hc. apply offer_conts_map in Hc as (l & [= <-] & Hc).
  destruct pc; simpl in Hc;
    repeat match type of Hc with
           | context [match ?x with _ => _ end] => destruct x eqn:?
           end; conts_cases; try discriminate Hb; try done.
Qed.

Lemma stop_quiet_procs s e s' :
  stepR s e s' ->
  (forall i g, (i, g) ∈ actors e -> stop_mover g = false) ->
  (forall i pc, procs s' !! i = Some (GClient pc) ->
     in_once pc || in_stop_lock pc = true ->
     procs s !! i = Some (GClient pc)) /\
  (forall i pc, procs s !! i = Some (GClient pc) ->
     in_once pc || in_stop_lock pc = true ->
     procs s' !! i = Some (GClient pc)).
Proof.
  intros H Hq. split; intros i pc Hi Hb.
  - destruct (stepR_back _ _ _ _ _ H Hi) as [(g & Hg & [<-|[Hin Hc]])|[_ Hsp]].
    + done.
    + specialize (Hq _ _ Hin). by rewrite (stop_conts _ _ _ Hc Hb) in Hq.
    + destruct Hsp as [(? & ? & ?)|(? & ?)]; discriminate.
  - destruct (stepR_conts _ _ _ _ _ H Hi) as (g' & Hg' & [->|[Hin _]]);
      [done|].
    specialize (Hq _ _ Hin). destruct pc; done.
Qed.

Lemma stop_quiet_state s e s' :
  stepR s e s' -> wf s ->
  (forall i g, (i, g) ∈ actors e -> stop_mover g = false) ->
  stop_state s' = stop_state s.
Proof.
  intros H Hwf Hq. destruct H; try done;
    try (unfold stop_state, stop_flags; simpl; repeat case_decide; by subst).
  - rewrite run_actions_stop_state; [done|].
    eapply stop_actions; [done|]. apply (Hq i). by left.
  - assert (Hm : stop_mover g = false) by (apply (Hq i); by left).
    pose proof (wf_procs _ Hwf _ _ H) as Hok.
    unfold stop_state, stop_flags; simpl. repeat case_decide; try done; subst.
    all: first [ apply (close_taskQueue _ _ _ Hok) in H0 as ->
               | apply (close_stopSignal _ _ _ Hok) in H0 as [w ->] ];
         discriminate Hm.
  - assert (Hm : stop_mover g = false) by (apply (Hq i); by left).
    by rewrite (lock_offer _ _ _ _ H0) in Hm.
Qed.

Lemma stop_mover_step s e s' i g :
  stepR s e s' -> (i, g) ∈ actors e -> stop_mover g = true ->
  s' = crash s \/
  exists pc pc', g = GClient pc /\ procs s' = <[i := GClient pc']> (procs s) /\
    stop_move pc (stop_state s) = Some (pc', stop_state s').
Proof.
  intros H Hin Hm.
  destruct g as [| | |pc]; try discriminate Hm.
  destruct pc; try discriminate Hm; simpl in Hm.
  all: destruct H; actor_inv Hin; try (by left); right;
    try match goal with
    | Ho : offer_at _ (GClient _) = _ |- _ =>
        unfold offer_at, client in Ho; simpl in Ho;
        repeat match type of Ho with
               | context [match ?x with _ => _ end] => destruct x eqn:?
               end; simpl in Ho;
        try discriminate Ho; simplify_eq
    end.
  all: eexists _, _; split; [done|]; split; [done|].
  all: unfold stop_state, stop_flags; simpl in *; repeat case_decide; try done.
  all: repeat match goal with H : _ = false |- _ => rewrite H end;
       repeat match goal with H : _ = true |- _ => rewrite H end; try done.
  all: repeat match goal with |- context [closed ?x] => destruct (closed x) end;
       repeat match goal with |- context [stopOnce ?x] => destruct (stopOnce x) end;
       repeat match goal with |- context [onceLock ?x] => destruct (onceLock x) end;
       repeat match goal with |- context [stopLock ?x] => destruct (stopLock x) end;
       repeat match goal with |- context [stopped ?x] => destruct (stopped x) end;
       done.
Qed.

Lemma stop_step s e s' :
  stepR s e s' -> wf s ->
  (stop_state s' = stop_state s /\
   (forall i pc, procs s' !! i = Some (GClient pc) ->
      in_once pc || in_stop_lock pc = true ->
      procs s !! i = Some (GClient pc)) /\
   (forall i pc, procs s !! i = Some (GClient pc) ->
      in_once pc || in_stop_lock pc = true ->
      procs s' !! i = Some (GClient pc)))
  \/ (exists i pc pc', procs s !! i = Some (GClient pc) /\
        procs s' = <[i := GClient pc']> (procs s) /\
        stop_move pc (stop_state s) = Some (pc', stop_state s')).
Proof.
  intros H Hwf.
  destruct (existsb (fun a => stop_mover a.2) (actors e)) eqn:Hex.
  - apply existsb_exists in Hex as ([i g] & Hin & Hm).
    simpl in Hm. apply list_elem_of_In in Hin.
    destruct (stop_mover_step _ _ _ _ _ H Hin Hm) as [->|(pc & pc' & -> & ? & ?)].
    + by left.
    + right. exists i, pc, pc'. split; [|done].
      by eapply actors_lookup.
  - assert (Hq : forall i g, (i, g) ∈ actors e -> stop_mover g = false).
    { intros i g Hin. destruct (stop_mover g) eqn:Hg; [|done].
      assert (existsb (fun a => stop_mover a.2) (actors e) = true);
        [|congruence].
      apply existsb_exists. exists (i, g).
      split; [by apply list_elem_of_In|done]. }
    left. split; [by eapply stop_quiet_state|by eapply stop_quiet_procs].
Qed.

Lemma stop_inv_step s e s' :
  stepR s e s' -> wf s -> stop_inv s -> stop_inv s'.
Proof.
  intros H Hwf [Hone Hfree Hheld Hin Hout Lone Lfree Lheld Hseen].
  assert (Hsd : forall d, dispatcher_of s' = Some d ->
            in_shutdown (dat d) = true -> closed (chans s taskQueue) = true).
  { intros d Hd Hs.
    destruct (dispatcher_enters_shutdown _ _ _ _ H Hd Hs)
      as [(d0 & Hd0 & Hs0)|Hc]; [by eapply Hseen|done]. }
  assert (Hor : forall pc, in_once pc = true ->
            in_once pc || in_stop_lock pc = true)
    by (intros pc ->; done).
  assert (Lor : forall pc, in_stop_lock pc = true ->
            in_once pc || in_stop_lock pc = true)
    by (intros pc ->; apply orb_true_r).
  destruct (stop_step _ _ _ H Hwf)
    as [(Hf & Hb & Hk)|(i & pc & pc' & Hi & Hp & Hm)].
  - destruct (stop_state s) as [[[[[a b] c] o] ol] sl] eqn:Hs.
    apply stop_state_eq in Hs as (Ha & Hb0 & Hc & Ho & Hol & Hsl & Hfl).
    apply stop_state_eq in Hf as (Ha' & Hb' & Hc' & Ho' & Hol' & Hsl' & Hfl').
    split.
    + intros i j pc pc' Hi Hj Hbi Hbj. eapply Hone; eauto.
    + intros Hl i pc Hi. destruct (in_once pc) eqn:Hbi; [|done].
      rewrite <- (Hfree ltac:(congruence) i pc); eauto.
    + intros Hl. destruct Hheld as (i & pc & Hi & Hbi); [congruence|].
      exists i, pc. eauto.
    + intros i pc Hi Hbi. rewrite Hfl', <- Hfl. eauto.
    + intros Hl. rewrite Hfl', <- Hfl. apply Hout. congruence.
    + intros i j pc pc' Hi Hj Hbi Hbj. eapply Lone; eauto.
    + intros Hl i pc Hi. destruct (in_stop_lock pc) eqn:Hbi; [|done].
      rewrite <- (Lfree ltac:(congruence) i pc); eauto.
    + intros Hl. destruct Lheld as (i & pc & Hi & Hbi); [congruence|].
      exists i, pc. eauto.
    + intros d Hd Hsh. specialize (Hsd _ Hd Hsh). congruence.
  - assert (Hlen : i < length (procs s)) by (by eapply lookup_lt_Some).
    assert (Hothers : forall j pc0, j <> i ->
              procs s' !! j = Some (GClient pc0) ->
              procs s !! j = Some (GClient pc0)).
    { intros j pc0 Hne Hj. by rewrite Hp, list_lookup_insert_ne in Hj. }
    assert (Hkept : forall j pc0, j <> i ->
              procs s !! j = Some (GClient pc0) ->
              procs s' !! j = Some (GClient pc0)).
    { intros j pc0 Hne Hj. by rewrite Hp, list_lookup_insert_ne. }
    assert (Hself : procs s' !! i = Some (GClient pc')).
    { rewrite Hp. by apply list_lookup_insert_eq. }
    destruct (stop_state s) as [[[[[a b] c] o] ol] sl] eqn:Hs.
    destruct (stop_state s') as [[[[[a' b'] c'] o'] ol'] sl'] eqn:Hs'.
    apply stop_state_eq in Hs as (Ha & Hb0 & Hc & Ho & Hol & Hsl & Hfl).
    apply stop_state_eq in Hs' as (Ha' & Hb' & Hc' & Ho' & Hol' & Hsl' & Hfl').
    assert (K1 : in_once pc = true -> ol = true /\ (a, b, c, o) ∈ body_flags pc).
    { intros Hb1. split; [|rewrite <- Hfl; eauto].
      destruct ol; [done|]. by rewrite (Hfree Hol _ _ Hi) in Hb1. }
    assert (K3 : ol = false ->
              (a, b, c, o) ∈
                [(false, false, false, false); (true, true, true, true)]).
    { intros ->. rewrite <- Hfl. by apply Hout. }
    assert (K4 : in_stop_lock pc = true -> sl = true).
    { intros Hb1. destruct sl; [done|]. by rewrite (Lfree Hsl _ _ Hi) in Hb1. }
    destruct (stop_move_facts _ _ _ _ _ _ _ _ _ _ _ _ _ _ Hm K1 K3 K4)
      as (M1 & M2 & M3 & M4 & M5 & M6 & M7 & M8).
    assert (O1 : forall j pcj, j <> i -> procs s !! j = Some (GClient pcj) ->
              in_once pcj = true -> in_once pc = false /\ ol = true).
    { intros j pcj Hne Hj Hbj. split.
      - destruct (in_once pc) eqn:Hb1; [|done].
        by destruct Hne, (Hone j i pcj pc).
      - destruct ol; [done|]. by rewrite (Hfree Hol _ _ Hj) in Hbj. }
    assert (O2 : forall j pcj, j <> i -> procs s !! j = Some (GClient pcj) ->
              in_stop_lock pcj = true -> in_stop_lock pc = false /\ sl = true).
    { intros j pcj Hne Hj Hbj. split.
      - destruct (in_stop_lock pc) eqn:Hb1; [|done].
        by destruct Hne, (Lone j i pcj pc).
      - destruct sl; [done|]. by rewrite (Lfree Hsl _ _ Hj) in Hbj. }
    split.
    + intros i1 i2 pc1 pc2 H1 H2 Hb1 Hb2.
      destruct (decide (i1 = i)) as [->|Hn1];
        destruct (decide (i2 = i)) as [->|Hn2]; [done| | |].
      * rewrite Hself in H1. injection H1 as <-.
        destruct (M1 Hb1) as (_ & _ & Hor1).
        destruct (O1 _ _ Hn2 (Hothers _ _ Hn2 H2) Hb2) as [? ?].
        destruct Hor1; congruence.
      * rewrite Hself in H2. injection H2 as <-.
        destruct (M1 Hb2) as (_ & _ & Hor1).
        destruct (O1 _ _ Hn1 (Hothers _ _ Hn1 H1) Hb1) as [? ?].
        destruct Hor1; congruence.
      * eapply Hone; eauto.
    + intros Hl j pcj Hj. destruct (in_once pcj) eqn:Hbj; [exfalso|done].
      destruct (decide (j = i)) as [->|Hn].
      * rewrite Hself in Hj. injection Hj as <-.
        destruct (M1 Hbj) as (? & _). congruence.
      * destruct (O1 _ _ Hn (Hothers _ _ Hn Hj) Hbj) as [Hb1 Ht].
        destruct (M2 Hb1) as [_ Hk]. specialize (Hk Ht). congruence.
    + intros Hl. destruct (in_once pc') eqn:Hbn; [by exists i, pc'|].
      destruct (in_once pc) eqn:Hb1.
      { specialize (M3 eq_refl eq_refl). congruence. }
      assert (Ht : ol = true).
      { destruct ol; [done|]. exfalso.
        clear -Hm Hbn Hol' Hl. destruct pc; try discriminate Hm;
          simpl in Hm; repeat case_match; simplify_eq; try done; congruence. }
      destruct Hheld as (j & pcj & Hj & Hbj); [congruence|].
      exists j, pcj. split; [|done]. apply Hkept; [|done].
      intros ->. rewrite Hi in Hj. injection Hj as <-. congruence.
    + intros j pcj Hj Hbj. rewrite Hfl'.
      destruct (decide (j = i)) as [->|Hn].
      * rewrite Hself in Hj. injection Hj as <-. by destruct (M1 Hbj) as (_ & ? & _).
      * pose proof (Hothers _ _ Hn Hj) as Hj0.
        destruct (O1 _ _ Hn Hj0 Hbj) as [Hb1 Ht].
        destruct (M2 Hb1) as [-> _]. rewrite <- Hfl. eauto.
    + intros Hl. rewrite Hfl'. apply M4. congruence.
    + intros i1 i2 pc1 pc2 H1 H2 Hb1 Hb2.
      destruct (decide (i1 = i)) as [->|Hn1];
        destruct (decide (i2 = i)) as [->|Hn2]; [done| | |].
      * rewrite Hself in H1. injection H1 as <-.
        destruct (M5 Hb1) as (_ & Hor1).
        destruct (O2 _ _ Hn2 (Hothers _ _ Hn2 H2) Hb2) as [? ?].
        destruct Hor1; congruence.
      * rewrite Hself in H2. injection H2 as <-.
        destruct (M5 Hb2) as (_ & Hor1).
        destruct (O2 _ _ Hn1 (Hothers _ _ Hn1 H1) Hb1) as [? ?].
        destruct Hor1; congruence.
      * eapply Lone; eauto.
    + intros Hl j pcj Hj. destruct (in_stop_lock pcj) eqn:Hbj; [exfalso|done].
      destruct (decide (j = i)) as [->|Hn].
      * rewrite Hself in Hj. injection Hj as <-.
        destruct (M5 Hbj) as (? & _). congruence.
      * destruct (O2 _ _ Hn (Hothers _ _ Hn Hj) Hbj) as [Hb1 Ht].
        specialize (M6 Hb1 Ht). congruence.
    + intros Hl. destruct (in_stop_lock pc') eqn:Hbn; [by exists i, pc'|].
      destruct (in_stop_lock pc) eqn:Hb1.
      { specialize (M7 eq_refl eq_refl). congruence. }
      assert (Ht : sl = true).
      { destruct sl; [done|]. exfalso.
        clear -Hm Hbn Hsl' Hl. destruct pc; try discriminate Hm;
          simpl in Hm; repeat case_match; simplify_eq; try done; congruence. }
      destruct Lheld as (j & pcj & Hj & Hbj); [congruence|].
      exists j, pcj. split; [|done]. apply Hkept; [|done].
      intros ->. rewrite Hi in Hj. injection Hj as <-. congruence.
    + intros d Hd Hsh. specialize (Hsd _ Hd Hsh). rewrite Hc'. apply M8.
      congruence.
Qed.

Lemma stop_inv_init n callers :
  Forall api_call callers -> stop_inv (init n callers).
Proof.
  intros Hc.
  assert (Hnone : forall i pc, procs (init n callers) !! i = Some (GClient pc) ->
            in_once pc = false /\ in_stop_lock pc = false).
  { intros [|i] pc; simpl; [done|]. intros Hi.
    rewrite list_lookup_fmap in Hi.
    destruct (callers !! i) as [pc0|] eqn:Hpc; [|done].
    injection Hi as <-. eapply Forall_lookup_1 in Hc; [|done].
    by destruct pc0. }
  split; try done.
  - intros i j pc pc' Hi Hj Hb. destruct (Hnone _ _ Hi). congruence.
  - intros _ i pc Hi. by destruct (Hnone _ _ Hi).
  - intros i pc Hi Hb. destruct (Hnone _ _ Hi). congruence.
  - intros _. by left.
  - intros i j pc pc' Hi Hj Hb. destruct (Hnone _ _ Hi). congruence.
  - intros _ i pc Hi. by destruct (Hnone _ _ Hi).
  - intros d [= <-]. done.
Qed.

Lemma started_stop_inv s : started s -> stop_inv s.
Proof.
  revert s. apply started_invariant.
  - apply stop_inv_init.
  - intros s0 e s1 Hst Hinv H. eapply stop_inv_step; [done| |done].
    by apply started_wf_sup.
Qed.

Lemma started_count_ok s : started s -> int64_ok (workerCount (pool s)).
Proof.
  revert s. apply (started_invariant (fun s => int64_ok (workerCount (pool s)))).
  - intros n callers _. simpl. unfold int64_ok. lia.
  - intros s0 e s1 _ Hok H. by eapply count_ok_step.
Qed.

(** The flags in the order in which [stop] sets them. *)
Lemma stop_inv_chain s :
  stop_inv s ->
  stop_flags s ∈
    [(false, false, false, false); (true, false, false, false);
     (true, true, false, false); (true, true, true, false);
     (true, true, true, true)].
Proof.
  intros [_ _ Hheld Hin Hout _ _ _ _].
  destruct (onceLock (pool s)) eqn:Hl.
  - destruct (Hheld eq_refl) as (i & pc & Hi & Hb).
    specialize (Hin _ _ Hi Hb).
    destruct pc; try discriminate Hb; simpl in Hin;
      repeat (apply elem_of_cons in Hin as [Hin|Hin]; [rewrite Hin|]);
      try (by apply elem_of_nil in Hin);
      apply list_elem_of_In; simpl; tauto.
  - specialize (Hout eq_refl).
    repeat (apply elem_of_cons in Hout as [Hout|Hout]; [rewrite Hout|]);
      try (by apply elem_of_nil in Hout);
      apply list_elem_of_In; simpl; tauto.
Qed.

Lemma stop_inv_committed s d :
  stop_inv s -> dispatcher_of s = Some d -> in_shutdown (dat d) = true ->
  stop_committed s /\ Stopped (pool s) = true /\
  closed (chans s taskQueue) = true.
Proof.
  intros Hinv Hd Hs. pose proof (stop_inv_chain _ Hinv) as Hchain.
  destruct Hinv as [_ Hfree _ Hin Hout _ _ _ Hseen].
  specialize (Hseen _ Hd Hs).
  destruct (stop_state s) as [[[[[a b] c] o] ol] sl] eqn:Hst.
  apply stop_state_eq in Hst as (Ha & Hb & Hc & Ho & Hol & Hsl & Hfl).
  rewrite Hseen in Hc. subst c. rewrite Hfl in Hchain, Hin, Hout.
  split; [|split; [|done]].
  - split.
    + rewrite Hol, Ho. destruct ol; [by left|right].
      specialize (Hout Hol).
      repeat (apply elem_of_cons in Hout as [Hout|Hout]; [by simplify_eq|]).
      by apply elem_of_nil in Hout.
    + intros i pc Hi. specialize (Hin _ _ Hi). rewrite Ho.
      destruct pc; try done; specialize (Hin eq_refl); simpl in Hin;
        repeat (apply elem_of_cons in Hin as [Hin|Hin]; [by simplify_eq|]);
        by apply elem_of_nil in Hin.
  - unfold Stopped. rewrite Hb.
    repeat (apply elem_of_cons in Hchain as [Hchain|Hchain];
            [by simplify_eq|]).
    by apply elem_of_nil in Hchain.
Qed.


(** X2: [stop] sets the stopped flag between its two closes: whenever
    [taskQueue] is closed [Stopped()] is true, and whenever [Stopped()] is
    true [stopSignal] is closed; the flag is never reset. *)
Theorem stopped_between_closes :
  forall s,
    started s ->
    (closed (chans s taskQueue) = true -> Stopped (pool s) = true) /\
    (Stopped (pool s) = true -> closed (chans s stopSignal) = true) /\
    (forall tr s', exec s tr s' -> Stopped (pool s) = true ->
       Stopped (pool s') = true).
Proof.
  intros s Hst.
  pose proof (stop_inv_chain _ (started_stop_inv _ Hst)) as Hchain.
  unfold Stopped.
  assert (Hord : forall s0, stop_flags s0 ∈
            [(false, false, false, false); (true, false, false, false);
             (true, true, false, false); (true, true, true, false);
             (true, true, true, true)] ->
            (closed (chans s0 taskQueue) = true -> stopped (pool s0) = true) /\
            (stopped (pool s0) = true -> closed (chans s0 stopSignal) = true)).
  { clear. intros s0 Hchain. unfold stop_flags in Hchain.
    repeat (apply elem_of_cons in Hchain as [Hchain|Hchain];
            [injection Hchain as -> -> -> _; by split|]).
    by apply elem_of_nil in Hchain. }
  destruct (Hord _ Hchain) as [H1 H2]. split; [done|]. split; [done|].
  intros tr s' Hex. clear -Hex. induction Hex as [|s m e s1 tr s2 Hs _ IH];
    [done|].
  intros Hs0. apply IH. apply step_stepR in Hs as [_ Hs]. clear IH.
  destruct Hs; simpl; try done.
  assert (Hgen : forall acts s0, stopped (pool s0) = true ->
            stopped (pool (run_actions acts s0)) = true).
  { clear. induction acts as [|a acts IH]; intros s0 H0; [done|].
    unfold run_actions in *. simpl. apply IH.
    by destruct a as [| | | | | | | | | | |[k]| | | | | | |m]. }
  by apply Hgen.
Qed.

(** X3: every pool made by [New] and used through [Submit], [SubmitWait],
    [Stop] and [StopWait] shuts down by the sequence of [dispatch]: when the
    dispatcher has left its loop the winning call of [stop] has stored the
    wait flag and closed [taskQueue], [workerCount] is in range, and what the
    dispatcher does from there on is a prefix of the script for the wait flag,
    the waiting queue and the worker count at that moment, and the whole of
    it once the dispatcher has returned. *)
Theorem started_pool_shuts_down :
  forall s tr s',
    started s ->
    dispatcher_at s = Some DShutdown ->
    exec s tr s' ->
    let script := shutdown_script (wait (pool s)) (waitingQueue (pool s))
                    (workerCount (pool s)) in
    closed (chans s taskQueue) = true /\ Stopped (pool s) = true /\
    prefix (shutdown_log tr) script /\
    (dispatcher_at s' = Some DExit -> shutdown_log tr = script).
Proof.
  intros s tr s' Hst Hat Hex script.
  destruct (dispatcher_of s) as [d|] eqn:Hd;
    [|unfold dispatcher_at in Hat; by rewrite Hd in Hat].
  assert (Hs : in_shutdown (dat d) = true).
  { unfold dispatcher_at in Hat. rewrite Hd in Hat. by injection Hat as ->. }
  destruct (stop_inv_committed _ _ (started_stop_inv _ Hst) Hd Hs)
    as (Hcom & Hsd & Hcl).
  split; [done|]. split; [done|].
  assert (Hinv : shutdown_inv s).
  { unfold shutdown_inv. rewrite Hat.
    split; [by apply started_sole_dispatcher|].
    split; [done|]. split; [by apply started_count_ok|done]. }
  destruct (shutdown_exec _ _ _ Hex Hinv) as [Hrem Hinv'].
  unfold remaining at 1 in Hrem. rewrite Hat in Hrem. fold script in Hrem.
  split; [rewrite Hrem; by eexists|].
  intros Hexit. unfold remaining in Hrem. rewrite Hexit in Hrem.
  by rewrite app_nil_r in Hrem.
Qed.


Lemma stopped_between_closes_witness :
  let s := after [Run 1; Run 1; Run 1; Run 1; Run 1; Run 1] two_stops in
  (closed (chans s taskQueue) = true -> Stopped (pool s) = true) /\
  (Stopped (pool s) = true -> closed (chans s stopSignal) = true) /\
  (forall tr s', exec s tr s' -> Stopped (pool s) = true ->
     Stopped (pool s') = true).
Proof.
  intros s. apply stopped_between_closes.
  apply started_after; [repeat constructor|vm_compute; reflexivity].
Defined.

Lemma started_pool_shuts_down_witness :
  let s := after before_shutdown drain_init in
  let tr := trace_of shutdown_moves s in
  let script := shutdown_script (wait (pool s)) (waitingQueue (pool s))
                  (workerCount (pool s)) in
  closed (chans s taskQueue) = true /\ Stopped (pool s) = true /\
  prefix (shutdown_log tr) script /\
  (dispatcher_at (after shutdown_moves s) = Some DExit ->
   shutdown_log tr = script).
Proof.
  intros s tr. apply started_pool_shuts_down.
  - apply started_after; [repeat constructor|vm_compute; reflexivity].
  - vm_compute; reflexivity.
  - apply exec_after. vm_compute; reflexivity.
Defined.


(** ** Local invariants *)

Section local_step.
Variable G : goroutine -> Prop.
Variable V : chan -> val -> Prop.
Variable Q : poolTask -> Prop.
Variable C : chan -> Prop.

Hypothesis offers : forall s g,
  goroutine_ok g -> Forall Q (waitingQueue (pool s)) -> G g ->
  local_offer G V Q C (offer_at s g).
Hypothesis timer_val : V timerC VUnit.
Hypothesis ctx_closes : forall k, C (ctxDone k).

Lemma local_set_proc s i g :
  local G V Q C s -> G g -> local G V Q C (set_proc i g s).
Proof.
  intros [Hp Hb Hq Hc] Hg. split; simpl; try done.
  intros j g' Hj.
  apply list_lookup_insert_Some in Hj as [(-> & <- & _)|[_ Hj]]; eauto.
Qed.

Lemma local_set_buf s c b :
  local G V Q C s -> (forall v, v ∈ b -> V c v) ->
  local G V Q C (set_buf c b s).
Proof.
  intros [Hp Hb Hq Hc] Hv. split; simpl; try done.
  - intros c' v. case_decide; subst; simpl; eauto.
  - intros c'. case_decide; subst; simpl; eauto.
Qed.

Lemma local_close_chan s c :
  local G V Q C s -> C c -> local G V Q C (close_chan c s).
Proof.
  intros [Hp Hb Hq Hc] Hv. split; simpl; try done.
  - intros c' v. case_decide; subst; simpl; eauto.
  - intros c'. case_decide; subst; simpl; eauto.
Qed.

Lemma local_run_action a s :
  local G V Q C s -> local_action G Q C a -> local G V Q C (run_action a s).
Proof.
  intros Hs Ha. pose proof Hs as [Hp Hb Hq Hc].
  destruct a as [t| | | | | | |t|w| | |[k]| | | | | | |]; simpl in *;
    try (by split); try (by apply local_close_chan).
  - split; simpl; try done. apply Forall_app. split; [done|].
    by apply Forall_singleton.
  - split; simpl; try done. by apply Forall_tail.
  - split; simpl; try done.
    intros i g [Hi|[_ Hi]]%lookup_app_Some; [eauto|].
    by apply list_lookup_singleton_Some in Hi as [_ <-].
  - split; simpl; try done.
    intros i g [Hi|[_ Hi]]%lookup_app_Some; [eauto|].
    by apply list_lookup_singleton_Some in Hi as [_ <-].
Qed.

Lemma local_run_actions acts s :
  local G V Q C s -> Forall (local_action G Q C) acts ->
  local G V Q C (run_actions acts s).
Proof.
  revert s. induction acts as [|a acts IH]; intros s Hs Ha; [done|].
  apply Forall_cons in Ha as [Ha Hacts].
  unfold run_actions in *. simpl. apply IH; [|done].
  by apply local_run_action.
Qed.

(** A step keeps a local invariant when the offers of its actors do. *)
Lemma local_step_actors s e s' :
  stepR s e s' -> local G V Q C s ->
  (forall i g, (i, g) ∈ actors e -> local_offer G V Q C (offer_at s g)) ->
  local G V Q C s'.
Proof using timer_val ctx_closes.
  intros H Hl Hoff.
  destruct H as [i g acts k Hi Ho|i g e0 k Hi Ho|i g c k Hi Ho Hc
    |i g k Hi Ho Hw|i g lk k Hi Ho Hlk|i g Hi|i g cs d n c v k Hi Ho Hn Hc Hlen
    |i g cs d n c k v rest Hi Ho Hn Hb|i g cs d n c k Hi Ho Hn Hb Hc
    |i g cs d n c v k j g' cs' d' m k' Hi Ho Hn Hj Ho' Hm Hne Hcap Hc Hd
    |i g cs k Hi Ho Hall|k Hk Hc|Ht Hb];
    try (assert (Hok : local_offer G V Q C (offer_at s g))
           by (apply (Hoff i); by left));
    try (rewrite Ho in Hok; simpl in Hok).
  - destruct Hok. apply local_run_actions; [|done]. by apply local_set_proc.
  - apply local_set_proc; [done|]. by apply Hok.
  - destruct Hok as [Hk Hcl]. apply local_set_proc; [|done].
    apply local_close_chan; eauto.
  - by apply local_set_proc.
  - apply local_set_proc; [|done]. destruct Hl. by split.
  - destruct Hl. by split.
  - destruct Hok as [Hcs _].
    pose proof (Forall_lookup_1 _ _ _ _ Hcs Hn) as (Hk & Hv).
    apply local_set_proc; [|done]. apply local_set_buf; [done|].
    intros v' [Hin| ->%list_elem_of_singleton]%elem_of_app; [|by apply Hv].
    by eapply local_bufs.
  - destruct Hok as [Hcs _].
    pose proof (Forall_lookup_1 _ _ _ _ Hcs Hn) as Hk. simpl in Hk.
    assert (Hv : forall x, x ∈ v :: rest -> V c x).
    { intros x Hx. rewrite <- Hb in Hx. by eapply local_bufs. }
    apply local_set_proc.
    + apply local_set_buf; [done|]. intros x Hx. apply Hv. by right.
    + apply Hk; [|done]. intros c0 x [= <-] [= <-]. apply Hv. by left.
  - destruct Hok as [Hcs _].
    pose proof (Forall_lookup_1 _ _ _ _ Hcs Hn) as Hk. simpl in Hk.
    apply local_set_proc; [done|]. apply Hk; [done|].
    intros c0 [= <-] _. by eapply local_closed.
  - destruct Hok as [Hcs _].
    pose proof (Forall_lookup_1 _ _ _ _ Hcs Hn) as (Hk & Hv).
    assert (Hok' : local_offer G V Q C (offer_at s g'))
      by (apply (Hoff j); right; by left).
    rewrite Ho' in Hok'. destruct Hok' as [Hcs' _].
    pose proof (Forall_lookup_1 _ _ _ _ Hcs' Hm) as Hk'. simpl in Hk'.
    apply local_set_proc; [by apply local_set_proc|].
    apply Hk'; [|done]. intros c0 x [= <-] [= <-]. by apply Hv.
  - destruct Hok as [_ Hd]. apply local_set_proc; [done|]. by apply Hd.
  - by apply local_close_chan.
  - destruct Hl as [Hp Hbf Hq Hcl]. split; simpl; try done.
    + intros c v. case_decide; subst; simpl; [|eauto].
      by intros ->%list_elem_of_singleton.
    + intros c. case_decide; subst; simpl; eauto.
Qed.

Lemma local_step s e s' :
  stepR s e s' -> wf s -> local G V Q C s -> local G V Q C s'.
Proof using offers timer_val ctx_closes.
  intros H Hwf Hl. eapply local_step_actors; try done.
  intros i g Hin. pose proof (actors_lookup _ _ _ _ _ H Hin) as Hi.
  apply offers; [by eapply wf_procs| |by eapply local_procs].
  by destruct Hl.
Qed.

Lemma local_started :
  (forall n callers, Forall api_call callers ->
     forall i g, procs (init n callers) !! i = Some g -> G g) ->
  forall s, started s -> local G V Q C s.
Proof using offers timer_val ctx_closes.
  intros H0. apply started_invariant.
  - intros n callers Hc. split; simpl; try done.
    + by apply (H0 n callers).
    + intros ? ? []%elem_of_nil.
  - intros s e s' Hst Hl H. eapply local_step; [done| |done].
    by apply started_wf_sup.
Qed.
End local_step.

(** ** What each goroutine holds, and what travels on each channel *)

Lemma pill_task k t : NewTask None None [] k = Ok t -> task t = None.
Proof. unfold NewTask. by intros [= <-]. Qed.

Lemma NewTask_real c f timeout k t :
  NewTask c (Some f) timeout k = Ok t -> real t.
Proof.
  unfold NewTask, real. intros H.
  repeat case_match; simplify_eq; simpl; eauto.
Qed.

Lemma tidy_offers s g :
  goroutine_ok g -> Forall real (waitingQueue (pool s)) -> tidy_ok g ->
  local_offer tidy_ok tidy_val real closable (offer_at s g).
Proof.
  intros [Hh Hc] Hq Hs.
  destruct g as [[pc b]|w pc|w pc|pc]; destruct pc; simpl in *.
  all: unfold dispatch, with_pill; simpl.
  all: repeat case_match; simpl; try done.
  all: unfold local_comm; simpl.
  all: repeat match goal with
       | H : Forall _ (_ :: _) |- _ => apply Forall_cons in H as [? H]
       | H : Forall _ [] |- _ => clear H
       end.
  all: repeat first [ split | apply Forall_cons | apply Forall_nil | intros ? ].
  all: simplify_eq; simpl; try done.
  all: repeat match goal with
       | H : _ /\ _ |- _ => destruct H
       | H : exists _, _ |- _ => destruct H
       end; simplify_eq; try done.
  all: try (by eapply NewTask_real).
  all: try (by eauto).
  all: try match goal with
       | H : forall c0 x, Some ?c = Some c0 -> ?v = Some x -> _,
         H' : forall c0, Some ?c = Some c0 -> ?v = None -> _ |- _ =>
           destruct v as [[?| |]|];
           [ specialize (H _ _ eq_refl eq_refl)
           | specialize (H _ _ eq_refl eq_refl)
           | specialize (H _ _ eq_refl eq_refl)
           | specialize (H' _ eq_refl eq_refl) ];
           simpl in *; try done
       end.
  all: try match goal with
       | H : built ?t, H' : Err ?t = Some _ |- _ =>
           apply built_Err in H as [?|[? ?]]; simplify_eq; done
       end.
  all: try (unfold real, supervised; by eauto).
  all: try match goal with
       | |- match ?c with CancelCtx _ => _ end => by destruct c
       end.
  match goal with
  | H : built ?t, H' : done ?t = Some _ |- _ =>
      apply built_done in H as [[? ?]|(? & ? & ? & ? & ? & ?)]; simplify_eq;
      done
  end.
Qed.

Lemma tidy_init n callers :
  Forall api_call callers ->
  forall i g, procs (init n callers) !! i = Some g -> tidy_ok g.
Proof.
  intros Hc [|i] g; simpl; [by intros [= <-]|].
  rewrite list_lookup_fmap. destruct (callers !! i) as [pc|] eqn:Hpc; [|done].
  intros [= <-]. eapply Forall_lookup_1 in Hc; [|done]. by destruct pc.
Qed.

Lemma started_tidy s : started s -> tidy s.
Proof.
  apply local_started; try done.
  - apply tidy_offers.
  - apply tidy_init.
Qed.



(** ** The idle tick never blocks *)

Lemma exec_in_exec R s tr s' : exec_in R s tr s' -> exec s tr s'.
Proof. induction 1; econstructor; eauto. Qed.

Lemma some_parked_find s test i j ps :
  some_parked s test i j ps = true ->
  exists n g, ps !! n = Some g /\ j + n <> i /\ parked s test g = true.
Proof.
  revert j. induction ps as [|g ps IH]; intros j; simpl; [done|].
  intros [[Hne Hp]%andb_prop|Hrest]%orb_prop.
  - exists 0, g. split; [done|]. split; [|done].
    apply negb_true_iff, Nat.eqb_neq in Hne. lia.
  - destruct (IH _ Hrest) as (n & g' & Hn & Hne & Hp).
    exists (S n), g'. split; [done|]. split; [lia|done].
Qed.

Lemma parked_case s test g :
  parked s test g = true ->
  exists cs n cm, offer_at s g = Select cs None /\ cs !! n = Some cm /\
                  test cm = true.
Proof.
  unfold parked. destruct (offer_at s g) as [| cs [k|] | | | | | |]; try done.
  intros (cm & Hin & Ht)%existsb_exists.
  apply list_elem_of_In, list_elem_of_lookup in Hin as [n Hn]. eauto 10.
Qed.

(** C6: the idle tick.  From the arrival of a tick in direct mode until the
    dispatcher is back at the head of its loop, whatever the other
    goroutines do meanwhile.  The dispatcher is never blocked: as long as it
    handles the tick it has a step to take, which brings it closer to the head
    of the loop, and at the select of [killIdleWorker] that step is the
    default branch when no worker waits on [workerQueue], which leaves
    [workerCount] as it is.  When it is back at the head of the loop: the
    non-blocking send of a kill pill was tried exactly when [idle] was set and
    [workerCount > 0]; [workerCount] is decremented exactly when that send
    was accepted by a worker, and is unchanged otherwise; in every case
    [idle] is set and the timer re-armed. *)
Theorem idle_tick :
  forall s tr s' b,
    sole_dispatcher s ->
    dispatcher_of s = Some (Dsp DTick b) ->
    exec_in in_tick s tr s' ->
    let c := workerCount (pool s) in
    (started s -> in_tick s' -> crashed s' = false ->
     (exists m e s'', step s' m = Some (e, s'') /\ crashed s'' = false /\
        tick_rank s'' < tick_rank s') /\
     (forall pill, dispatcher_at s' = Some (DKillSelect pill) ->
        some_parked s' (is_recv_on workerQueue) 0 0 (procs s') = false ->
        exists e s'', step s' (Default 0) = Some (e, s'') /\
          kill_select e = Some false /\
          dispatcher_at s'' = Some DIdleTrue /\
          workerCount (pool s'') = workerCount (pool s'))) /\
    (~ in_tick s' ->
     dispatcher_of s' = Some (Dsp DLoop true) /\
     timer s' = true /\
     pill_tried tr = b && (0 <? c)%Z /\
     (pill_sent tr = true -> pill_tried tr = true) /\
     workerCount (pool s') = (if pill_sent tr then wrap64 (c - 1) else c) /\
     (int64_ok c ->
      workerCount (pool s') = if pill_sent tr then (c - 1)%Z else c)).
Proof.
  intros s tr s' b Hsole Hd Hex c. split.
  - intros Hst Hin Hcr.
    assert (Hst' : started s').
    { eapply started_exec; [done|]. by eapply exec_in_exec. }
    assert (Hwq : closed (chans s' workerQueue) = false).
    { destruct (closed (chans s' workerQueue)) eqn:Hcl; [|done].
      destruct (local_closed _ _ _ _ _ (started_tidy _ Hst') _ Hcl). }
    clear s tr b Hsole Hd Hex c Hst.
    unfold in_tick, dispatcher_at in Hin.
    destruct (dispatcher_of s') as [[pc b]|] eqn:Hd; [|done].
    apply dispatcher_of_Some in Hd. simpl in Hin.
    assert (Hlen : 0 < length (procs s')) by (by eapply lookup_lt_Some).
    assert (Hno : forall pill,
              dispatcher_at s' = Some (DKillSelect pill) ->
              pc = DKillSelect pill).
    { intros pill. unfold dispatcher_at, dispatcher_of. rewrite Hd. simpl.
      by intros [= ->]. }
    destruct pc; try done.
    + (* if idle && workerCount > 0 *)
      split; [|intros pill Hat; by specialize (Hno _ Hat)].
      eexists (Run 0), _, _. split.
      { unfold step. rewrite Hcr, Hd. simpl. reflexivity. }
      split; [done|].
      unfold tick_rank, dispatcher_at, dispatcher_of. simpl.
      rewrite list_lookup_insert_eq by done. rewrite Hd. simpl.
      repeat case_match; simplify_eq; lia.
    + (* NewTask(nil, nil) *)
      split; [|intros pill Hat; by specialize (Hno _ Hat)].
      eexists (Run 0), _, _. split.
      { unfold step. rewrite Hcr, Hd. simpl. reflexivity. }
      split; [done|].
      unfold tick_rank, dispatcher_at, dispatcher_of. simpl.
      rewrite list_lookup_insert_eq by done. rewrite Hd. simpl.
      repeat case_match; simplify_eq; lia.
    + (* select in killIdleWorker *)
      assert (Hdef : some_parked s' (is_recv_on workerQueue) 0 0 (procs s')
                     = false ->
                exists e s'', step s' (Default 0) = Some (e, s'') /\
                  kill_select e = Some false /\ crashed s'' = false /\
                  dispatcher_at s'' = Some DIdleTrue /\
                  workerCount (pool s'') = workerCount (pool s')).
      { intros Hnone. unfold step. rewrite Hcr, Hd. simpl.
        rewrite Hwq, Hnone. simpl. eexists _, _. split; [done|].
        split; [done|]. split; [done|]. split; [|done].
        unfold dispatcher_at, dispatcher_of. simpl.
        by rewrite list_lookup_insert_eq. }
      split.
      * destruct (some_parked s' (is_recv_on workerQueue) 0 0 (procs s'))
          eqn:Hp.
        -- apply some_parked_find in Hp as (j & g & Hj & Hne & Hp).
           apply parked_case in Hp as (cs & n & cm & Ho & Hn & Ht).
           destruct cm as [|[c'|] k']; try discriminate Ht.
           simpl in Ht. apply bool_decide_eq_true in Ht as ->.
           eexists (Sync 0 0 j n), _,
             (set_proc j (k' (Some (VTask pill)))
                (set_proc 0 (GDispatch (Dsp DKilled b)) s')).
           split.
           { unfold step. rewrite Hcr, Hd, Hj. cbn [mbind option_bind].
             rewrite Ho. simpl. rewrite Hn. simpl.
             unfold step_sync. rewrite Hwq, Ho.
             destruct j; [lia|]. simpl. done. }
           split; [done|].
           unfold tick_rank, dispatcher_at, dispatcher_of. simpl.
           rewrite list_lookup_insert_ne by lia.
           rewrite list_lookup_insert_eq by done. rewrite Hd. simpl. lia.
        -- destruct (Hdef eq_refl) as (e & s'' & Hs & _ & Hc'' & Hat'' & _).
           exists (Default 0), e, s''. split; [done|]. split; [done|].
           unfold tick_rank at 1. rewrite Hat''.
           unfold tick_rank, dispatcher_at, dispatcher_of. rewrite Hd. simpl.
           lia.
      * intros pill' _ Hnone.
        destruct (Hdef Hnone) as (e & s'' & Hs & Hk & _ & Hat'' & Hwc).
        eauto 10.
    + (* workerCount.Add(-1) *)
      split; [|intros pill Hat; by specialize (Hno _ Hat)].
      eexists (Run 0), _, _. split.
      { unfold step. rewrite Hcr, Hd. simpl. reflexivity. }
      split; [done|].
      unfold tick_rank, dispatcher_at, dispatcher_of. simpl.
      rewrite list_lookup_insert_eq by done. rewrite Hd. simpl.
      repeat case_match; simplify_eq; lia.
    + (* idle = true; timeout.Reset(idleTimeout) *)
      split; [|intros pill Hat; by specialize (Hno _ Hat)].
      eexists (Run 0), _, _. split.
      { unfold step. rewrite Hcr, Hd. simpl. reflexivity. }
      split; [done|].
      unfold tick_rank, dispatcher_at, dispatcher_of. simpl.
      rewrite list_lookup_insert_eq by done. rewrite Hd. simpl.
      repeat case_match; simplify_eq; lia.
  - intros Hout.
    assert (Hinv : tick_inv c b false false s).
    { unfold tick_inv. rewrite Hd. simpl. done. }
    destruct (tick_exec _ _ _ _ _ Hex false false Hsole Hinv Hout)
      as (Hd' & Ht & Hc & Hst & Htr).
    simpl in *. repeat split; try done.
    intros Hok. rewrite Hc. destruct (pill_sent tr) eqn:Hsent; [|done].
    apply wrap64_id. rewrite (Hst eq_refl) in Htr.
    symmetry in Htr. apply andb_prop in Htr as [_ Hpos%Z.ltb_lt].
    unfold int64_ok in *. fold c in Hpos. lia.
Qed.

Lemma idle_tick_witness :
  (let s := after before_second_tick reap_init in
   let s' := after second_tick s in
   dispatcher_of s' = Some (Dsp DLoop true) /\ timer s' = true /\
   pill_sent (trace_of second_tick s) = true /\
   workerCount (pool s') = 0%Z) /\
  (let s := after before_second_tick_busy reap_init in
   let s1 := after [Run 0; Run 0] s in
   let s' := after second_tick_busy s in
   (exists e s'', step s1 (Default 0) = Some (e, s'') /\
      kill_select e = Some false /\
      dispatcher_at s'' = Some DIdleTrue /\
      workerCount (pool s'') = workerCount (pool s1)) /\
   dispatcher_of s' = Some (Dsp DLoop true) /\ timer s' = true /\
   pill_tried (trace_of second_tick_busy s) = true /\
   pill_sent (trace_of second_tick_busy s) = false /\
   workerCount (pool s') = 1%Z).
Proof.
  split.
  - intros s s'.
    assert (Hsole : sole_dispatcher s).
    { apply sole_dispatcher_after. vm_compute. reflexivity. }
    assert (Hd : dispatcher_of s = Some (Dsp DTick true))
      by (vm_compute; reflexivity).
    assert (Hex : exec_in in_tick s (trace_of second_tick s) s').
    { apply (run_in_exec_in in_tickb _ second_tick).
      - apply in_tickb_spec.
      - vm_compute. reflexivity. }
    assert (Hout : ~ in_tick s').
    { unfold in_tick. vm_compute. exact (fun x => x). }
    destruct (idle_tick s _ s' true Hsole Hd Hex) as [_ Hdone].
    destruct (Hdone Hout) as (Hd' & Ht & _ & _ & _ & Hc).
    split; [exact Hd'|]. split; [exact Ht|]. split; [vm_compute; reflexivity|].
    rewrite Hc; [vm_compute; reflexivity|].
    vm_compute. split; [discriminate|reflexivity].
  - intros s s1 s'.
    assert (Hst : started s).
    { apply started_after; [repeat constructor|vm_compute; reflexivity]. }
    assert (Hsole : sole_dispatcher s).
    { apply sole_dispatcher_after. vm_compute. reflexivity. }
    assert (Hd : dispatcher_of s = Some (Dsp DTick true))
      by (vm_compute; reflexivity).
    assert (Hex1 : exec_in in_tick s (trace_of [Run 0; Run 0] s) s1).
    { apply (run_in_exec_in in_tickb _ [Run 0; Run 0]).
      - apply in_tickb_spec.
      - vm_compute. reflexivity. }
    assert (Hex : exec_in in_tick s (trace_of second_tick_busy s) s').
    { apply (run_in_exec_in in_tickb _ second_tick_busy).
      - apply in_tickb_spec.
      - vm_compute. reflexivity. }
    assert (Hin1 : in_tick s1).
    { unfold in_tick. vm_compute. exact I. }
    assert (Hout : ~ in_tick s').
    { unfold in_tick. vm_compute. exact (fun x => x). }
    split.
    + destruct (idle_tick s _ s1 true Hsole Hd Hex1) as [Hprog _].
      destruct (Hprog Hst Hin1) as [_ Hdef]; [vm_compute; reflexivity|].
      eapply Hdef; vm_compute; reflexivity.
    + destruct (idle_tick s _ s' true Hsole Hd Hex) as [_ Hdone].
      destruct (Hdone Hout) as (Hd' & Ht & _ & _ & _ & Hc).
      split; [exact Hd'|]. split; [exact Ht|].
      split; [vm_compute; reflexivity|]. split; [vm_compute; reflexivity|].
      rewrite Hc; [vm_compute; reflexivity|].
      vm_compute. split; [discriminate|reflexivity].
Defined.


(** ** Counting the workers *)

Lemma run_actions_buf acts s c :
  buf (chans (run_actions acts s) c) = buf (chans s c).
Proof.
  revert s. induction acts as [|a acts IH]; intros s; [done|].
  unfold run_actions in *. simpl. rewrite IH.
  destruct a as [| | | | | | | | | | |[k]| | | | | | |]; simpl; try done.
  by case_decide; subst.
Qed.

Lemma started_bufs s c : started s -> length (buf (chans s c)) <= cap c.
Proof.
  revert s. apply (started_invariant
    (fun s => length (buf (chans s c)) <= cap c)).
  - intros n callers _. simpl. lia.
  - intros s e s' _ Hb H. destruct H; simpl; try done;
      try (case_decide; subst; simpl; done).
    all: try (by rewrite run_actions_buf).
    all: case_decide; subst; simpl; try done.
    all: try (rewrite length_app; simpl; lia).
    all: try lia.
    all: match goal with
         | H : buf _ = _ :: _ |- _ => rewrite H in Hb; simpl in Hb; lia
         end.
Qed.

Lemma started_unbuffered s c : started s -> cap c = 0 -> buf (chans s c) = [].
Proof.
  intros Hst Hc. pose proof (started_bufs s c Hst) as Hb.
  rewrite Hc in Hb. destruct (buf (chans s c)); [done|simpl in Hb; lia].
Qed.

(** Who sends on the channels without buffer. *)
Lemma send_unbuffered s g cs d n c v k :
  goroutine_ok g -> offer_at s g = Select cs d ->
  cs !! n = Some (Send (Some c) v k) -> cap c = 0 ->
  (c = taskQueue /\ exists pc, g = GClient pc) \/
  (c = workerQueue /\ is_dispatcher g = true).
Proof.
  intros [Hh Hc] Ho Hn Hcap.
  destruct g as [[pc b]|w pc|w pc|pc]; destruct pc; simpl in *;
    unfold dispatch, with_pill in *; simpl in *; repeat case_match;
    try discriminate Ho; injection Ho as <- <-; lookups_inv;
    try discriminate Hcap;
    try (left; split; [done|]; by eexists); try (by right); try done.
  all: repeat match goal with
       | H : Forall _ (_ :: _) |- _ => apply Forall_cons in H as [? H]
       end.
  all: match goal with
       | H : built ?t |- _ =>
           apply built_Err in H as [?|[? ?]]; simplify_eq; done
       end.
Qed.

(** Only the dispatcher receives on [taskQueue]. *)
Lemma recv_taskQueue s g cs d m k :
  goroutine_ok g -> offer_at s g = Select cs d ->
  cs !! m = Some (Recv (Some taskQueue) k) -> is_dispatcher g = true.
Proof.
  intros [Hh Hc] Ho Hm.
  destruct g as [[pc b]|w pc|w pc|pc]; destruct pc; simpl in *;
    unfold dispatch, with_pill in *; simpl in *; repeat case_match;
    try discriminate Ho; injection Ho as <- <-; lookups_inv; try done.
  all: repeat match goal with
       | H : Forall _ (_ :: _) |- _ => apply Forall_cons in H as [? H]
       end.
  all: try match goal with
       | H : built ?t, H' : Err ?t = Some _ |- _ =>
           apply built_Err in H as [?|[? ?]]; simplify_eq; done
       end.
  all: try match goal with
       | H : built ?t, H' : done ?t = Some _ |- _ =>
           apply built_done in H as [[? ?]|(? & ? & ? & ? & ? & ?)];
           simplify_eq; done
       end.
  all: match goal with
       | H : Done ?c = Some _ |- _ => by destruct c
       end.
Qed.


Lemma tally_app f l l' : tally f (l ++ l') = (tally f l + tally f l')%Z.
Proof. induction l as [|x l IH]; simpl; [done|]. rewrite IH. lia. Qed.

Lemma tally_insert f l i x y :
  l !! i = Some x ->
  tally f (<[i:=y]> l)
  = (tally f l - (if f x then 1 else 0) + (if f y then 1 else 0))%Z.
Proof.
  revert i. induction l as [|z l IH]; intros [|i] Hi; simpl in *; try done.
  - injection Hi as ->. lia.
  - rewrite (IH _ Hi). lia.
Qed.

Lemma tally_insert2 f l i j x x' y y' :
  l !! i = Some x -> l !! j = Some x' -> i <> j ->
  tally f (<[j:=y']> (<[i:=y]> l))
  = (tally f l - (if f x then 1 else 0) + (if f y then 1 else 0)
     - (if f x' then 1 else 0) + (if f y' then 1 else 0))%Z.
Proof.
  intros Hi Hj Hne.
  rewrite (tally_insert f _ j x'); [|by rewrite list_lookup_insert_ne].
  by rewrite (tally_insert f _ i x).
Qed.

Lemma tally_nonneg f l : (0 <= tally f l)%Z.
Proof. induction l as [|x l IH]; simpl; [done|]. destruct (f x); lia. Qed.

Lemma tally_lookup f l i x :
  l !! i = Some x -> f x = true -> (1 <= tally f l)%Z.
Proof.
  revert i. induction l as [|z l IH]; intros [|i] Hi Hx; simpl in *; try done.
  - injection Hi as ->. rewrite Hx. pose proof (tally_nonneg f l). lia.
  - specialize (IH _ Hi Hx). destruct (f z); lia.
Qed.

Lemma tally_zero f l i x :
  tally f l = 0%Z -> l !! i = Some x -> f x = false.
Proof.
  intros Hz Hi. destruct (f x) eqn:Hx; [|done].
  pose proof (tally_lookup _ _ _ _ Hi Hx). lia.
Qed.


(** Case analysis on the offer of a goroutine at a known place. *)
Ltac offer_inv Ho :=
  unfold offer_at, dispatch, client, with_pill in Ho; simpl in Ho;
  repeat match type of Ho with
         | context [match ?x with _ => _ end] => destruct x eqn:?
         end;
  simpl in Ho; try discriminate Ho.

Lemma maxWorkers_step s e s' :
  stepR s e s' -> maxWorkers (pool s') = maxWorkers (pool s).
Proof.
  intros H. destruct H; simpl; try done.
  change (maxWorkers (pool s)) with (maxWorkers (pool (set_proc i k s))).
  generalize (set_proc i k s). clear.
  induction acts as [|a acts IH]; intros s; [done|].
  unfold run_actions in *. simpl. rewrite IH.
  by destruct a as [| | | | | | | | | | |[k]| | | | | | |].
Qed.

(** The dispatcher does not come back to its first statement. *)
Lemma start_step s e s' i b :
  stepR s e s' -> sole_dispatcher s ->
  procs s' !! i = Some (GDispatch (Dsp DStart b)) ->
  procs s !! i = Some (GDispatch (Dsp DStart b)) /\
  workerCount (pool s') = workerCount (pool s).
Proof.
  intros H Hsole Hi.
  assert (Hi0 : procs s !! i = Some (GDispatch (Dsp DStart b))).
  { destruct (stepR_back _ _ _ _ _ H Hi) as [(g & Hg & [<-|[Hin Hc]])|[_ Hsp]].
    - done.
    - exfalso. pose proof (conts_same_kind _ _ _ Hc) as Hk.
      destruct g as [[pc b0]| | |]; try done.
      simpl in Hc. apply offer_conts_map in Hc as (l & [= <-] & Hc).
      unfold dispatch in Hc.
      destruct pc; simpl in Hc;
        repeat match type of Hc with
               | context [match ?x with _ => _ end] => destruct x eqn:?
               end; conts_cases; try discriminate.
      all: repeat case_match; discriminate.
    - destruct Hsp as [(? & ? & ?)|(? & ?)]; discriminate. }
  split; [done|].
  assert (i = 0) as -> by (by eapply (proj2 Hsole)).
  destruct (others_or_dispatcher _ _ _ _ H Hsole Hi0)
    as [Hin|(_ & Hown & _)].
  - destruct H; actor_inv Hin; try done.
    all: try match goal with
         | Ho : offer_at _ (GDispatch _) = _ |- _ => offer_inv Ho
         end.
    injection H0 as <- <-. simpl in Hi.
    rewrite list_lookup_insert_eq in Hi; [discriminate Hi|].
    by eapply lookup_lt_Some.
  - unfold owned in Hown. by injection Hown as _ -> _ _.
Qed.

Ltac acct_arith Hi :=
  repeat match goal with
         | H : (_ <? _)%Z = true |- _ => apply Z.ltb_lt in H
         | H : (_ <? _)%Z = false |- _ => apply Z.ltb_ge in H
         | H : real _ |- _ => destruct H as [? H]
         | H : _ /\ _ |- _ => destruct H
         end;
  try (pose proof (tally_lookup counted _ _ _ Hi eq_refl));
  try (pose proof (tally_lookup spawning _ _ _ Hi eq_refl));
  repeat match goal with
         | H : task _ = _ |- _ => rewrite H in *
         end;
  rewrite ?wrap64_id by (unfold int64_ok in *; lia);
  try lia.

(** With one dispatcher, what is counted of dispatchers only is counted of
    that one. *)
Lemma tally_dispatcher f s i g :
  sole_dispatcher s -> (forall g', is_dispatcher g' = false -> f g' = false) ->
  procs s !! i = Some g -> is_dispatcher g = true ->
  tally f (procs s) = (if f g then 1 else 0)%Z.
Proof.
  intros [_ Hsole] Hf Hi Hd.
  assert (i = 0) as -> by eauto.
  assert (Hrest : forall l, (forall x, x ∈ l -> is_dispatcher x = false) ->
            tally f l = 0%Z).
  { clear -Hf. induction l as [|x l IH]; intros Hn; simpl; [done|].
    rewrite IH by (intros x' Hx'; apply Hn; by right).
    by rewrite (Hf x (Hn x (list_elem_of_here _ _))). }
  destruct (procs s) as [|g0 l] eqn:Hps; [done|].
  injection Hi as ->. simpl. rewrite Hrest; [lia|].
  intros x [j Hj]%list_elem_of_lookup.
  destruct (is_dispatcher x) eqn:Hx; [|done].
  by specialize (Hsole (S j) x Hj Hx).
Qed.

Lemma acct_counts_step s e s' :
  stepR s e s' -> wf s -> tidy s -> sole_dispatcher s ->
  (forall c, cap c = 0 -> buf (chans s c) = []) ->
  int64_ok (maxWorkers (pool s)) -> acct s ->
  (workerCount (pool s') + uncounted s')%Z = tally counted (procs s') /\
  wg s' = tally unfinished (procs s') /\
  (0 <= workerCount (pool s') <= maxWorkers (pool s'))%Z /\
  ((0 < tally spawning (procs s'))%Z ->
   (workerCount (pool s') < maxWorkers (pool s'))%Z).
Proof.
  intros H Hwf Htidy Hsole Hbuf Hmax [Hc Hw Hm Hroom Hsz Hst].
  pose proof (tally_nonneg counted (procs s)) as Hnn.
  pose proof (tally_nonneg counting (procs s)) as Hnp.
  pose proof (tally_nonneg spawning (procs s)) as Hns.
  unfold uncounted in *.
  assert (Hfp : forall g', is_dispatcher g' = false -> counting g' = false)
    by (by intros []).
  assert (Hfs : forall g', is_dispatcher g' = false -> spawning g' = false)
    by (by intros []).
  destruct H as [i g acts k Hi Ho|i g e0 k Hi Ho|i g c k Hi Ho Hcl
    |i g k Hi Ho Hwg|i g lk k Hi Ho Hlk|i g Hi|i g cs d n c v k Hi Ho Hn Hcl Hlen
    |i g cs d n c k v rest Hi Ho Hn Hb|i g cs d n c k Hi Ho Hn Hb Hcl
    |i g cs d n c v k j g' cs' d' m k' Hi Ho Hn Hj Ho' Hm' Hne Hcap Hcl Hd
    |i g cs k Hi Ho Hall|k Hk Hcl|Ht Hb];
    try pose proof (local_procs _ _ _ _ _ Htidy _ _ Hi) as Hg;
    try pose proof (fun y => tally_insert counted _ _ _ y Hi) as Tc;
    try pose proof (fun y => tally_insert unfinished _ _ _ y Hi) as Tu;
    try pose proof (fun y => tally_insert counting _ _ _ y Hi) as Tp;
    try pose proof (fun y => tally_insert spawning _ _ _ y Hi) as Ts;
    try pose proof (tally_dispatcher counting s i g Hsole Hfp Hi) as Dp;
    try pose proof (tally_dispatcher spawning s i g Hsole Hfs Hi) as Ds.
  - destruct g as [[pc b]|w pc|w pc|pc]; destruct pc; offer_inv Ho;
      injection Ho as <- <-;
      try match goal with c : cancelFunc |- _ => destruct c end;
      try (specialize (Hst _ _ Hi));
      try (specialize (Dp eq_refl)); try (specialize (Ds eq_refl));
      simpl in *;
      rewrite ?tally_app; simpl; rewrite ?Tc, ?Tu, ?Tp, ?Ts; simpl; try lia.
    all: acct_arith Hi.
  - destruct g as [[pc b]|w pc|w pc|pc]; destruct pc; offer_inv Ho;
      injection Ho as _ <-; simpl in *; rewrite ?Tc, ?Tu, ?Tp, ?Ts; simpl;
      try lia.
  - destruct g as [[pc b]|w pc|w pc|pc]; destruct pc; offer_inv Ho;
      injection Ho as _ <-; simpl in *; rewrite ?Tc, ?Tu, ?Tp, ?Ts; simpl;
      try lia.
  - destruct g as [[pc b]|w pc|w pc|pc]; destruct pc; offer_inv Ho;
      injection Ho as <-; simpl in *; rewrite ?Tc, ?Tu, ?Tp, ?Ts; simpl;
      try lia.
  - destruct g as [[pc b]|w pc|w pc|pc]; destruct pc; offer_inv Ho;
      injection Ho as _ <-; destruct lk; simpl in *;
      rewrite ?Tc, ?Tu, ?Tp, ?Ts; simpl; try lia.
  - simpl. lia.
  - destruct g as [[pc b]|w pc|w pc|pc]; destruct pc; offer_inv Ho;
      injection Ho as <- <-; lookups_inv; simpl in *;
      rewrite ?Tc, ?Tu, ?Tp, ?Ts; simpl; try lia.
  - destruct g as [[pc b]|w pc|w pc|pc]; destruct pc; offer_inv Ho;
      injection Ho as <- <-; lookups_inv; simpl in *;
      rewrite ?Tc, ?Tu, ?Tp, ?Ts; simpl; try lia.
    rewrite (Hbuf workerQueue eq_refl) in Hb. discriminate Hb.
  - destruct g as [[pc b]|w pc|w pc|pc]; destruct pc; offer_inv Ho;
      injection Ho as <- <-; lookups_inv; simpl in *;
      rewrite ?Tc, ?Tu, ?Tp, ?Ts; simpl; try lia.
    destruct (local_closed _ _ _ _ _ Htidy _ Hcl).
  - pose proof (wf_procs _ Hwf _ _ Hi) as Hok.
    pose proof (wf_procs _ Hwf _ _ Hj) as Hok'.
    pose proof (local_procs _ _ _ _ _ Htidy _ _ Hj) as Hg'.
    simpl. rewrite (tally_insert2 counted _ _ _ _ _ _ _ Hi Hj Hne).
    rewrite (tally_insert2 unfinished _ _ _ _ _ _ _ Hi Hj Hne).
    rewrite (tally_insert2 counting _ _ _ _ _ _ _ Hi Hj Hne).
    rewrite (tally_insert2 spawning _ _ _ _ _ _ _ Hi Hj Hne).
    destruct (send_unbuffered _ _ _ _ _ _ _ _ Hok Ho Hn Hcap)
      as [[-> [pc ->]]|[-> Hdisp]].
    + pose proof (recv_taskQueue _ _ _ _ _ _ Hok' Ho' Hm') as Hdisp.
      destruct g' as [[pc' b]| | |]; try done.
      destruct pc; offer_inv Ho; injection Ho as <- <-; lookups_inv.
      all: destruct pc'; offer_inv Ho'; injection Ho' as <- <-; lookups_inv.
      all: simpl; lia.
    + destruct (recv_workerQueue _ _ _ _ _ _ Hok' Ho' Hm') as (w & -> & ->).
      destruct g as [[pc b]| | |]; try done.
      specialize (Dp eq_refl).
      destruct pc; offer_inv Ho; injection Ho as <- <-; lookups_inv.
      all: unfold as_task; simpl in *.
      all: try (pose proof (local_queue _ _ _ _ _ Htidy) as Hq;
                rewrite Heql in Hq; apply Forall_cons in Hq as [? _]).
      all: acct_arith Hi.
  - destruct g as [[pc b]|w pc|w pc|pc]; destruct pc; offer_inv Ho;
      injection Ho as <- <-; simpl in *; rewrite ?Tc, ?Tu, ?Tp, ?Ts; simpl;
      try lia.
  - simpl. lia.
  - simpl. lia.
Qed.

Lemma acct_step s e s' :
  stepR s e s' -> started s -> int64_ok (maxWorkers (pool s)) ->
  acct s -> acct s'.
Proof.
  intros H Hst Hmax Ha.
  destruct (started_wf_sup _ Hst) as [Hwf _].
  destruct (acct_counts_step _ _ _ H Hwf (started_tidy _ Hst)
              (started_sole_dispatcher _ Hst)
              (fun c => started_unbuffered s c Hst) Hmax Ha)
    as (Hc & Hw & Hm & Hr).
  split; try done.
  - rewrite (maxWorkers_step _ _ _ H). by destruct Ha.
  - intros i b Hi.
    destruct (start_step _ _ _ _ _ H (started_sole_dispatcher _ Hst) Hi)
      as [Hi0 ->].
    by eapply acct_start.
Qed.

Lemma tally_clients f callers :
  (forall pc, f (GClient pc) = false) -> tally f (map GClient callers) = 0%Z.
Proof.
  intros Hf. induction callers as [|pc l IH]; simpl; [done|].
  by rewrite Hf, IH.
Qed.

Lemma acct_init n callers : acct (init n callers).
Proof.
  split; unfold uncounted; simpl; rewrite ?tally_clients by done; try done.
  - case_match; [lia|]. apply Z.ltb_ge in H. lia.
  - case_match; [lia|]. by apply Z.ltb_ge in H.
Qed.

Lemma started_acct s :
  started s -> int64_ok (maxWorkers (pool s)) -> acct s.
Proof.
  revert s. apply (started_invariant
    (fun s => int64_ok (maxWorkers (pool s)) -> acct s)).
  - intros n callers _ _. apply acct_init.
  - intros s e s' Hst IH H Hmax.
    rewrite (maxWorkers_step _ _ _ H) in Hmax.
    eapply acct_step; eauto.
Qed.







(** ** What is true when [Stop] returns *)

Lemma close_stoppedChan s g k :
  goroutine_ok g -> offer_at s g = Close (Some stoppedChan) k ->
  is_dispatcher g = true.
Proof.
  intros [Hh Hc] Ho.
  destruct g as [[pc b]|w pc|w pc|pc]; destruct pc; offer_inv Ho;
    simplify_eq; try done.
  simpl in Hh. apply Forall_cons in Hh as [Hb _].
  apply built_done in Hb as [[? ?]|(? & ? & ? & ? & ? & ?)]; congruence.
Qed.

(** What the steps of the other goroutines leave to the dispatcher. *)
Lemma quiet_step s e s' :
  stepR s e s' -> wf s ->
  (forall i g, (i, g) ∈ actors e -> is_dispatcher g = false) ->
  (wg s' <= wg s)%Z /\ (timer s = false -> timer s' = false) /\
  closed (chans s' stoppedChan) = closed (chans s stoppedChan).
Proof.
  intros H Hwf Hq. destruct H; simpl; try (repeat split; done || lia);
    try (repeat split; try lia; try done; case_decide; by subst).
  - assert (Hb : forallb benign acts = true).
    { eapply nondispatcher_benign; [|done]. apply (Hq i). by left. }
    change (wg s) with (wg (set_proc i k s)).
    change (timer s) with (timer (set_proc i k s)).
    change (chans s stoppedChan) with (chans (set_proc i k s) stoppedChan).
    generalize (set_proc i k s). clear -Hb.
    induction acts as [|a acts IH]; intros s; [done|].
    simpl in Hb. apply andb_prop in Hb as [Ha Hb].
    unfold run_actions in *. simpl.
    destruct (IH Hb (run_action a s)) as (H1 & H2 & H3).
    rewrite H3.
    destruct a as [| | | | | | | | | | |[k]| | | | | | |]; try discriminate Ha;
      simpl in *; repeat split; try done; try lia.
  - repeat split; try lia; try done. case_decide; [subst|done].
    apply close_stoppedChan in H0; [|by eapply wf_procs].
    rewrite (Hq i g) in H0; [done|by left].
Qed.

(** A caller returns from [<-p.stoppedChan] when the channel is closed. *)
Lemma stopped_caller_step s e s' i :
  stepR s e s' -> wf s -> (forall c, cap c = 0 -> buf (chans s c) = []) ->
  procs s' !! i = Some (GClient CStopped) ->
  procs s !! i = Some (GClient CStopped) \/
  closed (chans s stoppedChan) = true.
Proof.
  intros H Hwf Hbuf Hi.
  destruct (stepR_back _ _ _ _ _ H Hi) as [(g & Hg & [<-|[Hin Hc]])|[_ Hsp]].
  - by left.
  - right. pose proof (conts_same_kind _ _ _ Hc) as Hk.
    destruct g as [| | |pc]; try done. clear Hk.
    simpl in Hc. apply offer_conts_map in Hc as (l & [= <-] & Hc).
    assert (pc = CStopAwait) as ->.
    { destruct pc; simpl in Hc;
        repeat match type of Hc with
               | context [match ?x with _ => _ end] => destruct x eqn:?
               end; conts_cases; try discriminate; done. }
    clear Hc.
    destruct H; actor_inv Hin;
      try match goal with
          | Ho : offer_at _ (GClient _) = _ |- _ =>
              offer_inv Ho; injection Ho as <- <-; lookups_inv
          end; try done.
    all: try (rewrite (Hbuf stoppedChan eq_refl) in *; discriminate).
    all: try (simpl in Hi; congruence).
    exfalso.
    match goal with
    | Hs : procs s !! ?i0 = Some ?g0, Ho : offer_at s ?g0 = Select _ _,
      Hn : _ !! _ = Some (Send (Some stoppedChan) _ _) |- _ =>
        destruct (send_unbuffered _ _ _ _ _ _ _ _
                    (wf_procs _ Hwf _ _ Hs) Ho Hn eq_refl)
          as [[? _]|[? _]]; discriminate
    end.
  - destruct Hsp as [(? & ? & ?)|(? & ?)]; discriminate.
Qed.

Lemma past_drain_in_shutdown pc : past_drain pc = true -> in_shutdown pc = true.
Proof. by destruct pc. Qed.

Lemma settled_step s e s' :
  stepR s e s' -> started s -> int64_ok (maxWorkers (pool s)) ->
  settled s -> settled s'.
Proof.
  intros H Hst Hmax [Hd Hcl].
  destruct (started_wf_sup _ Hst) as [Hwf _].
  pose proof (started_sole_dispatcher _ Hst) as Hsole.
  pose proof (fun c => started_unbuffered s c Hst) as Hbuf.
  pose proof (started_acct _ Hst Hmax) as Hacct.
  pose proof (acct_step _ _ _ H Hst Hmax Hacct) as Hacct'.
  pose proof (started_stop_inv _ Hst) as Hstop.
  split.
  2:{ intros i Hi.
      assert (Hc : closed (chans s stoppedChan) = true).
      { destruct (stopped_caller_step _ _ _ _ H Hwf Hbuf Hi); eauto. }
      destruct (stepR_closed _ _ _ stoppedChan H) as [->|[-> _]]; done. }
  intros d' Hd'. apply dispatcher_of_Some in Hd'.
  destruct Hsole as [[d Hd0] Hsole0].
  specialize (Hd d (proj2 (dispatcher_of_Some _ _) Hd0)).
  destruct (others_or_dispatcher _ _ _ _ H (conj (ex_intro _ d Hd0) Hsole0) Hd0)
    as [Hin|(Hd1 & Hown & Hact)].
  2:{ rewrite Hd1 in Hd'. injection Hd' as <-.
      destruct (quiet_step _ _ _ H Hwf Hact) as (Hwg & Htm & Hclo).
      unfold owned in Hown. injection Hown as _ Hc Hq _.
      destruct Hd as (Hqu & Hpc & Hex).
      pose proof (tally_nonneg unfinished (procs s')) as Hnn.
      rewrite <- (acct_wg _ Hacct') in Hnn.
      split; [|split].
      - intros Hpd Hw. rewrite Hq. apply Hqu; [done|].
        destruct (stop_inv_committed _ _ Hstop
                    (proj2 (dispatcher_of_Some _ _) Hd0)
                    (past_drain_in_shutdown _ Hpd)) as [Hcom _].
        destruct (stop_committed_step _ _ _ H Hcom) as [_ <-]. done.
      - rewrite Hc. destruct (dat d); try done.
        + destruct Hpc. split; [done|lia].
        + destruct Hpc as (? & ? & ?). repeat split; eauto; lia.
        + destruct Hpc as (? & ? & ?). repeat split; eauto; lia.
      - by rewrite Hclo. }
  pose proof (acct_range _ Hacct) as [Hnn _].
  clear Hacct Hacct' Hstop Hcl Hsole0.
  destruct (procs s) as [|g0 ps] eqn:Hps; [done|].
  simpl in Hd0. injection Hd0 as ->.
  destruct d as [pc b]. simpl in Hd. destruct Hd as (Hqu & Hpc & Hex).
  destruct pc; destruct H; actor_inv Hin;
    repeat match goal with
    | Ho : offer_at _ (GDispatch _) = _ |- _ =>
        offer_inv Ho; injection Ho as <-; intros; subst
    end; lookups_inv.
  all: simpl in Hd'; rewrite ?Hps in Hd'; simpl in Hd'.
  all: try match goal with
       | Hne : 0 <> ?j |- _ => destruct j; [done|]; simpl in Hd'
       | Hne : ?j <> 0 |- _ => destruct j; [done|]; simpl in Hd'
       end.
  all: try (injection Hd' as <-); simpl.
  all: unfold settled_at; simpl.
  all: try (split; [|split]; simpl; try done).
  all: try (intros Hx; apply Hex in Hx; discriminate Hx).
  - intros _ Hw. congruence.
  - match goal with
    | Hlt : (0 <? _)%Z = false |- _ => apply Z.ltb_ge in Hlt; lia
    end.
  - by destruct Hpc.
Qed.

Lemma settled_init n callers :
  Forall api_call callers -> settled (init n callers).
Proof.
  intros Hc. split.
  - intros d [= <-]. by split.
  - intros [|i]; simpl; [done|]. rewrite list_lookup_fmap.
    destruct (callers !! i) as [pc|] eqn:Hpc; [|done].
    intros [= ->]. eapply Forall_lookup_1 in Hc; [|done]. destruct Hc.
Qed.

Lemma started_settled s :
  started s -> int64_ok (maxWorkers (pool s)) -> settled s.
Proof.
  revert s. apply (started_invariant
    (fun s => int64_ok (maxWorkers (pool s)) -> settled s)).
  - intros n callers Hc _. by apply settled_init.
  - intros s e s' Hst IH H Hmax.
    rewrite (maxWorkers_step _ _ _ H) in Hmax.
    eapply settled_step; eauto.
Qed.

(** X5: when a call of [Stop] or [StopWait] has returned, the pool is at
    rest: [dispatch] has returned and [stoppedChan] is closed,
    [GetWorkerCount()] is 0, every worker has called [wg.Done()] and left
    its loop, the idle timer is stopped, and if the wait flag is set the
    waiting queue is empty. *)
Theorem stop_returns_when_done :
  forall s i,
    started s -> int64_ok (Size (pool s)) ->
    procs s !! i = Some (GClient CStopped) ->
    dispatcher_at s = Some DExit /\
    closed (chans s stoppedChan) = true /\
    GetWorkerCount (pool s) = 0%Z /\
    (forall j w pc, procs s !! j = Some (GWorker w pc) ->
       pc = WCloseTasks \/ pc = WExit) /\
    timer s = false /\
    (wait (pool s) = true -> waitingQueue (pool s) = []).
Proof.
  intros s i Hst Hmax Hi. unfold Size, GetWorkerCount in *.
  destruct (started_settled _ Hst Hmax) as [Hd Hcl].
  specialize (Hcl _ Hi).
  destruct (started_sole_dispatcher _ Hst) as [[d Hd0] _].
  apply dispatcher_of_Some in Hd0.
  destruct (Hd _ Hd0) as (Hq & Hpc & Hex).
  specialize (Hex Hcl). rewrite Hex in *.
  destruct Hpc as (Hc & Hw & Ht).
  split; [unfold dispatcher_at; by rewrite Hd0, <- Hex|].
  split; [done|]. split; [done|]. split; [|split; [done|by apply Hq]].
  intros j w pc Hj.
  rewrite (acct_wg _ (started_acct _ Hst Hmax)) in Hw.
  pose proof (tally_zero _ _ _ _ Hw Hj) as Hu.
  destruct pc; try discriminate Hu; eauto.
Qed.


Lemma stop_returns_when_done_witness :
  let s := after (before_shutdown ++ shutdown_moves ++ [Run 3; Run 3; Comm 3 0]) drain_init in
  dispatcher_at s = Some DExit /\
  closed (chans s stoppedChan) = true /\
  GetWorkerCount (pool s) = 0%Z /\
  (forall j w pc, procs s !! j = Some (GWorker w pc) ->
     pc = WCloseTasks \/ pc = WExit) /\
  timer s = false /\
  (wait (pool s) = true -> waitingQueue (pool s) = []).
Proof.
  intros s. apply (stop_returns_when_done s 3).
  - apply started_after; [repeat constructor|vm_compute; reflexivity].
  - vm_compute. split; [discriminate|reflexivity].
  - vm_compute. reflexivity.
Defined.


(** ** The size of the waiting queue *)

Lemma waiting_ok_step s e s' :
  stepR s e s' -> sole_dispatcher s -> waiting_ok s -> waiting_ok s'.
Proof.
  intros H Hsole Hw. unfold waiting_ok in *.
  destruct (proj1 Hsole) as [d Hd0].
  destruct (others_or_dispatcher _ _ _ _ H Hsole Hd0)
    as [Hin|(Hd1 & Hown & Hact)].
  2:{ unfold owned in Hown. injection Hown as _ _ Hq Hwt.
      rewrite Hwt, Hq, Hw. unfold draining, dispatcher_at, dispatcher_of.
      by rewrite Hd1, Hd0. }
  unfold draining, dispatcher_at, dispatcher_of in *.
  destruct (procs s) as [|g0 ps] eqn:Hps; [done|].
  simpl in Hd0. injection Hd0 as ->. simpl in Hw.
  destruct d as [pc b].
  destruct pc; destruct H; actor_inv Hin;
    repeat match goal with
    | Ho : offer_at _ (GDispatch _) = _ |- _ =>
        offer_inv Ho; injection Ho as <-; intros; subst
    end; lookups_inv.
  all: simpl; rewrite ?Hps; simpl.
  all: try match goal with
       | Hne : 0 <> ?j |- _ => destruct j; [done|]; simpl
       | Hne : ?j <> 0 |- _ => destruct j; [done|]; simpl
       end.
  all: rewrite ?Nat.add_0_r in *; try done.
  all: repeat match goal with
       | H : waitingQueue _ = _ |- _ => rewrite H
       end; simpl; rewrite ?Nat.add_0_r, ?Nat.add_1_r; done.
Qed.

Lemma started_waiting_ok s : started s -> waiting_ok s.
Proof.
  revert s. apply started_invariant.
  - done.
  - intros s e s' Hst Hw H. eapply waiting_ok_step; [done| |done].
    by apply started_sole_dispatcher.
Qed.

(** X6: [WaitingQueueSize()] follows the waiting queue: in every state of a
    pool it is the [int32] of the queue's length, where during
    [runQueuedTasks] the task just popped is still counted until the store
    after its hand-over; with fewer than [2^31] tasks waiting it is that
    number itself. *)
Theorem waiting_queue_size :
  forall s,
    started s ->
    let n := Z.of_nat (length (waitingQueue (pool s)) + draining s) in
    WaitingQueueSize (pool s) = wrap32 n /\
    ((n < 2 ^ 31)%Z -> WaitingQueueSize (pool s) = n).
Proof.
  intros s Hst n. pose proof (started_waiting_ok _ Hst) as Hw.
  unfold waiting_ok in Hw. fold n in Hw. unfold WaitingQueueSize.
  split; [done|]. intros Hn. rewrite Hw. unfold wrap32.
  rewrite Z.mod_small; lia.
Qed.

Lemma waiting_queue_size_witness :
  let s := after (first_arrives ++ first_placed ++
                  [Run 0; Run 0; Run 2; Sync 2 0 0 0; Default 0; Run 0])
                 drain_init in
  let n := Z.of_nat (length (waitingQueue (pool s)) + draining s) in
  WaitingQueueSize (pool s) = wrap32 n /\
  ((n < 2 ^ 31)%Z -> WaitingQueueSize (pool s) = n).
Proof.
  intros s. apply waiting_queue_size.
  apply started_after; [repeat constructor|vm_compute; reflexivity].
Defined.


(** ** No task after the stop *)

Lemma closed_step s e s' c :
  stepR s e s' -> closed (chans s c) = true ->
  closed (chans s' c) = true /\ sent_on c e = [].
Proof.
  intros H Hc. split.
  - destruct (stepR_closed _ _ _ c H) as [->|[-> _]]; done.
  - destruct H; simpl; try done; case_decide; subst; congruence.
Qed.

Lemma closed_exec s tr s' c :
  exec s tr s' -> closed (chans s c) = true ->
  closed (chans s' c) = true /\ sends_on c tr = [].
Proof.
  induction 1 as [|s m e s1 tr s2 Hs _ IH]; [done|].
  intros Hc. apply step_stepR in Hs as [_ Hs].
  destruct (closed_step _ _ _ _ Hs Hc) as [Hc1 He].
  destruct (IH Hc1) as [Hc2 Htr]. split; [done|].
  unfold sends_on in *. simpl. by rewrite He, Htr.
Qed.

(** X7: tasks must not be submitted after the stop.  Once the dispatcher
    has left its loop, nothing is sent on [taskQueue] in any continuation,
    so that no task is accepted any more, and a caller of [Submit] or
    [SubmitWait] that gets to [p.taskQueue <- t] can only panic. *)
Theorem no_task_after_stop :
  forall s d tr s',
    started s ->
    dispatcher_of s = Some d -> in_shutdown (dat d) = true ->
    exec s tr s' ->
    sends_on taskQueue tr = [] /\
    forall i pc t,
      procs s' !! i = Some (GClient pc) ->
      pc = CSubmitSend t \/ pc = CWaitSend t ->
      crashed s' = false ->
      (forall m e s'', step s' m = Some (e, s'') ->
         (i, GClient pc) ∈ actors e -> e = EPanic i (GClient pc)) /\
      step s' (Comm i 0) = Some (EPanic i (GClient pc), crash s').
Proof.
  intros s d tr s' Hst Hd Hs Hex.
  pose proof (stop_seen _ (started_stop_inv _ Hst) _ Hd Hs) as Hc.
  destruct (closed_exec _ _ _ _ Hex Hc) as [Hc' Htr].
  split; [done|]. intros i pc t Hi Hpc Hcr. split.
  - intros m e s'' Hstep Hin.
    apply step_stepR in Hstep as [_ Hstep].
    pose proof (actors_lookup _ _ _ _ _ Hstep Hin) as Hi'.
    destruct Hstep; actor_inv Hin; try done;
      destruct Hpc as [-> | ->];
      repeat match goal with
      | Ho : offer_at _ (GClient _) = _ |- _ =>
          offer_inv Ho; injection Ho as <-; intros; subst
      end; lookups_inv; try congruence.
    all: simpl in *; lia.
  - unfold step. rewrite Hcr, Hi. simpl.
    destruct Hpc as [-> | ->]; simpl; unfold step_comm; by rewrite Hc'.
Qed.

(** ** The deadline path of the worker *)

Lemma ctx_done_step s e s' t : stepR s e s' -> ctx_done s t -> ctx_done s' t.
Proof.
  intros H (c & ch & Hc & Hd & Hcl). exists c, ch. split; [done|].
  split; [done|]. by destruct (closed_step _ _ _ ch H Hcl).
Qed.

Lemma timeouts_real_step s e s' :
  stepR s e s' -> wf s -> tidy s ->
  timeouts_real s -> timeouts_real s'.
Proof.
  intros H Hwf Htidy Hinv i w t e0 Hi.
  destruct (stepR_back _ _ _ _ _ H Hi) as [(g & Hg & [<-|[Hin Hc]])|[_ Hsp]].
  - eapply ctx_done_step; [done|]. by eapply Hinv.
  - pose proof (conts_same_kind _ _ _ Hc) as Hk.
    destruct g as [|w0 pc| |]; try done. clear Hk.
    pose proof (wf_procs _ Hwf _ _ Hg) as Hok.
    pose proof (local_procs _ _ _ _ _ Htidy _ _ Hg) as Htg.
    apply worker_conts in Hc as (pc' & [= <- <-] & Hc).
    assert (pc = WRace t \/ pc = WRecvErr t) as Hpc.
    { destruct pc; simpl in Hc;
        repeat match type of Hc with
               | context [match ?x with _ => _ end] => destruct x eqn:?
               end; conts_cases; try discriminate; simplify_eq; eauto. }
    clear Hc.
    destruct H; actor_inv Hin; destruct Hpc as [-> | ->];
      repeat match goal with
      | Ho : offer_at _ (GWorker _ _) = _ |- _ =>
          offer_inv Ho; injection Ho as <-; intros; subst
      end; lookups_inv.
    all: try (simpl in Hi; congruence).
    all: try (simpl in Hi;
              rewrite list_lookup_insert_eq in Hi
                by (rewrite ?length_insert; by eapply lookup_lt_Some);
              congruence).
    all: try match goal with
         | Hb : buf (chans _ ?c) = ?v :: _ |- _ =>
             exfalso;
             assert (Hv : tidy_val c v)
               by (eapply (local_bufs _ _ _ _ _ Htidy); rewrite Hb; by left);
             try done
         end.
    all: try match goal with
         | Hcl : closed (chans _ (errChW _)) = true |- _ =>
             destruct (local_closed _ _ _ _ _ Htidy _ Hcl)
         end.
    all: try match goal with
         | Hd : Done ?c0 = Some _, Hv : tidy_val _ ?v |- False =>
             destruct c0; simpl in Hd; simplify_eq; simpl in Hv;
             by destruct v
         end.
    all: try match goal with
         | Hcap : cap (errChW _) = 0 |- _ => discriminate Hcap
         end.
    + unfold ctx_done. simpl. eexists _, _.
      split; [done|]. split; [done|]. done.
    + exfalso.
      match goal with
      | Hs : procs _ !! ?i1 = Some ?g1, Ho : offer_at _ ?g1 = Select _ _,
        Hn : _ !! _ = Some (Send (Some ?c) _ _), Hcap : cap ?c = 0 |- _ =>
          destruct (send_unbuffered _ _ _ _ _ _ _ _
                      (wf_procs _ Hwf _ _ Hs) Ho Hn Hcap)
            as [[-> _]|[-> _]]
      end.
      all: match goal with
           | Hd : Done ?c0 = Some _ |- False =>
               destruct c0; simpl in Hd; simplify_eq
           end.
  - destruct Hsp as [(? & ? & ?)|(? & ?)]; discriminate.
Qed.

Lemma started_timeouts_real s : started s -> timeouts_real s.
Proof.
  revert s. apply started_invariant.
  - intros n callers Hc [|i] w t e; simpl; [done|].
    rewrite list_lookup_fmap. by destruct (callers !! i).
  - intros s e s' Hst Hinv H. eapply timeouts_real_step; [done| | |done].
    + by apply started_wf_sup.
    + by apply started_tidy.
Qed.

(** X8: on the deadline path the worker reports only the timeout.  When a
    worker is at [task.Err <- err] after the select on [task.done] and
    [task.ctx.Done()], the task has a deadline, [err] is [ErrTimeout], and
    the task's context is done; the outcome of the function never goes
    through the worker, as nothing is sent on its [errCh]. *)
Theorem worker_reports_timeout_only :
  forall s i w t e,
    started s ->
    procs s !! i = Some (GWorker w (WPublishT t e)) ->
    e = Some ErrTimeout /\ supervised t /\ ctx_done s t /\
    buf (chans s (errChW w)) = [].
Proof.
  intros s i w t e Hst Hi.
  pose proof (started_tidy _ Hst) as Htidy.
  destruct (local_procs _ _ _ _ _ Htidy _ _ Hi) as (_ & Hs & He).
  split; [done|]. split; [done|].
  split; [by eapply started_timeouts_real|].
  destruct (buf (chans s (errChW w))) as [|v l] eqn:Hb; [done|].
  destruct (local_bufs _ _ _ _ _ Htidy (errChW w) v). rewrite Hb. by left.
Qed.

Lemma no_task_after_stop_witness :
  let s := after before_shutdown drain_init in
  let s' := after shutdown_moves s in
  sends_on taskQueue (trace_of shutdown_moves s) = [] /\
  forall i pc t,
    procs s' !! i = Some (GClient pc) ->
    pc = CSubmitSend t \/ pc = CWaitSend t ->
    crashed s' = false ->
    (forall m e s'', step s' m = Some (e, s'') ->
       (i, GClient pc) ∈ actors e -> e = EPanic i (GClient pc)) /\
    step s' (Comm i 0) = Some (EPanic i (GClient pc), crash s').
Proof.
  intros s s'.
  eapply (no_task_after_stop s _ (trace_of shutdown_moves s) s').
  - apply started_after; [repeat constructor|vm_compute; reflexivity].
  - vm_compute. reflexivity.
  - vm_compute. reflexivity.
  - apply exec_after. vm_compute. reflexivity.
Defined.

Lemma worker_reports_timeout_only_witness :
  let s := after (deadline_prefix ++ [Expire 0; Comm 2 1]) deadline_init in
  Some ErrTimeout = Some ErrTimeout /\ supervised deadline_task /\
  ctx_done s deadline_task /\ buf (chans s (errChW 2)) = [].
Proof.
  intros s. apply (worker_reports_timeout_only s 2 2).
  - apply started_after; [repeat constructor|vm_compute; reflexivity].
  - vm_compute. reflexivity.
Defined.


(** ** The workers and their channels *)

Lemma close_tasksCh s g w k :
  goroutine_ok g -> offer_at s g = Close (Some (tasksCh w)) k ->
  g = GWorker w WCloseTasks /\ k = GWorker w WExit.
Proof.
  intros [Hh Hc] Ho.
  destruct g as [[pc b]|w0 pc|w0 pc|pc]; destruct pc; offer_inv Ho;
    simplify_eq; try done.
  all: try (simpl in Hc; done).
  all: simpl in Hh; apply Forall_cons in Hh as [Hb _];
    apply built_done in Hb as [[? ?]|(? & ? & ? & ? & ? & ?)]; congruence.
Qed.

Lemma send_tasksCh s g cs d n w v k :
  goroutine_ok g -> offer_at s g = Select cs d ->
  cs !! n = Some (Send (Some (tasksCh w)) v k) ->
  exists t, g = GWorker w (WHandOver t) /\ v = VTask t /\
            k = GWorker w (WRace t).
Proof.
  intros [Hh Hc] Ho Hn.
  destruct g as [[pc b]|w0 pc|w0 pc|pc]; destruct pc; offer_inv Ho;
    injection Ho as <- <-; lookups_inv; eauto.
  all: simpl in Hh; repeat match goal with
       | H : Forall _ (_ :: _) |- _ => apply Forall_cons in H as [? H]
       end.
  all: match goal with
       | H : built ?t |- _ =>
           apply built_Err in H as [?|[? ?]]; simplify_eq; done
       end.
Qed.

(** The goroutines a step starts. *)
Lemma spawn_ids s e s' i g' :
  stepR s e s' -> (forall j w pc, procs s !! j = Some (GWorker w pc) -> w = j) ->
  procs s !! i = None -> procs s' !! i = Some g' ->
  match g' with
  | GWorker w _ => w = i
  | GHelper w _ => w < i
  | _ => False
  end.
Proof.
  intros H Hw Hn Hi. apply lookup_ge_None in Hn.
  destruct H as [i0 g acts k Hi0 Ho| | | | | | | | | | | |];
    try (apply lookup_lt_Some in Hi; simpl in Hi;
         rewrite ?length_insert in Hi; lia).
  pose proof (lookup_lt_Some _ _ _ Hi0) as Hlt.
  destruct g as [[pc b]|w pc|w pc|pc]; destruct pc; offer_inv Ho;
    injection Ho as <- <-;
    try match goal with c : cancelFunc |- _ => destruct c end;
    simpl in Hi;
    try (apply lookup_lt_Some in Hi; simpl in Hi;
         rewrite ?length_insert in Hi; lia).
  - apply lookup_app_Some in Hi as [Hi|[Hge Hi]].
    + apply lookup_lt_Some in Hi. rewrite length_insert in Hi. lia.
    + rewrite length_insert in *.
      apply list_lookup_singleton_Some in Hi as [Hz <-]. lia.
  - apply lookup_app_Some in Hi as [Hi|[Hge Hi]].
    + apply lookup_lt_Some in Hi. rewrite length_insert in Hi. lia.
    + rewrite length_insert in *.
      apply list_lookup_singleton_Some in Hi as [Hz <-].
      rewrite (Hw _ _ _ Hi0). lia.
Qed.

Lemma stepR_length s e s' : stepR s e s' -> length (procs s) <= length (procs s').
Proof.
  intros H. destruct (stepR_procs _ _ _ H) as (ps & l & -> & <- & _).
  rewrite length_app. lia.
Qed.

Lemma ids_ok_step s e s' :
  stepR s e s' -> wf s -> ids_ok s -> ids_ok s'.
Proof.
  intros H Hwf [Hw Hh Hb Hc].
  pose proof (stepR_length _ _ _ H) as Hlen.
  split.
  - intros i w pc Hi.
    destruct (stepR_back _ _ _ _ _ H Hi) as [(g & Hg & Hor)|[Hn _]].
    + assert (Hk : same_kind g (GWorker w pc)).
      { destruct Hor as [<-|[_ Hcn]]; [done|by eapply conts_same_kind]. }
      destruct g; try done. simpl in Hk. subst. by eapply Hw.
    + apply (spawn_ids _ _ _ _ _ H Hw Hn Hi).
  - intros i w pc Hi.
    destruct (stepR_back _ _ _ _ _ H Hi) as [(g & Hg & Hor)|[Hn _]].
    + assert (Hk : same_kind g (GHelper w pc)).
      { destruct Hor as [<-|[_ Hcn]]; [done|by eapply conts_same_kind]. }
      destruct g; try done. simpl in Hk. subst.
      specialize (Hh _ _ _ Hg). lia.
    + pose proof (spawn_ids _ _ _ _ _ H Hw Hn Hi) as Hlt. simpl in Hlt.
      apply lookup_lt_Some in Hi. lia.
  - intros w Hge. assert (Hge0 : length (procs s) <= w) by lia.
    specialize (Hb _ Hge0).
    destruct H; simpl; try done; try (by rewrite run_actions_buf);
      try (case_decide; by subst).
    + case_decide; [|done]. subst. exfalso.
      destruct (send_tasksCh _ _ _ _ _ _ _ _ (wf_procs _ Hwf _ _ H) H0 H1)
        as (t & -> & _).
      rewrite (Hw _ _ _ H) in Hge0. apply lookup_lt_Some in H. lia.
    + case_decide; [|done]. subst. congruence.
  - intros w Hcl.
    assert (Hstay : procs s !! w = Some (GWorker w WExit) ->
              procs s' !! w = Some (GWorker w WExit)).
    { intros Hi. destruct (stepR_conts _ _ _ _ _ H Hi)
        as (g' & Hg' & [->|[_ Hcn]]); [done|]. destruct Hcn. }
    destruct (stepR_closed _ _ _ (tasksCh w) H) as [Heq|[_ [(i & g & ->)|[k Hk]]]];
      [rewrite Heq in Hcl; eauto| |done].
    inversion H; subst.
    match goal with
    | Hi : procs s !! i = Some g, Ho : offer_at s g = Close _ _ |- _ =>
        destruct (close_tasksCh _ _ _ _ (wf_procs _ Hwf _ _ Hi) Ho) as [-> ->];
        rewrite (Hw _ _ _ Hi) in *; simpl;
        apply list_lookup_insert_eq; by eapply lookup_lt_Some
    end.
Qed.

Lemma ids_ok_init n callers : ids_ok (init n callers).
Proof.
  split; simpl; try done.
  - intros [|i] w pc; simpl; [done|]. rewrite list_lookup_fmap.
    by destruct (callers !! i).
  - intros [|i] w pc; simpl; [done|]. rewrite list_lookup_fmap.
    by destruct (callers !! i).
Qed.

Lemma started_ids_ok s : started s -> ids_ok s.
Proof.
  revert s. apply started_invariant.
  - intros n callers _. apply ids_ok_init.
  - intros s e s' Hst Hinv H. eapply ids_ok_step; [done| |done].
    by apply started_wf_sup.
Qed.


(** ** Where the tasks are *)

Lemma cnt_app k l l' : cnt k (l ++ l') = (cnt k l + cnt k l')%Z.
Proof. induction l as [|x l IH]; simpl; [done|]. rewrite IH. lia. Qed.

Lemma cnt_nonneg k l : (0 <= cnt k l)%Z.
Proof. induction l as [|x l IH]; simpl; [done|]. destruct (is_task k x); lia. Qed.

Lemma total_app f l l' : total f (l ++ l') = (total f l + total f l')%Z.
Proof. induction l as [|x l IH]; simpl; [done|]. rewrite IH. lia. Qed.

Lemma total_insert f l i x y :
  l !! i = Some x -> total f (<[i:=y]> l) = (total f l - f x + f y)%Z.
Proof.
  revert i. induction l as [|z l IH]; intros [|i] Hi; simpl in *; try done.
  - injection Hi as ->. lia.
  - rewrite (IH _ Hi). lia.
Qed.

Lemma total_insert2 f l i j x x' y y' :
  l !! i = Some x -> l !! j = Some x' -> i <> j ->
  total f (<[j:=y']> (<[i:=y]> l)) = (total f l - f x + f y - f x' + f y')%Z.
Proof.
  intros Hi Hj Hne.
  rewrite (total_insert f _ j x'); [|by rewrite list_lookup_insert_ne].
  by rewrite (total_insert f _ i x).
Qed.

Lemma total_nonneg f l : (forall g, 0 <= f g)%Z -> (0 <= total f l)%Z.
Proof.
  intros Hf. induction l as [|x l IH]; simpl; [done|]. specialize (Hf x). lia.
Qed.

Lemma bufs_below_ext k ch ch' n :
  (forall i, i < n -> buf (ch' (tasksCh i)) = buf (ch (tasksCh i))) ->
  bufs_below k ch' n = bufs_below k ch n.
Proof.
  induction n as [|n IH]; intros H; simpl; [done|].
  rewrite H by lia. rewrite IH; [done|]. intros i Hi. apply H. lia.
Qed.

Lemma set_buf_eq s c b : buf (chans (set_buf c b s) c) = b.
Proof. simpl. by rewrite decide_True. Qed.

Lemma set_buf_ne s c c' b : c' <> c -> chans (set_buf c b s) c' = chans s c'.
Proof. intros H. simpl. by rewrite decide_False. Qed.

Lemma bufs_below_set k s w b n :
  w < n ->
  bufs_below k (chans (set_buf (tasksCh w) b s)) n
  = (bufs_below k (chans s) n - cnt k (tasks_of (buf (chans s (tasksCh w))))
     + cnt k (tasks_of b))%Z.
Proof.
  induction n as [|n IH]; intros Hw; [lia|]. cbn [bufs_below].
  destruct (decide (w = n)) as [->|Hne].
  - rewrite set_buf_eq.
    rewrite (bufs_below_ext k (chans s) (chans (set_buf (tasksCh n) b s)));
      [lia|].
    intros i Hi. rewrite set_buf_ne; [done|]. intros [= ->]. lia.
  - rewrite set_buf_ne by (intros [= ->]; done).
    rewrite IH by lia. lia.
Qed.

Lemma bufs_below_other k s c b n :
  (forall w, c <> tasksCh w) ->
  bufs_below k (chans (set_buf c b s)) n = bufs_below k (chans s) n.
Proof.
  intros Hc. apply bufs_below_ext. intros i _. simpl.
  rewrite decide_False; [done|]. intros <-. by eapply Hc.
Qed.

Lemma bufs_below_close k s c n :
  bufs_below k (chans (close_chan c s)) n = bufs_below k (chans s) n.
Proof.
  apply bufs_below_ext. intros i _. simpl. by case_decide; subst.
Qed.

Lemma bufs_below_actions k acts s n :
  bufs_below k (chans (run_actions acts s)) n = bufs_below k (chans s) n.
Proof.
  apply bufs_below_ext. intros i _. apply run_actions_buf.
Qed.

Lemma bufs_below_empty k ch n m :
  (forall w, n <= w -> buf (ch (tasksCh w)) = []) -> n <= m ->
  bufs_below k ch m = bufs_below k ch n.
Proof.
  intros He. induction 1 as [|m Hle IH]; [done|]. simpl.
  rewrite He by done. simpl. by rewrite IH.
Qed.

Lemma NewTask_is_task c f timeout n t k :
  NewTask c (Some f) timeout n = Ok t -> is_task k t = (n =? k).
Proof.
  unfold NewTask, is_task. intros H.
  repeat case_match; simplify_eq; simpl in *; simplify_eq; done.
Qed.

Lemma pill_not_task k t : task t = None -> is_task k t = false.
Proof. unfold is_task. by intros ->. Qed.

Lemma tasks_of_app l l' : tasks_of (l ++ l') = tasks_of l ++ tasks_of l'.
Proof. unfold tasks_of. by rewrite map_app, concat_app. Qed.

Lemma chans_set_proc i g s : chans (set_proc i g s) = chans s.
Proof. done. Qed.

Lemma procs_set_proc i g s : procs (set_proc i g s) = <[i:=g]> (procs s).
Proof. done. Qed.

Lemma procs_set_buf c b s : procs (set_buf c b s) = procs s.
Proof. done. Qed.

Lemma procs_close_chan c s : procs (close_chan c s) = procs s.
Proof. done. Qed.

Lemma queued_frame s s' d :
  procs s !! 0 = Some (GDispatch d) -> procs s' !! 0 = Some (GDispatch d) ->
  owned s' = owned s -> queued s' = queued s.
Proof.
  intros H0 H1 Hown. unfold owned in Hown. injection Hown as _ _ Hq _.
  unfold queued, dispatcher_at, dispatcher_of. by rewrite H0, H1, Hq.
Qed.

(** The channel of a task, of a context or of a caller is not a [tasks]
    channel. *)
Ltac not_tasksCh Hok :=
  let w0 := fresh "w0" in
  let E := fresh "E" in
  intros w0 E; subst;
  destruct Hok as [Hh Hcs]; simpl in Hh, Hcs;
  repeat match goal with
  | H : Forall _ (_ :: _) |- _ => apply Forall_cons in H as [? H]
  end;
  try done;
  first
    [ match goal with
      | H : built ?t, H' : done ?t = Some _ |- _ =>
          apply built_done in H as [[? ?]|(? & ? & ? & ? & ? & ?)]; congruence
      end
    | match goal with
      | H : built ?t, H' : Err ?t = Some _ |- _ =>
          apply built_Err in H as [?|[? ?]]; congruence
      end
    | match goal with
      | H : Done ?c0 = Some _ |- _ => destruct c0; discriminate H
      end ].

Lemma places_step_others k s e s' d :
  stepR s e s' -> wf s -> tidy s -> ids_ok s ->
  (forall c, cap c = 0 -> buf (chans s c) = []) ->
  procs s !! 0 = Some (GDispatch d) -> procs s' !! 0 = Some (GDispatch d) ->
  owned s' = owned s ->
  (forall i g, (i, g) ∈ actors e -> is_dispatcher g = false) ->
  (places k s' + called k e = places k s + born k s e)%Z.
Proof.
  intros H Hwf Htidy Hids Hbuf Hd0 Hd1 Hown Hact.
  unfold places. rewrite (queued_frame _ _ _ Hd0 Hd1 Hown). clear Hd0 Hd1 Hown.
  set (f := fun g => cnt k (runnable g)).
  destruct H as [i g acts k0 Hi Ho|i g e0 k0 Hi Ho|i g c k0 Hi Ho Hcl
    |i g k0 Hi Ho Hwg|i g lk k0 Hi Ho Hlk|i g Hi|i g cs d0 n c v k0 Hi Ho Hn Hcl Hlen
    |i g cs d0 n c k0 v rest Hi Ho Hn Hbf|i g cs d0 n c k0 Hi Ho Hn Hbf Hcl
    |i g cs d0 n c v k0 j g' cs' d' m k' Hi Ho Hn Hj Ho' Hm' Hne Hcap Hcl Hd
    |i g cs k0 Hi Ho Hall|k1 Hk Hcl|Ht Hbf];
    try (assert (Hnd : is_dispatcher g = false) by (apply (Hact i); by left));
    try pose proof (fun y => total_insert f _ _ _ y Hi) as T;
    try pose proof (local_procs _ _ _ _ _ Htidy _ _ Hi) as Hg;
    try pose proof (wf_procs _ Hwf _ _ Hi) as Hok.
  - rewrite bufs_below_actions, chans_set_proc.
    destruct g as [[pc b]|w pc|w pc|pc]; [done|..]; destruct pc; offer_inv Ho;
      injection Ho as <- <-;
      try match goal with c : cancelFunc |- _ => destruct c end;
      simpl procs; simpl born; simpl called;
      rewrite ?total_app, ?T, ?length_app, ?length_insert; unfold f; simpl;
      rewrite ?Nat.add_1_r; cbn [bufs_below];
      rewrite ?(ids_bufs _ Hids) by done; simpl;
      repeat match goal with
      | H : NewTask _ (Some _) _ _ = Ok _ |- _ =>
          rewrite (NewTask_is_task _ _ _ _ _ k H)
      | H : task _ = None |- _ => rewrite (pill_not_task k _ H)
      end; try lia.
  - rewrite chans_set_proc, procs_set_proc, T, length_insert.
    destruct g as [[pc b]|w pc|w pc|pc]; [done|..]; destruct pc; offer_inv Ho;
      injection Ho as _ <-; unfold f; simpl; lia.
  - rewrite chans_set_proc, bufs_below_close, procs_set_proc,
      procs_close_chan, T, length_insert.
    destruct g as [[pc b]|w pc|w pc|pc]; [done|..]; destruct pc; offer_inv Ho;
      injection Ho as _ <-; unfold f; simpl; lia.
  - destruct g as [[pc b]|w pc|w pc|pc]; [done|..]; destruct pc; offer_inv Ho.
  - destruct g as [[pc b]|w pc|w pc|pc]; [done|..]; destruct pc; offer_inv Ho;
      injection Ho as _ <-; simpl; rewrite T, length_insert; unfold f; simpl;
      lia.
  - simpl. lia.
  - rewrite chans_set_proc, procs_set_proc, procs_set_buf, T, length_insert.
    destruct g as [[pc b]|w pc|w pc|pc]; [done|..]; destruct pc; offer_inv Ho;
      injection Ho as <- <-; lookups_inv; try (simpl in Hlen; lia).
    all: try (rewrite bufs_below_other;
              [unfold f; simpl; lia|];
              simpl in Hok; destruct Hok as [Hh _];
              apply Forall_cons in Hh as [Hh _];
              apply built_Err in Hh as [?|[? ?]]; intros ?; congruence).
    rewrite bufs_below_set
      by (rewrite (ids_worker _ Hids _ _ _ Hi); by eapply lookup_lt_Some).
    rewrite tasks_of_app, cnt_app. unfold f. simpl. lia.
  - rewrite chans_set_proc, procs_set_proc, procs_set_buf, T, length_insert.
    assert (Hv : tidy_val c v).
    { eapply (local_bufs _ _ _ _ _ Htidy). rewrite Hbf. by left. }
    destruct g as [[pc b]|w pc|w pc|pc]; [done|..]; destruct pc; offer_inv Ho;
      injection Ho as <- <-; lookups_inv.
    all: try (rewrite (Hbuf _ eq_refl) in Hbf; discriminate Hbf).
    all: try (rewrite bufs_below_other by (by not_tasksCh Hok);
              unfold f; simpl; lia).
    all: try (by destruct v).
    all: try match goal with
         | Hbf : buf (chans _ ?c) = _ :: _ |- _ =>
             rewrite (Hbuf c eq_refl) in Hbf; discriminate Hbf
         end.
    rewrite bufs_below_set by (by eapply (ids_helper _ Hids)).
    rewrite Hbf. destruct v as [t| |]; try done.
    unfold f, as_task, tasks_of. simpl. lia.
  - rewrite chans_set_proc, procs_set_proc, T, length_insert.
    destruct g as [[pc b]|w pc|w pc|pc]; [done|..]; destruct pc; offer_inv Ho;
      injection Ho as <- <-; lookups_inv; unfold f, as_task; simpl; lia.
  - exfalso.
    destruct (send_unbuffered _ _ _ _ _ _ _ _ Hok Ho Hn Hcap)
      as [[-> _]|[_ Hdisp]]; [|congruence].
    pose proof (recv_taskQueue _ _ _ _ _ _ (wf_procs _ Hwf _ _ Hj) Ho' Hm')
      as Hdisp.
    rewrite (Hact j g') in Hdisp; [done|]. right. by left.
  - rewrite chans_set_proc, procs_set_proc, T, length_insert.
    destruct g as [[pc b]|w pc|w pc|pc]; [done|..]; destruct pc; offer_inv Ho;
      injection Ho as <- <-; unfold f; simpl; lia.
  - rewrite bufs_below_close, procs_close_chan. simpl. lia.
  - change (chans (set_timer false (set_buf timerC [VUnit] s)))
      with (chans (set_buf timerC [VUnit] s)).
    rewrite bufs_below_other by done. simpl. lia.
Qed.


Lemma places_step_dispatcher k s e s' d :
  stepR s e s' -> wf s -> tidy s -> ids_ok s ->
  (forall c, cap c = 0 -> buf (chans s c) = []) ->
  procs s !! 0 = Some (GDispatch d) -> (0, GDispatch d) ∈ actors e ->
  (places k s' + called k e = places k s + born k s e)%Z.
Proof.
  intros H Hwf Htidy Hids Hbuf Hd0 Hin.
  pose proof (local_procs _ _ _ _ _ Htidy _ _ Hd0) as Hg.
  pose proof (local_queue _ _ _ _ _ Htidy) as Hq.
  pose proof (ids_bufs _ Hids) as Hemp.
  unfold places, queued, dispatcher_at, dispatcher_of.
  set (f := fun g => cnt k (runnable g)).
  destruct (procs s) as [|g0 ps] eqn:Hps; [done|].
  simpl in Hd0. injection Hd0 as ->.
  destruct d as [pc b].
  destruct pc;
    destruct H as [i g acts k0 Hi Ho|i g e0 k0 Hi Ho|i g c k0 Hi Ho Hcl
    |i g k0 Hi Ho Hwg|i g lk k0 Hi Ho Hlk|i g Hi|i g cs d0 n c v k0 Hi Ho Hn Hcl Hlen
    |i g cs d0 n c k0 v rest Hi Ho Hn Hbf|i g cs d0 n c k0 Hi Ho Hn Hbf Hcl
    |i g cs d0 n c v k0 j g' cs' d' m k' Hi Ho Hn Hj Ho' Hm' Hne Hcap Hcl Hd
    |i g cs k0 Hi Ho Hall|k1 Hk Hcl|Ht Hbf];
    actor_inv Hin;
    repeat match goal with
    | Ho : offer_at _ (GDispatch _) = _ |- _ =>
        offer_inv Ho; injection Ho as <-; intros; subst
    end; lookups_inv.
  all: try match goal with
       | H : _ < cap _ |- _ => simpl in H; lia
       | H : buf (chans _ taskQueue) = _ :: _ |- _ =>
           rewrite (Hbuf taskQueue eq_refl) in H; discriminate H
       | H : cap timerC = 0 |- _ => discriminate H
       end.
  all: try match goal with
       | Hm' : _ !! _ = Some (Recv (Some workerQueue) _),
         Ho' : offer_at _ ?g' = Select _ _, Hj : _ !! _ = Some ?g' |- _ =>
           destruct (recv_workerQueue _ _ _ _ _ _ (wf_procs _ Hwf _ _ Hj) Ho' Hm')
             as (w & -> & ->)
       | Hn : _ !! _ = Some (Send (Some taskQueue) _ _),
         Ho : offer_at _ ?g = Select _ _, Hi : _ !! _ = Some ?g |- _ =>
           destruct (send_unbuffered _ _ _ _ _ _ _ _ (wf_procs _ Hwf _ _ Hi) Ho Hn
                       eq_refl) as [[_ [pc ->]]|[? _]]; [|discriminate];
           destruct pc; offer_inv Ho; injection Ho as <- <-; lookups_inv
       end.
  all: rewrite ?bufs_below_actions, ?chans_set_proc, ?bufs_below_close,
         ?chans_set_proc; try rewrite bufs_below_other by done.
  all: try match goal with
       | Hne : 0 <> ?j |- _ => destruct j; [done|]
       | Hne : ?j <> 0 |- _ => destruct j; [done|]
       end.
  all: repeat match goal with
       | Hj : procs _ !! _ = _ |- _ => rewrite Hps in Hj; simpl in Hj
       end.
  all: try match goal with
       | Hj : ?ps !! ?j = Some (GWorker _ _) |- _ =>
           pose proof (fun y => total_insert f _ _ _ y Hj) as T
       | Hj : ?ps !! ?j = Some (GClient _) |- _ =>
           pose proof (fun y => total_insert f _ _ _ y Hj) as T
       end.
  all: simpl; rewrite ?Hps; simpl; rewrite ?Hps; simpl.
  all: rewrite ?length_insert, ?T, ?total_app, ?length_app, ?cnt_app.
  all: repeat match goal with
       | H : waitingQueue _ = _ |- _ => rewrite H
       end.
  all: unfold f, as_task; simpl.
  all: rewrite ?Nat.add_1_r; cbn [bufs_below].
  all: rewrite ?Hemp by (simpl; lia); simpl.
  all: try (simpl in Hg; rewrite (pill_not_task k _ Hg)).
  all: lia.
Qed.

(** Every step moves task [k] or leaves it where it is; it appears with
    its [NewTask] and disappears with the call of its function. *)
Lemma places_step k s e s' :
  stepR s e s' -> started s ->
  (places k s' + called k e = places k s + born k s e)%Z.
Proof.
  intros H Hst.
  destruct (started_wf_sup _ Hst) as [Hwf _].
  pose proof (started_tidy _ Hst) as Htidy.
  pose proof (started_ids_ok _ Hst) as Hids.
  pose proof (fun c => started_unbuffered s c Hst) as Hbuf.
  pose proof (started_sole_dispatcher _ Hst) as Hsole.
  destruct (proj1 Hsole) as [d Hd0].
  destruct (others_or_dispatcher _ _ _ _ H Hsole Hd0)
    as [Hin|(Hd1 & Hown & Hact)].
  - by eapply places_step_dispatcher.
  - by eapply places_step_others.
Qed.

Lemma places_nonneg k s : (0 <= places k s)%Z.
Proof.
  unfold places.
  assert (H1 : (0 <= total (fun g => cnt k (runnable g)) (procs s))%Z).
  { apply total_nonneg. intros g. apply cnt_nonneg. }
  pose proof (cnt_nonneg k (queued s)) as H2.
  assert (H3 : forall ch n, (0 <= bufs_below k ch n)%Z).
  { intros ch n. induction n as [|n IH]; simpl; [done|].
    pose proof (cnt_nonneg k (tasks_of (buf (ch (tasksCh n))))). lia. }
  specialize (H3 (chans s) (length (procs s))). lia.
Qed.

Lemma called_nonneg k e : (0 <= called k e)%Z.
Proof. destruct e; simpl; try done. apply cnt_nonneg. Qed.

Lemma calls_nonneg k tr : (0 <= calls k tr)%Z.
Proof.
  induction tr as [|e tr IH]; simpl; [done|].
  pose proof (called_nonneg k e). lia.
Qed.

Lemma calls_app k tr tr' : calls k (tr ++ tr') = (calls k tr + calls k tr')%Z.
Proof. induction tr as [|e tr IH]; simpl; [done|]. rewrite IH. lia. Qed.

Lemma run_actions_newTasks acts s :
  newTasks s <= newTasks (run_actions acts s).
Proof.
  revert s. induction acts as [|a acts IH]; intros s; [done|].
  unfold run_actions in *. simpl. etrans; [|apply IH].
  destruct a as [| | | | | | | | | | |[k]| | | | | | |]; simpl; lia.
Qed.

(** A task is made once: its number is the count of the calls of
    [NewTask] before it. *)
Lemma born_made k s e s' :
  stepR s e s' ->
  (0 <= born k s e)%Z /\ (made k s + born k s e <= made k s')%Z.
Proof.
  intros H. unfold made.
  assert (Hmono : newTasks s <= newTasks s').
  { destruct H; simpl; try done.
    apply (run_actions_newTasks acts (set_proc i k0 s)). }
  destruct H; simpl in *; try (repeat case_match;
    rewrite ?Nat.ltb_lt, ?Nat.ltb_ge in *; lia).
  destruct g as [| | |pc]; try (repeat case_match;
    rewrite ?Nat.ltb_lt, ?Nat.ltb_ge in *; lia).
  destruct acts as [|[] [|]]; try (repeat case_match;
    rewrite ?Nat.ltb_lt, ?Nat.ltb_ge in *; lia).
  simpl in *. repeat case_match;
    rewrite ?Nat.ltb_lt, ?Nat.ltb_ge, ?Nat.eqb_eq, ?Nat.eqb_neq in *; lia.
Qed.

Lemma places_exec k s tr s' :
  exec s tr s' -> started s ->
  (places k s <= places k s' + calls k tr)%Z /\
  (places k s' + calls k tr + made k s <= places k s + made k s')%Z.
Proof.
  induction 1 as [|s m e s1 tr s2 Hs _ IH]; intros Hst; [simpl; lia|].
  pose proof (started_step _ _ _ _ Hst Hs) as Hst1.
  apply step_stepR in Hs as [_ Hs].
  pose proof (places_step k _ _ _ Hs Hst) as Heq.
  destruct (born_made k _ _ _ Hs) as [Hb Hm].
  destruct (IH Hst1) as [H1 H2]. simpl. lia.
Qed.

Lemma places_init k n callers :
  Forall api_call callers -> places k (init n callers) = 0%Z.
Proof.
  intros Hc. unfold places, queued. simpl.
  assert (H : total (fun g => cnt k (runnable g)) (map GClient callers) = 0%Z).
  { induction Hc as [|pc l Hpc _ IH]; simpl; [done|].
    rewrite IH. by destruct pc. }
  rewrite H.
  assert (H3 : forall m, bufs_below k (chans (init n callers)) m = 0%Z).
  { induction m as [|m IH]; simpl; [done|]. simpl in IH. by rewrite IH. }
  specialize (H3 (S (length (map GClient callers)))). simpl in H3.
  rewrite H3. done.
Qed.

Lemma places_bound n callers tr s k :
  Forall api_call callers -> exec (init n callers) tr s ->
  (0 <= calls k tr)%Z /\ (0 <= places k s)%Z /\
  (places k s + calls k tr <= 1)%Z.
Proof.
  intros Hc Hex.
  destruct (places_exec k _ _ _ Hex (started_init n callers Hc)) as [_ H2].
  rewrite (places_init k n callers Hc) in H2.
  split; [apply calls_nonneg|]. split; [apply places_nonneg|].
  unfold made in *. simpl in H2. destruct (k <? newTasks s); lia.
Qed.

(** X9: no task is run twice.  In every execution of a pool the function of
    a task, whichever call of [Submit] or [SubmitWait] made it, is called at
    most once, by a worker or by a helper; and while the task is still held
    somewhere it has not been called. *)
Theorem task_runs_at_most_once :
  forall n callers tr s k,
    Forall api_call callers -> exec (init n callers) tr s ->
    (0 <= calls k tr)%Z /\ (0 <= places k s)%Z /\
    (places k s + calls k tr <= 1)%Z.
Proof.
  intros n callers tr s k Hc Hex.
  by apply (places_bound n callers).
Qed.

(** X10: no task is lost.  A task that is held at some time, by a caller
    about to send it, by the dispatcher, on the waiting queue, by a worker,
    in a [tasks] channel or by a helper, is at every later time either
    still held at exactly one place and has not been called since, or has
    been called exactly once since and is held nowhere. *)
Theorem task_is_never_lost :
  forall s tr s' k,
    started s -> exec s tr s' -> places k s = 1%Z ->
    (places k s' = 1%Z /\ calls k tr = 0%Z) \/
    (places k s' = 0%Z /\ calls k tr = 1%Z).
Proof.
  intros s tr s' k Hst Hex H1.
  destruct (places_exec k _ _ _ Hex Hst) as [Hge _].
  destruct Hst as (n & callers & tr0 & Hc & Hex0).
  destruct (places_bound n callers (tr0 ++ tr) s' k Hc)
    as (_ & _ & Hle); [by eapply exec_app|].
  rewrite calls_app in Hle.
  pose proof (calls_nonneg k tr0). pose proof (calls_nonneg k tr).
  pose proof (places_nonneg k s'). lia.
Qed.

Lemma task_runs_at_most_once_witness :
  let tr := trace_of (before_shutdown ++ shutdown_moves) drain_init in
  let s := after (before_shutdown ++ shutdown_moves) drain_init in
  (0 <= calls 1 tr)%Z /\ (0 <= places 1 s)%Z /\
  (places 1 s + calls 1 tr <= 1)%Z.
Proof.
  intros tr s.
  apply (task_runs_at_most_once 1
           [CSubmit (Some Background) plain_fn 0;
            CSubmit (Some Background) plain_fn 0; CStop true]).
  - repeat constructor.
  - apply exec_after. vm_compute. reflexivity.
Defined.

Lemma task_is_never_lost_witness :
  let s := after first_arrives drain_init in
  let ms := first_placed ++ second_queued_then_stop ++ shutdown_moves in
  (places 0 (after ms s) = 1%Z /\ calls 0 (trace_of ms s) = 0%Z) \/
  (places 0 (after ms s) = 0%Z /\ calls 0 (trace_of ms s) = 1%Z).
Proof.
  intros s ms. apply (task_is_never_lost s).
  - apply started_after; [repeat constructor|vm_compute; reflexivity].
  - apply exec_after. vm_compute. reflexivity.
  - vm_compute. reflexivity.
Defined.


(** ** No panic in the pool *)

Lemma dispatch_safe_step s e s' :
  stepR s e s' -> wf s -> sole_dispatcher s ->
  dispatch_safe s -> dispatch_safe s'.
Proof.
  intros H Hwf Hsole [Hq Hc].
  destruct (proj1 Hsole) as [d Hd0].
  destruct (others_or_dispatcher _ _ _ _ H Hsole Hd0)
    as [Hin|(Hd1 & Hown & Hact)].
  2:{ destruct (quiet_step _ _ _ H Hwf Hact) as (_ & _ & Hclo).
      unfold owned in Hown. injection Hown as _ _ Hqu _.
      unfold dispatch_safe, dispatcher_at, dispatcher_of in *.
      rewrite Hd1, Hclo, Hqu. by rewrite Hd0 in Hq, Hc. }
  unfold dispatch_safe, dispatcher_at, dispatcher_of in *.
  destruct (procs s) as [|g0 ps] eqn:Hps; [done|].
  simpl in Hd0. injection Hd0 as ->. simpl in Hq, Hc.
  destruct d as [pc b].
  destruct pc; destruct H; actor_inv Hin;
    repeat match goal with
    | Ho : offer_at _ (GDispatch _) = _ |- _ =>
        offer_inv Ho; injection Ho as <-; intros; subst
    end; lookups_inv.
  all: simpl; rewrite ?Hps; simpl.
  all: try match goal with
       | Hne : 0 <> ?j |- _ => destruct j; [done|]; simpl
       | Hne : ?j <> 0 |- _ => destruct j; [done|]; simpl
       end.
  all: split; try done.
  all: try (intros Hx; apply Hc in Hx; discriminate Hx).
  all: try (by destruct (waitingQueue (pool s))).
Qed.

Lemma started_dispatch_safe s : started s -> dispatch_safe s.
Proof.
  revert s. apply started_invariant.
  - done.
  - intros s e s' Hst Hinv H. eapply dispatch_safe_step; [done| | |done].
    + by apply started_wf_sup.
    + by apply started_sole_dispatcher.
Qed.

Lemma closed_set_proc i g s c :
  closed (chans (set_proc i g s) c) = closed (chans s c).
Proof. done. Qed.

Lemma closed_set_buf c b s c' :
  closed (chans (set_buf c b s) c') = closed (chans s c').
Proof. simpl. by case_decide; subst. Qed.

Lemma closed_close_chan c s c' :
  closed (chans (close_chan c s) c')
  = if decide (c' = c) then true else closed (chans s c').
Proof. simpl. by case_decide. Qed.

Lemma closed_actions acts s k :
  closed (chans (run_actions acts s) (doneCh k)) = closed (chans s (doneCh k)).
Proof.
  destruct (run_actions_closed acts s (doneCh k)) as [->|[_ [? ?]]]; done.
Qed.

(** A [done] channel is closed by the helper that has called the task. *)
Lemma closing_step k s e s' :
  stepR s e s' -> wf s -> tidy s ->
  closing k s' = (closing k s + called_by_helper k e)%Z.
Proof.
  intros H Hwf Htidy. unfold closing.
  set (f := fun g => cnt k (finishing g)).
  destruct H as [i g acts k0 Hi Ho|i g e0 k0 Hi Ho|i g c k0 Hi Ho Hcl
    |i g k0 Hi Ho Hwg|i g lk k0 Hi Ho Hlk|i g Hi|i g cs d0 n c v k0 Hi Ho Hn Hcl Hlen
    |i g cs d0 n c k0 v rest Hi Ho Hn Hbf|i g cs d0 n c k0 Hi Ho Hn Hbf Hcl
    |i g cs d0 n c v k0 j g' cs' d' m k' Hi Ho Hn Hj Ho' Hm' Hne Hcap Hcl Hd
    |i g cs k0 Hi Ho Hall|k1 Hk Hcl|Ht Hbf];
    try pose proof (fun y => total_insert f _ _ _ y Hi) as T;
    try pose proof (local_procs _ _ _ _ _ Htidy _ _ Hi) as Hg;
    try pose proof (wf_procs _ Hwf _ _ Hi) as Hok.
  - rewrite closed_actions, closed_set_proc.
    destruct g as [[pc b]|w pc|w pc|pc]; destruct pc; offer_inv Ho;
      injection Ho as <- <-;
      try match goal with c : cancelFunc |- _ => destruct c end;
      simpl procs; rewrite ?total_app, ?T; unfold f; simpl; lia.
  - rewrite closed_set_proc, procs_set_proc, T.
    destruct g as [[pc b]|w pc|w pc|pc]; destruct pc; offer_inv Ho;
      injection Ho as _ <-; unfold f; simpl; lia.
  - rewrite closed_set_proc, closed_close_chan, procs_set_proc,
      procs_close_chan, T.
    destruct g as [[pc b]|w pc|w pc|pc]; destruct pc; offer_inv Ho;
      injection Ho as Hc0 <-; try subst c; unfold f; simpl; try lia.
    + destruct Hok as [Hh _]. simpl in Hh. apply Forall_cons in Hh as [Hb _].
      destruct Hg as [[fn Hfn] _].
      apply built_done in Hb as [[? ?]|(k2 & p & Hdn & _ & _ & He)];
        [congruence|].
      assert (c = doneCh k2) as -> by congruence.
      unfold is_task. rewrite Hfn, He.
      destruct (decide (doneCh k = doneCh k2)) as [[= <-]|Hne].
      * rewrite Hcl, Nat.eqb_refl. lia.
      * destruct (Nat.eqb_spec k2 k) as [->|_]; [done|]. lia.
    + destruct Hg as [n0 ->]. rewrite decide_False by done. lia.
  - rewrite closed_set_proc, procs_set_proc, T.
    destruct g as [[pc b]|w pc|w pc|pc]; destruct pc; offer_inv Ho;
      injection Ho as <-; unfold f; simpl; lia.
  - destruct g as [[pc b]|w pc|w pc|pc]; destruct pc; offer_inv Ho;
      injection Ho as _ <-; simpl; rewrite T; unfold f; simpl; lia.
  - simpl. lia.
  - rewrite closed_set_proc, closed_set_buf, procs_set_proc, procs_set_buf, T.
    destruct g as [[pc b]|w pc|w pc|pc]; destruct pc; offer_inv Ho;
      injection Ho as <- <-; lookups_inv; unfold f; simpl; lia.
  - rewrite closed_set_proc, closed_set_buf, procs_set_proc, procs_set_buf, T.
    destruct g as [[pc b]|w pc|w pc|pc]; destruct pc; offer_inv Ho;
      injection Ho as <- <-; lookups_inv; unfold f; simpl; lia.
  - rewrite closed_set_proc, procs_set_proc, T.
    destruct g as [[pc b]|w pc|w pc|pc]; destruct pc; offer_inv Ho;
      injection Ho as <- <-; lookups_inv; unfold f; simpl; lia.
  - rewrite !closed_set_proc, !procs_set_proc.
    rewrite (total_insert2 f _ _ _ _ _ _ _ Hi Hj Hne).
    pose proof (wf_procs _ Hwf _ _ Hj) as Hok'.
    destruct (send_unbuffered _ _ _ _ _ _ _ _ Hok Ho Hn Hcap)
      as [[-> [pc ->]]|[-> Hdisp]].
    + pose proof (recv_taskQueue _ _ _ _ _ _ Hok' Ho' Hm') as Hdisp.
      destruct g' as [[pc' b]| | |]; try done.
      destruct pc; offer_inv Ho; injection Ho as <- <-; lookups_inv.
      all: destruct pc'; offer_inv Ho'; injection Ho' as <- <-; lookups_inv.
      all: unfold f; simpl; lia.
    + destruct (recv_workerQueue _ _ _ _ _ _ Hok' Ho' Hm') as (w & -> & ->).
      destruct g as [[pc b]| | |]; try done.
      destruct pc; offer_inv Ho; injection Ho as <- <-; lookups_inv.
      all: unfold f; simpl; lia.
  - rewrite closed_set_proc, procs_set_proc, T.
    destruct g as [[pc b]|w pc|w pc|pc]; destruct pc; offer_inv Ho;
      injection Ho as <- <-; unfold f; simpl; lia.
  - rewrite closed_close_chan, procs_close_chan.
    rewrite decide_False by done. simpl. lia.
  - simpl. lia.
Qed.

Lemma total_lookup f l i x :
  (forall g, 0 <= f g)%Z -> l !! i = Some x -> (f x <= total f l)%Z.
Proof.
  intros Hf. revert i. induction l as [|z l IH]; intros [|i] Hi;
    simpl in *; try done.
  - injection Hi as ->. pose proof (total_nonneg f l Hf). lia.
  - specialize (IH _ Hi). specialize (Hf z). lia.
Qed.

Lemma called_by_helper_le k e : (called_by_helper k e <= called k e)%Z.
Proof.
  destruct e; simpl; try done. destruct g; simpl; try lia.
  all: apply cnt_nonneg.
Qed.

(** A task is held, or with a helper that has called it, or its [done]
    channel is closed: one of the three at most. *)
Lemma started_closing k s :
  started s -> (places k s + closing k s <= made k s)%Z.
Proof.
  revert s. apply (started_invariant
    (fun s => (places k s + closing k s <= made k s)%Z)).
  - intros n callers Hc. rewrite (places_init k n callers Hc).
    unfold closing, made. simpl.
    assert (H : total (fun g => cnt k (finishing g)) (map GClient callers)
                = 0%Z).
    { clear. induction callers as [|pc l IH]; simpl; [done|]. by rewrite IH. }
    rewrite H. lia.
  - intros s e s' Hst Hinv H.
    pose proof (places_step k _ _ _ H Hst) as Hp.
    pose proof (closing_step k _ _ _ H (proj1 (started_wf_sup _ Hst))
                  (started_tidy _ Hst)) as Hcl.
    destruct (born_made k _ _ _ H) as [_ Hm].
    pose proof (called_by_helper_le k e). lia.
Qed.

(** The helper closes a [done] channel that is still open. *)
Lemma done_open s i w t :
  started s -> procs s !! i = Some (GHelper w (HCloseDone t)) ->
  exists c, done t = Some c /\ closed (chans s c) = false.
Proof.
  intros Hst Hi.
  destruct (proj1 (started_wf_sup _ Hst)) as [Hp _ _].
  destruct (Hp _ _ Hi) as [Hh _]. simpl in Hh.
  apply Forall_cons in Hh as [Hb _].
  destruct (local_procs _ _ _ _ _ (started_tidy _ Hst) _ _ Hi)
    as [[fn Hfn] [cf Hcf]].
  apply built_done in Hb as [[_ ?]|(k & p & Hdn & _ & _ & He)];
    [congruence|].
  exists (doneCh k). split; [done|].
  pose proof (started_closing k s Hst) as Hle.
  pose proof (places_nonneg k s) as Hnn.
  unfold closing, made in Hle.
  pose proof (total_lookup (fun g => cnt k (finishing g)) _ _ _
                (fun g => cnt_nonneg k (finishing g)) Hi) as Hge.
  simpl in Hge. unfold is_task in Hge. rewrite Hfn, He, Nat.eqb_refl in Hge.
  destruct (closed (chans s (doneCh k))); [|done].
  destruct (k <? newTasks s); lia.
Qed.

(** The ways a step panics. *)
Lemma panic_inv s m i g s' :
  step s m = Some (EPanic i g, s') ->
  procs s !! i = Some g /\
  (offer_at s g = Panic \/
   (exists k, offer_at s g = Call None k) \/
   (exists k, offer_at s g = Close None k) \/
   (exists c k, offer_at s g = Close (Some c) k /\
      closed (chans s c) = true) \/
   (exists cs d n c v k, offer_at s g = Select cs d /\
      cs !! n = Some (Send (Some c) v k) /\ closed (chans s c) = true)).
Proof.
  unfold step. destruct (crashed s); [done|].
  destruct m as [j|j n|j n j' n'|j|k|]; simpl.
  - destruct (procs s !! j) as [g0|] eqn:Hj; [|done]. simpl.
    unfold step_run. destruct (offer_at s g0) as [| |[[]|]|[c|]| | | |] eqn:Ho;
      try done; try (intros [= <- <- <-]; split; [done|]; eauto 10).
    + destruct (closed (chans s c)) eqn:Hc; intros [= <- <- <-].
      split; [done|]. right. right. right. left. eauto.
    + destruct (wg s =? 0)%Z; done.
    + by destruct (locked _ _).
  - destruct (procs s !! j) as [g0|] eqn:Hj; [|done]. simpl.
    destruct (select_cases (offer_at s g0) !! n) as [cm|] eqn:Hn; [|done].
    simpl. apply select_cases_Some in Hn as (cs & d & Ho & Hn).
    destruct cm as [[c|] v k|[c|] k]; simpl; try done.
    + destruct (closed (chans s c)) eqn:Hc.
      * intros [= <- <- <-]. split; [done|]. do 4 right. eauto 10.
      * by destruct (_ <? _).
    + destruct (buf (chans s c)); [|done]. by destruct (closed _).
  - destruct (procs s !! j) as [g0|]; [|done]. simpl.
    destruct (select_cases (offer_at s g0) !! n) as [cm|]; [|done]. simpl.
    destruct (procs s !! j') as [g1|]; [|done]. simpl.
    destruct (select_cases (offer_at s g1) !! n') as [cm'|]; [|done]. simpl.
    unfold step_sync. repeat case_match; done.
  - destruct (procs s !! j) as [g0|]; [|done]. simpl.
    repeat case_match; done.
  - by case_match.
  - by case_match.
Qed.

(** X11: the goroutines of the pool do not panic.  In every state of a
    pool a step that panics is a step of a caller ([Submit] after the stop,
    or a nil context with a deadline): the dispatcher, the workers and the
    helpers never call a nil function, never ask for the front of an empty
    queue, never use a nil context or cancel function, never send on a
    closed channel and never close a channel that is nil or closed. *)
Theorem pool_never_panics :
  forall s m i g s',
    started s -> step s m = Some (EPanic i g, s') ->
    exists pc, g = GClient pc.
Proof.
  intros s m i g s' Hst Hstep.
  destruct (panic_inv _ _ _ _ _ Hstep) as [Hi Hor].
  destruct g as [[pc b]|w pc|w pc|pc]; [exfalso..|eauto].
  - pose proof (started_dispatch_safe _ Hst) as [Hq Hc].
    pose proof (started_tidy _ Hst) as Htidy.
    assert (i = 0) as -> by (by eapply (proj2 (started_sole_dispatcher _ Hst))).
    unfold dispatcher_at, dispatcher_of in Hq, Hc. rewrite Hi in Hq, Hc.
    simpl in Hq, Hc.
    destruct Hor as [Ho|[[k Ho]|[[k Ho]|[(c & k & Ho & Hcl)|
      (cs & d & n & c & v & k & Ho & Hn & Hcl)]]]];
      destruct pc; offer_inv Ho;
      try match goal with
          | H : NewTask None None [] _ = Panicked |- _ =>
              unfold NewTask in H; discriminate H
          end; try done.
    all: try (simplify_eq; by specialize (Hc Hcl)).
    all: injection Ho as <- <-; lookups_inv;
      destruct (local_closed _ _ _ _ _ Htidy _ Hcl).
  - pose proof (started_tidy _ Hst) as Htidy.
    pose proof (started_ids_ok _ Hst) as Hids.
    pose proof (local_procs _ _ _ _ _ Htidy _ _ Hi) as Hg.
    pose proof (wf_procs _ (proj1 (started_wf_sup _ Hst)) _ _ Hi) as [Hh _].
    pose proof (ids_worker _ Hids _ _ _ Hi) as ->.
    destruct Hor as [Ho|[[k Ho]|[[k Ho]|[(c & k & Ho & Hcl)|
      (cs & d & n & c & v & k & Ho & Hn & Hcl)]]]];
      destruct pc; offer_inv Ho; simpl in Hg, Hh;
      repeat match goal with
      | H : Forall _ (_ :: _) |- _ => apply Forall_cons in H as [? H]
      | H : _ /\ _ |- _ => destruct H
      | H : real _ |- _ => destruct H as [? H]
      | H : supervised _ |- _ => destruct H as [? H]
      end; try congruence.
    all: try (injection Ho as <- <-; lookups_inv).
    all: try match goal with
         | H : built ?t, H' : ctx ?t = None |- _ =>
             apply built_done in H as [[? ?]|(? & ? & ? & ? & ? & ?)];
             congruence
         end.
    all: try match goal with
         | Hcl : closed (chans _ (tasksCh _)) = true |- _ =>
             apply (ids_closed _ Hids) in Hcl; simplify_eq; congruence
         end.
    all: try match goal with
         | H : built ?t, H' : Err ?t = Some ?c,
           Hcl : closed (chans _ ?c) = true |- _ =>
             apply built_Err in H as [?|[? ?]]; [congruence|];
             simplify_eq; destruct (local_closed _ _ _ _ _ Htidy _ Hcl)
         end.
  - pose proof (started_tidy _ Hst) as Htidy.
    pose proof (local_procs _ _ _ _ _ Htidy _ _ Hi) as Hg.
    pose proof (wf_procs _ (proj1 (started_wf_sup _ Hst)) _ _ Hi) as [Hh _].
    assert (Hopen : forall t, pc = HCloseDone t ->
              exists c, done t = Some c /\ closed (chans s c) = false).
    { intros t ->. by eapply done_open. }
    destruct Hor as [Ho|[[k Ho]|[[k Ho]|[(c & k & Ho & Hcl)|
      (cs & d & n & c & v & k & Ho & Hn & Hcl)]]]];
      destruct pc; offer_inv Ho; simpl in Hg, Hh;
      repeat match goal with
      | H : Forall _ (_ :: _) |- _ => apply Forall_cons in H as [? H]
      | H : _ /\ _ |- _ => destruct H
      | H : real _ |- _ => destruct H as [? H]
      | H : supervised _ |- _ => destruct H as [? H]
      end; try congruence.
    all: try (injection Ho as <- <-; lookups_inv).
    all: try match goal with
         | H : built ?t, H' : ctx ?t = None |- _ =>
             apply built_done in H as [[? ?]|(? & ? & ? & ? & ? & ?)];
             congruence
         end.
    all: try match goal with
         | H : built ?t, H' : Err ?t = Some ?c,
           Hcl : closed (chans _ ?c) = true |- _ =>
             apply built_Err in H as [?|[? ?]]; [congruence|];
             simplify_eq; destruct (local_closed _ _ _ _ _ Htidy _ Hcl)
         end.
    all: destruct (Hopen _ eq_refl) as (c0 & Hd0 & Hc0);
      injection Ho as Hx _; congruence.
Qed.

Lemma pool_never_panics_witness :
  exists pc,
    GClient (CSubmitSend {| task := plain_fn; Err := Some (ErrCh 0);
                            done := None; ctx := Some Background;
                            cancel := None |}) = GClient pc.
Proof.
  set (s := after [Run 1; Run 1; Run 1; Run 1; Run 1; Run 1; Run 1; Run 1;
                 Run 1; Run 2] late_submit).
  apply (pool_never_panics s (Comm 2 0) 2 _ (crash s)).
  - apply started_after; [repeat constructor|vm_compute; reflexivity].
  - vm_compute. reflexivity.
Defined.

(** ** What a result channel delivers *)

Lemma local_mono (G G' : goroutine -> Prop) (V V' : chan -> val -> Prop)
    (Q Q' : poolTask -> Prop) (C C' : chan -> Prop) s :
  (forall g, G g -> G' g) -> (forall c v, V c v -> V' c v) ->
  (forall t, Q t -> Q' t) -> (forall c, C c -> C' c) ->
  local G V Q C s -> local G' V' Q' C' s.
Proof.
  intros HG HV HQ HC [Hp Hb Hq Hc]. split; eauto.
  eapply Forall_impl; eauto.
Qed.

Lemma offer_gets_map {L M} V C (f : L -> M) (o : offer L) (m : M) :
  offer_gets V C (offer_map f o) m -> exists l, m = f l /\ offer_gets V C o l.
Proof.
  destruct o as [acts k|cs d|fn k|c k|k|lk k| |]; simpl; try (intros ->; eauto);
    try done.
  - intros [(cm & Hin & Hc)|Hd].
    + apply list_elem_of_fmap in Hin as (cm0 & -> & Hin0).
      destruct cm0 as [c v k|c k]; simpl in *.
      * subst. eexists; split; [done|]. left. exists (Send c v k). done.
      * destruct Hc as (v & -> & Hv & Hcl). eexists; split; [done|]. left.
        exists (Recv c k). split; [done|]. simpl. eauto.
    + destruct d as [l|]; simpl in Hd; [|done]. inversion Hd; subst.
      eexists; split; [done|]. by right.
  - intros (e & -> & ->). eauto.
Qed.

Section gets.
Variable G : goroutine -> Prop.
Variable V : chan -> val -> Prop.
Variable Q : poolTask -> Prop.
Variable C : chan -> Prop.

(** After a step a goroutine is where it was, or where its offer leads
    with a value that its channel carries. *)
Lemma stepR_gets s e s' i g :
  stepR s e s' -> local G V Q C s ->
  (forall j gj, (j, gj) ∈ actors e -> local_offer G V Q C (offer_at s gj)) ->
  procs s !! i = Some g ->
  exists g', procs s' !! i = Some g' /\
    (g' = g \/ ((i, g) ∈ actors e /\ offer_gets V C (offer_at s g) g')).
Proof.
  intros H Hl Hoff Hi.
  assert (Hset : forall j k (s0 : state), procs s0 = procs s ->
     forall gj, procs s !! j = Some gj ->
     offer_gets V C (offer_at s gj) k ->
     (j, gj) ∈ actors e ->
     exists g', procs (set_proc j k s0) !! i = Some g' /\
       (g' = g \/ ((i, g) ∈ actors e /\ offer_gets V C (offer_at s g) g'))).
  { intros j k s0 Hs0 gj Hj Hk Hin. unfold set_proc. simpl. rewrite Hs0.
    destruct (decide (j = i)) as [->|Hne].
    - rewrite list_lookup_insert_eq by (by eapply lookup_lt_Some).
      exists k. split; [done|]. right. rewrite Hi in Hj. by inversion Hj; subst.
    - rewrite list_lookup_insert_ne by done. eauto. }
  destruct H as [j gj acts k Hj Ho|j gj e0 k Hj Ho|j gj c k Hj Ho Hc
    |j gj k Hj Ho Hw|j gj lk k Hj Ho Hlk|j gj Hj|j gj cs d n c v k Hj Ho Hn Hc Hlen
    |j gj cs d n c k v rest Hj Ho Hn Hb|j gj cs d n c k Hj Ho Hn Hb Hc
    |j gj cs d n c v k j' gj' cs' d' m k' Hj Ho Hn Hj' Ho' Hm Hne Hcap Hc Hd
    |j gj cs k Hj Ho Hall|k Hk Hc|Ht Hb].
  - destruct (Hset j k s eq_refl gj Hj) as (g' & Hg' & Hor);
      [by rewrite Ho | simpl; repeat constructor | ].
    exists g'. split; [|done]. by apply run_actions_lookup.
  - apply (Hset j (k e0) s eq_refl) with gj; try done.
    + rewrite Ho. simpl. eauto.
    + simpl; repeat constructor.
  - apply (Hset j k (close_chan c s) eq_refl) with gj; try done.
    + by rewrite Ho.
    + simpl; repeat constructor.
  - apply (Hset j k s eq_refl) with gj; try done.
    + by rewrite Ho.
    + simpl; repeat constructor.
  - apply (Hset j k (lock_mutex lk s) eq_refl) with gj; try done.
    + by rewrite Ho.
    + simpl; repeat constructor.
  - exists g. simpl. eauto.
  - apply (Hset j k (set_buf c _ s) eq_refl) with gj; try done.
    + rewrite Ho. simpl. left. eexists. split; [by eapply list_elem_of_lookup_2|done].
    + simpl; repeat constructor.
  - apply (Hset j (k (Some v)) (set_buf c _ s) eq_refl) with gj; try done.
    + rewrite Ho. simpl. left. eexists.
      split; [by eapply list_elem_of_lookup_2|]. simpl. eexists. split; [done|].
      split; [|done]. intros c0 x [= <-] [= <-].
      eapply local_bufs; [done|]. rewrite Hb. by left.
    + simpl; repeat constructor.
  - apply (Hset j (k None) s eq_refl) with gj; try done.
    + rewrite Ho. simpl. left. eexists.
      split; [by eapply list_elem_of_lookup_2|]. simpl. eexists. split; [done|].
      split; [done|]. intros c0 [= <-] _. by eapply local_closed.
    + simpl; repeat constructor.
  - assert (Hv : V c v).
    { assert (Hok : local_offer G V Q C (offer_at s gj))
        by (apply (Hoff j); by left).
      rewrite Ho in Hok. destruct Hok as [Hcs _].
      by pose proof (Forall_lookup_1 _ _ _ _ Hcs Hn) as (_ & Hv%(fun H => H c eq_refl)). }
    unfold set_proc. simpl.
    destruct (decide (j' = i)) as [->|Hne'].
    + rewrite list_lookup_insert_eq
        by (rewrite length_insert; by eapply lookup_lt_Some).
      eexists. split; [done|]. right. rewrite Hi in Hj'. inversion Hj'; subst.
      split; [repeat constructor|]. rewrite Ho'. simpl. left. eexists.
      split; [by eapply list_elem_of_lookup_2|]. simpl. eexists. split; [done|].
      split; [|done]. by intros c0 x [= <-] [= <-].
    + rewrite list_lookup_insert_ne by done.
      destruct (decide (j = i)) as [->|Hne''].
      * rewrite list_lookup_insert_eq by (by eapply lookup_lt_Some).
        eexists. split; [done|]. right. rewrite Hi in Hj. inversion Hj; subst.
        split; [repeat constructor|]. rewrite Ho. simpl. left. eexists.
        split; [by eapply list_elem_of_lookup_2|done].
      * rewrite list_lookup_insert_ne by done. eauto.
  - apply (Hset j k s eq_refl) with gj; try done.
    + rewrite Ho. simpl. by right.
    + simpl; repeat constructor.
  - exists g. simpl. eauto.
  - exists g. simpl. eauto.
Qed.
End gets.

Lemma known_mono tbl l t : known tbl t -> known (tbl ++ l) t.
Proof.
  intros H c Hc. destruct (H c Hc) as (k & -> & Hk).
  exists k. split; [done|]. by apply lookup_app_l_Some.
Qed.

Lemma res_ok_mono tbl l g : res_ok tbl g -> res_ok (tbl ++ l) g.
Proof.
  intros (Ht & Hk & Hr). repeat split; try done.
  eapply Forall_impl; [done|]. intros t. apply known_mono.
Qed.

Lemma res_val_mono tbl l c v : res_val tbl c v -> res_val (tbl ++ l) c v.
Proof.
  intros [Ht Hv]. split; [done|]. destruct v as [t|e|]; [|  |done].
  - by apply known_mono.
  - intros k Hc. destruct (Hv k Hc) as (t & Hk & Ho).
    exists t. split; [|done]. by apply lookup_app_l_Some.
Qed.

Lemma results_mono tbl l s : results tbl s -> results (tbl ++ l) s.
Proof.
  apply local_mono; try done.
  - intros g. apply res_ok_mono.
  - intros c v. apply res_val_mono.
  - intros t [Hr Hk]. split; [done|]. by apply known_mono.
Qed.

Lemma results_tidy tbl s : results tbl s -> tidy s.
Proof.
  apply local_mono; try done.
  - by intros g [H _].
  - by intros c v [H _].
  - by intros t [H _].
Qed.

Lemma known_zero tbl : known tbl zeroTask.
Proof. intros c Hc. discriminate Hc. Qed.

Lemma known_as_task tbl c v :
  (forall c0 x, Some c = Some c0 -> v = Some x -> res_val tbl c0 x) ->
  known tbl (as_task v).
Proof.
  intros H. destruct v as [[t|e|]|]; unfold as_task; try apply known_zero.
  by destruct (H c _ eq_refl eq_refl) as [_ Hk].
Qed.

(** An offer that is not a [NewTask] call keeps the table. *)
Lemma res_offers tbl s g :
  goroutine_ok g -> Forall (res_task tbl) (waitingQueue (pool s)) ->
  res_ok tbl g -> takes_number (offer_at s g) = false ->
  local_offer (res_ok tbl) (res_val tbl) (res_task tbl) closable (offer_at s g).
Proof.
  intros Hok Hq (Ht & Hk & Hr) Hf.
  assert (Hq' : Forall real (waitingQueue (pool s))).
  { eapply Forall_impl; [done|]. by intros t [H _]. }
  pose proof (tidy_offers s g Hok Hq' Ht) as Htidy.
  destruct g as [[pc b]|w pc|w pc|pc]; destruct pc; simpl in *.
  all: unfold dispatch, with_pill in *; simpl in *.
  all: repeat case_match; simpl in *; try done.
  all: unfold local_comm in *; simpl in *.
  all: repeat match goal with
       | H : Forall _ (_ :: _) |- _ => apply Forall_cons in H as [? H]
       | H : Forall _ [] |- _ => clear H
       | H : _ /\ _ |- _ => destruct H
       end.
  all: repeat first [ split | apply Forall_cons | apply Forall_nil | intros ? ].
  all: simplify_eq; simpl in *; try done.
  all: eauto using known_as_task.
  all: try match goal with
       | H : forall v : option val, _,
         H6 : forall c0 x, _ -> ?v = Some x -> res_val _ _ _,
         H7 : forall c0, _ -> ?v = None -> _ |- _ =>
           let Hn := fresh "Hn" in
           assert (Hn := H v (fun c0 x Hc Hx => proj1 (H6 c0 x Hc Hx)) H7);
           clear H
       end.
  all: try done.
  all: try match goal with
       | H6 : forall c0 x, Some ?c = Some c0 -> ?v = Some x -> res_val ?tbl _ _
         |- _ => pose proof (known_as_task tbl c v H6) as Hkv
       end.
  all: try (destruct v as [?|]; simpl in *; repeat constructor; done).
  all: try match goal with
       | H : res_task _ ?p, H' : Err ?p = Some _ |- _ =>
           destruct H as [_ H]; by apply H
       end.
  all: try (by apply Hkv).
  all: unfold outcome_of, known in *.
  all: try match goal with
       | H : forall c, Err ?t = Some c -> _, H' : Err ?t = Some (ErrCh ?k) |- _ =>
           destruct (H _ H') as (k' & [= <-] & Hk'); exists t; split; [done|]
       end.
  all: try (left; done).
  all: try (right; done).
  all: tauto.
Qed.

Lemma NewTask_fields c fn timeout k t :
  NewTask c fn [timeout] k = Ok t ->
  task t = fn /\ Err t = Some (ErrCh k) /\ (supervised t -> (0 < timeout)%Z).
Proof.
  unfold NewTask, supervised. intros H.
  repeat case_match; simplify_eq; simpl; repeat split; try done.
  all: try (intros _; lia).
  all: try (by intros [? ?]).
Qed.

Lemma known_fresh tbl t :
  Err t = Some (ErrCh (length tbl)) -> known (tbl ++ [t]) t.
Proof.
  intros H c Hc. rewrite H in Hc. injection Hc as <-.
  exists (length tbl). split; [done|]. by apply list_lookup_middle.
Qed.

(** A [NewTask] call adds its task to the table. *)
Lemma fresh_offer tbl s g k :
  goroutine_ok g -> Forall real (waitingQueue (pool s)) -> res_ok tbl g ->
  offer_at s g = Do [Fresh] k -> length tbl = newTasks s ->
  res_ok (tbl ++ held k) k /\ length (held k) = 1.
Proof.
  intros Hok Hq (Ht & Hk & Hr) Ho Hlen.
  pose proof (tidy_offers s g Hok Hq Ht) as Htidy.
  rewrite Ho in Htidy. destruct Htidy as [Htk _].
  destruct g as [[pc b]|w pc|w pc|pc]; destruct pc; offer_inv Ho.
  all: injection Ho as <-; simpl in *.
  all: split; [|done]. 
  all: split; [done|]. all: split; [|done].
  all: apply Forall_singleton, known_fresh; rewrite Hlen.
  all: try (match goal with H : NewTask _ _ [_] _ = Ok _ |- _ =>
              by apply NewTask_fields in H as (_ & ? & _) end).
  all: done.
Qed.

(** Only a [NewTask] call takes a task number. *)
Lemma offer_classes s g acts k :
  offer_at s g = Do acts k ->
  acts = [Fresh] \/
  (takes_number (offer_at s g) = false /\
   forall s0, newTasks (run_actions acts s0) = newTasks s0).
Proof.
  intros Ho. rewrite Ho.
  destruct g as [[pc b]|w pc|w pc|pc]; destruct pc; offer_inv Ho.
  all: injection Ho as <- <-; simpl; eauto.
  all: right; split; [done|]; intros s0; try done.
  by destruct c.
Qed.

Lemma sent_for_mono tbl l fn timeout t :
  sent_for tbl fn timeout t -> sent_for (tbl ++ l) fn timeout t.
Proof.
  intros (Hf & Hr & Hs & k & Hk & Ht). repeat split; try done.
  exists k. split; [done|]. by apply lookup_app_l_Some.
Qed.

Lemma call_state_mono tbl l pc0 pc :
  call_state tbl pc0 pc -> call_state (tbl ++ l) pc0 pc.
Proof.
  destruct pc0; try done; destruct pc; simpl; try done.
  all: try apply sent_for_mono.
  all: case_match; try done.
  all: intros [(t & Hs & ->) Hg]; split; [|done].
  all: exists t; split; [|done]; by apply sent_for_mono.
Qed.

(** The result a caller receives is one its task's channel carries. *)
Lemma sent_for_result tbl fn timeout t k v :
  sent_for tbl fn timeout t -> Err t = Some (ErrCh k) ->
  (forall c0 x, Some (ErrCh k) = Some c0 -> v = Some x -> res_val tbl c0 x) ->
  (forall c0, Some (ErrCh k) = Some c0 -> v = None -> closable c0) ->
  exists e, v = Some (VErr e) /\ result_of fn timeout e.
Proof.
  intros (Hf & Hr & Hs & k' & Hk' & Ht) Hk Hv Hc.
  rewrite Hk in Hk'. injection Hk' as <-.
  destruct v as [x|]; [|by destruct (Hc _ eq_refl eq_refl)].
  destruct (Hv _ x eq_refl eq_refl) as [Htv Hx].
  destruct x as [?|e|]; simpl in Htv; try done.
  exists e. split; [done|].
  destruct (Hx k eq_refl) as (t0 & Ht0 & Ho).
  rewrite Ht in Ht0. injection Ht0 as <-.
  destruct Ho as [Ho|[Hsup ->]]; [left; congruence|right; eauto].
Qed.

(** A caller stays where its entry point leads. *)
Lemma call_state_gets tbl l s pc0 pc g' :
  call_state tbl pc0 pc -> length tbl = newTasks s ->
  offer_gets (res_val (tbl ++ l)) closable (offer_at s (GClient pc)) g' ->
  (forall k, offer_at s (GClient pc) = Do [Fresh] k -> l = held k) ->
  exists pc', g' = GClient pc' /\ call_state (tbl ++ l) pc0 pc'.
Proof.
  intros Hcs Hlen Hg Hl. simpl in Hg, Hl.
  apply offer_gets_map in Hg as (pc' & -> & Hg). exists pc'. split; [done|].
  apply (call_state_mono _ l) in Hcs.
  destruct pc0 as [c fn timeout| | | |c fn timeout| | | | | | | | | | | | | | | | | | |];
    try done.
  all: destruct pc; simpl in Hcs; try done.
  - (* Submit: the call *)
    injection Hcs as -> -> ->. simpl in Hg, Hl.
    destruct fn as [f|]; simpl in *; [|subst; simpl; eauto].
    destruct (NewTask c (Some f) [timeout] (newTasks s)) as [t|] eqn:Hn;
      simpl in *; [|done].
    subst pc'. rewrite (Hl _ eq_refl). simpl.
    apply NewTask_fields in Hn as Hn'. destruct Hn' as (Ht & He & Hs).
    repeat split; try done; [by eapply NewTask_real|].
    exists (newTasks s). split; [done|]. rewrite <- Hlen.
    by apply list_lookup_middle.
  - (* Submit: the send *)
    simpl in Hg. destruct Hg as [(cm & ->%list_elem_of_singleton & ->)|]; [|done].
    simpl. pose proof Hcs as (Hf & [f Hr] & _).
    destruct fn as [f'|]; [|congruence]. split; [eauto|done].
  - (* Submit with no function: the close *)
    simpl in Hg. subst pc'. destruct Hcs as [-> [n ->]]. simpl. eauto.
  - (* the caller reads the channel *)
    simpl in Hg.
    destruct Hg as [(cm & ->%list_elem_of_singleton & v & -> & Hv & Hc)|]; [|done].
    simpl. destruct fn as [f|].
    + destruct Hcs as [(t & Hs & ->) Hgot]. split; [eauto|].
      apply Forall_app. split; [done|]. apply Forall_singleton.
      pose proof Hs as (_ & _ & _ & k & Hk & _).
      eapply sent_for_result; try done; by rewrite Hk in *.
    + destruct Hcs as [[n ->] Hgot]. split; [eauto|].
      apply Forall_app. split; [done|]. apply Forall_singleton.
      destruct v as [x|]; [|done].
      destruct (Hv _ x eq_refl eq_refl) as [Htv _]. by destruct x.
  - (* SubmitWait: the call *)
    injection Hcs as -> -> ->. simpl in Hg, Hl.
    destruct fn as [f|]; simpl in *; [|by subst].
    destruct (NewTask c (Some f) [timeout] (newTasks s)) as [t|] eqn:Hn;
      simpl in *; [|done].
    subst pc'. rewrite (Hl _ eq_refl). simpl.
    apply NewTask_fields in Hn as Hn'. destruct Hn' as (Ht & He & Hs).
    repeat split; try done; [by eapply NewTask_real|].
    exists (newTasks s). split; [done|]. rewrite <- Hlen.
    by apply list_lookup_middle.
  - (* SubmitWait: the send *)
    simpl in Hg. by destruct Hg as [(cm & ->%list_elem_of_singleton & ->)|].
  - (* SubmitWait: the receive *)
    simpl in Hg.
    destruct Hg as [(cm & ->%list_elem_of_singleton & v & -> & Hv & Hc)|]; [|done].
    simpl. pose proof Hcs as (Hf & [f Hr] & _ & k & Hk & _).
    rewrite Hk in Hv, Hc.
    destruct (sent_for_result _ _ _ _ _ _ Hcs Hk Hv Hc) as (e & -> & He).
    rewrite <- Hf, Hr. unfold as_err. by rewrite <- Hr, Hf.
Qed.

(** A step is a panic, a [NewTask] call, or leaves the task numbers. *)
Lemma step_fresh s e s' :
  stepR s e s' ->
  (exists i g, e = EPanic i g /\ s' = crash s) \/
  (exists i g k, e = EDo i g [Fresh] /\ offer_at s g = Do [Fresh] k /\
                 newTasks s' = S (newTasks s)) \/
  ((forall i g, (i, g) ∈ actors e -> takes_number (offer_at s g) = false) /\
   newTasks s' = newTasks s).
Proof.
  intros H.
  destruct H as [i g acts k Hi Ho|i g e0 k Hi Ho|i g c k Hi Ho Hc
    |i g k Hi Ho Hw|i g lk k Hi Ho Hlk|i g Hi|i g cs d n c v k Hi Ho Hn Hc Hlen
    |i g cs d n c k v rest Hi Ho Hn Hb|i g cs d n c k Hi Ho Hn Hb Hc
    |i g cs d n c v k j g' cs' d' m k' Hi Ho Hn Hj Ho' Hm Hne Hcap Hc Hd
    |i g cs k Hi Ho Hall|k Hk Hc|Ht Hb].
  all: try (right; right; split; [|done]; simpl; intros i0 g0 Hin;
            repeat (apply elem_of_cons in Hin as [[= -> ->]|Hin];
                    [first [by rewrite Ho|by rewrite Ho']|]);
            by apply elem_of_nil in Hin).
  - right. destruct (offer_classes _ _ _ _ Ho) as [->|[Hf Hn]].
    + left. by exists i, g, k.
    + right. split; [|by rewrite Hn].
      simpl. by intros i0 g0 [= -> ->]%list_elem_of_singleton.
  - left. eauto.
Qed.

Lemma res_step callers tbl s e s' :
  stepR s e s' -> wf s -> length tbl = newTasks s ->
  results tbl s -> callers_ok tbl callers s ->
  exists l, length (tbl ++ l) = newTasks s' /\ results (tbl ++ l) s' /\
            callers_ok (tbl ++ l) callers s'.
Proof.
  intros H Hwf Hlen Hres Hcs.
  assert (Hq : Forall real (waitingQueue (pool s))).
  { eapply Forall_impl; [by apply (local_queue _ _ _ _ _ Hres)|]. by intros t [? _]. }
  destruct (step_fresh _ _ _ H) as [(i & g & -> & ->)|Hcase].
  { exists []. rewrite app_nil_r. split; [done|]. split; [|done].
    destruct Hres. by split. }
  assert (exists l, length (tbl ++ l) = newTasks s' /\
    (forall i g, (i, g) ∈ actors e ->
       local_offer (res_ok (tbl ++ l)) (res_val (tbl ++ l))
         (res_task (tbl ++ l)) closable (offer_at s g)) /\
    (forall i g k, (i, g) ∈ actors e -> offer_at s g = Do [Fresh] k ->
                   l = held k)) as (l & Hlen' & Hoff & Hl).
  { destruct Hcase as [(i & g & k & -> & Ho & Hn)|[Hf Hn]].
    - pose proof (actors_lookup _ _ _ i g H ltac:(by left)) as Hi.
      destruct (fresh_offer tbl s g k) as [Hk Hlk]; try done.
      { by eapply wf_procs. } { by eapply local_procs. }
      exists (held k). split; [rewrite length_app; lia|]. simpl. split.
      + intros i0 g0 [= -> ->]%list_elem_of_singleton. rewrite Ho. simpl.
        split; [done|]. by repeat constructor.
      + intros i0 g0 k0 [= -> ->]%list_elem_of_singleton. rewrite Ho.
        by intros [= ->].
    - exists []. rewrite app_nil_r. split; [lia|]. split.
      + intros i g Hin. pose proof (actors_lookup _ _ _ _ _ H Hin) as Hi.
        apply res_offers; [by eapply wf_procs| |by eapply local_procs|eauto].
        by destruct Hres.
      + intros i g k Hin Ho. apply Hf in Hin. by rewrite Ho in Hin. }
  exists l. split; [done|].
  pose proof (results_mono _ l _ Hres) as Hres'. split.
  - by eapply (local_step_actors _ _ _ closable).
  - intros j pc0 Hj. destruct (Hcs j pc0 Hj) as (pc & Hp & Hst).
    destruct (stepR_gets _ _ _ _ _ _ _ (S j) _ H Hres' Hoff Hp)
      as (g' & Hg' & [->|[Hin Hg]]).
    + exists pc. split; [done|]. by apply call_state_mono.
    + destruct (call_state_gets tbl l s pc0 pc g') as (pc' & -> & Hst');
        eauto.
Qed.

Lemma res_init n callers :
  Forall api_call callers ->
  results [] (init n callers) /\ callers_ok [] callers (init n callers).
Proof.
  intros Hc. split; [split; simpl; try done|].
  - intros [|i] g Hi; simpl in Hi; [by injection Hi as <-|].
    apply list_lookup_fmap_Some in Hi as (pc & -> & Hi).
    eapply Forall_lookup_1 in Hc; [|done]. by destruct pc.
  - intros ? ? []%elem_of_nil.
  - intros j pc0 Hj. exists pc0. simpl. rewrite list_lookup_fmap, Hj.
    split; [done|]. by destruct pc0.
Qed.

(** The table of the tasks made so far, on every execution. *)
Lemma res_exec n callers tr s :
  Forall api_call callers -> exec (init n callers) tr s ->
  exists tbl, length tbl = newTasks s /\ results tbl s /\
              callers_ok tbl callers s.
Proof.
  intros Hc Hex.
  assert (Hgen : forall s0 tr s, exec s0 tr s -> started s0 ->
    (exists tbl, length tbl = newTasks s0 /\ results tbl s0 /\
                 callers_ok tbl callers s0) ->
    exists tbl, length tbl = newTasks s /\ results tbl s /\
                callers_ok tbl callers s).
  { clear. induction 1 as [|s m e s1 tr s2 Hs _ IH]; [done|].
    intros Hst (tbl & Hlen & Hres & Hcs). apply IH.
    - by eapply started_step.
    - apply step_stepR in Hs as [_ Hs].
      destruct (res_step callers tbl _ _ _ Hs) as (l & ?); eauto.
      by apply started_wf_sup. }
  eapply Hgen; [done|by apply started_init|].
  exists []. split; [done|]. by apply res_init.
Qed.

(** X12: when a call [SubmitWait(ctx, fn, timeout)] has returned [e], then
    [e] is what [fn] returned, or the timeout is positive and [e] is
    [ErrTimeout]; with no function it is nil. *)
Theorem submit_wait_result n callers tr s j c fn timeout e :
  Forall api_call callers -> exec (init n callers) tr s ->
  callers !! j = Some (CSubmitWait c fn timeout) ->
  procs s !! S j = Some (GClient (CReturned e)) ->
  (fn = None /\ e = None) \/ result_of fn timeout e.
Proof.
  intros Hc Hex Hj Hp.
  destruct (res_exec _ _ _ _ Hc Hex) as (tbl & _ & _ & Hcs).
  destruct (Hcs _ _ Hj) as (pc & Hp' & Hst).
  rewrite Hp in Hp'. injection Hp' as <-. simpl in Hst.
  destruct fn; eauto.
Qed.

(** X13: everything a caller reads from the channel that
    [Submit(ctx, fn, timeout)] returned is an error value that [fn]
    returned, or [ErrTimeout] under a positive timeout; with no function
    the channel is closed and yields no value. *)
Theorem submit_channel_results n callers tr s j c fn timeout ch got :
  Forall api_call callers -> exec (init n callers) tr s ->
  callers !! j = Some (CSubmit c fn timeout) ->
  procs s !! S j = Some (GClient (CHolding ch got)) ->
  Forall (fun v => match fn with
                   | None => v = None
                   | Some _ => exists e, v = Some (VErr e) /\
                                         result_of fn timeout e
                   end) got.
Proof.
  intros Hc Hex Hj Hp.
  destruct (res_exec _ _ _ _ Hc Hex) as (tbl & _ & _ & Hcs).
  destruct (Hcs _ _ Hj) as (pc & Hp' & Hst).
  rewrite Hp in Hp'. injection Hp' as <-. simpl in Hst.
  by destruct fn; destruct Hst.
Qed.

Lemma submit_wait_result_witness :
  (failing_fn = None /\ Some (UserErr "failed") = None) \/
  result_of failing_fn 0 (Some (UserErr "failed")).
Proof.
  apply (submit_wait_result 2 served_callers
           (trace_of served_moves served_init)
           (after served_moves served_init) 0 (Some Background)).
  - repeat constructor.
  - apply exec_after. vm_compute. reflexivity.
  - reflexivity.
  - vm_compute. reflexivity.
Defined.

Lemma submit_channel_results_witness :
  Forall (fun v => exists e, v = Some (VErr e) /\ result_of failing_fn 0 e)
    [Some (VErr (Some (UserErr "failed")))].
Proof.
  apply (submit_channel_results 2 served_callers
           (trace_of served_moves served_init)
           (after served_moves served_init) 1 (Some Background) failing_fn 0
           (Some (ErrCh 1))).
  - repeat constructor.
  - apply exec_after. vm_compute. reflexivity.
  - reflexivity.
  - vm_compute. reflexivity.
Defined.

(** ** One result for a task without deadline *)

Lemma is_task_sup tbl k t :
  known tbl t -> supervised t -> plain tbl k -> is_task k t = false.
Proof.
  intros Hk [f Hs] Hp. unfold is_task.
  destruct (task t); [|done]. destruct (Err t) as [c|] eqn:He; [|done].
  destruct (Hk c He) as (k' & -> & Ht).
  destruct (Nat.eqb_spec k' k) as [->|]; [|done].
  rewrite (Hp _ Ht) in Hs. discriminate Hs.
Qed.

Lemma is_task_real k k' t :
  real t -> Err t = Some (ErrCh k') -> is_task k t = (k' =? k).
Proof. intros [f Hf] He. unfold is_task. by rewrite Hf, He. Qed.

Lemma Err_sup tbl k k' t :
  known tbl t -> supervised t -> plain tbl k -> Err t = Some (ErrCh k') ->
  k' <> k.
Proof.
  intros Hk [f Hs] Hp He ->. destruct (Hk _ He) as (k' & [= <-] & Ht).
  rewrite (Hp _ Ht) in Hs. discriminate Hs.
Qed.

Lemma stored_set_buf_ne k c b s :
  c <> ErrCh k -> stored k (set_buf c b s) = stored k s.
Proof. intros H. unfold stored. by rewrite set_buf_ne. Qed.

Lemma stored_set_buf_eq k b s :
  stored k (set_buf (ErrCh k) b s) = Z.of_nat (length b).
Proof. unfold stored. by rewrite set_buf_eq. Qed.

Lemma stored_close_chan k c s : stored k (close_chan c s) = stored k s.
Proof. unfold stored. simpl. by case_decide; subst. Qed.

Lemma stored_set_proc k i g s : stored k (set_proc i g s) = stored k s.
Proof. done. Qed.

Lemma stored_actions k acts s : stored k (run_actions acts s) = stored k s.
Proof. unfold stored. by rewrite run_actions_buf. Qed.

(** Who receives is not about to publish, before or after. *)
Lemma recv_not_publishing s g cs d n c k0 v :
  offer_at s g = Select cs d -> cs !! n = Some (Recv c k0) ->
  publishing g = [] /\ publishing (k0 v) = [].
Proof.
  intros Ho Hn.
  destruct g as [[pc b]|w pc|w pc|pc]; destruct pc; offer_inv Ho;
    injection Ho as <- <-; lookups_inv; simpl; try done.
  all: by destruct v.
Qed.

(** Who sends is a worker that publishes on the channel of its task, or is
    not about to publish; after the send it is not. *)
Lemma send_publishing s g cs d n c v k0 :
  offer_at s g = Select cs d -> cs !! n = Some (Send (Some c) v k0) ->
  publishing k0 = [] /\
  (publishing g = [] \/ exists w t e, g = GWorker w (WPublish t e) /\
                                     Err t = Some c).
Proof.
  intros Ho Hn.
  destruct g as [[pc b]|w pc|w pc|pc]; destruct pc; offer_inv Ho;
    injection Ho as <- <-; lookups_inv; simpl; eauto 10.
Qed.

Lemma once_step tbl k s e s' :
  stepR s e s' -> wf s -> results tbl s ->
  (forall c, cap c = 0 -> buf (chans s c) = []) -> plain tbl k ->
  (pubs k s' + stored k s' + read k e = pubs k s + stored k s + called k e)%Z.
Proof.
  intros H Hwf Hres Hbuf Hp. unfold pubs.
  set (f := fun g => cnt k (publishing g)).
  destruct H as [i g acts k0 Hi Ho|i g e0 k0 Hi Ho|i g c k0 Hi Ho Hcl
    |i g k0 Hi Ho Hwg|i g lk k0 Hi Ho Hlk|i g Hi|i g cs d0 n c v k0 Hi Ho Hn Hcl Hlen
    |i g cs d0 n c k0 v rest Hi Ho Hn Hbf|i g cs d0 n c k0 Hi Ho Hn Hbf Hcl
    |i g cs d0 n c v k0 j g' cs' d' m k' Hi Ho Hn Hj Ho' Hm' Hne Hcap Hcl Hd
    |i g cs k0 Hi Ho Hall|k1 Hk Hcl|Ht Hbf];
    try pose proof (fun y => total_insert f _ _ _ y Hi) as T;
    try pose proof (local_procs _ _ _ _ _ Hres _ _ Hi) as (Hg & Hkn & Hr);
    try pose proof (wf_procs _ Hwf _ _ Hi) as Hok.
  - rewrite stored_actions, stored_set_proc.
    destruct g as [[pc b]|w pc|w pc|pc]; destruct pc; offer_inv Ho;
      injection Ho as <- <-;
      try match goal with c : cancelFunc |- _ => destruct c end;
      simpl procs; simpl called;
      rewrite ?total_app, ?T; unfold f; simpl; lia.
  - rewrite stored_set_proc, procs_set_proc, T.
    destruct g as [[pc b]|w pc|w pc|pc]; destruct pc; offer_inv Ho;
      injection Ho as _ <-; unfold f; simpl; try lia.
    simpl in Hg, Hkn. destruct Hg as [_ Hs].
    apply Forall_cons in Hkn as [Hk _].
    rewrite (is_task_sup _ _ _ Hk Hs Hp). lia.
  - rewrite stored_set_proc, stored_close_chan, procs_set_proc,
      procs_close_chan, T.
    destruct g as [[pc b]|w pc|w pc|pc]; destruct pc; offer_inv Ho;
      injection Ho as _ <-; unfold f; simpl; lia.
  - rewrite stored_set_proc, procs_set_proc, T.
    destruct g as [[pc b]|w pc|w pc|pc]; destruct pc; offer_inv Ho;
      injection Ho as <-; unfold f; simpl; lia.
  - destruct g as [[pc b]|w pc|w pc|pc]; destruct pc; offer_inv Ho;
      injection Ho as _ <-; unfold stored; simpl; rewrite T; unfold f; simpl;
      lia.
  - unfold stored. simpl. lia.
  - rewrite stored_set_proc, procs_set_proc, procs_set_buf, T.
    destruct (send_publishing _ _ _ _ _ _ _ _ Ho Hn)
      as [Hk0 [Hpg|(w & t & e0 & -> & He)]].
    + unfold f. rewrite Hk0, Hpg. simpl.
      rewrite stored_set_buf_ne; [destruct c; simpl; lia|].
      intros ->.
      destruct g as [[pc b]|w pc|w pc|pc]; destruct pc; offer_inv Ho;
        injection Ho as <- <-; lookups_inv; try done.
      all: simpl in Hg, Hkn; apply Forall_cons in Hkn as [Hkn _].
      all: by eapply (Err_sup tbl k k); try done; apply Hg.
    + unfold f. rewrite Hk0. simpl in *. destruct Hg as [Hreal _].
      destruct Hok as [Hb _]. apply Forall_cons in Hb as [Hb _].
      apply built_Err in Hb as [Hb|[k1 Hb]]; rewrite Hb in He; [done|].
      injection He as <-. rewrite (is_task_real k k1 t Hreal Hb).
      destruct (Nat.eqb_spec k1 k) as [->|Hne].
      * rewrite stored_set_buf_eq, length_app. unfold stored. simpl. lia.
      * rewrite stored_set_buf_ne by congruence. lia.
  - rewrite stored_set_proc, procs_set_proc, procs_set_buf, T.
    destruct (recv_not_publishing _ _ _ _ _ _ _ (Some v) Ho Hn) as [Hpg Hk0].
    unfold f. rewrite Hk0, Hpg. simpl.
    destruct (decide (c = ErrCh k)) as [->|Hc].
    + rewrite stored_set_buf_eq. unfold stored. rewrite Hbf. simpl length.
      rewrite Nat.eqb_refl. lia.
    + rewrite stored_set_buf_ne by done.
      destruct c; try lia.
      destruct (Nat.eqb_spec k1 k) as [->|]; [done|lia].
  - rewrite stored_set_proc, procs_set_proc, T.
    destruct (recv_not_publishing _ _ _ _ _ _ _ None Ho Hn) as [Hpg Hk0].
    unfold f. rewrite Hk0, Hpg. destruct c; simpl; lia.
  - rewrite !stored_set_proc. rewrite !procs_set_proc.
    rewrite (total_insert2 f _ _ _ _ _ _ _ Hi Hj Hne).
    destruct (recv_not_publishing _ _ _ _ _ _ _ (Some v) Ho' Hm') as [Hpg' Hk'].
    destruct (send_publishing _ _ _ _ _ _ _ _ Ho Hn)
      as [Hk0 [Hpg|(w & t & e0 & -> & He)]].
    + unfold f. rewrite Hk0, Hpg, Hpg', Hk'. simpl. lia.
    + exfalso. destruct Hok as [Hb _]. simpl in Hb.
      apply Forall_cons in Hb as [Hb _].
      apply built_Err in Hb as [Hb|[k1 Hb]]; rewrite Hb in He; [done|].
      injection He as <-. done.
  - rewrite stored_set_proc, procs_set_proc, T.
    destruct g as [[pc b]|w pc|w pc|pc]; destruct pc; offer_inv Ho;
      injection Ho as <- <-; unfold f; simpl; lia.
  - rewrite stored_close_chan, procs_close_chan. simpl. lia.
  - unfold stored. simpl. lia.
Qed.

(** Induction on an execution, from its last step. *)
Lemma exec_ind_r s0 (P : list event -> state -> Prop) :
  P [] s0 ->
  (forall tr s e s', exec s0 tr s -> P tr s -> stepR s e s' ->
     exec s0 (tr ++ [e]) s' -> P (tr ++ [e]) s') ->
  forall tr s, exec s0 tr s -> P tr s.
Proof.
  intros H0 Hstep tr s Hex. revert P H0 Hstep.
  induction Hex as [|s m e s1 tr s2 Hs Hex IH]; intros P H0 Hstep; [done|].
  apply (IH (fun tr' s' => P (e :: tr') s')).
  - apply (Hstep [] s e s1); [constructor|done| |].
    + by apply step_stepR in Hs as [_ Hs].
    + econstructor; [done|constructor].
  - intros tr' s' e' s'' Hex' HP Hs' Hex''.
    apply (Hstep (e :: tr') s' e' s''); [|done|done|].
    + by econstructor.
    + simpl. by econstructor.
Qed.

Lemma reads_app k tr tr' : reads k (tr ++ tr') = (reads k tr + reads k tr')%Z.
Proof. induction tr as [|e tr IH]; simpl; [done|]. rewrite IH. lia. Qed.

Lemma read_nonneg k e : (0 <= read k e)%Z.
Proof.
  destruct e; simpl; try lia. destruct c; try lia. destruct v; try lia.
  destruct (k0 =? k); lia.
Qed.

Lemma reads_nonneg k tr : (0 <= reads k tr)%Z.
Proof.
  induction tr as [|e tr IH]; simpl; [done|].
  pose proof (read_nonneg k e). lia.
Qed.

Lemma plain_mono tbl l k : plain (tbl ++ l) k -> plain tbl k.
Proof. intros H t Ht. apply H. by apply lookup_app_l_Some. Qed.

(** What a step does to a goroutine that waits for a value on a channel. *)
Lemma stepR_receiver s e s' i g c k :
  stepR s e s' -> (i, g) ∈ actors e ->
  offer_at s g = Select [Recv (Some c) k] None ->
  (exists v, e = ERecv i g c v /\ procs s' !! i = Some (k v) /\
             (v = None -> closed (chans s c) = true)) \/
  (exists j g' v, e = ESync j g' i g c v /\ cap c = 0) \/
  s' = crash s.
Proof.
  intros H Hin Ho.
  destruct H as [j gj acts k0 Hj Ho'|j gj e0 k0 Hj Ho'|j gj c0 k0 Hj Ho' Hc
    |j gj k0 Hj Ho' Hw|j gj lk k0 Hj Ho' Hlk|j gj Hj|j gj cs d n c0 v k0 Hj Ho' Hn Hc Hlen
    |j gj cs d n c0 k0 v rest Hj Ho' Hn Hb|j gj cs d n c0 k0 Hj Ho' Hn Hb Hc
    |j gj cs d n c0 v k0 j' gj' cs' d' m k' Hj Ho' Hn Hj' Ho'' Hm Hne Hcap Hc Hd
    |j gj cs k0 Hj Ho' Hall|k0 Hk Hc|Ht Hb]; simpl in Hin.
  all: repeat (apply elem_of_cons in Hin as [Hin|Hin];
               [injection Hin as -> ->|]).
  all: try (by apply elem_of_nil in Hin).
  all: try (rewrite Ho in Ho'; try discriminate Ho'; injection Ho' as <- <-).
  all: try (rewrite Ho in Ho''; try discriminate Ho''; injection Ho'' as <- <-).
  all: lookups_inv.
  all: try (by right; right).
  - left. exists (Some v). split; [done|]. split; [|done].
    unfold set_proc. simpl. apply list_lookup_insert_eq.
    by eapply lookup_lt_Some.
  - left. exists None. split; [done|]. split; [|done].
    unfold set_proc. simpl. apply list_lookup_insert_eq.
    by eapply lookup_lt_Some.
  - right. left. eauto.
Qed.

Lemma reads_ok_step tr s e s' :
  stepR s e s' -> tidy s -> reads_ok tr s -> reads_ok (tr ++ [e]) s'.
Proof.
  intros H Htidy Hr i k got' Hi'. rewrite reads_app. simpl.
  pose proof (read_nonneg k e) as Hnn.
  destruct (stepR_back _ _ _ _ _ H Hi')
    as [(g & Hi & [Heq|[Hin Hc]])|[_ [(w & t & ?)|(w & ?)]]]; try done.
  { subst g. specialize (Hr _ _ _ Hi). lia. }
  simpl in Hi'. destruct g as [| | |pc]; simpl in Hc;
    apply offer_conts_map in Hc as (l & Hl & Hc); try done.
  injection Hl as <-.
  destruct pc; simpl in Hc; repeat case_match; simpl in Hc; try done;
    try discriminate Hc.
  all: try (destruct Hc as [(cm & ->%list_elem_of_singleton & Hc)|]; [|done];
            simpl in Hc).
  all: try discriminate Hc.
  all: try match type of Hc with ex _ => destruct Hc as [v Hc] end.
  all: try discriminate Hc.
  - injection Hc as _ ->. simpl. pose proof (reads_nonneg k tr). lia.
  - injection Hc as _ ->. simpl. pose proof (reads_nonneg k tr). lia.
  - injection Hc as <- ->.
    destruct (stepR_receiver _ _ _ _ _ (ErrCh k)
                (fun v => GClient (CHolding (Some (ErrCh k)) (got ++ [v])))
                H Hin eq_refl)
      as [(v' & -> & Hs' & Hcl)|[(j & g' & v' & _ & Hcap)| ->]].
    + rewrite Hi' in Hs'. injection Hs' as Hv%app_inj_tail. destruct Hv as [_ ->].
      specialize (Hr _ _ _ Hi). rewrite length_app. simpl length.
      destruct v' as [x|]; [simpl; rewrite Nat.eqb_refl; lia|].
      by apply (local_closed _ _ _ _ _ Htidy) in Hcl.
    + done.
    + simpl in Hi'. rewrite Hi in Hi'. injection Hi' as Hv.
      exfalso. apply (f_equal length) in Hv. rewrite length_app in Hv.
      simpl in Hv. lia.
Qed.

Lemma pubs_init k n callers : pubs k (init n callers) = 0%Z.
Proof.
  unfold pubs. simpl. induction callers as [|pc l IH]; simpl in *; lia.
Qed.

(** On every execution, with the table of the tasks made so far. *)
Lemma once_exec n callers tr s :
  Forall api_call callers -> exec (init n callers) tr s ->
  exists tbl, length tbl = newTasks s /\ results tbl s /\
              callers_ok tbl callers s /\ once_ok tbl tr s /\ reads_ok tr s.
Proof.
  intros Hc Hex. revert tr s Hex. apply exec_ind_r.
  - exists []. split; [done|]. destruct (res_init n callers Hc) as [Hr Hcs].
    split; [done|]. split; [done|]. split.
    + intros k _. rewrite pubs_init. done.
    + intros [|i] k got Hi; simpl in Hi; [done|].
      apply list_lookup_fmap_Some in Hi as (pc & [= <-] & Hi).
      eapply Forall_lookup_1 in Hc; [|done]. done.
  - intros tr s e s' Hex (tbl & Hlen & Hres & Hcs & Honce & Hreads) H _.
    assert (Hst : started s) by (eapply started_exec; [by apply started_init|done]).
    destruct (started_wf_sup _ Hst) as [Hwf _].
    destruct (res_step callers tbl _ _ _ H Hwf Hlen Hres Hcs)
      as (l & Hlen' & Hres' & Hcs').
    exists (tbl ++ l). split; [done|]. split; [done|]. split; [done|]. split.
    + intros k Hp%plain_mono. rewrite reads_app, calls_app. simpl.
      pose proof (once_step tbl k _ _ _ H Hwf Hres
                    (fun c => started_unbuffered s c Hst) Hp).
      specialize (Honce k Hp). lia.
    + eapply reads_ok_step; [done| |done]. by apply started_tidy.
Qed.

Lemma pubs_nonneg k s : (0 <= pubs k s)%Z.
Proof. apply total_nonneg. intros g. apply cnt_nonneg. Qed.

Lemma stored_nonneg k s : (0 <= stored k s)%Z.
Proof. unfold stored. lia. Qed.

(** X14: a caller reads at most one value from the channel that
    [Submit(ctx, fn, timeout)] returned when [fn] is not nil and the call
    has no timeout. *)
Theorem submit_delivers_once n callers tr s j c f timeout ch got :
  Forall api_call callers -> exec (init n callers) tr s ->
  callers !! j = Some (CSubmit c (Some f) timeout) -> (timeout <= 0)%Z ->
  procs s !! S j = Some (GClient (CHolding ch got)) ->
  length got <= 1.
Proof.
  intros Hc Hex Hj Hto Hp.
  destruct (once_exec _ _ _ _ Hc Hex) as (tbl & _ & _ & Hcs & Honce & Hreads).
  destruct (Hcs _ _ Hj) as (pc & Hp' & Hst).
  rewrite Hp in Hp'. injection Hp' as <-. simpl in Hst.
  destruct Hst as [(t & (_ & _ & Hsup & k & Hk & Ht) & ->) _].
  rewrite Hk in Hp. specialize (Hreads _ _ _ Hp).
  assert (Hpl : plain tbl k).
  { intros t' Ht'. rewrite Ht in Ht'. injection Ht' as <-.
    destruct (cancel t) as [cf|] eqn:Hcf; [|done].
    assert (supervised t) as Hs%Hsup by (by exists cf). lia. }
  specialize (Honce k Hpl).
  destruct (places_bound n callers tr s k Hc Hex) as (_ & Hpl0 & Hle).
  pose proof (pubs_nonneg k s). pose proof (stored_nonneg k s). lia.
Qed.

(** X15: a worker that has run a task without deadline does not block
    when it publishes the outcome: the result channel of the task is open
    and empty, so the send proceeds. *)
Theorem publish_never_blocks n callers tr s i w t e :
  Forall api_call callers -> exec (init n callers) tr s ->
  crashed s = false ->
  procs s !! i = Some (GWorker w (WPublish t e)) ->
  exists k s',
    Err t = Some (ErrCh k) /\
    step s (Comm i 0)
    = Some (ESend i (GWorker w (WPublish t e)) (ErrCh k) (VErr e), s').
Proof.
  intros Hc Hex Hcr Hi.
  destruct (once_exec _ _ _ _ Hc Hex) as (tbl & _ & Hres & _ & Honce & _).
  assert (Hst : started s) by (eapply started_exec; [by apply started_init|done]).
  destruct (started_wf_sup _ Hst) as [Hwf _].
  pose proof (local_procs _ _ _ _ _ Hres _ _ Hi) as ([Hreal Hcan] & Hkn & _).
  apply Forall_cons in Hkn as [Hkn _].
  assert (exists k, Err t = Some (ErrCh k)) as [k Hk].
  { destruct (wf_procs _ Hwf _ _ Hi) as [Hb _].
    apply Forall_cons in Hb as [[->|(c0 & fn & to & k & Hn)] _].
    - by destruct Hreal.
    - exists k. unfold NewTask in Hn. repeat case_match; simplify_eq; done. }
  destruct (Hkn _ Hk) as (k' & [= <-] & Ht).
  assert (Hpl : plain tbl k).
  { intros t' Ht'. rewrite Ht in Ht'. by injection Ht' as <-. }
  specialize (Honce k Hpl).
  destruct (places_bound n callers tr s k Hc Hex) as (_ & Hpl0 & Hle).
  assert (Hone : (1 <= pubs k s)%Z).
  { etrans; [|apply (total_lookup _ _ _ _ (fun g => cnt_nonneg k _) Hi)].
    simpl. rewrite (is_task_real k k t Hreal Hk), Nat.eqb_refl. lia. }
  pose proof (reads_nonneg k tr). pose proof (stored_nonneg k s).
  assert (Hbuf : buf (chans s (ErrCh k)) = []).
  { unfold stored in *. destruct (buf (chans s (ErrCh k))); [done|].
    simpl in *. lia. }
  assert (Hcl : closed (chans s (ErrCh k)) = false).
  { destruct (closed (chans s (ErrCh k))) eqn:Hcl; [|done].
    by apply (local_closed _ _ _ _ _ Hres) in Hcl. }
  exists k. eexists. split; [done|].
  unfold step. rewrite Hcr. simpl. rewrite Hi. simpl. rewrite Hk. simpl.
  rewrite Hcl, Hbuf. simpl. done.
Qed.

Lemma submit_delivers_once_witness :
  length [Some (VErr (Some (UserErr "failed")))] <= 1.
Proof.
  apply (submit_delivers_once 2 served_callers
           (trace_of served_moves served_init)
           (after served_moves served_init) 1 (Some Background)
           (Returns (Some (UserErr "failed"))) 0 (Some (ErrCh 1))).
  - repeat constructor.
  - apply exec_after. vm_compute. reflexivity.
  - reflexivity.
  - lia.
  - vm_compute. reflexivity.
Defined.

Lemma publish_never_blocks_witness :
  exists k s',
    Err served_task = Some (ErrCh k) /\
    step (after served_until_publish served_init) (Comm 3 0)
    = Some (ESend 3 (GWorker 3 (WPublish served_task (Some (UserErr "failed"))))
              (ErrCh k) (VErr (Some (UserErr "failed"))), s').
Proof.
  apply (publish_never_blocks 2 served_callers
           (trace_of served_until_publish served_init)).
  - repeat constructor.
  - apply exec_after. vm_compute. reflexivity.
  - vm_compute. reflexivity.
  - vm_compute. reflexivity.
Defined.

(** ** The outcome of a task without deadline is not lost *)

(** What a step does to a goroutine that runs statements. *)
Lemma stepR_doer s e s' i g acts k :
  stepR s e s' -> (i, g) ∈ actors e -> offer_at s g = Do acts k ->
  e = EDo i g acts \/ s' = crash s.
Proof.
  intros H Hin Ho.
  destruct H as [j gj acts0 k0 Hj Ho'|j gj e0 k0 Hj Ho'|j gj c0 k0 Hj Ho' Hc
    |j gj k0 Hj Ho' Hw|j gj lk k0 Hj Ho' Hlk|j gj Hj|j gj cs d n c0 v k0 Hj Ho' Hn Hc Hlen
    |j gj cs d n c0 k0 v rest Hj Ho' Hn Hb|j gj cs d n c0 k0 Hj Ho' Hn Hb Hc
    |j gj cs d n c0 v k0 j' gj' cs' d' m k' Hj Ho' Hn Hj' Ho'' Hm Hne Hcap Hc Hd
    |j gj cs k0 Hj Ho' Hall|k0 Hk Hc|Ht Hb]; simpl in Hin.
  all: repeat (apply elem_of_cons in Hin as [Hin|Hin];
               [injection Hin as -> ->|]).
  all: try (by apply elem_of_nil in Hin).
  all: try (rewrite Ho in Ho'; try discriminate Ho'; injection Ho' as <- <-).
  all: try (rewrite Ho in Ho''; try discriminate Ho''; injection Ho'' as <- <-).
  all: eauto.
Qed.

Lemma submitted_ok_step n callers tr s e s' :
  Forall api_call callers -> exec (init n callers) tr s -> stepR s e s' ->
  exec (init n callers) (tr ++ [e]) s' ->
  submitted_ok tr s -> submitted_ok (tr ++ [e]) s'.
Proof.
  intros Hcs Hex H Hex' Hsub i pc' k Hi' Haw. rewrite calls_app. simpl.
  assert (Hst : started s) by (eapply started_exec; [by apply started_init|done]).
  pose proof (places_step k _ _ _ H Hst) as Heq.
  destruct (places_bound n callers _ _ k Hcs Hex') as (_ & Hnn' & Hle).
  rewrite calls_app in Hle. simpl in Hle.
  pose proof (places_nonneg k s) as Hnn.
  destruct (born_made k _ _ _ H) as [Hb _].
  assert (Hge : (1 <= places k s + calls k tr + born k s e)%Z); [|lia].
  destruct (stepR_back _ _ _ _ _ H Hi')
    as [(g & Hi & [Heq'|[Hin Hc]])|[_ [(w & t & ?)|(w & ?)]]]; try done.
  { subst g. specialize (Hsub _ _ _ Hi Haw). lia. }
  destruct g as [| | |pc]; simpl in Hc;
    apply offer_conts_map in Hc as (l & Hl & Hc); try done.
  injection Hl as <-.
  destruct (awaited pc) as [ch|] eqn:Hpc.
  - (* the caller already had its task *)
    assert (ch = ErrCh k) as ->.
    { destruct pc; simpl in Hpc, Hc; try done.
      all: destruct Hc as [(cm & ->%list_elem_of_singleton & Hc)|]; [|done].
      all: simpl in Hc.
      all: try match type of Hc with ex _ => destruct Hc as [v Hc] end.
      all: subst pc'; simpl in Haw; congruence. }
    specialize (Hsub _ _ _ Hi Hpc). lia.
  - (* the caller makes its task *)
    destruct pc; simpl in Hpc, Hc; try done.
    all: pose proof (calls_nonneg k tr) as Hcn.
    all: pose proof (local_procs _ _ _ _ _ (started_tidy _ Hst) _ _ Hi) as Htd.
    all: repeat case_match; simpl in Hc; try done.
    all: try (destruct Hc as [(cm & ->%list_elem_of_singleton & Hc)|]; [|done];
              simpl in Hc).
    all: try match type of Hc with ex _ => destruct Hc as [v Hc] end.
    all: subst pc'; simpl in Haw; try congruence.
    all: simpl in Htd.
    all: try match type of Htd with ex _ => by destruct Htd as [n0 ->] end.
    all: match goal with
         | Hn : NewTask _ _ _ _ = Ok ?t |- _ =>
             pose proof (NewTask_fields _ _ _ _ _ Hn) as (_ & He & _);
             rewrite He in Haw; injection Haw as <-;
             match goal with
             | Hin : (_, ?g) ∈ actors _ |- _ =>
                 first
                   [ assert (Ho : offer_at s g
                                  = Do [Fresh] (GClient (CSubmitSend t)))
                       by (simpl; by rewrite Hn)
                   | assert (Ho : offer_at s g
                                  = Do [Fresh] (GClient (CWaitSend t)))
                       by (simpl; by rewrite Hn) ];
                 destruct (stepR_doer _ _ _ _ _ _ _ H Hin Ho) as [-> | ->]
             end
         end.
    all: try (simpl; rewrite Nat.eqb_refl; lia).
    all: simpl in Hi'; rewrite Hi in Hi'; discriminate Hi'.
Qed.


Lemma submitted_exec n callers tr s :
  Forall api_call callers -> exec (init n callers) tr s -> submitted_ok tr s.
Proof.
  intros Hc Hex. revert tr s Hex. apply exec_ind_r.
  - intros [|i] pc k Hi Haw; simpl in Hi; [done|].
    apply list_lookup_fmap_Some in Hi as (pc' & [= <-] & Hi).
    eapply Forall_lookup_1 in Hc; [|done]. by destruct pc.
  - intros tr s e s' Hex Hsub H Hex'. by eapply submitted_ok_step.
Qed.

(** X16: the outcome of a task submitted with a function and without
    timeout is not lost.  Once the caller has made the task, at every
    time exactly one of these holds: the task is held at one place and
    waits to be run, a worker is about to publish its outcome, the outcome
    is in the result channel, the outcome has been read from it. *)
Theorem result_is_never_lost n callers tr s j pc0 pc k :
  Forall api_call callers -> exec (init n callers) tr s ->
  callers !! j = Some pc0 -> no_timeout pc0 ->
  procs s !! S j = Some (GClient pc) -> awaited pc = Some (ErrCh k) ->
  (0 <= places k s)%Z /\ (0 <= pubs k s)%Z /\ (0 <= stored k s)%Z /\
  (0 <= reads k tr)%Z /\
  (places k s + pubs k s + stored k s + reads k tr = 1)%Z.
Proof.
  intros Hc Hex Hj Hno Hp Haw.
  destruct (once_exec _ _ _ _ Hc Hex) as (tbl & _ & _ & Hcs & Honce & _).
  pose proof (submitted_exec _ _ _ _ Hc Hex _ _ _ Hp Haw) as Hsub.
  split; [apply places_nonneg|]. split; [apply pubs_nonneg|].
  split; [apply stored_nonneg|]. split; [apply reads_nonneg|].
  rewrite <- Hsub. rewrite <- (Honce k); [lia|].
  destruct (Hcs _ _ Hj) as (pc1 & Hp' & Hst).
  rewrite Hp in Hp'. injection Hp' as <-.
  assert (exists fn timeout t,
    sent_for tbl fn timeout t /\ Err t = Some (ErrCh k) /\ (timeout <= 0)%Z)
    as (fn & timeout & t & (_ & _ & Hsup & k' & Hk' & Ht) & Hk & Hto).
  { destruct pc0 as [c fn timeout| | | |c fn timeout| | | | | | | | | | | | | | | | | | |];
      try done; destruct fn as [f|]; try done; simpl in Hno.
    all: destruct pc; simpl in Hst, Haw; try done.
    all: try (by exists (Some f), timeout, t).
    destruct Hst as [(t & Hs & ->) _]. by exists (Some f), timeout, t. }
  rewrite Hk in Hk'. injection Hk' as <-.
  intros t' Ht'. rewrite Ht in Ht'. injection Ht' as <-.
  destruct (cancel t) as [cf|] eqn:Hcf; [|done].
  assert (supervised t) as Hs%Hsup by (by exists cf). lia.
Qed.

Lemma result_is_never_lost_witness :
  let s := after served_until_second served_init in
  let tr := trace_of served_until_second served_init in
  (0 <= places 1 s)%Z /\ (0 <= pubs 1 s)%Z /\ (0 <= stored 1 s)%Z /\
  (0 <= reads 1 tr)%Z /\
  (places 1 s + pubs 1 s + stored 1 s + reads 1 tr = 1)%Z.
Proof.
  intros s tr.
  apply (result_is_never_lost 2 served_callers tr s 1
           (CSubmit (Some Background) failing_fn 0)
           (CHolding (Some (ErrCh 1)) [])).
  - repeat constructor.
  - apply exec_after. vm_compute. reflexivity.
  - reflexivity.
  - simpl. lia.
  - vm_compute. reflexivity.
  - reflexivity.
Defined.
